(** * Merkle tree builder and range verifier (ulib/merkle/tree.cpp)

    A shallow embedding of [merkle::Tree] and of the free functions of
    its translation unit, followed by the properties that the
    specification states about them.

    Conventions of the embedding:
    - [size_t] and [uint64_t] values are integers of [Z] in the range
      [0 .. 2^64); every addition, subtraction and multiplication of the
      source that can leave that range is followed by [wrap64];
    - memory is one flat byte-addressed store [Mem]; a pointer is an
      address of [Z] and [nullptr] is address [0];
    - [MX_DEBUG_ASSERT] is compiled out (release build);
    - the hash primitive behind [merkle::Digest] is a parameter [Hash] of
      the development; [SHA256] below instantiates it. *)

From Stdlib Require Import ZArith Lia List Bool.
From Stdlib Require Import Strings.Byte Strings.String.
From Equations Require Import Equations.
Import ListNotations.
Local Open Scope Z_scope.

(** ** Machine arithmetic *)

Definition wrap64 (x : Z) : Z := x mod 2 ^ 64.

Definition is_size_t (x : Z) : Prop := 0 <= x < 2 ^ 64.

(** Modelled from the spec: [Tree::kNodeSize] of merkle/tree.h, the fixed
    node size of 8192 bytes. *)
Definition kNodeSize : Z := 8192.

(** Modelled from the spec: [Digest::kLength] of merkle/digest.h, 32
    bytes. *)
Definition kLength : Z := 32.

Definition kDigestsPerNode : Z := kNodeSize / kLength.

(** Modelled from the spec: [mxtl::roundup] of mxtl/algorithm.h,
    ceiling-to-multiple computed in 64-bit unsigned arithmetic; the
    addition of [multiple - 1] is the step that can wrap. *)
Definition roundup (val multiple : Z) : Z :=
  (wrap64 (val + (multiple - 1)) / multiple) * multiple.

(** Modelled from the spec: [mxtl::min]. *)
Definition min (a b : Z) : Z := if a <? b then a else b.

(** ** Level geometry *)

Definition NextLength (length : Z) : Z :=
  if length >? kNodeSize
  then roundup length kNodeSize / kDigestsPerNode
  else 0.

Definition NextAligned (length : Z) : Z :=
  roundup (NextLength length) kNodeSize.

Lemma NextAligned_small length :
  length <= kNodeSize -> NextAligned length = 0.
Proof.
  intros Hle. unfold NextAligned, NextLength.
  destruct (Z.gtb_spec length kNodeSize); [lia|reflexivity].
Qed.

Lemma NextAligned_range length : 0 <= NextAligned length < 2 ^ 64.
Proof.
  unfold NextAligned, roundup, wrap64, kNodeSize.
  generalize (NextLength length); intros x.
  Z.div_mod_to_equations. lia.
Qed.

Lemma NextAligned_aligned length : NextAligned length mod kNodeSize = 0.
Proof.
  unfold NextAligned, roundup. apply Z.mod_mul. discriminate.
Qed.

(** The step that makes every ascent of the tree terminate. *)
Lemma NextAligned_decreases length :
  kNodeSize < length -> NextAligned length < length.
Proof.
  intros Hgt. unfold NextAligned, NextLength.
  destruct (Z.gtb_spec length kNodeSize); [|lia].
  unfold roundup, wrap64, kDigestsPerNode, kNodeSize, kLength in *.
  change (8192 / 32) with 256. change (8192 - 1) with 8191.
  Z.div_mod_to_equations. lia.
Qed.

Lemma NextAligned_nonzero_lt length :
  NextAligned length <> 0 ->
  (Z.to_nat (NextAligned length) < Z.to_nat length)%nat.
Proof.
  intros Hnz.
  destruct (Z_le_gt_dec length kNodeSize) as [Hle|Hgt].
  - now rewrite NextAligned_small in Hnz.
  - pose proof (NextAligned_range length).
    pose proof (NextAligned_decreases length). lia.
Qed.

(** Without wrap-around the two geometry functions are the usual
    ceilings. *)
Lemma roundup_exact val :
  0 <= val <= 2 ^ 64 - kNodeSize ->
  roundup val kNodeSize = (val + (kNodeSize - 1)) / kNodeSize * kNodeSize.
Proof.
  intros H. unfold roundup, wrap64. rewrite Z.mod_small; [reflexivity|].
  unfold kNodeSize in *. lia.
Qed.

(** ** Tree sizing *)

Equations GetTreeLength (data_len : Z) : Z by wf (Z.to_nat data_len) lt :=
  GetTreeLength data_len with Z.eq_dec (NextAligned data_len) 0 := {
    | left _ => 0
    | right _ =>
        wrap64 (NextAligned data_len + GetTreeLength (NextAligned data_len)) }.
Next Obligation. now apply NextAligned_nonzero_lt. Qed.

Lemma GetTreeLength_eq data_len :
  GetTreeLength data_len =
  let next_len := NextAligned data_len in
  if next_len =? 0 then 0 else wrap64 (next_len + GetTreeLength next_len).
Proof.
  cbv zeta. rewrite GetTreeLength_equation_1.
  destruct (Z.eq_dec (NextAligned data_len) 0) as [e|n]; cbn.
  - now rewrite e.
  - apply Z.eqb_neq in n. now rewrite n.
Qed.

(** ** Bytes, memory and pointers *)

Definition byte_of_Z (z : Z) : byte :=
  match Byte.of_N (Z.to_N (z mod 256)) with
  | Some b => b
  | None => x00
  end.

(** The object representation of an unsigned integer of [n] bytes on the
    little-endian targets of the kernel. *)
Fixpoint le_bytes (n : nat) (z : Z) : list byte :=
  match n with
  | O => []
  | S n' => byte_of_Z z :: le_bytes n' (z / 256)
  end.

Fixpoint bytes_eqb (a b : list byte) : bool :=
  match a, b with
  | [], [] => true
  | x :: a', y :: b' => Byte.eqb x y && bytes_eqb a' b'
  | _, _ => false
  end.

Definition Mem : Type := Z -> byte.

Definition nullptr : Z := 0.

Definition is_null (p : Z) : bool := p =? nullptr.

Fixpoint load_from (m : Mem) (p : Z) (n : nat) : list byte :=
  match n with
  | O => []
  | S n' => m p :: load_from m (p + 1) n'
  end.

(** [n] bytes read from address [p]. *)
Definition load (m : Mem) (p n : Z) : list byte := load_from m p (Z.to_nat n).

(** [memcpy] of the bytes [bs] to address [p]. *)
Definition store (m : Mem) (p : Z) (bs : list byte) : Mem :=
  fun a =>
    if (p <=? a) && (a <? p + Z.of_nat (List.length bs))
    then nth (Z.to_nat (a - p)) bs x00
    else m a.

Definition memset (m : Mem) (p : Z) (v : byte) (n : Z) : Mem :=
  fun a => if (p <=? a) && (a <? p + n) then v else m a.

(** ** Status codes *)

Inductive mx_status_t : Set :=
| NO_ERROR
| ERR_INVALID_ARGS
| ERR_OUT_OF_RANGE
| ERR_BUFFER_TOO_SMALL
| ERR_BAD_STATE
| ERR_NO_MEMORY
| ERR_IO_DATA_INTEGRITY.

Definition mx_status_eqb (a b : mx_status_t) : bool :=
  match a, b with
  | NO_ERROR, NO_ERROR
  | ERR_INVALID_ARGS, ERR_INVALID_ARGS
  | ERR_OUT_OF_RANGE, ERR_OUT_OF_RANGE
  | ERR_BUFFER_TOO_SMALL, ERR_BUFFER_TOO_SMALL
  | ERR_BAD_STATE, ERR_BAD_STATE
  | ERR_NO_MEMORY, ERR_NO_MEMORY
  | ERR_IO_DATA_INTEGRITY, ERR_IO_DATA_INTEGRITY => true
  | _, _ => false
  end.

(** What a call does: it returns a status, or it dereferences the null
    [next_] of a level whose allocation failed. *)
Inductive outcome : Set :=
| Ret (rc : mx_status_t)
| NullDeref.

Coercion Ret : mx_status_t >-> outcome.

Definition is_ok (o : outcome) : bool :=
  match o with
  | Ret NO_ERROR => true
  | _ => false
  end.

(** ** The digest object *)

(** Modelled from the spec: [merkle::Digest] of merkle/digest.h, an
    incremental hash with [Init], [Update] and [Final] and a stored value
    of [kLength] bytes.  [ctx_] is the input absorbed since the last
    [Init]; [bytes_] is the value left by the last [Final]. *)
Record Digest : Type := mkDigest {
  ctx_ : list byte;
  bytes_ : list byte
}.

Definition Digest_new : Digest :=
  mkDigest [] (repeat x00 (Z.to_nat kLength)).

Definition Digest_eqb (a b : Digest) : bool := bytes_eqb (bytes_ a) (bytes_ b).

(** ** The builder object *)

#[warnings="-register-all"]
Inductive Tree : Type := mkTree {
  initialized_ : bool;
  next_ : option Tree;
  level_ : Z;
  offset_ : Z;
  length_ : Z;
  digest_ : Digest
}.

(** [Tree::Tree()]. *)
Definition Tree_new : Tree := mkTree false None 0 0 0 Digest_new.

Definition set_initialized (t : Tree) (b : bool) : Tree :=
  mkTree b (next_ t) (level_ t) (offset_ t) (length_ t) (digest_ t).
Definition set_next (t : Tree) (n : option Tree) : Tree :=
  mkTree (initialized_ t) n (level_ t) (offset_ t) (length_ t) (digest_ t).
Definition set_level (t : Tree) (l : Z) : Tree :=
  mkTree (initialized_ t) (next_ t) l (offset_ t) (length_ t) (digest_ t).
Definition set_offset (t : Tree) (o : Z) : Tree :=
  mkTree (initialized_ t) (next_ t) (level_ t) o (length_ t) (digest_ t).
Definition set_length (t : Tree) (l : Z) : Tree :=
  mkTree (initialized_ t) (next_ t) (level_ t) (offset_ t) l (digest_ t).
Definition set_digest (t : Tree) (d : Digest) : Tree :=
  mkTree (initialized_ t) (next_ t) (level_ t) (offset_ t) (length_ t) d.

(** Number of [next_] links above a level. *)
Fixpoint height (t : Tree) : nat :=
  match t with
  | mkTree _ None _ _ _ _ => O
  | mkTree _ (Some n) _ _ _ _ => S (height n)
  end.

(** [Tree::CreateInit].  [heap] is the number of [Tree] objects that the
    allocator can still hand out: [new (&ac) Tree()] fails when it is
    zero. *)
Fixpoint CreateInit (heap : nat) (t : Tree) (data_len tree_len : Z)
  {struct heap} : mx_status_t * Tree :=
  let t := set_length (set_offset (set_initialized t true) 0) data_len in
  if data_len <=? kNodeSize then (NO_ERROR, t)
  else
    match heap with
    | O => (ERR_NO_MEMORY, set_next t None)
    | S heap' =>
        let n := set_level Tree_new (wrap64 (level_ t + 1)) in
        let data_len := NextAligned data_len in
        if tree_len <? data_len
        then (ERR_BUFFER_TOO_SMALL, set_next t (Some n))
        else
          let tree_len := tree_len - data_len in
          let '(rc, n') := CreateInit heap' n data_len tree_len in
          (rc, set_next t (Some n'))
    end.

Section WithHash.

(** The hash primitive behind [Digest::Final]. *)
Variable Hash : list byte -> list byte.

Definition Digest_Init (d : Digest) : Digest := mkDigest [] (bytes_ d).
Definition Digest_Update (d : Digest) (data : list byte) : Digest :=
  mkDigest (ctx_ d ++ data) (bytes_ d).
Definition Digest_Final (d : Digest) : Digest :=
  mkDigest (ctx_ d) (Hash (ctx_ d)).

(** *** Digest wrapper functions *)

Definition DigestInit (digest : Digest) (locality length : Z) : Digest :=
  let digest := Digest_Init digest in
  let digest := Digest_Update digest (le_bytes 8 locality) in
  let len32 := min length kNodeSize mod 2 ^ 32 in
  Digest_Update digest (le_bytes 4 len32).

Definition DigestUpdate (digest : Digest) (m : Mem) (in_ offset length : Z)
  : Digest * Z :=
  let length := min length (kNodeSize - offset mod kNodeSize) in
  (Digest_Update digest (load m in_ length), length).

Definition DigestFinal (digest : Digest) (offset : Z) : Digest :=
  let offset := offset mod kNodeSize in
  let digest :=
    if negb (offset =? 0)
    then
      let pad_len := kNodeSize - offset in
      Digest_Update digest (repeat x00 (Z.to_nat pad_len))
    else digest in
  Digest_Final digest.

(** *** Creation methods *)

(** The locals of [Tree::CreateUpdate] while its loop runs, together with
    the object and the memory that the loop changes. *)
Record Frame : Type := mkFrame {
  f_this : Tree;
  f_mem : Mem;
  f_in : Z;
  f_length : Z;
  f_out : Z;
  f_tree_off : Z;
  f_rc : outcome
}.

Definition UpdateFn : Type := Tree -> Mem -> Z -> Z -> Z -> outcome * Tree * Mem.

(** One pass through the body of the [while] loop of
    [Tree::CreateUpdate]; the boolean is [false] when the pass leaves the
    loop by [break].  [next_update] is [next_->CreateUpdate]. *)
Definition CreateUpdate_iter (next_update : UpdateFn) (next : Z) (f : Frame)
  : Frame * bool :=
  let t := f_this f in
  let digest :=
    if offset_ t mod kNodeSize =? 0
    then DigestInit (digest_ t) (Z.lor (offset_ t) (level_ t))
                    (wrap64 (length_ t - offset_ t))
    else digest_ t in
  let '(digest, chunk) := DigestUpdate digest (f_mem f) (f_in f) (offset_ t) (f_length f) in
  let in_ := f_in f + chunk in
  let offset := wrap64 (offset_ t + chunk) in
  let length := f_length f - chunk in
  let t := set_offset (set_digest t digest) offset in
  if negb (offset mod kNodeSize =? 0) && negb (offset =? length_ t)
  then (mkFrame t (f_mem f) in_ length (f_out f) (f_tree_off f) (f_rc f), false)
  else
    let t := set_digest t (DigestFinal digest offset) in
    if length_ t <=? kNodeSize
    then (mkFrame t (f_mem f) in_ length (f_out f) (f_tree_off f) (f_rc f), false)
    else
      let m :=
        if f_tree_off f mod kNodeSize =? 0
        then memset (f_mem f) (f_out f) x00 kNodeSize
        else f_mem f in
      let m := store m (f_out f) (firstn (Z.to_nat kLength) (bytes_ (digest_ t))) in
      match next_ t with
      | None =>
          (mkFrame t m in_ length (f_out f) (f_tree_off f) NullDeref, false)
      | Some n =>
          let '(rc, n', m') := next_update n m (f_out f) kLength next in
          (mkFrame (set_next t (Some n')) m' in_ length
                   (f_out f + kLength) (wrap64 (f_tree_off f + kLength)) rc,
           true)
      end.

Fixpoint CreateUpdate_loop (next_update : UpdateFn) (next : Z) (fuel : nat)
  (f : Frame) : Frame :=
  match fuel with
  | O => f
  | S fuel' =>
      if (f_length f >? 0) && is_ok (f_rc f)
      then
        let '(f', continue) := CreateUpdate_iter next_update next f in
        if continue then CreateUpdate_loop next_update next fuel' f' else f'
      else f
  end.

(** The body of [Tree::CreateUpdate], with the method it calls on
    [next_] taken as a parameter.  Every pass of the loop consumes at least
    one byte, so [Z.to_nat length] passes are enough. *)
Definition CreateUpdate_body (next_update : UpdateFn)
  (t : Tree) (m : Mem) (data length tree : Z) : outcome * Tree * Mem :=
  if negb (initialized_ t) then (Ret ERR_BAD_STATE, t, m)
  else if length =? 0 then (Ret NO_ERROR, t, m)
  else if wrap64 (offset_ t + length) >? length_ t then (Ret ERR_OUT_OF_RANGE, t, m)
  else if is_null data || (is_null tree && (length_ t >? kNodeSize))
  then (Ret ERR_INVALID_ARGS, t, m)
  else
    let tree_off := (offset_ t - offset_ t mod kNodeSize) / kDigestsPerNode in
    let out := tree + tree_off in
    let next := tree + NextAligned (length_ t) in
    let f := CreateUpdate_loop next_update next (Z.to_nat length)
               (mkFrame t m data length out tree_off NO_ERROR) in
    (f_rc f, f_this f, f_mem f).

(** [CreateUpdate_rec d] is [Tree::CreateUpdate] on a chain with at most
    [d] links above the receiver. *)
Fixpoint CreateUpdate_rec (depth : nat) : UpdateFn :=
  CreateUpdate_body
    match depth with
    | O => fun t m _ _ _ => (NullDeref, t, m)
    | S depth' => CreateUpdate_rec depth'
    end.

Definition CreateUpdate (t : Tree) (m : Mem) (data length tree : Z)
  : outcome * Tree * Mem :=
  CreateUpdate_rec (height t) t m data length tree.

Definition FinalFn : Type :=
  Tree -> Mem -> Z -> Z -> option Digest -> outcome * Tree * Mem * option Digest.

(** The body of [Tree::CreateFinalInternal]; [root] is [None] for a null
    pointer and otherwise the digest object it points to. *)
Definition CreateFinalInternal_body (next_final : FinalFn)
  (t : Tree) (m : Mem) (data tree : Z) (root : option Digest)
  : outcome * Tree * Mem * option Digest :=
  if negb (initialized_ t) || ((level_ t =? 0) && negb (offset_ t =? length_ t))
  then (Ret ERR_BAD_STATE, t, m, root)
  else if match root with None => true | Some _ => false end
          || (is_null tree && (length_ t >? kNodeSize))
  then (Ret ERR_INVALID_ARGS, t, m, root)
  else
    let t :=
      if length_ t =? 0
      then set_digest t (DigestFinal (DigestInit (digest_ t) 0 0) 0)
      else t in
    let tail := data + offset_ t in
    match CreateUpdate t m tail (wrap64 (length_ t - offset_ t)) tree with
    | (Ret NO_ERROR, t, m) =>
        let t := set_initialized t false in
        if length_ t <=? kNodeSize
        then (Ret NO_ERROR, t, m, Some (digest_ t))
        else
          let next := tree + NextAligned (length_ t) in
          match next_ t with
          | None => (NullDeref, t, m, root)
          | Some n =>
              let '(rc, n', m', root') := next_final n m tree next root in
              (rc, set_next t (Some n'), m', root')
          end
    | (rc, t, m) => (rc, t, m, root)
    end.

Fixpoint CreateFinalInternal_rec (depth : nat) : FinalFn :=
  CreateFinalInternal_body
    match depth with
    | O => fun t m _ _ root => (NullDeref, t, m, root)
    | S depth' => CreateFinalInternal_rec depth'
    end.

Definition CreateFinalInternal (t : Tree) (m : Mem) (data tree : Z)
  (root : option Digest) : outcome * Tree * Mem * option Digest :=
  CreateFinalInternal_rec (height t) t m data tree root.

Definition CreateFinal (t : Tree) (m : Mem) (tree : Z) (root : option Digest)
  : outcome * Tree * Mem * option Digest :=
  CreateFinalInternal t m nullptr tree root.

(** [Tree::Create]. *)
Definition Create (heap : nat) (m : Mem) (data data_len tree tree_len : Z)
  (digest : option Digest) : outcome * Mem * option Digest :=
  let mt := Tree_new in
  match CreateInit heap mt data_len tree_len with
  | (NO_ERROR, mt) =>
      match CreateUpdate mt m data data_len tree with
      | (Ret NO_ERROR, mt, m) =>
          let '(rc, _, m, digest) := CreateFinal mt m tree digest in
          (rc, m, digest)
      | (rc, _, m) => (rc, m, digest)
      end
  | (rc, _) => (Ret rc, m, digest)
  end.

(** *** Verification methods *)

(** The digest that [Tree::VerifyRoot] computes into [actual]. *)
Definition VerifyRoot_actual (m : Mem) (data root_len level : Z) : Digest :=
  let actual := Digest_new in
  let actual := DigestInit actual level (if root_len =? 0 then 0 else kNodeSize) in
  let '(actual, _) := DigestUpdate actual m data 0 root_len in
  DigestFinal actual root_len.

Definition VerifyRoot (m : Mem) (data root_len level : Z) (expected : Digest)
  : mx_status_t :=
  if (is_null data && negb (root_len =? 0)) || (root_len >? kNodeSize)
  then ERR_INVALID_ARGS
  else
    if Digest_eqb (VerifyRoot_actual m data root_len level) expected
    then NO_ERROR
    else ERR_IO_DATA_INTEGRITY.

(** The digest that one pass of the loop of [Tree::VerifyLevel] computes
    into [actual], with the number of bytes it hashed. *)
Definition VerifyLevel_actual (m : Mem) (in_ data_len offset length level : Z)
  : Digest * Z :=
  let actual := DigestInit Digest_new (Z.lor offset level) (wrap64 (data_len - offset)) in
  let '(actual, chunk) := DigestUpdate actual m in_ offset length in
  (DigestFinal actual (wrap64 (offset + chunk)), chunk).

Fixpoint VerifyLevel_loop (fuel : nat) (m : Mem)
  (in_ data_len offset length level expected : Z) : mx_status_t :=
  match fuel with
  | O => NO_ERROR
  | S fuel' =>
      if length >? 0
      then
        let '(actual, chunk) := VerifyLevel_actual m in_ data_len offset length level in
        if negb (bytes_eqb (bytes_ actual) (load m expected kLength))
        then ERR_IO_DATA_INTEGRITY
        else VerifyLevel_loop fuel' m (in_ + chunk) data_len
               (wrap64 (offset + chunk)) (length - chunk) level (expected + kLength)
      else NO_ERROR
  end.

(** [Tree::VerifyLevel]; every pass of its loop hashes at least one
    byte. *)
Definition VerifyLevel (m : Mem) (data data_len tree offset length level : Z)
  : mx_status_t :=
  if is_null data || (data_len <=? kNodeSize) || is_null tree
  then ERR_INVALID_ARGS
  else if wrap64 (offset + length) >? data_len then ERR_OUT_OF_RANGE
  else
    let offset := offset - offset mod kNodeSize in
    let length := wrap64 (roundup (wrap64 (offset + length)) kNodeSize - offset) in
    let in_ := data + offset in
    let expected := tree + offset / kDigestsPerNode in
    VerifyLevel_loop (Z.to_nat length) m in_ data_len offset length level expected.

(** The loop of [Tree::Verify] and the call of [VerifyRoot] that follows
    it. *)
Equations Verify_loop (m : Mem)
  (data data_len tree tree_len offset length : Z) (root : Digest)
  (level root_len : Z) : mx_status_t by wf (Z.to_nat data_len) lt :=
  Verify_loop m data data_len tree tree_len offset length root level root_len
    with Z_gt_dec data_len kNodeSize := {
    | left _ =>
        match VerifyLevel m data data_len tree offset length level with
        | NO_ERROR =>
            if tree_len <? NextAligned data_len
            then ERR_BUFFER_TOO_SMALL
            else
              Verify_loop m tree (NextAligned data_len)
                (tree + NextAligned data_len)
                (tree_len - NextAligned data_len)
                (offset / kDigestsPerNode) (length / kDigestsPerNode) root
                (wrap64 (level + 1)) (NextLength data_len)
        | rc => rc
        end
    | right _ => VerifyRoot m data root_len level root }.
Next Obligation.
  pose proof (NextAligned_range data_len).
  pose proof (NextAligned_decreases data_len). lia.
Qed.

Definition Verify (m : Mem) (data data_len tree tree_len offset length : Z)
  (root : Digest) : mx_status_t :=
  Verify_loop m data data_len tree tree_len offset length root 0 data_len.

End WithHash.

(** ** The SHA-256 instance of the hash primitive *)

(** Modelled from the spec: the digest primitive is SHA-256 (FIPS 180-4).
    Its round constants are the leading fraction bits of the cube roots of
    the first sixty-four primes, and its initial state those of the square
    roots of the first eight; both tables are computed here. *)
Module SHA256.

(** Reduction modulo [2 ^ 32] of a non-negative integer. *)
Definition w32 (x : Z) : Z := Z.land x 4294967295.

Definition is_prime (n : Z) : bool :=
  forallb (fun d => negb (n mod Z.of_nat d =? 0)) (seq 2 (Z.to_nat (Z.sqrt n) - 1)).

Definition primes : list Z :=
  Eval vm_compute in
    firstn 64 (filter is_prime (map Z.of_nat (seq 2 400))).

(** Largest [r] below [2 ^ n] above [acc] with [r ^ 3 <= x]. *)
Fixpoint cube_root (n : nat) (x acc : Z) : Z :=
  match n with
  | O => acc
  | S n' =>
      let c := acc + 2 ^ Z.of_nat n' in
      if c * c * c <=? x then cube_root n' x c else cube_root n' x acc
  end.

Definition round_constants : list Z :=
  Eval vm_compute in map (fun p => w32 (cube_root 40 (p * 2 ^ 96) 0)) primes.

Definition initial_state : list Z :=
  Eval vm_compute in map (fun p => w32 (Z.sqrt (p * 2 ^ 64))) (firstn 8 primes).

Definition rotr (n x : Z) : Z :=
  Z.lor (Z.shiftr x n) (w32 (Z.shiftl x (32 - n))).

Definition big_sigma0 x := Z.lxor (rotr 2 x) (Z.lxor (rotr 13 x) (rotr 22 x)).
Definition big_sigma1 x := Z.lxor (rotr 6 x) (Z.lxor (rotr 11 x) (rotr 25 x)).
Definition small_sigma0 x := Z.lxor (rotr 7 x) (Z.lxor (rotr 18 x) (Z.shiftr x 3)).
Definition small_sigma1 x := Z.lxor (rotr 17 x) (Z.lxor (rotr 19 x) (Z.shiftr x 10)).
Definition choose x y z := Z.lxor (Z.land x y) (Z.land (Z.lxor x 4294967295) z).
Definition majority x y z := Z.lxor (Z.land x y) (Z.lxor (Z.land x z) (Z.land y z)).

Definition word_at (ws : list Z) (i : nat) : Z := nth i ws 0.

(** One round: [ws] is the window of the sixteen schedule words that
    start at the current round. *)
Definition round (st ws : list Z) (k : Z) : list Z * list Z :=
  let a := word_at st 0 in let b := word_at st 1 in
  let c := word_at st 2 in let d := word_at st 3 in
  let e := word_at st 4 in let f := word_at st 5 in
  let g := word_at st 6 in let h := word_at st 7 in
  let t1 := h + big_sigma1 e + choose e f g + k + word_at ws 0 in
  let t2 := big_sigma0 a + majority a b c in
  let w16 := w32 (small_sigma1 (word_at ws 14) + word_at ws 9
                  + small_sigma0 (word_at ws 1) + word_at ws 0) in
  ([w32 (t1 + t2); a; b; c; w32 (d + t1); e; f; g], tl ws ++ [w16]).

Fixpoint rounds (ks : list Z) (st ws : list Z) : list Z :=
  match ks with
  | [] => st
  | k :: ks' => let '(st', ws') := round st ws k in rounds ks' st' ws'
  end.

Definition compress (st block : list Z) : list Z :=
  map (fun p => w32 (fst p + snd p)) (combine st (rounds round_constants st block)).

Fixpoint be_word (bs : list Z) (acc : Z) : Z :=
  match bs with
  | [] => acc
  | b :: bs' => be_word bs' (acc * 256 + b)
  end.

(** Big-endian words of four bytes each. *)
Fixpoint words (n : nat) (bs : list Z) : list Z :=
  match n with
  | O => []
  | S n' => be_word (firstn 4 bs) 0 :: words n' (skipn 4 bs)
  end.

Fixpoint blocks (n : nat) (st bs : list Z) : list Z :=
  match n with
  | O => st
  | S n' => blocks n' (compress st (words 16 (firstn 64 bs))) (skipn 64 bs)
  end.

Fixpoint be_bytes (n : nat) (z : Z) : list Z :=
  match n with
  | O => []
  | S n' => be_bytes n' (z / 256) ++ [z mod 256]
  end.

Definition pad (len : Z) : list Z :=
  128 :: repeat 0 (Z.to_nat ((55 - len) mod 64)) ++ be_bytes 8 (8 * len).

Definition hash (msg : list byte) : list byte :=
  let len := Z.of_nat (List.length msg) in
  let bs := map (fun b => Z.of_N (Byte.to_N b)) msg ++ pad len in
  let st := blocks (Z.to_nat ((len + 8) / 64 + 1)) initial_state bs in
  map byte_of_Z (flat_map (be_bytes 4) st).

End SHA256.

(** Hexadecimal rendering of a digest, as [Digest::ToString] prints it. *)
Definition hex_digit (z : Z) : byte :=
  byte_of_Z (if z <? 10 then 48 + z else 87 + z).

Definition to_hex (bs : list byte) : list byte :=
  flat_map (fun b => let z := Z.of_N (Byte.to_N b) in
                     [hex_digit (z / 16); hex_digit (z mod 16)]) bs.

(** * Properties *)

(** The large definitions are unfolded by name only. *)
Arguments wrap64 : simpl never.
Arguments NextLength : simpl never.
Arguments NextAligned : simpl never.
Arguments load : simpl never.
Arguments store : simpl never.
Arguments memset : simpl never.
Arguments DigestInit : simpl never.
Arguments DigestUpdate : simpl never.
Arguments DigestFinal : simpl never.
Arguments CreateUpdate_iter : simpl never.
Arguments CreateUpdate_body : simpl never.
Arguments CreateFinalInternal_body : simpl never.
Arguments VerifyLevel_actual : simpl never.
Arguments VerifyRoot_actual : simpl never.
Arguments VerifyLevel : simpl never.
Arguments VerifyRoot : simpl never.
Arguments SHA256.hash : simpl never.

(** ** Level geometry and tree sizing *)

Lemma kNodeSize_val : kNodeSize = 8192.
Proof. reflexivity. Qed.

Lemma kDigestsPerNode_val : kDigestsPerNode = 256.
Proof. reflexivity. Qed.

Lemma kLength_val : kLength = 32.
Proof. reflexivity. Qed.

(** Linear arithmetic that knows the three constants. *)
Ltac klia :=
  pose proof kNodeSize_val; pose proof kDigestsPerNode_val;
  pose proof kLength_val; lia.

Ltac geometry :=
  unfold NextAligned, NextLength, roundup, wrap64, kDigestsPerNode,
    kNodeSize, kLength in *;
  repeat match goal with
         | |- context [?a >? ?b] => destruct (Z.gtb_spec a b)
         | H : context [?a >? ?b] |- _ => destruct (Z.gtb_spec a b)
         end;
  change (8192 / 32) with 256 in *; change (8192 - 1) with 8191 in *;
  Z.div_mod_to_equations; lia.

Lemma NextAligned_positive length :
  kNodeSize < length <= 2 ^ 64 - kNodeSize -> kNodeSize <= NextAligned length.
Proof. intros H. geometry. Qed.

(** A level that fits in [256 * B] bytes has at most [B] bytes of digests,
    for a node-aligned [B]. *)
Lemma NextAligned_le length B :
  B mod kNodeSize = 0 -> 0 <= length <= 256 * B -> length < 2 ^ 64 ->
  NextAligned length <= B.
Proof. intros HB Hl Hlt. geometry. Qed.

(** The number of [Tree] objects above level 0 that [CreateInit] chains
    for a blob of [data_len] bytes. *)
Equations levels_above (data_len : Z) : nat by wf (Z.to_nat data_len) lt :=
  levels_above data_len with Z_gt_dec data_len kNodeSize := {
    | left _ => S (levels_above (NextAligned data_len))
    | right _ => O }.
Next Obligation.
  pose proof (NextAligned_range data_len).
  pose proof (NextAligned_decreases data_len). lia.
Qed.

Lemma levels_above_small data_len :
  data_len <= kNodeSize -> levels_above data_len = O.
Proof.
  intros H. rewrite levels_above_equation_1.
  destruct (Z_gt_dec data_len kNodeSize); [lia|reflexivity].
Qed.

Lemma levels_above_step data_len :
  kNodeSize < data_len ->
  levels_above data_len = S (levels_above (NextAligned data_len)).
Proof.
  intros H. rewrite levels_above_equation_1.
  destruct (Z_gt_dec data_len kNodeSize); [reflexivity|lia].
Qed.

Lemma levels_above_le (k : nat) : forall data_len,
  0 <= data_len <= kNodeSize * 256 ^ Z.of_nat k -> data_len < 2 ^ 64 ->
  (levels_above data_len <= k)%nat.
Proof.
  induction k as [|k IH]; intros data_len Hb Hlt.
  - rewrite levels_above_small; [lia|].
    change (kNodeSize * 256 ^ Z.of_nat 0) with kNodeSize in Hb. lia.
  - destruct (Z_le_gt_dec data_len kNodeSize) as [Hs|Hg].
    + rewrite levels_above_small; [lia|assumption].
    + rewrite levels_above_step by lia. apply le_n_S, IH.
      * split; [apply NextAligned_range|].
        apply NextAligned_le;
          [rewrite Z.mul_comm; apply Z.mod_mul; discriminate| |assumption].
        rewrite Nat2Z.inj_succ, Z.pow_succ_r in Hb by lia.
        unfold kNodeSize in *. lia.
      * pose proof (NextAligned_decreases data_len). lia.
Qed.

Lemma levels_above_bound data_len :
  0 <= data_len < 2 ^ 64 -> (levels_above data_len <= 7)%nat.
Proof.
  intros H. apply levels_above_le; [|lia].
  change (kNodeSize * 256 ^ Z.of_nat 7) with (2 ^ 69). lia.
Qed.

Lemma iter_NextAligned_zero (n : nat) :
  Nat.iter n NextAligned 0 = 0.
Proof.
  induction n as [|n IH]; [reflexivity|].
  rewrite Nat.iter_succ, IH. reflexivity.
Qed.

Lemma iter_NextAligned_levels data_len :
  0 <= data_len <= 2 ^ 64 - kNodeSize ->
  forall n, (levels_above data_len < n)%nat ->
  Nat.iter n NextAligned data_len = 0.
Proof.
  intros Hr n. revert data_len Hr.
  induction n as [|n IH]; intros data_len Hr Hn; [lia|].
  rewrite Nat.iter_succ_r.
  destruct (Z_le_gt_dec data_len kNodeSize) as [Hs|Hg].
  - rewrite NextAligned_small by assumption. apply iter_NextAligned_zero.
  - rewrite levels_above_step in Hn by lia.
    apply IH; [|lia].
    pose proof (NextAligned_range data_len).
    pose proof (NextAligned_decreases data_len). lia.
Qed.

Lemma CreateInit_enough_heap (heap : nat) : forall t data_len tree_len,
  (levels_above data_len <= heap)%nat ->
  fst (CreateInit heap t data_len tree_len) <> ERR_NO_MEMORY.
Proof.
  induction heap as [|heap IH]; intros t data_len tree_len Hl; cbn.
  - destruct (Z.leb_spec data_len kNodeSize); [discriminate|].
    rewrite levels_above_step in Hl by lia. lia.
  - destruct (Z.leb_spec data_len kNodeSize); [discriminate|].
    destruct (Z.ltb_spec tree_len (NextAligned data_len)); [discriminate|].
    rewrite levels_above_step in Hl by lia.
    match goal with |- context [CreateInit heap ?n ?d ?l] =>
      specialize (IH n d l); destruct (CreateInit heap n d l) as [rc n'] end.
    cbn in *. apply IH. lia.
Qed.

Lemma GetTreeLength_small data_len :
  data_len <= kNodeSize -> GetTreeLength data_len = 0.
Proof.
  intros H. rewrite GetTreeLength_eq. cbv zeta.
  now rewrite NextAligned_small.
Qed.

Lemma GetTreeLength_bound : forall data_len,
  0 <= data_len < 2 ^ 64 -> 0 <= GetTreeLength data_len <= data_len.
Proof.
  intros data_len.
  induction data_len as [data_len IH]
    using (well_founded_induction (Z.lt_wf 0)).
  intros Hr. rewrite GetTreeLength_eq. cbv zeta.
  destruct (Z.eqb_spec (NextAligned data_len) 0) as [|Hnz]; [lia|].
  assert (Hg : kNodeSize < data_len).
  { destruct (Z_le_gt_dec data_len kNodeSize); [|lia].
    now rewrite NextAligned_small in Hnz. }
  pose proof (NextAligned_range data_len) as Ha.
  pose proof (NextAligned_decreases data_len Hg) as Hd.
  pose proof (NextAligned_aligned data_len) as Hal.
  assert (Hsub : 0 <= GetTreeLength (NextAligned data_len) <= NextAligned data_len).
  { apply IH; lia. }
  destruct (Z_le_gt_dec (NextAligned data_len) kNodeSize) as [Hs|Hb].
  - rewrite (GetTreeLength_small _ Hs), Z.add_0_r.
    unfold wrap64. rewrite Z.mod_small; lia.
  - assert (2 * NextAligned data_len <= data_len).
    { clear IH Hsub Hd Ha. geometry. }
    unfold wrap64. rewrite Z.mod_small; lia.
Qed.

Lemma GetTreeLength_sum_bound data_len :
  0 <= data_len < 2 ^ 64 -> kNodeSize < data_len ->
  0 <= NextAligned data_len + GetTreeLength (NextAligned data_len) <= data_len.
Proof.
  intros Hr Hg.
  pose proof (NextAligned_range data_len) as Ha.
  pose proof (NextAligned_decreases data_len Hg) as Hd.
  pose proof (NextAligned_aligned data_len) as Hal.
  pose proof (GetTreeLength_bound (NextAligned data_len) Ha) as Hb.
  destruct (Z_le_gt_dec (NextAligned data_len) kNodeSize) as [Hs|Hbig].
  - rewrite (GetTreeLength_small _ Hs) in *. lia.
  - assert (2 * NextAligned data_len <= data_len); [|lia].
    clear Hb Hd Ha. geometry.
Qed.

(** The sizing rule in the words of the specification: [roundup] is the
    exact ceiling to a multiple, and the tree holds one node-aligned digest
    array per level above the data. *)
Module Spec.

Definition roundup (x m : Z) : Z := (x + (m - 1)) / m * m.

Definition next_len (x : Z) : Z :=
  if x >? kNodeSize then roundup x kNodeSize / kDigestsPerNode else 0.

(** [A prev] is the size of the digest array of the level above a level of
    [prev] bytes. *)
Definition A (prev : Z) : Z := roundup (next_len prev) kNodeSize.

Lemma A_decreases x : A x <> 0 -> (Z.to_nat (A x) < Z.to_nat x)%nat.
Proof.
  unfold A, next_len, roundup, kDigestsPerNode, kNodeSize, kLength.
  destruct (Z.gtb_spec x 8192); intros Hnz; [|contradiction Hnz; reflexivity].
  change (8192 / 32) with 256 in *. change (8192 - 1) with 8191 in *.
  apply Z2Nat.inj_lt; Z.div_mod_to_equations; lia.
Qed.

Equations level_sizes (data_len : Z) : list Z by wf (Z.to_nat data_len) lt :=
  level_sizes data_len with Z.eq_dec (A data_len) 0 := {
    | left _ => []
    | right _ => A data_len :: level_sizes (A data_len) }.
Next Obligation. now apply A_decreases. Qed.

Lemma level_sizes_eq data_len :
  level_sizes data_len =
  if A data_len =? 0 then [] else A data_len :: level_sizes (A data_len).
Proof.
  rewrite level_sizes_equation_1.
  destruct (Z.eq_dec (A data_len) 0) as [e|n]; cbn.
  - now rewrite e.
  - apply Z.eqb_neq in n. now rewrite n.
Qed.

Definition tree_length (data_len : Z) : Z :=
  fold_right Z.add 0 (level_sizes data_len).

End Spec.

Lemma NextAligned_spec length :
  0 <= length <= 2 ^ 64 - kNodeSize -> NextAligned length = Spec.A length.
Proof.
  intros H. unfold Spec.A, Spec.next_len, Spec.roundup.
  unfold NextAligned, NextLength, roundup, wrap64.
  destruct (Z.gtb_spec length kNodeSize).
  - rewrite (Z.mod_small (length + _)) by (unfold kNodeSize in *; lia).
    rewrite Z.mod_small; [reflexivity|].
    unfold kDigestsPerNode, kNodeSize, kLength in *.
    change (8192 / 32) with 256. Z.div_mod_to_equations. lia.
  - reflexivity.
Qed.

Lemma GetTreeLength_spec : forall data_len,
  0 <= data_len <= 2 ^ 64 - kNodeSize ->
  GetTreeLength data_len = Spec.tree_length data_len.
Proof.
  intros data_len.
  induction data_len as [data_len IH]
    using (well_founded_induction (Z.lt_wf 0)).
  intros Hr. unfold Spec.tree_length.
  rewrite GetTreeLength_eq, Spec.level_sizes_eq. cbv zeta.
  rewrite <- (NextAligned_spec data_len Hr).
  destruct (Z.eqb_spec (NextAligned data_len) 0) as [e|Hnz]; cbn [fold_right].
  - reflexivity.
  - assert (Hg : kNodeSize < data_len).
    { destruct (Z_le_gt_dec data_len kNodeSize); [|lia].
      now rewrite NextAligned_small in Hnz. }
    pose proof (NextAligned_range data_len) as Ha.
    pose proof (NextAligned_decreases data_len Hg) as Hd.
    assert (Hin : 0 <= NextAligned data_len <= 2 ^ 64 - kNodeSize) by lia.
    pose proof (GetTreeLength_sum_bound data_len ltac:(klia) Hg) as Hb.
    unfold wrap64. rewrite Z.mod_small by klia.
    f_equal. apply IH; [lia|assumption].
Qed.

Lemma GetTreeLength_zero_iff data_len :
  0 <= data_len <= 2 ^ 64 - kNodeSize ->
  GetTreeLength data_len = 0 <-> data_len <= kNodeSize.
Proof.
  intros Hr. split; [|apply GetTreeLength_small].
  intros Hz. destruct (Z_le_gt_dec data_len kNodeSize) as [|Hg]; [assumption|].
  exfalso. rewrite GetTreeLength_eq in Hz. cbv zeta in Hz.
  assert (Hp : kNodeSize <= NextAligned data_len)
    by (apply NextAligned_positive; lia).
  destruct (Z.eqb_spec (NextAligned data_len) 0); [klia|].
  pose proof (NextAligned_range data_len) as Ha.
  pose proof (GetTreeLength_bound (NextAligned data_len) Ha) as Hb.
  pose proof (GetTreeLength_sum_bound data_len ltac:(klia) ltac:(lia)) as Hs.
  unfold wrap64 in Hz. rewrite Z.mod_small in Hz; klia.
Qed.

Lemma GetTreeLength_two_digest_nodes :
  GetTreeLength (kNodeSize * kDigestsPerNode + 1) = 3 * kNodeSize.
Proof.
  rewrite GetTreeLength_eq. cbv zeta.
  change (NextAligned (kNodeSize * kDigestsPerNode + 1)) with 16384.
  rewrite (GetTreeLength_eq 16384). cbv zeta.
  change (NextAligned 16384) with 8192.
  rewrite (GetTreeLength_small 8192) by (unfold kNodeSize; lia).
  reflexivity.
Qed.

(** ** Basic facts about bytes and digests *)

Lemma bytes_eqb_refl (a : list byte) : bytes_eqb a a = true.
Proof.
  induction a as [|x a IH]; [reflexivity|].
  cbn. rewrite IH, andb_true_r. now apply Byte.byte_dec_lb.
Qed.

Lemma bytes_eqb_eq (a b : list byte) : bytes_eqb a b = true <-> a = b.
Proof.
  split; [|intros ->; apply bytes_eqb_refl].
  revert b. induction a as [|x a IH]; intros [|y b]; cbn; try discriminate.
  - reflexivity.
  - intros H. apply andb_prop in H as [Hx Hab].
    apply Byte.byte_dec_bl in Hx. now rewrite Hx, (IH b Hab).
Qed.

Lemma Digest_eqb_refl (d : Digest) : Digest_eqb d d = true.
Proof. apply bytes_eqb_refl. Qed.

Lemma load_zero (m : Mem) (p : Z) : load m p 0 = [].
Proof. reflexivity. Qed.

Lemma load_from_length (m : Mem) (n : nat) : forall p,
  List.length (load_from m p n) = n.
Proof. induction n as [|n IH]; intros p; cbn; [reflexivity|now rewrite IH]. Qed.

Lemma load_length (m : Mem) (p n : Z) : List.length (load m p n) = Z.to_nat n.
Proof. apply load_from_length. Qed.

Lemma load_from_ext (m1 m2 : Mem) (n : nat) : forall p,
  (forall a, p <= a < p + Z.of_nat n -> m1 a = m2 a) ->
  load_from m1 p n = load_from m2 p n.
Proof.
  induction n as [|n IH]; intros p H; [reflexivity|].
  cbn [load_from]. rewrite (H p) by lia. f_equal.
  apply IH. intros a Ha. apply H. lia.
Qed.

(** Two memories that agree on [[p, p + n)] give the same bytes. *)
Lemma load_ext (m1 m2 : Mem) (p n : Z) :
  (forall a, p <= a < p + n -> m1 a = m2 a) -> load m1 p n = load m2 p n.
Proof.
  intros H. apply load_from_ext. intros a Ha. apply H. lia.
Qed.

Lemma load_from_app (m : Mem) (a b : nat) : forall p,
  load_from m p (a + b) = load_from m p a ++ load_from m (p + Z.of_nat a) b.
Proof.
  induction a as [|a IH]; intros p.
  - cbn. now rewrite Z.add_0_r.
  - cbn [Nat.add load_from app]. rewrite IH. do 3 f_equal. lia.
Qed.

Lemma load_app (m : Mem) (p a b : Z) :
  0 <= a -> 0 <= b -> load m p (a + b) = load m p a ++ load m (p + a) b.
Proof.
  intros Ha Hb. unfold load.
  rewrite Z2Nat.inj_add, load_from_app by assumption.
  now rewrite Z2Nat.id.
Qed.

(** ** Unfolding the recursive methods *)

Section Unfolding.

Variable Hash : list byte -> list byte.

(** The method that level [depth] of a chain calls on its [next_]. *)
Definition next_update (depth : nat) : UpdateFn :=
  match depth with
  | O => fun t m _ _ _ => (NullDeref, t, m)
  | S depth' => CreateUpdate_rec Hash depth'
  end.

Definition next_final (depth : nat) : FinalFn :=
  match depth with
  | O => fun t m _ _ root => (NullDeref, t, m, root)
  | S depth' => CreateFinalInternal_rec Hash depth'
  end.

Lemma CreateUpdate_rec_eq (depth : nat) :
  CreateUpdate_rec Hash depth = CreateUpdate_body Hash (next_update depth).
Proof. destruct depth; reflexivity. Qed.

Lemma CreateFinalInternal_rec_eq (depth : nat) :
  CreateFinalInternal_rec Hash depth =
  CreateFinalInternal_body Hash (next_final depth).
Proof. destruct depth; reflexivity. Qed.

Lemma Verify_loop_eq m data data_len tree tree_len offset length root level root_len :
  Verify_loop Hash m data data_len tree tree_len offset length root level root_len =
  if data_len >? kNodeSize
  then
    match VerifyLevel Hash m data data_len tree offset length level with
    | NO_ERROR =>
        if tree_len <? NextAligned data_len
        then ERR_BUFFER_TOO_SMALL
        else
          Verify_loop Hash m tree (NextAligned data_len)
            (tree + NextAligned data_len) (tree_len - NextAligned data_len)
            (offset / kDigestsPerNode) (length / kDigestsPerNode) root
            (wrap64 (level + 1)) (NextLength data_len)
    | rc => rc
    end
  else VerifyRoot Hash m data root_len level root.
Proof.
  rewrite Verify_loop_equation_1.
  destruct (Z_gt_dec data_len kNodeSize) as [g|g]; cbn;
    destruct (Z.gtb_spec data_len kNodeSize); try lia; reflexivity.
Qed.

(** A blob of at most one node is handed to [VerifyRoot] at once. *)
Lemma Verify_small m data data_len tree tree_len offset length root :
  data_len <= kNodeSize ->
  Verify Hash m data data_len tree tree_len offset length root =
  VerifyRoot Hash m data data_len 0 root.
Proof.
  intros Hs. unfold Verify. rewrite Verify_loop_eq.
  destruct (Z.gtb_spec data_len kNodeSize); [lia|reflexivity].
Qed.

Lemma VerifyRoot_status m data root_len level expected :
  VerifyRoot Hash m data root_len level expected = ERR_INVALID_ARGS \/
  VerifyRoot Hash m data root_len level expected = NO_ERROR \/
  VerifyRoot Hash m data root_len level expected = ERR_IO_DATA_INTEGRITY.
Proof.
  unfold VerifyRoot.
  destruct (_ || _); [now left|].
  destruct (Digest_eqb _ _); [right; now left|right; now right].
Qed.

End Unfolding.

(** ** Concrete memories for the worked examples *)

(** Every byte is zero. *)
Definition zero_mem : Mem := fun _ => x00.

(** [n] bytes of [0xff] at address [p], zero elsewhere. *)
Definition ff_mem (p n : Z) : Mem := memset zero_mem p xff n.

(** The address of the data buffer and of the tree buffer in the worked
    examples. *)
Definition data_at : Z := 4096.
Definition tree_at : Z := 1048576.

(** ** The root of the empty blob *)

Section EmptyRoot.

Variable Hash : list byte -> list byte.

Lemma CreateFinal_empty heap tree_len m tree r :
  CreateFinal Hash (snd (CreateInit heap Tree_new 0 tree_len)) m tree (Some r) =
  (Ret NO_ERROR,
   mkTree false None 0 0 0 (DigestFinal Hash (DigestInit Digest_new 0 0) 0),
   m, Some (DigestFinal Hash (DigestInit Digest_new 0 0) 0)).
Proof.
  assert (Ht : snd (CreateInit heap Tree_new 0 tree_len) =
               mkTree true None 0 0 0 Digest_new) by (destruct heap; reflexivity).
  rewrite Ht. unfold CreateFinal, CreateFinalInternal.
  rewrite CreateFinalInternal_rec_eq. unfold CreateFinalInternal_body.
  cbn [initialized_ level_ offset_ length_ digest_ negb].
  change (0 >? kNodeSize) with false. rewrite !andb_false_r.
  reflexivity.
Qed.

Lemma VerifyRoot_actual_empty m data :
  VerifyRoot_actual Hash m data 0 0 = DigestFinal Hash (DigestInit Digest_new 0 0) 0.
Proof. reflexivity. Qed.

End EmptyRoot.

(** ** The range check of the verifier *)

Section RangeCheck.

Variable Hash : list byte -> list byte.

Lemma Verify_out_of_range m data data_len tree tree_len offset length root :
  kNodeSize < data_len -> is_null data = false -> is_null tree = false ->
  data_len < wrap64 (offset + length) ->
  Verify Hash m data data_len tree tree_len offset length root = ERR_OUT_OF_RANGE.
Proof.
  intros Hg Hd Ht Hr. unfold Verify. rewrite Verify_loop_eq.
  destruct (Z.gtb_spec data_len kNodeSize); [|lia].
  unfold VerifyLevel. rewrite Hd, Ht.
  destruct (Z.leb_spec data_len kNodeSize); [lia|]. cbn [orb].
  destruct (Z.gtb_spec (wrap64 (offset + length)) data_len); [reflexivity|lia].
Qed.

Lemma Verify_small_not_out_of_range m data data_len tree tree_len offset length root :
  data_len <= kNodeSize ->
  Verify Hash m data data_len tree tree_len offset length root <> ERR_OUT_OF_RANGE.
Proof.
  intros Hs. rewrite Verify_small by assumption.
  destruct (VerifyRoot_status Hash m data data_len 0 root) as [E|[E|E]];
    rewrite E; discriminate.
Qed.

End RangeCheck.

(** ** A failed [CreateInit] *)

Section FailedInit.

Variable Hash : list byte -> list byte.

Lemma CreateInit_fields heap t data_len tree_len :
  let t' := snd (CreateInit heap t data_len tree_len) in
  initialized_ t' = true /\ offset_ t' = 0 /\ length_ t' = data_len /\
  level_ t' = level_ t /\ digest_ t' = digest_ t.
Proof.
  destruct heap as [|heap]; cbn.
  - destruct (data_len <=? kNodeSize); cbn; repeat split.
  - destruct (data_len <=? kNodeSize); [cbn; repeat split|].
    destruct (tree_len <? NextAligned data_len); [cbn; repeat split|].
    destruct (CreateInit heap _ _ _); cbn; repeat split.
Qed.

Lemma CreateInit_status (heap : nat) : forall t data_len tree_len,
  let rc := fst (CreateInit heap t data_len tree_len) in
  rc = NO_ERROR \/
  (kNodeSize < data_len /\ (rc = ERR_NO_MEMORY \/ rc = ERR_BUFFER_TOO_SMALL)).
Proof.
  induction heap as [|heap IH]; intros t data_len tree_len; cbn.
  - destruct (Z.leb_spec data_len kNodeSize); cbn; [now left|right; auto].
  - destruct (Z.leb_spec data_len kNodeSize); [now left|].
    destruct (tree_len <? NextAligned data_len); [right; auto|].
    match goal with |- context [CreateInit heap ?n ?d ?l] =>
      specialize (IH n d l); destruct (CreateInit heap n d l) as [rc n'] end.
    cbn in *. destruct IH as [->|[_ IH]]; [now left|right; auto].
Qed.

(** A byte count below the node size, fed to a level that is at offset 0
    and is longer than a node, is absorbed into the digest of the first
    node and nothing else happens. *)
Lemma CreateUpdate_first_bytes t m data len tree :
  initialized_ t = true -> offset_ t = 0 -> kNodeSize < length_ t ->
  0 < len < kNodeSize -> is_null data = false -> is_null tree = false ->
  CreateUpdate Hash t m data len tree =
  (Ret NO_ERROR,
   set_offset
     (set_digest t
        (Digest_Update
           (DigestInit (digest_ t) (Z.lor 0 (level_ t)) (wrap64 (length_ t - 0)))
           (load m data len)))
     len,
   m).
Proof.
  intros Hi Ho Hl Hlen Hd Ht.
  unfold CreateUpdate. rewrite CreateUpdate_rec_eq. unfold CreateUpdate_body.
  rewrite Hi, Ho, Hd, Ht. cbn [negb orb andb].
  destruct (Z.eqb_spec len 0); [lia|].
  assert (Hw : wrap64 (0 + len) = len).
  { unfold wrap64. rewrite Z.mod_small; klia. }
  rewrite Hw.
  destruct (Z.gtb_spec len (length_ t)); [lia|].
  destruct (Z2Nat.inj_lt 0 len) as [Hnat _]; try lia.
  destruct (Z.to_nat len) as [|fuel] eqn:Ef; [lia|].
  cbn [CreateUpdate_loop f_length f_rc is_ok].
  destruct (Z.gtb_spec len 0); [|lia]. cbn [andb].
  unfold CreateUpdate_iter.
  cbn [f_this f_mem f_in f_length f_out f_tree_off f_rc].
  rewrite Ho. change (0 mod kNodeSize =? 0) with true. cbn iota.
  unfold DigestUpdate. change (0 mod kNodeSize) with 0.
  assert (Hmin : min len (kNodeSize - 0) = len).
  { unfold min. destruct (Z.ltb_spec len (kNodeSize - 0)); lia. }
  rewrite Hmin, Hw.
  assert (Hmod : (len mod kNodeSize =? 0) = false).
  { apply Z.eqb_neq. rewrite Z.mod_small; lia. }
  cbn [length_ set_offset set_digest offset_].
  rewrite Hmod.
  destruct (Z.eqb_spec len (length_ t)); [lia|]. cbn.
  reflexivity.
Qed.

Lemma CreateFinal_incomplete t m tree root :
  level_ t = 0 -> offset_ t <> length_ t ->
  CreateFinal Hash t m tree root = (Ret ERR_BAD_STATE, t, m, root).
Proof.
  intros Hl Ho. unfold CreateFinal, CreateFinalInternal.
  rewrite CreateFinalInternal_rec_eq. unfold CreateFinalInternal_body.
  rewrite Hl. destruct (Z.eqb_spec (offset_ t) (length_ t)); [contradiction|].
  cbn. now rewrite orb_true_r.
Qed.

End FailedInit.

Lemma NextAligned_wrapped length :
  2 ^ 64 - kNodeSize < length < 2 ^ 64 -> NextAligned length = 0.
Proof. intros H. geometry. Qed.

Lemma iter_NextAligned_eight data_len :
  0 <= data_len < 2 ^ 64 -> Nat.iter 8 NextAligned data_len = 0.
Proof.
  intros Hr.
  destruct (Z_le_gt_dec data_len (2 ^ 64 - kNodeSize)) as [Hin|Hout].
  - apply iter_NextAligned_levels; [lia|].
    pose proof (levels_above_bound data_len Hr). lia.
  - rewrite Nat.iter_succ_r, NextAligned_wrapped by lia.
    apply iter_NextAligned_zero.
Qed.

(** ** What [CreateUpdate] leaves alone *)

(** The fields of a chain that no creation method but [CreateInit] and
    [CreateFinal] writes: per level, [initialized_], [level_] and
    [length_]. *)
Fixpoint shape (t : Tree) : list (bool * Z * Z) :=
  match t with
  | mkTree i None l _ len _ => [(i, l, len)]
  | mkTree i (Some n) l _ len _ => (i, l, len) :: shape n
  end.

Lemma shape_head t :
  exists rest, shape t = (initialized_ t, level_ t, length_ t) :: rest.
Proof. destruct t as [i [n|] l o len d]; cbn; eauto. Qed.

Lemma shape_height t : List.length (shape t) = S (height t).
Proof.
  revert t. fix IH 1. intros [i [n|] l o len d]; cbn; [|reflexivity].
  now rewrite IH.
Qed.

Lemma shape_eq_height t t' : shape t = shape t' -> height t = height t'.
Proof.
  intros H. apply (f_equal (@List.length _)) in H.
  rewrite !shape_height in H. lia.
Qed.

Lemma shape_eq_fields t t' :
  shape t = shape t' ->
  initialized_ t = initialized_ t' /\ level_ t = level_ t' /\
  length_ t = length_ t'.
Proof.
  destruct (shape_head t) as [r ->]. destruct (shape_head t') as [r' ->].
  intros H. injection H. auto.
Qed.

Lemma shape_set_offset t o : shape (set_offset t o) = shape t.
Proof. destruct t as [i [n|] l o' len d]; reflexivity. Qed.

Lemma shape_set_digest t d : shape (set_digest t d) = shape t.
Proof. destruct t as [i [n|] l o len d']; reflexivity. Qed.

Lemma shape_set_next t n n' :
  next_ t = Some n -> shape n' = shape n -> shape (set_next t (Some n')) = shape t.
Proof.
  destruct t as [i [n0|] l o len d]; cbn; intros [= ->] H; now rewrite H.
Qed.

(** Every stored offset is a 64-bit value. *)
Fixpoint offsets_ok (t : Tree) : Prop :=
  match t with
  | mkTree _ None _ o _ _ => 0 <= o < 2 ^ 64
  | mkTree _ (Some n) _ o _ _ => 0 <= o < 2 ^ 64 /\ offsets_ok n
  end.

Lemma offsets_ok_head t : offsets_ok t -> 0 <= offset_ t < 2 ^ 64.
Proof. destruct t as [i [n|] l o len d]; cbn; tauto. Qed.

Lemma offsets_ok_next t n : offsets_ok t -> next_ t = Some n -> offsets_ok n.
Proof. destruct t as [i [n0|] l o len d]; cbn; [intros [_ H] [= <-]; exact H|discriminate]. Qed.

Lemma offsets_ok_set_digest t d : offsets_ok (set_digest t d) <-> offsets_ok t.
Proof. destruct t as [i [n|] l o len d']; reflexivity. Qed.

Lemma offsets_ok_set_offset t o :
  0 <= o < 2 ^ 64 -> offsets_ok t -> offsets_ok (set_offset t o).
Proof. destruct t as [i [n|] l o' len d']; cbn; tauto. Qed.

Lemma offsets_ok_set_next t n' :
  offsets_ok t -> offsets_ok n' -> offsets_ok (set_next t (Some n')).
Proof. destruct t as [i [n|] l o len d]; cbn; tauto. Qed.

Lemma wrap64_range x : 0 <= wrap64 x < 2 ^ 64.
Proof. unfold wrap64. apply Z.mod_pos_bound. lia. Qed.

Lemma wrap64_small x : 0 <= x < 2 ^ 64 -> wrap64 x = x.
Proof. intros H. unfold wrap64. now apply Z.mod_small. Qed.

Section Preservation.

Variable Hash : list byte -> list byte.

(** The first half of a pass of the loop of [CreateUpdate]: start a
    digest at a node boundary, absorb bytes up to the next boundary. *)
Definition absorb (f : Frame) : Frame :=
  let t := f_this f in
  let digest :=
    if offset_ t mod kNodeSize =? 0
    then DigestInit (digest_ t) (Z.lor (offset_ t) (level_ t))
                    (wrap64 (length_ t - offset_ t))
    else digest_ t in
  let chunk := min (f_length f) (kNodeSize - offset_ t mod kNodeSize) in
  mkFrame
    (set_offset (set_digest t (Digest_Update digest (load (f_mem f) (f_in f) chunk)))
                (wrap64 (offset_ t + chunk)))
    (f_mem f) (f_in f + chunk) (f_length f - chunk)
    (f_out f) (f_tree_off f) (f_rc f).

(** The second half: when the node is complete, close its digest, store
    it and pass it to the next level. *)
Definition finish (next_update : UpdateFn) (next : Z) (f : Frame) : Frame * bool :=
  let t := f_this f in
  if negb (offset_ t mod kNodeSize =? 0) && negb (offset_ t =? length_ t)
  then (f, false)
  else
    let t := set_digest t (DigestFinal Hash (digest_ t) (offset_ t)) in
    if length_ t <=? kNodeSize
    then (mkFrame t (f_mem f) (f_in f) (f_length f) (f_out f) (f_tree_off f) (f_rc f),
          false)
    else
      let m :=
        if f_tree_off f mod kNodeSize =? 0
        then memset (f_mem f) (f_out f) x00 kNodeSize
        else f_mem f in
      let m := store m (f_out f) (firstn (Z.to_nat kLength) (bytes_ (digest_ t))) in
      match next_ t with
      | None =>
          (mkFrame t m (f_in f) (f_length f) (f_out f) (f_tree_off f) NullDeref,
           false)
      | Some n =>
          let '(rc, n', m') := next_update n m (f_out f) kLength next in
          (mkFrame (set_next t (Some n')) m' (f_in f) (f_length f)
                   (f_out f + kLength) (wrap64 (f_tree_off f + kLength)) rc,
           true)
      end.

Lemma CreateUpdate_iter_eq next_update next f :
  CreateUpdate_iter Hash next_update next f = finish next_update next (absorb f).
Proof.
  unfold CreateUpdate_iter, finish, absorb, DigestUpdate.
  destruct f as [[i n l o len d] m in_ length out tree_off rc].
  cbn [f_this f_mem f_in f_length f_out f_tree_off f_rc
       initialized_ next_ level_ offset_ length_ digest_
       set_offset set_digest set_next].
  reflexivity.
Qed.

Lemma min_spec a b : min a b = Z.min a b.
Proof. unfold min. destruct (Z.ltb_spec a b); lia. Qed.

Lemma chunk_bounds len o :
  0 < len ->
  let chunk := min len (kNodeSize - o mod kNodeSize) in
  0 < chunk <= len /\ chunk <= kNodeSize - o mod kNodeSize.
Proof.
  intros Hl. cbv zeta. rewrite min_spec.
  pose proof (Z.mod_pos_bound o kNodeSize ltac:(klia)). lia.
Qed.

Lemma absorb_length f :
  0 < f_length f -> 0 <= f_length (absorb f) < f_length f.
Proof.
  intros H. unfold absorb. cbn [f_length].
  pose proof (chunk_bounds (f_length f) (offset_ (f_this f)) H). cbv zeta in *. lia.
Qed.

Lemma finish_length next_update next f :
  f_length (fst (finish next_update next f)) = f_length f.
Proof.
  unfold finish.
  destruct (_ && _); [reflexivity|].
  destruct (_ <=? _); [reflexivity|].
  destruct (next_ _); [|reflexivity].
  destruct (next_update _ _ _ _ _) as [[rc n'] m']. reflexivity.
Qed.

Lemma CreateUpdate_iter_length next_update next f :
  0 < f_length f ->
  0 <= f_length (fst (CreateUpdate_iter Hash next_update next f)) < f_length f.
Proof.
  intros H. rewrite CreateUpdate_iter_eq, finish_length. now apply absorb_length.
Qed.

(** The loop does not depend on its fuel once there is enough of it. *)
Lemma CreateUpdate_loop_fuel next_update next : forall fuel fuel' f,
  (Z.to_nat (f_length f) <= fuel)%nat -> (Z.to_nat (f_length f) <= fuel')%nat ->
  CreateUpdate_loop Hash next_update next fuel f =
  CreateUpdate_loop Hash next_update next fuel' f.
Proof.
  induction fuel as [|fuel IH]; intros fuel' f H1 H2.
  - destruct fuel' as [|fuel']; [reflexivity|]. cbn [CreateUpdate_loop].
    destruct (Z.gtb_spec (f_length f) 0); [lia|reflexivity].
  - destruct fuel' as [|fuel']; cbn [CreateUpdate_loop].
    + destruct (Z.gtb_spec (f_length f) 0); [lia|reflexivity].
    + destruct (Z.gtb_spec (f_length f) 0); [|reflexivity].
      destruct (is_ok (f_rc f)); [|reflexivity]. cbn [andb].
      pose proof (CreateUpdate_iter_length next_update next f ltac:(lia)) as Hl.
      destruct (CreateUpdate_iter Hash next_update next f) as [f' c].
      cbn [fst] in Hl. destruct c; [|reflexivity].
      apply IH; lia.
Qed.

(** An invariant of the frame that every pass keeps is kept by the
    loop. *)
Lemma CreateUpdate_loop_invariant (P : Frame -> Prop) next_update next :
  (forall f, P f -> P (fst (CreateUpdate_iter Hash next_update next f))) ->
  forall fuel f, P f -> P (CreateUpdate_loop Hash next_update next fuel f).
Proof.
  intros Hstep. induction fuel as [|fuel IH]; intros f Hf; [exact Hf|].
  cbn [CreateUpdate_loop]. destruct (_ && _); [|exact Hf].
  specialize (Hstep f Hf).
  destruct (CreateUpdate_iter Hash next_update next f) as [f' c].
  destruct c; [apply IH|]; exact Hstep.
Qed.

(** What a callee has to guarantee for its caller to keep the shape and
    the offsets of the chain. *)
Definition keeps_shape (update : UpdateFn) : Prop :=
  forall t m data len tree,
    shape (snd (fst (update t m data len tree))) = shape t.

Definition keeps_offsets (update : UpdateFn) : Prop :=
  forall t m data len tree,
    offsets_ok t -> offsets_ok (snd (fst (update t m data len tree))).

Lemma finish_shape next_update next f :
  keeps_shape next_update ->
  shape (f_this (fst (finish next_update next f))) = shape (f_this f).
Proof.
  intros Hnu. unfold finish.
  destruct (_ && _); [reflexivity|].
  destruct (_ <=? _); cbn [fst f_this]; [apply shape_set_digest|].
  destruct (next_ (set_digest _ _)) as [n|] eqn:En; cbn [fst f_this];
    [|apply shape_set_digest].
  match goal with |- context [next_update n ?m ?d ?l ?x] =>
    specialize (Hnu n m d l x); destruct (next_update n m d l x) as [[rc n'] m'] end.
  cbn [fst snd f_this] in *.
  rewrite (shape_set_next _ n n' En Hnu). apply shape_set_digest.
Qed.

Lemma finish_offsets next_update next f :
  keeps_offsets next_update ->
  offsets_ok (f_this f) -> offsets_ok (f_this (fst (finish next_update next f))).
Proof.
  intros Hnu Ho. unfold finish.
  destruct (_ && _); [exact Ho|].
  destruct (_ <=? _); cbn [fst f_this]; [now apply offsets_ok_set_digest|].
  destruct (next_ (set_digest _ _)) as [n|] eqn:En; cbn [fst f_this];
    [|now apply offsets_ok_set_digest].
  match goal with |- context [next_update n ?m ?d ?l ?x] =>
    specialize (Hnu n m d l x); destruct (next_update n m d l x) as [[rc n'] m'] end.
  cbn [fst snd f_this] in *.
  apply offsets_ok_set_next; [now apply offsets_ok_set_digest|].
  apply Hnu. eapply offsets_ok_next; [|exact En]. now apply offsets_ok_set_digest.
Qed.

Lemma absorb_shape f : shape (f_this (absorb f)) = shape (f_this f).
Proof.
  unfold absorb. cbn [f_this]. now rewrite shape_set_offset, shape_set_digest.
Qed.

Lemma absorb_offsets f : offsets_ok (f_this f) -> offsets_ok (f_this (absorb f)).
Proof.
  intros Ho. unfold absorb. cbn [f_this].
  apply offsets_ok_set_offset; [apply wrap64_range|].
  now apply offsets_ok_set_digest.
Qed.

Lemma CreateUpdate_body_result next_update t m data len tree :
  CreateUpdate_body Hash next_update t m data len tree =
  if negb (initialized_ t) then (Ret ERR_BAD_STATE, t, m)
  else if len =? 0 then (Ret NO_ERROR, t, m)
  else if wrap64 (offset_ t + len) >? length_ t then (Ret ERR_OUT_OF_RANGE, t, m)
  else if is_null data || (is_null tree && (length_ t >? kNodeSize))
  then (Ret ERR_INVALID_ARGS, t, m)
  else
    let f := CreateUpdate_loop Hash next_update (tree + NextAligned (length_ t))
               (Z.to_nat len)
               (mkFrame t m data len
                  (tree + (offset_ t - offset_ t mod kNodeSize) / kDigestsPerNode)
                  ((offset_ t - offset_ t mod kNodeSize) / kDigestsPerNode)
                  NO_ERROR) in
    (f_rc f, f_this f, f_mem f).
Proof. reflexivity. Qed.

Lemma CreateUpdate_body_shape next_update :
  keeps_shape next_update -> keeps_shape (CreateUpdate_body Hash next_update).
Proof.
  intros Hnu t m data len tree. rewrite CreateUpdate_body_result.
  destruct (negb _); [reflexivity|].
  destruct (len =? 0); [reflexivity|].
  destruct (_ >? _); [reflexivity|].
  destruct (_ || _); [reflexivity|].
  cbv zeta. cbn [fst snd].
  apply (CreateUpdate_loop_invariant (fun f => shape (f_this f) = shape t));
    [|reflexivity].
  intros f Hs. rewrite CreateUpdate_iter_eq, finish_shape, absorb_shape; assumption.
Qed.

Lemma CreateUpdate_body_offsets next_update :
  keeps_offsets next_update -> keeps_offsets (CreateUpdate_body Hash next_update).
Proof.
  intros Hnu t m data len tree Ho. rewrite CreateUpdate_body_result.
  destruct (negb _); [exact Ho|].
  destruct (len =? 0); [exact Ho|].
  destruct (_ >? _); [exact Ho|].
  destruct (_ || _); [exact Ho|].
  cbv zeta. cbn [fst snd].
  apply (CreateUpdate_loop_invariant (fun f => offsets_ok (f_this f)));
    [|exact Ho].
  intros f Hf. rewrite CreateUpdate_iter_eq.
  apply finish_offsets; [exact Hnu|]. now apply absorb_offsets.
Qed.

Lemma CreateUpdate_rec_shape (depth : nat) : keeps_shape (CreateUpdate_rec Hash depth).
Proof.
  induction depth as [|depth IH]; rewrite CreateUpdate_rec_eq;
    apply CreateUpdate_body_shape.
  - intros t m data len tree. reflexivity.
  - exact IH.
Qed.

Lemma CreateUpdate_rec_offsets (depth : nat) :
  keeps_offsets (CreateUpdate_rec Hash depth).
Proof.
  induction depth as [|depth IH]; rewrite CreateUpdate_rec_eq;
    apply CreateUpdate_body_offsets.
  - intros t m data len tree Ho. exact Ho.
  - exact IH.
Qed.

Lemma next_update_shape depth : keeps_shape (next_update Hash depth).
Proof.
  destruct depth; [intros t m data len tree; reflexivity|].
  apply CreateUpdate_rec_shape.
Qed.

Lemma next_update_offsets depth : keeps_offsets (next_update Hash depth).
Proof.
  destruct depth; [intros t m data len tree Ho; exact Ho|].
  apply CreateUpdate_rec_offsets.
Qed.

Lemma CreateUpdate_shape t m data len tree :
  shape (snd (fst (CreateUpdate Hash t m data len tree))) = shape t.
Proof. apply CreateUpdate_rec_shape. Qed.

Lemma CreateUpdate_offsets t m data len tree :
  offsets_ok t -> offsets_ok (snd (fst (CreateUpdate Hash t m data len tree))).
Proof. apply CreateUpdate_rec_offsets. Qed.

End Preservation.

(** ** Statuses of a chain that [CreateInit] built *)

(** A level that [CreateInit] has initialised. *)
Definition level_ready (s : bool * Z * Z) : Prop := fst (fst s) = true.

(** An initialised level above the data. *)
Definition upper_ready (s : bool * Z * Z) : Prop :=
  fst (fst s) = true /\ snd (fst s) <> 0.

(** The chain of a builder between a successful [CreateInit] and
    [CreateFinal]: level 0 at the bottom, every level above it initialised
    and numbered from 1, every offset a 64-bit value. *)
Definition builder_ready (t : Tree) : Prop :=
  level_ t = 0 /\ offsets_ok t /\ Forall upper_ready (tl (shape t)).

(** Neither of the two statuses that [CreateFinal] gives for a call that
    it refuses. *)
Definition benign (o : outcome) : Prop :=
  o <> Ret ERR_BAD_STATE /\ o <> Ret ERR_INVALID_ARGS.

Lemma upper_ready_level_ready s : upper_ready s -> level_ready s.
Proof. intros [H _]. exact H. Qed.

Lemma shape_next t n : next_ t = Some n -> tl (shape t) = shape n.
Proof. destruct t as [i [n0|] l o len d]; cbn; [now intros [= ->]|discriminate]. Qed.

Lemma shape_initialized t : Forall level_ready (shape t) -> initialized_ t = true.
Proof.
  destruct (shape_head t) as [r ->]. intros H. now inversion H.
Qed.

Section Statuses.

Variable Hash : list byte -> list byte.

Definition update_benign (update : UpdateFn) : Prop :=
  forall t m data len tree,
    Forall level_ready (shape t) -> offsets_ok t -> 0 < data -> 0 < tree ->
    benign (fst (fst (update t m data len tree))).

Lemma finish_benign next_update next f :
  update_benign next_update ->
  Forall level_ready (shape (f_this f)) -> offsets_ok (f_this f) ->
  0 < f_out f -> 0 < next -> benign (f_rc f) ->
  benign (f_rc (fst (finish Hash next_update next f))) /\
  0 < f_out (fst (finish Hash next_update next f)).
Proof.
  intros Hnu Hr Hoff Hout Hnext Hrc. unfold finish.
  destruct (_ && _); [now split|].
  destruct (_ <=? _); cbn [fst f_rc f_out]; [now split|].
  destruct (next_ (set_digest _ _)) as [n|] eqn:En; cbn [fst f_rc f_out].
  - assert (Hn : Forall level_ready (shape n)).
    { rewrite <- (shape_next _ n En), shape_set_digest.
      destruct (shape (f_this f)); [constructor|]. now inversion Hr. }
    assert (Hon : offsets_ok n).
    { eapply offsets_ok_next; [|exact En]. now apply offsets_ok_set_digest. }
    match goal with |- context [next_update n ?m ?d ?l ?x] =>
      specialize (Hnu n m d l x Hn Hon Hout Hnext);
      destruct (next_update n m d l x) as [[rc n'] m'] end.
    cbn [fst snd f_rc f_out] in *. split; [exact Hnu|klia].
  - split; [split; discriminate|exact Hout].
Qed.

Lemma CreateUpdate_body_benign next_update :
  keeps_shape next_update -> keeps_offsets next_update ->
  update_benign next_update ->
  update_benign (CreateUpdate_body Hash next_update).
Proof.
  intros Hks Hko Hnu t m data len tree Hr Hoff Hd Ht.
  rewrite CreateUpdate_body_result.
  rewrite (shape_initialized t Hr). cbn [negb].
  destruct (len =? 0); [split; discriminate|].
  destruct (_ >? _); [split; discriminate|].
  unfold is_null, nullptr.
  destruct (Z.eqb_spec data 0); [lia|].
  destruct (Z.eqb_spec tree 0); [lia|]. cbn [orb andb].
  cbv zeta. cbn [fst].
  pose proof (NextAligned_range (length_ t)) as Hna.
  apply (CreateUpdate_loop_invariant Hash
           (fun f => benign (f_rc f) /\ 0 < f_out f /\
                     shape (f_this f) = shape t /\ offsets_ok (f_this f))).
  - intros f (Hb & Ho & Hs & Hof). rewrite CreateUpdate_iter_eq.
    assert (Hsa : shape (f_this (absorb f)) = shape t)
      by (now rewrite absorb_shape).
    pose proof (absorb_offsets f Hof) as Hoa.
    destruct (finish_benign next_update (tree + NextAligned (length_ t)) (absorb f))
      as [Hb' Ho']; try assumption.
    + now rewrite Hsa.
    + lia.
    + split; [exact Hb'|]. split; [exact Ho'|]. split.
      * now rewrite finish_shape.
      * now apply finish_offsets.
  - cbn [f_rc f_out f_this]. split; [split; discriminate|].
    split; [|split; [reflexivity|exact Hoff]].
    pose proof (offsets_ok_head t Hoff).
    pose proof (Z.mod_le (offset_ t) kNodeSize ltac:(lia) ltac:(klia)).
    assert (0 <= (offset_ t - offset_ t mod kNodeSize) / kDigestsPerNode);
      [|lia].
    apply Z.div_pos; klia.
Qed.

Lemma CreateUpdate_rec_benign (depth : nat) :
  update_benign (CreateUpdate_rec Hash depth).
Proof.
  induction depth as [|depth IH]; rewrite CreateUpdate_rec_eq;
    apply CreateUpdate_body_benign;
    try apply next_update_shape; try apply next_update_offsets.
  - intros t m data len tree _ _ _ _. split; discriminate.
  - exact IH.
Qed.

Lemma CreateUpdate_benign t m data len tree :
  Forall level_ready (shape t) -> offsets_ok t -> 0 < data -> 0 < tree ->
  benign (fst (fst (CreateUpdate Hash t m data len tree))).
Proof. apply CreateUpdate_rec_benign. Qed.

Lemma CreateFinalInternal_body_result next_final t m data tree root :
  CreateFinalInternal_body Hash next_final t m data tree root =
  if negb (initialized_ t) || ((level_ t =? 0) && negb (offset_ t =? length_ t))
  then (Ret ERR_BAD_STATE, t, m, root)
  else if match root with None => true | Some _ => false end
          || (is_null tree && (length_ t >? kNodeSize))
  then (Ret ERR_INVALID_ARGS, t, m, root)
  else
    let t0 :=
      if length_ t =? 0
      then set_digest t (DigestFinal Hash (DigestInit (digest_ t) 0 0) 0)
      else t in
    match CreateUpdate Hash t0 m (data + offset_ t0)
            (wrap64 (length_ t0 - offset_ t0)) tree with
    | (Ret NO_ERROR, t1, m1) =>
        if length_ (set_initialized t1 false) <=? kNodeSize
        then (Ret NO_ERROR, set_initialized t1 false, m1,
              Some (digest_ (set_initialized t1 false)))
        else
          match next_ (set_initialized t1 false) with
          | None => (NullDeref, set_initialized t1 false, m1, root)
          | Some n =>
              let '(rc, n', m', root') :=
                next_final n m1 tree
                  (tree + NextAligned (length_ (set_initialized t1 false))) root in
              (rc, set_next (set_initialized t1 false) (Some n'), m', root')
          end
    | (rc, t1, m1) => (rc, t1, m1, root)
    end.
Proof. reflexivity. Qed.

(** [CreateFinalInternal] on a level above the data, of a chain that
    [CreateInit] built, never answers [ERR_BAD_STATE] or
    [ERR_INVALID_ARGS]. *)
Lemma CreateFinalInternal_rec_benign (depth : nat) : forall t m data tree root,
  Forall upper_ready (shape t) -> offsets_ok t -> 0 < data -> 0 < tree ->
  root <> None ->
  benign (fst (fst (fst (CreateFinalInternal_rec Hash depth t m data tree root)))).
Proof.
  induction depth as [|depth IH]; intros t m data tree root Hr Hoff Hd Ht Hroot;
    rewrite CreateFinalInternal_rec_eq, CreateFinalInternal_body_result.
  all: assert (Hlr : Forall level_ready (shape t))
         by (eapply Forall_impl; [|exact Hr]; apply upper_ready_level_ready).
  all: rewrite (shape_initialized t Hlr); cbn [negb orb].
  all: assert (Hlev : (level_ t =? 0) = false)
         by (apply Z.eqb_neq; destruct (shape_head t) as [r E];
             rewrite E in Hr; inversion Hr as [|? ? [_ Hl] _]; exact Hl).
  all: rewrite Hlev; cbn [andb].
  all: destruct root as [r|]; [|contradiction]; cbn [orb].
  all: unfold is_null, nullptr; destruct (Z.eqb_spec tree 0); [lia|]; cbn [andb].
  all: cbv zeta.
  all: set (t0 := if length_ t =? 0 then _ else t).
  all: assert (Hs0 : shape t0 = shape t)
         by (subst t0; destruct (length_ t =? 0);
             [apply shape_set_digest|reflexivity]).
  all: assert (Ho0 : offsets_ok t0)
         by (subst t0; destruct (length_ t =? 0);
             [now apply offsets_ok_set_digest|exact Hoff]).
  all: pose proof (offsets_ok_head t0 Ho0) as Hoh.
  all: pose proof (CreateUpdate_benign t0 m (data + offset_ t0)
                     (wrap64 (length_ t0 - offset_ t0)) tree
                     ltac:(now rewrite Hs0) Ho0 ltac:(lia) Ht) as Hb.
  all: pose proof (CreateUpdate_shape Hash t0 m (data + offset_ t0)
                     (wrap64 (length_ t0 - offset_ t0)) tree) as Hs1.
  all: pose proof (CreateUpdate_offsets Hash t0 m (data + offset_ t0)
                     (wrap64 (length_ t0 - offset_ t0)) tree Ho0) as Ho1.
  all: destruct (CreateUpdate Hash t0 m _ _ tree) as [[rc1 t1] m1];
       cbn [fst snd] in Hb, Hs1, Ho1.
  all: destruct rc1 as [[] |]; cbn [fst]; try exact Hb.
  all: destruct (_ <=? _); cbn [fst]; [split; discriminate|].
  all: destruct (next_ (set_initialized t1 false)) as [nx|] eqn:En; cbn [fst];
         [|split; discriminate].
  - cbn [next_final]. split; discriminate.
  - cbn [next_final].
    assert (Hn : next_ t1 = Some nx) by (destruct t1; exact En).
    pose proof (NextAligned_range (length_ (set_initialized t1 false))).
    specialize (IH nx m1 tree
                  (tree + NextAligned (length_ (set_initialized t1 false))) (Some r)).
    destruct (CreateFinalInternal_rec Hash depth nx m1 tree _ (Some r))
      as [[[rc n'] m'] root'].
    cbn [fst] in *. apply IH; try lia; try discriminate.
    + rewrite <- (shape_next t1 nx Hn), Hs1, Hs0.
      destruct (shape t); [constructor|]. now inversion Hr.
    + eapply offsets_ok_next; [exact Ho1|exact Hn].
Qed.

End Statuses.

(** ** Builders that [CreateInit] has made ready *)

Lemma CreateInit_chain (heap : nat) : forall t data_len tree_len t',
  next_ t = None -> 0 <= level_ t -> level_ t + Z.of_nat heap < 2 ^ 64 ->
  CreateInit heap t data_len tree_len = (NO_ERROR, t') ->
  offsets_ok t' /\
  Forall (fun s => fst (fst s) = true /\ level_ t < snd (fst s)) (tl (shape t')).
Proof.
  induction heap as [|heap IH]; intros t data_len tree_len t' Hn Hl Hb; cbn.
  - destruct (data_len <=? kNodeSize); [|discriminate].
    intros [= <-]. destruct t as [i nx l o len d]. cbn in Hn. subst nx.
    cbn. split; [lia|constructor].
  - destruct (data_len <=? kNodeSize).
    { intros [= <-]. destruct t as [i nx l o len d]. cbn in Hn. subst nx.
      cbn. split; [lia|constructor]. }
    destruct (tree_len <? NextAligned data_len); [discriminate|].
    set (n := set_level Tree_new _).
    assert (Hw : wrap64 (level_ t + 1) = level_ t + 1)
      by (apply wrap64_small; lia).
    assert (Hln : level_ n = level_ t + 1)
      by (subst n; destruct t; cbn in *; exact Hw).
    specialize (IH n (NextAligned data_len) (tree_len - NextAligned data_len)).
    pose proof (CreateInit_fields heap n (NextAligned data_len)
                  (tree_len - NextAligned data_len)) as Hf.
    destruct (CreateInit heap n _ _) as [rc n'].
    intros [= -> <-]. cbn [snd] in Hf. destruct Hf as (Hi & _ & _ & Hlev & _).
    destruct (IH n' eq_refl ltac:(lia) ltac:(lia) eq_refl) as [Ho Hu].
    destruct t as [i nx l o len d]. cbn in *. split; [split; [lia|exact Ho]|].
    destruct (shape_head n') as [r E]. rewrite E in *. cbn in Hu.
    constructor; cbn.
    + split; [exact Hi|lia].
    + eapply Forall_impl; [|exact Hu]. cbn. intros s [? ?]. split; [assumption|lia].
Qed.

(** A successful [CreateInit] on a new object makes the builder ready. *)
Lemma CreateInit_ready heap data_len tree_len t :
  Z.of_nat heap < 2 ^ 64 ->
  CreateInit heap Tree_new data_len tree_len = (NO_ERROR, t) ->
  builder_ready t.
Proof.
  intros Hh Hc.
  pose proof (CreateInit_fields heap Tree_new data_len tree_len) as Hf.
  rewrite Hc in Hf. cbn [snd] in Hf. destruct Hf as (_ & _ & _ & Hlev & _).
  destruct (CreateInit_chain heap Tree_new data_len tree_len t eq_refl
              ltac:(cbn; lia) ltac:(cbn; lia) Hc) as [Ho Hu].
  split; [exact Hlev|]. split; [exact Ho|].
  eapply Forall_impl; [|exact Hu]. cbn. intros s [? ?]. split; [assumption|lia].
Qed.

(** [CreateUpdate] keeps the builder ready, whatever it returns. *)
Lemma CreateUpdate_ready Hash t m data len tree :
  builder_ready t ->
  builder_ready (snd (fst (CreateUpdate Hash t m data len tree))).
Proof.
  intros (Hl & Ho & Hu).
  pose proof (CreateUpdate_shape Hash t m data len tree) as Hs.
  pose proof (CreateUpdate_offsets Hash t m data len tree Ho) as Ho'.
  destruct (shape_eq_fields _ _ Hs) as (_ & Hlev & _).
  split; [congruence|]. split; [exact Ho'|]. now rewrite Hs.
Qed.

Lemma length_set_initialized t b : length_ (set_initialized t b) = length_ t.
Proof. now destruct t. Qed.

Lemma next_set_initialized t b : next_ (set_initialized t b) = next_ t.
Proof. now destruct t. Qed.

Lemma height_next t n : next_ t = Some n -> height t = S (height n).
Proof. destruct t as [i [n0|] l o len d]; cbn; [now intros [= ->]|discriminate]. Qed.

Section FinalAtomic.

Variable Hash : list byte -> list byte.

(** The two checks on entry to [CreateFinalInternal] leave everything as
    it was. *)
Lemma CreateFinal_refused t m tree root :
  (negb (initialized_ t) || ((level_ t =? 0) && negb (offset_ t =? length_ t)) = true ->
   CreateFinal Hash t m tree root = (Ret ERR_BAD_STATE, t, m, root))
  /\
  (negb (initialized_ t) || ((level_ t =? 0) && negb (offset_ t =? length_ t)) = false ->
   match root with None => true | Some _ => false end
     || (is_null tree && (length_ t >? kNodeSize)) = true ->
   CreateFinal Hash t m tree root = (Ret ERR_INVALID_ARGS, t, m, root)).
Proof.
  unfold CreateFinal, CreateFinalInternal.
  rewrite CreateFinalInternal_rec_eq, CreateFinalInternal_body_result.
  split.
  - intros ->. reflexivity.
  - intros -> ->. reflexivity.
Qed.

(** Past the two checks, a ready builder gets no [ERR_BAD_STATE] or
    [ERR_INVALID_ARGS] from [CreateFinal]. *)
Lemma CreateFinal_accepted t m tree root :
  builder_ready t -> 0 <= tree ->
  negb (initialized_ t) || ((level_ t =? 0) && negb (offset_ t =? length_ t)) = false ->
  match root with None => true | Some _ => false end
    || (is_null tree && (length_ t >? kNodeSize)) = false ->
  benign (fst (fst (fst (CreateFinal Hash t m tree root)))).
Proof.
  intros (Hl & Ho & Hu) Htree Hc1 Hc2.
  unfold CreateFinal, CreateFinalInternal.
  rewrite CreateFinalInternal_rec_eq, CreateFinalInternal_body_result.
  rewrite Hc1, Hc2. cbv zeta.
  apply orb_false_elim in Hc1 as [Hi Hc1]. apply negb_false_iff in Hi.
  rewrite Hl in Hc1. cbn [Z.eqb andb] in Hc1. apply negb_false_iff in Hc1.
  apply Z.eqb_eq in Hc1.
  apply orb_false_elim in Hc2 as [Hroot Hc2].
  set (t0 := if length_ t =? 0 then _ else t).
  assert (Hs0 : shape t0 = shape t)
    by (subst t0; destruct (length_ t =? 0); [apply shape_set_digest|reflexivity]).
  assert (Hf0 : offset_ t0 = offset_ t /\ length_ t0 = length_ t /\
                initialized_ t0 = true /\ next_ t0 = next_ t)
    by (subst t0; destruct (length_ t =? 0); destruct t; cbn in *; auto).
  destruct Hf0 as (Hoff0 & Hlen0 & Hi0 & Hn0).
  assert (Hu0 : CreateUpdate Hash t0 m (nullptr + offset_ t0)
                  (wrap64 (length_ t0 - offset_ t0)) tree = (Ret NO_ERROR, t0, m)).
  { unfold CreateUpdate. rewrite CreateUpdate_rec_eq, CreateUpdate_body_result.
    rewrite Hi0, Hoff0, Hlen0, Hc1, Z.sub_diag. reflexivity. }
  rewrite Hu0.
  rewrite length_set_initialized, next_set_initialized, Hlen0, Hn0.
  destruct (Z.leb_spec (length_ t) kNodeSize); cbn [fst]; [split; discriminate|].
  destruct (next_ t) as [n|] eqn:En; cbn [fst]; [|split; discriminate].
  rewrite (height_next t n En). cbn [next_final].
  assert (Htn : 0 < tree).
  { unfold is_null, nullptr in Hc2. destruct (Z.eqb_spec tree 0); [|lia].
    destruct (Z.gtb_spec (length_ t) kNodeSize); [discriminate|lia]. }
  pose proof (NextAligned_range (length_ t)).
  pose proof (CreateFinalInternal_rec_benign Hash (height n) n m tree
                (tree + NextAligned (length_ t)) root) as Hb.
  destruct (CreateFinalInternal_rec Hash (height n) n m tree _ root)
    as [[[rc n'] m'] root'].
  cbn [fst] in *. apply Hb; try lia.
  - now rewrite <- (shape_next t n En).
  - eapply offsets_ok_next; [exact Ho|exact En].
  - destruct root; [discriminate|discriminate].
Qed.

End FinalAtomic.

(** ** The length tag of a node digest *)

(** The first twelve bytes that a digest has absorbed: the locality tag
    and the length tag. *)
Definition tags (d : Digest) : list byte := firstn 12 (ctx_ d).

Section LengthTag.

Variable Hash : list byte -> list byte.

Lemma tags_DigestInit d locality len :
  tags (DigestInit d locality len) =
  le_bytes 8 locality ++ le_bytes 4 (min len kNodeSize mod 2 ^ 32).
Proof. reflexivity. Qed.

Lemma tags_Digest_Update d bs :
  List.length (ctx_ d) = 12%nat -> tags (Digest_Update d bs) = tags d.
Proof.
  intros H. unfold tags, Digest_Update. cbn [ctx_].
  rewrite firstn_app, H, Nat.sub_diag. cbn [firstn]. now rewrite app_nil_r.
Qed.

Lemma tags_Digest_Update_more d bs :
  (12 <= List.length (ctx_ d))%nat -> tags (Digest_Update d bs) = tags d.
Proof.
  intros H. unfold tags, Digest_Update. cbn [ctx_].
  rewrite firstn_app.
  replace (12 - List.length (ctx_ d))%nat with O by lia.
  cbn [firstn]. now rewrite app_nil_r.
Qed.

Lemma ctx_DigestInit_length d locality len :
  List.length (ctx_ (DigestInit d locality len)) = 12%nat.
Proof. reflexivity. Qed.

Lemma tags_DigestFinal d offset :
  (12 <= List.length (ctx_ d))%nat -> tags (DigestFinal Hash d offset) = tags d.
Proof.
  intros H. unfold DigestFinal.
  destruct (negb _); [|reflexivity].
  unfold Digest_Final. cbn [ctx_].
  now apply (tags_Digest_Update_more d).
Qed.

(** The builder: a node that starts in this pass gets the tag
    [min (length_ - offset_) kNodeSize]. *)
Lemma tags_absorb f :
  offset_ (f_this f) mod kNodeSize = 0 ->
  tags (digest_ (f_this (absorb f))) =
  le_bytes 8 (Z.lor (offset_ (f_this f)) (level_ (f_this f))) ++
  le_bytes 4 (min (wrap64 (length_ (f_this f) - offset_ (f_this f))) kNodeSize
              mod 2 ^ 32).
Proof.
  intros Hb. unfold absorb. rewrite Hb. cbn [Z.eqb].
  destruct (f_this f) as [i n l o len d]. cbn [f_this digest_ set_offset set_digest
    offset_ level_ length_].
  rewrite tags_Digest_Update by apply ctx_DigestInit_length.
  apply tags_DigestInit.
Qed.

(** The verifier below the top: the same rule. *)
Lemma tags_VerifyLevel_actual m in_ data_len offset length level :
  tags (fst (VerifyLevel_actual Hash m in_ data_len offset length level)) =
  le_bytes 8 (Z.lor offset level) ++
  le_bytes 4 (min (wrap64 (data_len - offset)) kNodeSize mod 2 ^ 32).
Proof.
  unfold VerifyLevel_actual, DigestUpdate. cbn [fst].
  rewrite tags_DigestFinal.
  - rewrite tags_Digest_Update by apply ctx_DigestInit_length.
    apply tags_DigestInit.
  - unfold Digest_Update. cbn [ctx_]. rewrite length_app.
    rewrite ctx_DigestInit_length. lia.
Qed.

(** The verifier at the top: the tag is the node size for every blob that
    is not empty, whatever its length. *)
Lemma tags_VerifyRoot_actual m data root_len level :
  tags (VerifyRoot_actual Hash m data root_len level) =
  le_bytes 8 level ++ le_bytes 4 (if root_len =? 0 then 0 else kNodeSize).
Proof.
  unfold VerifyRoot_actual, DigestUpdate.
  rewrite tags_DigestFinal.
  - rewrite tags_Digest_Update by apply ctx_DigestInit_length.
    rewrite tags_DigestInit. destruct (root_len =? 0); reflexivity.
  - unfold Digest_Update. cbn [ctx_]. rewrite length_app.
    rewrite ctx_DigestInit_length. lia.
Qed.

(** [Create] over a blob of one byte. *)
Lemma Create_one_byte heap m data tree tree_len root0 :
  is_null data = false ->
  Create Hash heap m data 1 tree tree_len (Some root0) =
  (Ret NO_ERROR, m,
   Some (DigestFinal Hash
           (Digest_Update (DigestInit Digest_new 0 1) (load m data 1)) 1)).
Proof.
  intros Hd. unfold Create.
  assert (Hi : CreateInit heap Tree_new 1 tree_len =
               (NO_ERROR, mkTree true None 0 0 1 Digest_new))
    by (destruct heap; reflexivity).
  rewrite Hi.
  assert (Hu : CreateUpdate Hash (mkTree true None 0 0 1 Digest_new) m data 1 tree =
               (Ret NO_ERROR,
                mkTree true None 0 1 1
                  (DigestFinal Hash
                     (Digest_Update (DigestInit Digest_new 0 1) (load m data 1)) 1),
                m)).
  { unfold CreateUpdate. rewrite CreateUpdate_rec_eq, CreateUpdate_body_result.
    cbn [initialized_ negb offset_ length_ Z.eqb].
    rewrite Hd. change (1 >? kNodeSize) with false.
    rewrite andb_false_r. cbn [orb].
    change (wrap64 (0 + 1) >? 1) with false. cbv iota.
    reflexivity. }
  rewrite Hu.
  unfold CreateFinal, CreateFinalInternal.
  rewrite CreateFinalInternal_rec_eq, CreateFinalInternal_body_result.
  cbn [initialized_ negb level_ offset_ length_ Z.eqb andb orb].
  change (1 >? kNodeSize) with false. rewrite andb_false_r. cbv iota zeta.
  cbn [offset_ length_]. change (wrap64 (1 - 1)) with 0.
  unfold CreateUpdate. rewrite CreateUpdate_rec_eq, CreateUpdate_body_result.
  reflexivity.
Qed.

End LengthTag.

(** ** The bytes that a verification depends on *)

(** [touched data data_len tree offset length root_len a]: address [a]
    lies, at some level of the ascent of [Verify], in the node-aligned
    extension of the range of that level, in the stored digest of one of
    the nodes of that extension, or in the top node, which [VerifyRoot]
    hashes in full. *)
Inductive touched : Z -> Z -> Z -> Z -> Z -> Z -> Z -> Prop :=
| touched_top data data_len tree offset length root_len a :
    data_len <= kNodeSize ->
    data <= a < data + root_len ->
    touched data data_len tree offset length root_len a
| touched_node data data_len tree offset length root_len a :
    kNodeSize < data_len ->
    data + (offset - offset mod kNodeSize) <= a
      < data + roundup (offset + length) kNodeSize ->
    touched data data_len tree offset length root_len a
| touched_digest data data_len tree offset length root_len a :
    kNodeSize < data_len ->
    tree + (offset - offset mod kNodeSize) / kDigestsPerNode <= a
      < tree + roundup (offset + length) kNodeSize / kDigestsPerNode ->
    touched data data_len tree offset length root_len a
| touched_up data data_len tree offset length root_len a :
    kNodeSize < data_len ->
    touched tree (NextAligned data_len) (tree + NextAligned data_len)
      (offset / kDigestsPerNode) (length / kDigestsPerNode)
      (NextLength data_len) a ->
    touched data data_len tree offset length root_len a.

(** The region in the words of the claim: for a blob of one node, which
    has no digests, the node-aligned extension of the range and nothing
    else. *)
Definition touched_as_claimed (data data_len tree offset length a : Z) : Prop :=
  (data_len <= kNodeSize /\
   data + (offset - offset mod kNodeSize) <= a
     < data + roundup (offset + length) kNodeSize)
  \/
  (kNodeSize < data_len /\ touched data data_len tree offset length data_len a).

Lemma wrap64_mod_kNodeSize x : wrap64 x mod kNodeSize = x mod kNodeSize.
Proof.
  unfold wrap64. apply Z.mod_mod_divide. exists (2 ^ 51). reflexivity.
Qed.

Section Frame.

Variable Hash : list byte -> list byte.

Lemma VerifyRoot_ext m1 m2 data root_len level expected :
  (forall a, data <= a < data + root_len -> m1 a = m2 a) ->
  VerifyRoot Hash m1 data root_len level expected =
  VerifyRoot Hash m2 data root_len level expected.
Proof.
  intros H. unfold VerifyRoot.
  destruct (Z.gtb_spec root_len kNodeSize);
    [now rewrite !orb_true_r|]. rewrite !orb_false_r.
  destruct (_ && _); [reflexivity|].
  unfold VerifyRoot_actual, DigestUpdate.
  rewrite (load_ext m1 m2); [reflexivity|].
  intros a Ha. apply H. rewrite min_spec in Ha. lia.
Qed.

Lemma VerifyLevel_actual_ext m1 m2 in_ data_len offset length level :
  (forall a, in_ <= a < in_ + min length (kNodeSize - offset mod kNodeSize) ->
             m1 a = m2 a) ->
  VerifyLevel_actual Hash m1 in_ data_len offset length level =
  VerifyLevel_actual Hash m2 in_ data_len offset length level.
Proof.
  intros H. unfold VerifyLevel_actual, DigestUpdate.
  now rewrite (load_ext m1 m2).
Qed.

Lemma VerifyLevel_loop_ext (fuel : nat) :
  forall m1 m2 in_ data_len offset length level expected,
  offset mod kNodeSize = 0 -> length mod kNodeSize = 0 ->
  (forall a, in_ <= a < in_ + length -> m1 a = m2 a) ->
  (forall a, expected <= a < expected + length / kDigestsPerNode -> m1 a = m2 a) ->
  VerifyLevel_loop Hash fuel m1 in_ data_len offset length level expected =
  VerifyLevel_loop Hash fuel m2 in_ data_len offset length level expected.
Proof.
  induction fuel as [|fuel IH];
    intros m1 m2 in_ data_len offset length level expected Ho Hl Hin Hex;
    [reflexivity|].
  cbn [VerifyLevel_loop].
  destruct (Z.gtb_spec length 0) as [Hpos|]; [|reflexivity].
  assert (Hlen : kNodeSize <= length).
  { pose proof kNodeSize_val. rewrite H in *. Z.div_mod_to_equations. lia. }
  assert (Hchunk : min length (kNodeSize - offset mod kNodeSize) = kNodeSize).
  { rewrite min_spec, Ho. lia. }
  rewrite (VerifyLevel_actual_ext m1 m2).
  2:{ intros a Ha. apply Hin. rewrite Hchunk in Ha. lia. }
  assert (Hc : snd (VerifyLevel_actual Hash m2 in_ data_len offset length level)
               = kNodeSize).
  { unfold VerifyLevel_actual, DigestUpdate. cbn [snd]. exact Hchunk. }
  destruct (VerifyLevel_actual Hash m2 in_ data_len offset length level)
    as [actual chunk]. cbn [snd] in Hc. subst chunk.
  assert (Hq : length / kDigestsPerNode = kLength + (length - kNodeSize) / kDigestsPerNode).
  { pose proof kNodeSize_val as E1. pose proof kDigestsPerNode_val as E2.
    pose proof kLength_val as E3. rewrite E1, E2, E3 in *.
    Z.div_mod_to_equations. lia. }
  assert (Hnn : 0 <= (length - kNodeSize) / kDigestsPerNode).
  { apply Z.div_pos; klia. }
  rewrite (load_ext m1 m2 expected kLength)
    by (intros a Ha; apply Hex; lia).
  destruct (negb _); [reflexivity|].
  apply IH.
  - rewrite wrap64_mod_kNodeSize.
    pose proof kNodeSize_val as E1. rewrite E1 in *.
    clear - Ho. Z.div_mod_to_equations. lia.
  - pose proof kNodeSize_val as E1. rewrite E1 in *.
    clear - Hl. Z.div_mod_to_equations. lia.
  - intros a Ha. apply Hin. klia.
  - intros a Ha. apply Hex. klia.
Qed.

Lemma VerifyLevel_ext m1 m2 data data_len tree offset length level :
  0 <= offset -> 0 <= length -> offset + length <= data_len ->
  data_len <= 2 ^ 64 - kNodeSize ->
  (forall a, data + (offset - offset mod kNodeSize) <= a
               < data + roundup (offset + length) kNodeSize -> m1 a = m2 a) ->
  (forall a, tree + (offset - offset mod kNodeSize) / kDigestsPerNode <= a
               < tree + roundup (offset + length) kNodeSize / kDigestsPerNode ->
             m1 a = m2 a) ->
  VerifyLevel Hash m1 data data_len tree offset length level =
  VerifyLevel Hash m2 data data_len tree offset length level.
Proof.
  intros Ho Hl Hr Hd Hnode Hdig. unfold VerifyLevel.
  destruct (_ || _); [reflexivity|].
  destruct (_ >? _); [reflexivity|]. cbv zeta.
  set (al := offset - offset mod kNodeSize).
  pose proof (Z.mod_pos_bound offset kNodeSize ltac:(klia)) as Hm.
  pose proof (Z.mod_le offset kNodeSize Ho ltac:(klia)) as Hm'.
  assert (Hal : al mod kNodeSize = 0).
  { subst al. pose proof kNodeSize_val as E1. rewrite E1 in *.
    clear - Ho. Z.div_mod_to_equations. lia. }
  assert (Hw1 : wrap64 (al + length) = al + length)
    by (apply wrap64_small; subst al; klia).
  rewrite Hw1.
  assert (Hru : roundup (al + length) kNodeSize =
                (al + length + (kNodeSize - 1)) / kNodeSize * kNodeSize)
    by (apply roundup_exact; subst al; klia).
  assert (Hru2 : roundup (offset + length) kNodeSize =
                 (offset + length + (kNodeSize - 1)) / kNodeSize * kNodeSize)
    by (apply roundup_exact; klia).
  assert (Hle : al <= roundup (al + length) kNodeSize <=
                roundup (offset + length) kNodeSize).
  { rewrite Hru, Hru2. subst al. pose proof kNodeSize_val as E1. rewrite E1 in *.
    clear - Ho Hl Hm Hm'. Z.div_mod_to_equations. lia. }
  assert (Hlt : roundup (al + length) kNodeSize < 2 ^ 64).
  { rewrite Hru. subst al. pose proof kNodeSize_val as E1. rewrite E1 in *.
    clear - Ho Hl Hr Hd Hm Hm'. Z.div_mod_to_equations. lia. }
  assert (Hw2 : wrap64 (roundup (al + length) kNodeSize - al) =
                roundup (al + length) kNodeSize - al)
    by (apply wrap64_small; subst al; lia).
  rewrite Hw2.
  set (len' := roundup (al + length) kNodeSize - al).
  assert (Hlm : len' mod kNodeSize = 0).
  { subst len'. rewrite Hru. pose proof kNodeSize_val as E1. rewrite E1 in *.
    clear - Hal. Z.div_mod_to_equations. lia. }
  assert (Hdq : al / kDigestsPerNode + len' / kDigestsPerNode <=
                roundup (offset + length) kNodeSize / kDigestsPerNode).
  { subst len'. pose proof kNodeSize_val as E1. pose proof kDigestsPerNode_val as E2.
    rewrite E1, E2 in *. clear - Hal Hlm Hle. Z.div_mod_to_equations. lia. }
  apply VerifyLevel_loop_ext; try assumption.
  - intros a Ha. apply Hnode. fold al. subst len'. lia.
  - intros a Ha. apply Hdig. fold al. lia.
Qed.

Lemma next_range_valid data_len offset length :
  0 <= offset -> 0 <= length -> offset + length <= data_len ->
  kNodeSize < data_len <= 2 ^ 64 - kNodeSize ->
  0 <= offset / kDigestsPerNode /\ 0 <= length / kDigestsPerNode /\
  offset / kDigestsPerNode + length / kDigestsPerNode <= NextAligned data_len /\
  NextAligned data_len <= 2 ^ 64 - kNodeSize.
Proof. intros Ho Hl Hr Hd. geometry. Qed.

Lemma Verify_loop_ext : forall data_len,
  forall m1 m2 data tree tree_len offset length root level root_len,
  0 <= offset -> 0 <= length -> offset + length <= data_len ->
  0 <= data_len <= 2 ^ 64 - kNodeSize ->
  (forall a, touched data data_len tree offset length root_len a -> m1 a = m2 a) ->
  Verify_loop Hash m1 data data_len tree tree_len offset length root level root_len =
  Verify_loop Hash m2 data data_len tree tree_len offset length root level root_len.
Proof.
  intros data_len.
  induction data_len as [data_len IH] using (well_founded_induction (Z.lt_wf 0)).
  intros m1 m2 data tree tree_len offset length root level root_len
    Ho Hl Hr Hd Hag.
  rewrite (Verify_loop_eq Hash m1 data data_len tree tree_len offset length root
             level root_len).
  rewrite (Verify_loop_eq Hash m2 data data_len tree tree_len offset length root
             level root_len).
  destruct (Z.gtb_spec data_len kNodeSize) as [Hg|Hs].
  - rewrite (VerifyLevel_ext m1 m2); try assumption; try lia.
    2:{ intros a Ha. apply Hag. now apply touched_node. }
    2:{ intros a Ha. apply Hag. now apply touched_digest. }
    destruct (VerifyLevel Hash m2 data data_len tree offset length level);
      try reflexivity.
    destruct (_ <? _); [reflexivity|].
    destruct (next_range_valid data_len offset length Ho Hl Hr ltac:(lia))
      as (H1 & H2 & H3 & H4).
    pose proof (NextAligned_range data_len).
    pose proof (NextAligned_decreases data_len Hg).
    apply IH; try assumption; try lia.
    intros a Ha. apply Hag. now apply touched_up.
  - apply VerifyRoot_ext. intros a Ha. apply Hag. now apply touched_top.
Qed.

End Frame.

(** ** Feeding the data in pieces *)

(** Run [k] on the builder and the memory that a successful call left. *)
Definition and_then (r : outcome * Tree * Mem)
  (k : Tree -> Mem -> outcome * Tree * Mem) : outcome * Tree * Mem :=
  match r with
  | (Ret NO_ERROR, t, m) => k t m
  | _ => r
  end.

Lemma and_then_assoc r k1 k2 :
  and_then (and_then r k1) k2 = and_then r (fun t m => and_then (k1 t m) k2).
Proof. destruct r as [[[[]|] t] m]; reflexivity. Qed.

Definition with_length (f : Frame) (n : Z) : Frame :=
  mkFrame (f_this f) (f_mem f) (f_in f) n (f_out f) (f_tree_off f) (f_rc f).

Definition result (f : Frame) : outcome * Tree * Mem :=
  (f_rc f, f_this f, f_mem f).

(** The offset in the tree of the digest of the node that a level is
    in. *)
Definition tree_off_of (t : Tree) : Z :=
  (offset_ t - offset_ t mod kNodeSize) / kDigestsPerNode.

(** The frame with which the loop of [CreateUpdate] starts. *)
Definition start (t : Tree) (m : Mem) (data len tree : Z) : Frame :=
  mkFrame t m data len (tree + tree_off_of t) (tree_off_of t) NO_ERROR.

Ltac frame_fields :=
  unfold with_length, start;
  cbn [f_this f_mem f_in f_length f_out f_tree_off f_rc is_ok].

Section Pieces.

Variable Hash : list byte -> list byte.

Lemma CreateUpdate_enters t m data len tree :
  initialized_ t = true -> 0 < len -> 0 <= offset_ t ->
  offset_ t + len <= length_ t -> length_ t < 2 ^ 64 ->
  is_null data || (is_null tree && (length_ t >? kNodeSize)) = false ->
  CreateUpdate Hash t m data len tree =
  result (CreateUpdate_loop Hash (next_update Hash (height t))
            (tree + NextAligned (length_ t)) (Z.to_nat len)
            (start t m data len tree)).
Proof.
  intros Hi Hl Ho Hr Hb Ha.
  unfold CreateUpdate. rewrite CreateUpdate_rec_eq, CreateUpdate_body_result.
  rewrite Hi, Ha. cbn [negb].
  destruct (Z.eqb_spec len 0); [lia|].
  rewrite wrap64_small by lia.
  destruct (Z.gtb_spec (offset_ t + len) (length_ t)); [lia|].
  reflexivity.
Qed.

Lemma CreateUpdate_refuses t m data len tree :
  initialized_ t = true -> 0 < len -> 0 <= offset_ t ->
  offset_ t + len <= length_ t -> length_ t < 2 ^ 64 ->
  is_null data || (is_null tree && (length_ t >? kNodeSize)) = true ->
  CreateUpdate Hash t m data len tree = (Ret ERR_INVALID_ARGS, t, m).
Proof.
  intros Hi Hl Ho Hr Hb Ha.
  unfold CreateUpdate. rewrite CreateUpdate_rec_eq, CreateUpdate_body_result.
  rewrite Hi, Ha. cbn [negb].
  destruct (Z.eqb_spec len 0); [lia|].
  rewrite wrap64_small by lia.
  destruct (Z.gtb_spec (offset_ t + len) (length_ t)); [lia|].
  reflexivity.
Qed.

Lemma CreateUpdate_uninitialized t m data len tree :
  initialized_ t = false ->
  CreateUpdate Hash t m data len tree = (Ret ERR_BAD_STATE, t, m).
Proof.
  intros Hi. unfold CreateUpdate.
  rewrite CreateUpdate_rec_eq, CreateUpdate_body_result. now rewrite Hi.
Qed.

Lemma CreateUpdate_nothing t m data tree :
  initialized_ t = true ->
  CreateUpdate Hash t m data 0 tree = (Ret NO_ERROR, t, m).
Proof.
  intros Hi. unfold CreateUpdate.
  rewrite CreateUpdate_rec_eq, CreateUpdate_body_result. now rewrite Hi.
Qed.

Lemma CreateUpdate_loop_pass next_update next fuel f :
  0 < f_length f -> is_ok (f_rc f) = true ->
  CreateUpdate_loop Hash next_update next (S fuel) f =
  let '(f', continue) := finish Hash next_update next (absorb f) in
  if continue then CreateUpdate_loop Hash next_update next fuel f' else f'.
Proof.
  intros Hl Hrc. cbn [CreateUpdate_loop]. rewrite Hrc.
  destruct (Z.gtb_spec (f_length f) 0); [|lia]. cbn [andb].
  now rewrite CreateUpdate_iter_eq.
Qed.

Lemma CreateUpdate_loop_stops next_update next fuel f :
  is_ok (f_rc f) = false ->
  CreateUpdate_loop Hash next_update next fuel f = f.
Proof.
  intros Hrc. destruct fuel; [reflexivity|].
  cbn [CreateUpdate_loop]. now rewrite Hrc, andb_false_r.
Qed.

Lemma finish_with_length next_update next f n :
  finish Hash next_update next (with_length f n) =
  let '(f', c) := finish Hash next_update next f in (with_length f' n, c).
Proof.
  unfold finish, with_length. cbn [f_this f_mem f_in f_length f_out f_tree_off f_rc].
  destruct (_ && _); [reflexivity|].
  destruct (_ <=? _); [reflexivity|].
  destruct (next_ _); [|reflexivity].
  destruct (next_update _ _ _ _ _) as [[rc n'] m']. reflexivity.
Qed.

Lemma result_with_length f n : result (with_length f n) = result f.
Proof. reflexivity. Qed.

Lemma offset_absorb f :
  0 < f_length f -> 0 <= offset_ (f_this f) ->
  offset_ (f_this f) + f_length f < 2 ^ 64 ->
  offset_ (f_this (absorb f)) =
  offset_ (f_this f) + min (f_length f) (kNodeSize - offset_ (f_this f) mod kNodeSize).
Proof.
  intros Hl Ho Hb. unfold absorb. cbn [f_this].
  destruct (f_this f) as [i n l o len d]. cbn [offset_ set_offset set_digest] in *.
  pose proof (chunk_bounds (f_length f) o Hl) as Hc. cbv zeta in Hc.
  apply wrap64_small. lia.
Qed.

(** The last byte of a node, fed with more behind it: the pass absorbs
    that byte only. *)
Lemma absorb_last_byte f n :
  f_length f = 1 -> 0 <= n ->
  offset_ (f_this f) mod kNodeSize = kNodeSize - 1 ->
  absorb (with_length f (1 + n)) = with_length (absorb f) n.
Proof.
  intros Hl Hn Hm. unfold absorb, with_length.
  cbn [f_this f_mem f_in f_length f_out f_tree_off f_rc].
  rewrite Hl, Hm, !min_spec.
  replace (Z.min (1 + n) (kNodeSize - (kNodeSize - 1))) with 1 by lia.
  replace (Z.min 1 (kNodeSize - (kNodeSize - 1))) with 1 by lia.
  f_equal. lia.
Qed.

(** A byte that does not end its node, fed with more behind it: the pass
    absorbs what two passes would, one for the byte and one for the
    rest. *)
Lemma absorb_first_byte f n :
  f_length f = 1 -> 0 < n ->
  0 <= offset_ (f_this f) -> offset_ (f_this f) + 1 < 2 ^ 64 ->
  offset_ (f_this f) mod kNodeSize < kNodeSize - 1 ->
  absorb (with_length f (1 + n)) = absorb (with_length (absorb f) n).
Proof.
  destruct f as [[i nx l o len d] m in_ flen out toff rc].
  cbn [f_this f_length offset_]. intros -> Hn Ho Hb Hm.
  pose proof (Z.mod_pos_bound o kNodeSize ltac:(klia)) as Hmp.
  assert (Hm1 : (o + 1) mod kNodeSize = o mod kNodeSize + 1).
  { pose proof kNodeSize_val as E. rewrite E in *.
    clear - Hm Hmp. Z.div_mod_to_equations. lia. }
  unfold with_length, absorb.
  cbv [f_this f_mem f_in f_length f_out f_tree_off f_rc
       initialized_ next_ offset_ level_ length_ digest_ set_offset set_digest].
  rewrite !min_spec.
  replace (Z.min 1 (kNodeSize - o mod kNodeSize)) with 1 by lia.
  rewrite (wrap64_small (o + 1)) by lia.
  rewrite Hm1.
  destruct (Z.eqb_spec (o mod kNodeSize + 1) 0); [lia|].
  set (c := Z.min n (kNodeSize - (o mod kNodeSize + 1))).
  replace (Z.min (1 + n) (kNodeSize - o mod kNodeSize))
    with (1 + c) by (subst c; lia).
  assert (Hc : 0 < c) by (subst c; lia).
  rewrite load_app by lia.
  unfold Digest_Update. cbn [ctx_ bytes_].
  rewrite <- app_assoc.
  f_equal; [|lia|lia].
  f_equal. f_equal. lia.
Qed.

Lemma finish_partial next_update next f :
  offset_ (f_this f) mod kNodeSize <> 0 ->
  offset_ (f_this f) <> length_ (f_this f) ->
  finish Hash next_update next f = (f, false).
Proof.
  intros Hm Hl. unfold finish.
  destruct (Z.eqb_spec (offset_ (f_this f) mod kNodeSize) 0); [contradiction|].
  destruct (Z.eqb_spec (offset_ (f_this f)) (length_ (f_this f))); [contradiction|].
  reflexivity.
Qed.

(** What a pass that goes on to the next one has done to the locals. *)
Lemma finish_continues next_update next f f' :
  finish Hash next_update next f = (f', true) ->
  f_in f' = f_in f /\ f_length f' = f_length f /\
  f_out f' = f_out f + kLength /\
  f_tree_off f' = wrap64 (f_tree_off f + kLength) /\
  offset_ (f_this f') = offset_ (f_this f).
Proof.
  unfold finish.
  destruct (_ && _); [discriminate|].
  destruct (_ <=? _); [discriminate|].
  destruct (next_ _); [|discriminate].
  destruct (next_update _ _ _ _ _) as [[rc n'] m'].
  intros E. apply (f_equal fst) in E. cbn [fst] in E. subst f'.
  cbn [f_this f_mem f_in f_length f_out f_tree_off f_rc].
  repeat split; now destruct (f_this f).
Qed.

Lemma length_set_digest t d : length_ (set_digest t d) = length_ t.
Proof. now destruct t. Qed.

(** What a pass that leaves the loop has done: nothing after absorbing, in
    the middle of a node; or it has closed the only node of the top level;
    or it has found no next level. *)
Lemma finish_breaks next_update next f f' :
  finish Hash next_update next f = (f', false) ->
  (offset_ (f_this f) mod kNodeSize <> 0 /\
   offset_ (f_this f) <> length_ (f_this f) /\ f' = f) \/
  (length_ (f_this f) <= kNodeSize /\
   (offset_ (f_this f) mod kNodeSize = 0 \/
    offset_ (f_this f) = length_ (f_this f))) \/
  f_rc f' = NullDeref.
Proof.
  unfold finish.
  destruct (Z.eqb_spec (offset_ (f_this f) mod kNodeSize) 0) as [Hm|Hm];
    destruct (Z.eqb_spec (offset_ (f_this f)) (length_ (f_this f))) as [Hl|Hl];
    cbn [negb andb].
  4:{ intros E. left. split; [assumption|]. split; [assumption|].
      now injection E. }
  all: rewrite length_set_digest.
  all: destruct (Z.leb_spec (length_ (f_this f)) kNodeSize);
       [intros _; right; left; tauto|].
  all: destruct (next_ _);
       [destruct (next_update _ _ _ _ _) as [[rc n'] m']; discriminate|].
  all: intros E; right; right;
       apply (f_equal (fun p => f_rc (fst p))) in E; cbn [fst f_rc] in E;
       now symmetry.
Qed.

Lemma tree_off_of_same_node o o' :
  0 <= o -> o <= o' -> o' mod kNodeSize = o mod kNodeSize + (o' - o) ->
  (o' - o' mod kNodeSize) / kDigestsPerNode = (o - o mod kNodeSize) / kDigestsPerNode.
Proof. intros H1 H2 H3. f_equal. lia. Qed.

Lemma tree_off_of_next_node o :
  0 <= o -> o + 1 < 2 ^ 64 -> o mod kNodeSize = kNodeSize - 1 ->
  (o + 1 - (o + 1) mod kNodeSize) / kDigestsPerNode =
    wrap64 ((o - o mod kNodeSize) / kDigestsPerNode + kLength) /\
  (o + 1) mod kNodeSize = 0.
Proof.
  intros H1 H2 H3. unfold wrap64.
  pose proof kNodeSize_val as E1. pose proof kDigestsPerNode_val as E2.
  pose proof kLength_val as E3. rewrite E1, E2, E3 in *.
  assert (Hm : (o + 1) mod 8192 = 0)
    by (clear - H3; Z.div_mod_to_equations; lia).
  split; [|exact Hm]. rewrite Hm, H3.
  rewrite Z.mod_small; Z.div_mod_to_equations; lia.
Qed.

(** The first byte of a call can be fed by a call of its own. *)
Lemma CreateUpdate_first_byte t m data n tree :
  0 <= n -> 0 <= offset_ t -> offset_ t + 1 + n <= length_ t ->
  length_ t < 2 ^ 64 -> 0 <= data ->
  CreateUpdate Hash t m data (1 + n) tree =
  and_then (CreateUpdate Hash t m data 1 tree)
    (fun t1 m1 => CreateUpdate Hash t1 m1 (data + 1) n tree).
Proof.
  intros Hn Ho Hr Hb Hd.
  destruct (initialized_ t) eqn:Hi;
    [|now rewrite !CreateUpdate_uninitialized by assumption].
  destruct (Z.eq_dec n 0) as [->|Hn0].
  { rewrite Z.add_0_r.
    pose proof (CreateUpdate_shape Hash t m data 1 tree) as Hs.
    destruct (CreateUpdate Hash t m data 1 tree) as [[rc t1] m1].
    destruct rc as [[]|]; cbn [and_then]; try reflexivity.
    rewrite CreateUpdate_nothing; [reflexivity|].
    cbn [fst snd] in Hs. destruct (shape_eq_fields _ _ Hs) as (E & _). congruence. }
  destruct (is_null data || (is_null tree && (length_ t >? kNodeSize))) eqn:Ha.
  { now rewrite !CreateUpdate_refuses by (assumption || lia). }
  rewrite (CreateUpdate_enters t m data (1 + n)) by (assumption || lia).
  rewrite (CreateUpdate_enters t m data 1) by (assumption || lia).
  replace (Z.to_nat (1 + n)) with (S (Z.to_nat n)) by lia.
  change (Z.to_nat 1) with 1%nat.
  set (nu := next_update Hash (height t)).
  set (next := tree + NextAligned (length_ t)).
  set (F1 := start t m data 1 tree).
  change (start t m data (1 + n) tree) with (with_length F1 (1 + n)).
  rewrite (CreateUpdate_loop_pass nu next (Z.to_nat n) (with_length F1 (1 + n)))
    by (frame_fields; reflexivity || lia).
  rewrite (CreateUpdate_loop_pass nu next 0 F1)
    by (unfold F1; frame_fields; reflexivity || lia).
  pose proof (Z.mod_pos_bound (offset_ t) kNodeSize ltac:(klia)) as Hmp.
  assert (HoA : offset_ (f_this (absorb F1)) = offset_ t + 1).
  { rewrite offset_absorb by (cbn; lia). cbn [F1 start f_this f_length].
    rewrite min_spec. lia. }
  pose proof (absorb_shape F1) as HsA. cbn [F1 start f_this] in HsA. fold F1 in HsA.
  destruct (shape_eq_fields _ _ HsA) as (HiA & _ & HlA).
  assert (HinA : f_in (absorb F1) = data + 1 /\ f_mem (absorb F1) = m /\
                 f_rc (absorb F1) = NO_ERROR /\
                 f_out (absorb F1) = tree + tree_off_of t /\
                 f_tree_off (absorb F1) = tree_off_of t).
  { unfold absorb. cbn [F1 start f_this f_mem f_in f_length f_out f_tree_off f_rc].
    rewrite min_spec. repeat split. f_equal. lia. }
  destruct HinA as (HinA & HmA & HrcA & HoutA & HtoA).
  assert (Hnull : is_null (data + 1) || (is_null tree && (length_ t >? kNodeSize))
                  = false).
  { apply orb_false_elim in Ha as [_ Ha]. rewrite Ha.
    unfold is_null, nullptr. destruct (Z.eqb_spec (data + 1) 0); [lia|reflexivity]. }
  destruct (Z_lt_ge_dec (offset_ t mod kNodeSize) (kNodeSize - 1)) as [Hmid|Hend].
  - (* the byte does not end its node *)
    rewrite absorb_first_byte by (unfold F1; frame_fields; lia).
    assert (HmA' : offset_ (f_this (absorb F1)) mod kNodeSize =
                   offset_ t mod kNodeSize + 1).
    { rewrite HoA. pose proof kNodeSize_val as E. rewrite E in *.
      clear - Hmid Hmp. Z.div_mod_to_equations. lia. }
    rewrite (finish_partial nu next (absorb F1)) by (rewrite ?HmA', ?HoA, ?HlA; lia).
    unfold result at 2. rewrite HmA, HrcA. cbn [and_then].
    rewrite (CreateUpdate_enters (f_this (absorb F1)) m (data + 1) n)
      by (rewrite ?HiA, ?HlA, ?HoA; (assumption || lia)).
    rewrite (shape_eq_height _ _ HsA), HlA. fold nu next.
    assert (Hst : start (f_this (absorb F1)) m (data + 1) n tree =
                  with_length (absorb F1) n).
    { unfold start, with_length, tree_off_of.
      rewrite HinA, HmA, HrcA, HoutA, HtoA. unfold tree_off_of.
      rewrite (tree_off_of_same_node (offset_ t) (offset_ (f_this (absorb F1))))
        by lia.
      reflexivity. }
    rewrite Hst.
    destruct (Z.to_nat n) as [|k] eqn:Ek; [lia|].
    rewrite (CreateUpdate_loop_pass nu next k) by (cbn; rewrite ?HrcA; reflexivity || lia).
    pose proof (absorb_length (with_length (absorb F1) n) ltac:(cbn; lia)) as Hal.
    cbn [with_length f_length] in Hal.
    pose proof (finish_length Hash nu next (absorb (with_length (absorb F1) n))) as Hfl.
    destruct (finish Hash nu next (absorb (with_length (absorb F1) n))) as [F2 c].
    cbn [fst] in Hfl. destruct c; [|reflexivity].
    f_equal. apply CreateUpdate_loop_fuel; lia.
  - (* the byte ends its node *)
    rewrite absorb_last_byte by (unfold F1; frame_fields; lia).
    rewrite finish_with_length.
    destruct (tree_off_of_next_node (offset_ t) Ho ltac:(lia) ltac:(lia))
      as [Hto Hm0].
    destruct (finish Hash nu next (absorb F1)) as [G c] eqn:EG.
    pose proof (finish_shape Hash nu next (absorb F1) (next_update_shape Hash _)) as HsG.
    rewrite EG in HsG. cbn [fst] in HsG. rewrite HsA in HsG.
    destruct (shape_eq_fields _ _ HsG) as (HiG & _ & HlG).
    destruct c.
    + destruct (finish_continues nu next (absorb F1) G EG)
        as (HinG & _ & HoutG & HtoG & HoG).
      cbn [CreateUpdate_loop]. unfold result at 2.
      destruct (f_rc G) as [[]|] eqn:HrcG; cbn [and_then];
        try (rewrite CreateUpdate_loop_stops
               by (frame_fields; now rewrite HrcG);
             unfold result; frame_fields; now rewrite HrcG).
      rewrite (CreateUpdate_enters (f_this G) (f_mem G) (data + 1) n)
        by (rewrite ?HiG, ?HlG, ?HoG, ?HoA; (assumption || lia)).
      rewrite (shape_eq_height _ _ HsG), HlG. fold nu next.
      f_equal. f_equal.
      unfold start, with_length, tree_off_of.
      rewrite HinG, HinA, HrcG, HoG, HoA. f_equal.
      * rewrite HoutG, HoutA. unfold tree_off_of. rewrite Hto.
        rewrite wrap64_small; [lia|].
        pose proof (Z.mod_le (offset_ t) kNodeSize Ho ltac:(klia)).
        pose proof kNodeSize_val as E1. pose proof kDigestsPerNode_val as E2.
        pose proof kLength_val as E3. rewrite E1, E2, E3 in *.
        clear - Ho Hb Hr Hn Hmp H. Z.div_mod_to_equations. lia.
      * rewrite HtoG, HtoA. unfold tree_off_of. now rewrite Hto.
    + destruct (finish_breaks nu next (absorb F1) G EG)
        as [(Hpart & _)|[(Htop & _)|Hnd]].
      * (* not in the middle of a node *)
        exfalso. rewrite HoA in Hpart. contradiction.
      * (* not the top level *)
        exfalso. rewrite HlA in Htop.
        pose proof kNodeSize_val as E1. rewrite E1 in *.
        clear - Htop Hr Hn Hn0 Hend Hmp Ho. Z.div_mod_to_equations. lia.
      * unfold result. cbn [with_length f_rc f_this f_mem CreateUpdate_loop].
        rewrite Hnd. reflexivity.
Qed.

Lemma finish_offset next_update next f :
  offset_ (f_this (fst (finish Hash next_update next f))) = offset_ (f_this f).
Proof.
  unfold finish.
  destruct (_ && _); [reflexivity|].
  destruct (_ <=? _); cbn [fst f_this]; [now destruct (f_this f)|].
  destruct (next_ _); cbn [fst f_this]; [|now destruct (f_this f)].
  destruct (next_update _ _ _ _ _) as [[rc n'] m']. cbn [fst f_this].
  now destruct (f_this f).
Qed.

Lemma CreateUpdate_one_advances t m data tree t1 m1 :
  0 <= offset_ t -> offset_ t + 1 <= length_ t -> length_ t < 2 ^ 64 ->
  CreateUpdate Hash t m data 1 tree = (Ret NO_ERROR, t1, m1) ->
  offset_ t1 = offset_ t + 1 /\ shape t1 = shape t.
Proof.
  intros Ho Hr Hb Hc.
  pose proof (CreateUpdate_shape Hash t m data 1 tree) as Hs.
  rewrite Hc in Hs. cbn [fst snd] in Hs. split; [|exact Hs].
  destruct (initialized_ t) eqn:Hi;
    [|rewrite CreateUpdate_uninitialized in Hc by assumption; discriminate].
  destruct (is_null data || (is_null tree && (length_ t >? kNodeSize))) eqn:Ha;
    [rewrite CreateUpdate_refuses in Hc by (assumption || lia); discriminate|].
  rewrite CreateUpdate_enters in Hc by (assumption || lia).
  change (Z.to_nat 1) with 1%nat in Hc.
  rewrite CreateUpdate_loop_pass in Hc by (frame_fields; reflexivity || lia).
  pose proof (finish_offset (next_update Hash (height t))
                (tree + NextAligned (length_ t)) (absorb (start t m data 1 tree)))
    as Hfo.
  destruct (finish Hash _ _ (absorb (start t m data 1 tree))) as [G c].
  cbn [fst] in Hfo.
  assert (Ht1 : t1 = f_this G).
  { destruct c; cbn [CreateUpdate_loop] in Hc; unfold result in Hc; congruence. }
  rewrite Ht1, Hfo, offset_absorb by (frame_fields; lia).
  frame_fields. rewrite min_spec.
  pose proof (Z.mod_pos_bound (offset_ t) kNodeSize ltac:(klia)). lia.
Qed.

(** A call can be cut after any number of bytes. *)
Lemma CreateUpdate_split (k : nat) : forall t m data n tree,
  0 <= n -> 0 <= offset_ t -> offset_ t + Z.of_nat k + n <= length_ t ->
  length_ t < 2 ^ 64 -> 0 <= data ->
  CreateUpdate Hash t m data (Z.of_nat k + n) tree =
  and_then (CreateUpdate Hash t m data (Z.of_nat k) tree)
    (fun t1 m1 => CreateUpdate Hash t1 m1 (data + Z.of_nat k) n tree).
Proof.
  induction k as [|k IH]; intros t m data n tree Hn Ho Hr Hb Hd.
  - change (Z.of_nat 0) with 0. rewrite Z.add_0_l.
    destruct (initialized_ t) eqn:Hi.
    + rewrite (CreateUpdate_nothing t m data tree Hi). cbn [and_then].
      now rewrite Z.add_0_r.
    + now rewrite !CreateUpdate_uninitialized.
  - rewrite Nat2Z.inj_succ, <- Z.add_1_l, <- Z.add_assoc.
    rewrite (CreateUpdate_first_byte t m data (Z.of_nat k + n)) by lia.
    rewrite (CreateUpdate_first_byte t m data (Z.of_nat k)) by lia.
    rewrite and_then_assoc.
    destruct (CreateUpdate Hash t m data 1 tree) as [[rc t1] m1] eqn:E1.
    destruct rc as [[]|]; cbn [and_then]; try reflexivity.
    destruct (CreateUpdate_one_advances t m data tree t1 m1 Ho ltac:(lia) Hb E1)
      as [Ho1 Hs1].
    destruct (shape_eq_fields _ _ Hs1) as (_ & _ & Hl1).
    rewrite IH by (rewrite ?Ho1, ?Hl1; lia).
    now rewrite Z.add_assoc.
Qed.

Lemma CreateUpdate_advances (k : nat) : forall t m data tree t1 m1,
  0 <= offset_ t -> offset_ t + Z.of_nat k <= length_ t -> length_ t < 2 ^ 64 ->
  0 <= data ->
  CreateUpdate Hash t m data (Z.of_nat k) tree = (Ret NO_ERROR, t1, m1) ->
  offset_ t1 = offset_ t + Z.of_nat k /\ shape t1 = shape t.
Proof.
  induction k as [|k IH]; intros t m data tree t1 m1 Ho Hr Hb Hd Hc.
  - change (Z.of_nat 0) with 0 in *.
    destruct (initialized_ t) eqn:Hi.
    + rewrite CreateUpdate_nothing in Hc by assumption.
      injection Hc as <- <-. split; [lia|reflexivity].
    + rewrite CreateUpdate_uninitialized in Hc by assumption. discriminate.
  - rewrite Nat2Z.inj_succ, <- Z.add_1_l in Hc, Hr |- *.
    rewrite CreateUpdate_first_byte in Hc by lia.
    destruct (CreateUpdate Hash t m data 1 tree) as [[rc t' ] m'] eqn:E1.
    destruct rc as [[]|]; cbn [and_then] in Hc; try discriminate.
    destruct (CreateUpdate_one_advances t m data tree t' m' Ho ltac:(lia) Hb E1)
      as [Ho1 Hs1].
    destruct (shape_eq_fields _ _ Hs1) as (_ & _ & Hl1).
    destruct (IH t' m' (data + 1) tree t1 m1) as [Ho2 Hs2];
      try (rewrite ?Ho1, ?Hl1; lia); [exact Hc|].
    split; [lia|congruence].
Qed.

(** A caller that feeds the data in pieces, as long as the calls
    succeed: piece [i] of [chunks] starts where piece [i - 1] ended. *)
Fixpoint CreateUpdates (t : Tree) (m : Mem) (data : Z) (chunks : list Z)
  (tree : Z) : outcome * Tree * Mem :=
  match chunks with
  | [] => (Ret NO_ERROR, t, m)
  | c :: chunks' =>
      and_then (CreateUpdate Hash t m data c tree)
        (fun t1 m1 => CreateUpdates t1 m1 (data + c) chunks' tree)
  end.

Definition total (chunks : list Z) : Z := fold_right Z.add 0 chunks.

Lemma total_nonneg chunks : Forall (fun c => 0 <= c) chunks -> 0 <= total chunks.
Proof. unfold total. induction 1; cbn [fold_right]; lia. Qed.

Lemma CreateUpdates_whole (chunks : list Z) : forall t m data tree,
  Forall (fun c => 0 <= c) chunks -> initialized_ t = true ->
  0 <= offset_ t -> offset_ t + total chunks <= length_ t ->
  length_ t < 2 ^ 64 -> 0 <= data ->
  CreateUpdates t m data chunks tree =
  CreateUpdate Hash t m data (total chunks) tree.
Proof.
  induction chunks as [|c chunks IH]; intros t m data tree Hc Hi Ho Hr Hb Hd.
  - cbn. now rewrite CreateUpdate_nothing.
  - inversion Hc as [|? ? Hc0 Hcs]; subst.
    pose proof (total_nonneg chunks Hcs) as Htn.
    cbn [CreateUpdates total fold_right] in *. fold (total chunks) in *.
    replace (c + total chunks) with (Z.of_nat (Z.to_nat c) + total chunks)
      by (rewrite Z2Nat.id; lia).
    rewrite CreateUpdate_split by (rewrite ?Z2Nat.id; lia).
    rewrite (Z2Nat.id c Hc0).
    destruct (CreateUpdate Hash t m data c tree) as [[rc t1] m1] eqn:E1.
    destruct rc as [[]|]; cbn [and_then]; try reflexivity.
    rewrite <- (Z2Nat.id c Hc0) in E1.
    assert (Hr' : offset_ t + Z.of_nat (Z.to_nat c) <= length_ t).
    { rewrite Z2Nat.id by assumption. lia. }
    destruct (CreateUpdate_advances _ t m data tree t1 m1 Ho Hr' Hb Hd E1)
      as [Ho1 Hs1].
    rewrite Z2Nat.id in Ho1 by assumption.
    destruct (shape_eq_fields _ _ Hs1) as (Hi1 & _ & Hl1).
    apply IH; try assumption; try congruence; rewrite ?Ho1, ?Hl1; lia.
Qed.

(** [Tree::Create] with its one call of [CreateUpdate] replaced by the
    calls of a caller who streams the pieces [chunks]. *)
Definition CreateStreamed (heap : nat) (m : Mem) (data data_len : Z)
  (chunks : list Z) (tree tree_len : Z) (digest : option Digest)
  : outcome * Mem * option Digest :=
  let mt := Tree_new in
  match CreateInit heap mt data_len tree_len with
  | (NO_ERROR, mt) =>
      match CreateUpdates mt m data chunks tree with
      | (Ret NO_ERROR, mt, m) =>
          let '(rc, _, m, digest) := CreateFinal Hash mt m tree digest in
          (rc, m, digest)
      | (rc, _, m) => (rc, m, digest)
      end
  | (rc, _) => (Ret rc, m, digest)
  end.

Lemma CreateStreamed_Create heap m data data_len chunks tree tree_len digest :
  Forall (fun c => 0 <= c) chunks -> total chunks = data_len ->
  data_len < 2 ^ 64 -> 0 <= data ->
  CreateStreamed heap m data data_len chunks tree tree_len digest =
  Create Hash heap m data data_len tree tree_len digest.
Proof.
  intros Hc Ht Hb Hd. unfold CreateStreamed, Create.
  pose proof (CreateInit_fields heap Tree_new data_len tree_len) as Hf.
  destruct (CreateInit heap Tree_new data_len tree_len) as [rc mt].
  cbn [snd] in Hf. destruct Hf as (Hi & Ho & Hl & _).
  destruct rc; try reflexivity.
  rewrite CreateUpdates_whole by (rewrite ?Ho, ?Hl; (assumption || lia)).
  now rewrite Ht.
Qed.

Lemma total_repeat_one (n : nat) : total (repeat 1 n) = Z.of_nat n.
Proof. induction n as [|n IH]; cbn [repeat total fold_right]; [reflexivity|].
  fold (total (repeat 1 n)). lia. Qed.

End Pieces.

(** ** The tree buffer that [CreateInit] asks for *)

Lemma GetTreeLength_step data_len :
  0 <= data_len < 2 ^ 64 -> NextAligned data_len <> 0 ->
  GetTreeLength data_len =
  NextAligned data_len + GetTreeLength (NextAligned data_len).
Proof.
  intros Hr Hnz. rewrite GetTreeLength_eq. cbv zeta.
  destruct (Z.eqb_spec (NextAligned data_len) 0) as [|_]; [contradiction|].
  assert (Hg : kNodeSize < data_len).
  { destruct (Z_le_gt_dec data_len kNodeSize); [|lia].
    now rewrite NextAligned_small in Hnz. }
  pose proof (GetTreeLength_sum_bound data_len Hr Hg).
  apply wrap64_small. lia.
Qed.

Lemma CreateInit_status_is (heap : nat) : forall t data_len tree_len,
  0 <= data_len < 2 ^ 64 -> 0 <= tree_len ->
  (levels_above data_len <= heap)%nat ->
  fst (CreateInit heap t data_len tree_len) =
  if tree_len <? GetTreeLength data_len then ERR_BUFFER_TOO_SMALL else NO_ERROR.
Proof.
  induction heap as [|heap IH]; intros t data_len tree_len Hr Ht Hl;
    cbn [CreateInit].
  - destruct (Z.leb_spec data_len kNodeSize) as [Hs|Hg].
    + rewrite GetTreeLength_small by assumption.
      destruct (Z.ltb_spec tree_len 0); [lia|reflexivity].
    + rewrite levels_above_step in Hl by lia. lia.
  - destruct (Z.leb_spec data_len kNodeSize) as [Hs|Hg].
    + rewrite GetTreeLength_small by assumption.
      destruct (Z.ltb_spec tree_len 0); [lia|reflexivity].
    + rewrite levels_above_step in Hl by lia.
      pose proof (NextAligned_range data_len) as Ha.
      pose proof (GetTreeLength_bound (NextAligned data_len) Ha) as Hb.
      destruct (Z.eq_dec (NextAligned data_len) 0) as [Hz|Hnz].
      * rewrite (GetTreeLength_eq data_len). cbv zeta. rewrite Hz.
        change (0 =? 0) with true. cbv iota.
        destruct (Z.ltb_spec tree_len 0); [lia|].
        match goal with |- context [CreateInit heap ?n ?d ?l] =>
          specialize (IH n d l); destruct (CreateInit heap n d l) as [rc n'] end.
        cbn [fst] in *. rewrite IH; try lia.
        -- rewrite GetTreeLength_small by klia.
           destruct (Z.ltb_spec (tree_len - 0) 0); [lia|reflexivity].
        -- rewrite levels_above_small by klia. lia.
      * rewrite (GetTreeLength_step data_len Hr Hnz).
        destruct (Z.ltb_spec tree_len (NextAligned data_len)) as [Hlt|Hge].
        -- cbn [fst].
           destruct (Z.ltb_spec tree_len
                       (NextAligned data_len + GetTreeLength (NextAligned data_len)));
             [reflexivity|lia].
        -- match goal with |- context [CreateInit heap ?n ?d ?l] =>
             specialize (IH n d l); destruct (CreateInit heap n d l) as [rc n'] end.
           cbn [fst] in *. rewrite IH by lia.
           destruct (Z.ltb_spec (tree_len - NextAligned data_len)
                       (GetTreeLength (NextAligned data_len)));
             destruct (Z.ltb_spec tree_len
                         (NextAligned data_len + GetTreeLength (NextAligned data_len)));
             try reflexivity; lia.
Qed.

Lemma CreateInit_no_heap (heap : nat) : forall t data_len tree_len,
  0 <= data_len < 2 ^ 64 -> GetTreeLength data_len <= tree_len ->
  (heap < levels_above data_len)%nat ->
  fst (CreateInit heap t data_len tree_len) = ERR_NO_MEMORY.
Proof.
  induction heap as [|heap IH]; intros t data_len tree_len Hr Ht Hl;
    cbn [CreateInit].
  - destruct (Z.leb_spec data_len kNodeSize) as [Hs|Hg]; [|reflexivity].
    rewrite levels_above_small in Hl by assumption. lia.
  - destruct (Z.leb_spec data_len kNodeSize) as [Hs|Hg].
    { rewrite levels_above_small in Hl by assumption. lia. }
    rewrite levels_above_step in Hl by lia.
    pose proof (NextAligned_range data_len) as Ha.
    pose proof (GetTreeLength_bound (NextAligned data_len) Ha) as Hb.
    destruct (Z.eq_dec (NextAligned data_len) 0) as [Hz|Hnz].
    { rewrite Hz, levels_above_small in Hl by klia. lia. }
    rewrite (GetTreeLength_step data_len Hr Hnz) in Ht.
    destruct (Z.ltb_spec tree_len (NextAligned data_len)) as [Hlt|Hge]; [lia|].
    match goal with |- context [CreateInit heap ?n ?d ?l] =>
      specialize (IH n d l); destruct (CreateInit heap n d l) as [rc n'] end.
    cbn [fst] in *. apply IH; lia.
Qed.

(** ** Size of the tree *)

Lemma NextAligned_monotone a b :
  0 <= a <= b -> b <= 2 ^ 64 - kNodeSize -> NextAligned a <= NextAligned b.
Proof. intros H1 H2. geometry. Qed.

Lemma NextAligned_no_wrap b :
  0 <= b <= 2 ^ 64 - kNodeSize -> NextAligned b <= 2 ^ 64 - kNodeSize.
Proof. intros H. geometry. Qed.

Lemma GetTreeLength_aligned : forall data_len,
  0 <= data_len < 2 ^ 64 -> GetTreeLength data_len mod kNodeSize = 0.
Proof.
  intros data_len.
  induction data_len as [data_len IH]
    using (well_founded_induction (Z.lt_wf 0)).
  intros Hr.
  destruct (Z.eq_dec (NextAligned data_len) 0) as [Hz|Hnz].
  - rewrite GetTreeLength_eq. cbv zeta. rewrite Hz. reflexivity.
  - rewrite GetTreeLength_step by assumption.
    assert (Hg : kNodeSize < data_len).
    { destruct (Z_le_gt_dec data_len kNodeSize); [|lia].
      now rewrite NextAligned_small in Hnz. }
    pose proof (NextAligned_range data_len) as Ha.
    pose proof (NextAligned_decreases data_len Hg) as Hd.
    pose proof (NextAligned_aligned data_len) as Hal.
    pose proof (IH (NextAligned data_len) ltac:(lia) Ha) as Hrec.
    rewrite Z.add_mod by klia. rewrite Hal, Hrec. reflexivity.
Qed.

Lemma GetTreeLength_monotone : forall b a,
  0 <= a <= b -> b <= 2 ^ 64 - kNodeSize ->
  GetTreeLength a <= GetTreeLength b.
Proof.
  intros b.
  induction b as [b IH] using (well_founded_induction (Z.lt_wf 0)).
  intros a Hab Hb.
  assert (Hra : 0 <= a < 2 ^ 64) by klia.
  assert (Hrb : 0 <= b < 2 ^ 64) by klia.
  destruct (Z.eq_dec (NextAligned a) 0) as [Hz|Hnz].
  - rewrite (GetTreeLength_eq a). cbv zeta. rewrite Hz.
    change (0 =? 0) with true. cbv iota.
    apply (GetTreeLength_bound b Hrb).
  - assert (Hg : kNodeSize < a).
    { destruct (Z_le_gt_dec a kNodeSize); [|lia].
      now rewrite NextAligned_small in Hnz. }
    pose proof (NextAligned_monotone a b Hab Hb) as Hm.
    pose proof (NextAligned_range a) as Ha.
    pose proof (NextAligned_decreases b ltac:(lia)) as Hd.
    pose proof (NextAligned_no_wrap b ltac:(lia)) as Hnw.
    rewrite (GetTreeLength_step a) by assumption.
    rewrite (GetTreeLength_step b) by lia.
    pose proof (IH (NextAligned b) ltac:(lia) (NextAligned a) ltac:(lia) Hnw).
    lia.
Qed.

(** ** One call of [CreateUpdate] that stays inside a node *)

Section NodeStep.

Variable Hash : list byte -> list byte.

(** The digest of a level after it has absorbed the [c] bytes at
    [data]. *)
Definition absorbed (t : Tree) (m : Mem) (data c : Z) : Digest :=
  Digest_Update
    (if offset_ t mod kNodeSize =? 0
     then DigestInit (digest_ t) (Z.lor (offset_ t) (level_ t))
            (wrap64 (length_ t - offset_ t))
     else digest_ t)
    (load m data c).

(** The memory after a level has stored the digest [d] of the node that
    it is in. *)
Definition stored (t : Tree) (m : Mem) (tree : Z) (d : Digest) : Mem :=
  store
    (if tree_off_of t mod kNodeSize =? 0
     then memset m (tree + tree_off_of t) x00 kNodeSize
     else m)
    (tree + tree_off_of t) (firstn (Z.to_nat kLength) (bytes_ d)).

Lemma CreateUpdate_within_node t m data c tree :
  initialized_ t = true -> 0 < c -> 0 <= offset_ t ->
  offset_ t mod kNodeSize + c <= kNodeSize ->
  offset_ t + c <= length_ t -> length_ t < 2 ^ 64 ->
  is_null data || (is_null tree && (length_ t >? kNodeSize)) = false ->
  CreateUpdate Hash t m data c tree =
  let d := absorbed t m data c in
  let o' := offset_ t + c in
  if negb (o' mod kNodeSize =? 0) && negb (o' =? length_ t)
  then (Ret NO_ERROR, mkTree true (next_ t) (level_ t) o' (length_ t) d, m)
  else
    let d' := DigestFinal Hash d o' in
    if length_ t <=? kNodeSize
    then (Ret NO_ERROR, mkTree true (next_ t) (level_ t) o' (length_ t) d', m)
    else
      let m' := stored t m tree d' in
      match next_ t with
      | None => (NullDeref, mkTree true None (level_ t) o' (length_ t) d', m')
      | Some n =>
          let '(rc, n', m'') :=
            CreateUpdate Hash n m' (tree + tree_off_of t) kLength
              (tree + NextAligned (length_ t)) in
          (rc, mkTree true (Some n') (level_ t) o' (length_ t) d', m'')
      end.
Proof.
  intros Hi Hc Ho Hn Hr Hb Ha.
  rewrite CreateUpdate_enters by assumption.
  replace (Z.to_nat c) with (S (Z.to_nat c - 1)) by lia.
  rewrite CreateUpdate_loop_pass by (frame_fields; reflexivity || lia).
  unfold absorb, finish, start, absorbed, stored, tree_off_of.
  destruct t as [i nx k o L d0].
  cbn [f_this f_mem f_in f_length f_out f_tree_off f_rc
       initialized_ next_ level_ offset_ length_ digest_
       set_offset set_digest set_next] in *.
  subst i.
  rewrite min_spec, Z.min_l by lia.
  rewrite (wrap64_small (o + c)) by lia.
  destruct (negb ((o + c) mod kNodeSize =? 0) && negb (o + c =? L));
    [reflexivity|].
  destruct (L <=? kNodeSize); [reflexivity|].
  destruct nx as [n|]; [|reflexivity].
  cbn [height next_update]. unfold CreateUpdate.
  destruct (CreateUpdate_rec Hash (height n) n _ _ _ _) as [[rc n'] m''].
  rewrite Z.sub_diag.
  destruct (Z.to_nat c - 1)%nat; cbn [CreateUpdate_loop f_length];
    change (0 >? 0) with false; cbn [andb]; reflexivity.
Qed.

End NodeStep.

(** ** A blob of at most one node *)

Section SingleNode.

Variable Hash : list byte -> list byte.

Lemma CreateInit_single_node heap data_len tree_len :
  data_len <= kNodeSize ->
  CreateInit heap Tree_new data_len tree_len =
  (NO_ERROR, mkTree true None 0 0 data_len Digest_new).
Proof.
  intros Hs. destruct heap; cbn [CreateInit];
    destruct (Z.leb_spec data_len kNodeSize); try lia; reflexivity.
Qed.

Lemma Create_single_node heap m data data_len tree tree_len root0 :
  0 < data_len <= kNodeSize -> is_null data = false ->
  Create Hash heap m data data_len tree tree_len (Some root0) =
  (Ret NO_ERROR, m,
   Some (DigestFinal Hash
           (Digest_Update (DigestInit Digest_new 0 data_len)
              (load m data data_len)) data_len)).
Proof.
  intros Hl Hd. unfold Create.
  rewrite CreateInit_single_node by lia.
  assert (Hsmall : (data_len >? kNodeSize) = false)
    by (destruct (Z.gtb_spec data_len kNodeSize); [lia|reflexivity]).
  rewrite CreateUpdate_within_node;
    cbn [initialized_ next_ level_ offset_ length_ digest_];
    try reflexivity; try klia.
  2:{ rewrite Z.mod_0_l by klia. lia. }
  2:{ rewrite Hd, Hsmall, andb_false_r. reflexivity. }
  cbv zeta. rewrite Z.add_0_l, Z.eqb_refl, andb_false_r.
  destruct (Z.leb_spec data_len kNodeSize) as [_|]; [|lia].
  unfold absorbed. cbn [initialized_ next_ level_ offset_ length_ digest_].
  rewrite Z.mod_0_l by klia. change (0 =? 0) with true. cbv iota.
  change (Z.lor 0 0) with 0. rewrite Z.sub_0_r, wrap64_small by klia.
  unfold CreateFinal, CreateFinalInternal.
  rewrite CreateFinalInternal_rec_eq, CreateFinalInternal_body_result.
  cbn [initialized_ negb level_ offset_ length_ andb orb].
  rewrite Z.eqb_refl, Hsmall, andb_false_r. cbn [negb andb orb]. cbv zeta.
  destruct (Z.eqb_spec data_len 0); [lia|].
  cbn [offset_ length_]. rewrite Z.sub_diag. change (wrap64 0) with 0.
  rewrite CreateUpdate_nothing by reflexivity.
  rewrite length_set_initialized. cbn [length_].
  destruct (Z.leb_spec data_len kNodeSize) as [_|]; [|lia].
  rewrite ?Z.eqb_refl. reflexivity.
Qed.

Lemma ctx_single_node m data data_len :
  0 < data_len <= kNodeSize ->
  ctx_ (DigestFinal Hash
          (Digest_Update (DigestInit Digest_new 0 data_len)
             (load m data data_len)) data_len) =
  le_bytes 8 0 ++ le_bytes 4 data_len ++ load m data data_len ++
  repeat x00 (Z.to_nat (kNodeSize - data_len)).
Proof.
  intros Hl. unfold DigestFinal, DigestInit, Digest_Final, Digest_Update,
    Digest_Init. cbv zeta. cbn [ctx_ bytes_].
  rewrite min_spec, Z.min_l by lia.
  rewrite (Z.mod_small data_len (2 ^ 32)) by klia.
  destruct (Z.eq_dec data_len kNodeSize) as [He|Hne].
  - replace (data_len mod kNodeSize) with 0
      by (rewrite He, Z.mod_same; klia).
    change (0 =? 0) with true. cbn [negb ctx_].
    replace (Z.to_nat (kNodeSize - data_len)) with 0%nat by lia.
    cbn [repeat]. rewrite app_nil_r, <- !app_assoc. reflexivity.
  - rewrite Z.mod_small by lia.
    destruct (Z.eqb_spec data_len 0); [lia|]. cbn [negb ctx_].
    rewrite <- !app_assoc. reflexivity.
Qed.

Lemma VerifyRoot_actual_one_node m data :
  VerifyRoot_actual Hash m data kNodeSize 0 =
  DigestFinal Hash
    (Digest_Update (DigestInit Digest_new 0 kNodeSize) (load m data kNodeSize))
    kNodeSize.
Proof. reflexivity. Qed.

End SingleNode.

(** ** The length of the tree buffer in [Verify] *)

Section VerifyTreeLength.

Variable Hash : list byte -> list byte.

Lemma VerifyLevel_loop_status (fuel : nat) :
  forall m in_ data_len offset length level expected,
  VerifyLevel_loop Hash fuel m in_ data_len offset length level expected = NO_ERROR \/
  VerifyLevel_loop Hash fuel m in_ data_len offset length level expected =
    ERR_IO_DATA_INTEGRITY.
Proof.
  induction fuel as [|fuel IH]; intros; cbn [VerifyLevel_loop]; [now left|].
  destruct (length >? 0); [|now left].
  destruct (VerifyLevel_actual Hash m in_ data_len offset length level)
    as [actual chunk].
  destruct (negb _); [now right|]. apply IH.
Qed.

Lemma VerifyLevel_status m data data_len tree offset length level :
  VerifyLevel Hash m data data_len tree offset length level <>
  ERR_BUFFER_TOO_SMALL.
Proof.
  unfold VerifyLevel.
  destruct (_ || _); [discriminate|].
  destruct (_ >? _); [discriminate|]. cbv zeta.
  match goal with |- VerifyLevel_loop _ ?f ?m ?i ?d ?o ?l ?v ?e <> _ =>
    destruct (VerifyLevel_loop_status f m i d o l v e) as [E|E]; rewrite E end;
    discriminate.
Qed.

Lemma Verify_loop_short_tree : forall data_len,
  forall m data tree tree_len offset length root level root_len,
  0 <= data_len < 2 ^ 64 -> 0 <= tree_len < GetTreeLength data_len ->
  Verify_loop Hash m data data_len tree tree_len offset length root level root_len
  <> NO_ERROR.
Proof.
  intros data_len.
  induction data_len as [data_len IH] using (well_founded_induction (Z.lt_wf 0)).
  intros m data tree tree_len offset length root level root_len Hd Ht.
  rewrite Verify_loop_eq.
  destruct (Z.gtb_spec data_len kNodeSize) as [Hg|Hs].
  - destruct (VerifyLevel Hash m data data_len tree offset length level);
      try discriminate.
    destruct (Z.ltb_spec tree_len (NextAligned data_len)) as [|Hge];
      [discriminate|].
    assert (Hnz : NextAligned data_len <> 0).
    { intros Hz. rewrite GetTreeLength_eq in Ht. cbv zeta in Ht.
      rewrite Hz in Ht. change (0 =? 0) with true in Ht. cbv iota in Ht. lia. }
    rewrite (GetTreeLength_step data_len Hd Hnz) in Ht.
    pose proof (NextAligned_range data_len).
    pose proof (NextAligned_decreases data_len Hg).
    apply IH; lia.
  - rewrite GetTreeLength_small in Ht by assumption. lia.
Qed.

Lemma Verify_loop_long_tree : forall data_len,
  forall m data tree tree_len offset length root level root_len,
  0 <= data_len < 2 ^ 64 -> GetTreeLength data_len <= tree_len ->
  Verify_loop Hash m data data_len tree tree_len offset length root level root_len
  <> ERR_BUFFER_TOO_SMALL.
Proof.
  intros data_len.
  induction data_len as [data_len IH] using (well_founded_induction (Z.lt_wf 0)).
  intros m data tree tree_len offset length root level root_len Hd Ht.
  rewrite Verify_loop_eq.
  destruct (Z.gtb_spec data_len kNodeSize) as [Hg|Hs].
  - pose proof (VerifyLevel_status m data data_len tree offset length level) as Hl.
    destruct (VerifyLevel Hash m data data_len tree offset length level);
      try discriminate; try contradiction.
    pose proof (NextAligned_range data_len) as Ha.
    pose proof (NextAligned_decreases data_len Hg).
    pose proof (GetTreeLength_bound (NextAligned data_len) Ha).
    destruct (Z.eq_dec (NextAligned data_len) 0) as [Hz|Hnz].
    + rewrite Hz. destruct (Z.ltb_spec tree_len 0) as [|Hge].
      * rewrite GetTreeLength_eq in Ht. cbv zeta in Ht. rewrite Hz in Ht.
        change (0 =? 0) with true in Ht. cbv iota in Ht. lia.
      * apply IH; try klia. rewrite GetTreeLength_small by klia. lia.
    + rewrite (GetTreeLength_step data_len Hd Hnz) in Ht.
      destruct (Z.ltb_spec tree_len (NextAligned data_len)) as [|Hge]; [lia|].
      apply IH; lia.
  - destruct (VerifyRoot_status Hash m data root_len level root) as [E|[E|E]];
      rewrite E; discriminate.
Qed.

End VerifyTreeLength.

(** ** The part of a range that [VerifyLevel] checks *)

Lemma touched_above data data_len tree offset length root_len a :
  touched data data_len tree offset length root_len a ->
  0 <= offset -> 0 <= length -> data_len < 2 ^ 64 ->
  data <= a \/ tree <= a.
Proof.
  induction 1 as [d dl t o l rl a Hs Ha|d dl t o l rl a Hg Ha|d dl t o l rl a Hg Ha
                 |d dl t o l rl a Hg Ht IH]; intros Ho Hl Hb.
  - left. lia.
  - left. pose proof (Z.mod_le o kNodeSize Ho ltac:(klia)). lia.
  - right.
    assert (0 <= (o - o mod kNodeSize) / kDigestsPerNode).
    { pose proof (Z.mod_le o kNodeSize Ho ltac:(klia)).
      apply Z.div_pos; klia. }
    lia.
  - right. pose proof (NextAligned_range dl).
    pose proof (NextAligned_decreases dl Hg).
    destruct IH as [IH|IH]; try lia;
      try (apply Z.div_pos; klia).
Qed.

Section Unchecked.

Variable Hash : list byte -> list byte.

Lemma VerifyLevel_ext_checked m1 m2 data data_len tree offset length level :
  0 <= offset -> 0 <= length -> offset + length <= data_len ->
  data_len <= 2 ^ 64 - kNodeSize ->
  (forall a, data + (offset - offset mod kNodeSize) <= a
               < data + roundup (offset - offset mod kNodeSize + length) kNodeSize ->
             m1 a = m2 a) ->
  (forall a, tree + (offset - offset mod kNodeSize) / kDigestsPerNode <= a
               < tree + roundup (offset - offset mod kNodeSize + length) kNodeSize
                        / kDigestsPerNode ->
             m1 a = m2 a) ->
  VerifyLevel Hash m1 data data_len tree offset length level =
  VerifyLevel Hash m2 data data_len tree offset length level.
Proof.
  intros Ho Hl Hr Hd Hnode Hdig. unfold VerifyLevel.
  destruct (_ || _); [reflexivity|].
  destruct (_ >? _); [reflexivity|]. cbv zeta.
  set (al := offset - offset mod kNodeSize) in *.
  pose proof (Z.mod_pos_bound offset kNodeSize ltac:(klia)) as Hm.
  pose proof (Z.mod_le offset kNodeSize Ho ltac:(klia)) as Hm'.
  assert (Hal : al mod kNodeSize = 0).
  { subst al. pose proof kNodeSize_val as E1. rewrite E1 in *.
    clear - Ho. Z.div_mod_to_equations. lia. }
  rewrite (wrap64_small (al + length)) by (subst al; klia).
  assert (Hru : roundup (al + length) kNodeSize =
                (al + length + (kNodeSize - 1)) / kNodeSize * kNodeSize)
    by (apply roundup_exact; subst al; klia).
  assert (Hle : al <= roundup (al + length) kNodeSize < 2 ^ 64).
  { rewrite Hru. subst al. pose proof kNodeSize_val as E1. rewrite E1 in *.
    clear - Ho Hl Hr Hd Hm Hm'. Z.div_mod_to_equations. lia. }
  rewrite (wrap64_small (roundup (al + length) kNodeSize - al)) by lia.
  set (len' := roundup (al + length) kNodeSize - al).
  assert (Hlm : len' mod kNodeSize = 0).
  { subst len'. rewrite Hru. pose proof kNodeSize_val as E1. rewrite E1 in *.
    clear - Hal. Z.div_mod_to_equations. lia. }
  assert (Hdq : al / kDigestsPerNode + len' / kDigestsPerNode <=
                roundup (al + length) kNodeSize / kDigestsPerNode).
  { subst len'. pose proof kNodeSize_val as E1. pose proof kDigestsPerNode_val as E2.
    rewrite E1, E2 in *. clear - Hal Hlm Hle. Z.div_mod_to_equations. lia. }
  apply VerifyLevel_loop_ext; try assumption.
  - intros a Ha. apply Hnode. subst len'. lia.
  - intros a Ha. apply Hdig. lia.
Qed.

End Unchecked.

(** ** Builders whose levels agree with one another *)

(** The number of nodes that a level of [L] bytes has finished when its
    offset is [o]: the whole nodes below [o], and the last, partial node
    once the level is complete. *)
Definition finished (L o : Z) : Z :=
  if o =? L then (L + (kNodeSize - 1)) / kNodeSize else o / kNodeSize.

Ltac arith :=
  unfold finished, tree_off_of in *;
  repeat match goal with
         | |- context [?a =? ?b] => destruct (Z.eqb_spec a b)
         | H : context [?a =? ?b] |- _ => destruct (Z.eqb_spec a b)
         end;
  pose proof kNodeSize_val as EN; pose proof kDigestsPerNode_val as ED;
  pose proof kLength_val as EL; rewrite ?EN, ?ED, ?EL in *;
  Z.div_mod_to_equations; lia.

Lemma finished_zero L : 0 <= L -> finished L 0 = 0.
Proof. intros. arith. Qed.

Lemma finished_stay L o c :
  0 <= o -> 0 < c -> o mod kNodeSize + c <= kNodeSize -> o + c <= L ->
  (o + c) mod kNodeSize <> 0 -> o + c <> L ->
  finished L (o + c) = finished L o.
Proof. intros. arith. Qed.

Lemma finished_next L o c :
  0 <= o -> 0 < c -> o mod kNodeSize + c <= kNodeSize -> o + c <= L ->
  (o + c) mod kNodeSize = 0 \/ o + c = L ->
  finished L (o + c) = finished L o + 1.
Proof. intros Ho Hc Hn Hr [H|H]; arith. Qed.

Lemma finished_tree_off L o :
  0 <= o < L -> kLength * finished L o = (o - o mod kNodeSize) / kDigestsPerNode.
Proof. intros. arith. Qed.

Lemma NextAligned_exact L :
  kNodeSize < L <= 2 ^ 64 - kNodeSize ->
  NextAligned L =
  ((L + (kNodeSize - 1)) / kNodeSize * kLength + (kNodeSize - 1))
    / kNodeSize * kNodeSize.
Proof. intros H. geometry. Qed.

Lemma upper_fits L o :
  0 <= o < L -> kNodeSize < L <= 2 ^ 64 - kNodeSize ->
  kLength * finished L o + kLength <= NextAligned L /\
  (kLength * finished L o) mod kNodeSize + kLength <= kNodeSize /\
  0 <= kLength * finished L o.
Proof.
  intros Ho HL. rewrite NextAligned_exact by assumption. arith.
Qed.

Lemma upper_node_fits L o :
  0 <= o < L -> kNodeSize < L <= 2 ^ 64 - kNodeSize ->
  (kLength * finished L o) mod kNodeSize = 0 ->
  kLength * finished L o + kNodeSize <= NextAligned L.
Proof.
  intros Ho HL. rewrite NextAligned_exact by assumption. arith.
Qed.

(** The chain of a builder while data is fed to it: every level is
    initialised, numbered one above the level below it, as long as
    [NextAligned] says, and at the offset of the digests that the level
    below it has finished. *)
Fixpoint coherent (t : Tree) : Prop :=
  match t with
  | mkTree i nx k o L d =>
      i = true /\ 0 <= k < 2 ^ 64 /\ 0 <= o <= L /\ L <= 2 ^ 64 - kNodeSize /\
      match nx with
      | None => L <= kNodeSize
      | Some n =>
          kNodeSize < L /\ level_ n = k + 1 /\ length_ n = NextAligned L /\
          offset_ n = kLength * finished L o /\ coherent n
      end
  end.

Lemma coherent_eq t :
  coherent t <->
  initialized_ t = true /\ 0 <= level_ t < 2 ^ 64 /\
  0 <= offset_ t <= length_ t /\ length_ t <= 2 ^ 64 - kNodeSize /\
  match next_ t with
  | None => length_ t <= kNodeSize
  | Some n =>
      kNodeSize < length_ t /\ level_ n = level_ t + 1 /\
      length_ n = NextAligned (length_ t) /\
      offset_ n = kLength * finished (length_ t) (offset_ t) /\ coherent n
  end.
Proof. destruct t as [i [n|] k o L d]; reflexivity. Qed.

(** [m'] is [m] except inside [[lo, hi)]. *)
Definition unchanged_outside (m m' : Mem) (lo hi : Z) : Prop :=
  forall a, ~ (lo <= a < hi) -> m' a = m a.

Lemma unchanged_outside_refl m lo hi : unchanged_outside m m lo hi.
Proof. intros a _. reflexivity. Qed.

Lemma unchanged_outside_trans m1 m2 m3 lo hi lo' hi' lo'' hi'' :
  unchanged_outside m1 m2 lo' hi' -> unchanged_outside m2 m3 lo'' hi'' ->
  lo <= lo' -> hi' <= hi -> lo <= lo'' -> hi'' <= hi ->
  unchanged_outside m1 m3 lo hi.
Proof.
  intros H12 H23 ? ? ? ? a Ha. rewrite H23 by lia. apply H12. lia.
Qed.

Lemma stored_unchanged t m tr d B :
  0 <= tree_off_of t -> tree_off_of t + kLength <= B ->
  (tree_off_of t mod kNodeSize = 0 -> tree_off_of t + kNodeSize <= B) ->
  unchanged_outside m (stored t m tr d) tr (tr + B).
Proof.
  intros H0 H1 H2 a Ha. unfold stored, store, memset.
  pose proof (firstn_le_length (Z.to_nat kLength) (bytes_ d)) as Hf.
  destruct (Z.eqb_spec (tree_off_of t mod kNodeSize) 0) as [E|E];
    [specialize (H2 E)|clear H2];
    repeat match goal with
           | |- context [?x <=? ?y] => destruct (Z.leb_spec x y)
           | |- context [?x <? ?y] => destruct (Z.ltb_spec x y)
           end; cbn [andb]; try reflexivity; exfalso; klia.
Qed.

Lemma not_null p : 0 < p -> is_null p = false.
Proof. intros H. unfold is_null, nullptr. destruct (Z.eqb_spec p 0); [lia|reflexivity]. Qed.

Section Coherence.

Variable Hash : list byte -> list byte.

(** A call that stays inside a node succeeds on a coherent chain, leaves
    it coherent and writes only to the part of the tree buffer that
    [GetTreeLength] counts. *)
Lemma CreateUpdate_step (h : nat) : forall t m data c tr,
  height t = h -> coherent t -> 0 < c ->
  offset_ t mod kNodeSize + c <= kNodeSize -> offset_ t + c <= length_ t ->
  0 < data -> (kNodeSize < length_ t -> 0 < tr) ->
  exists t' m',
    CreateUpdate Hash t m data c tr = (Ret NO_ERROR, t', m') /\
    coherent t' /\ offset_ t' = offset_ t + c /\ shape t' = shape t /\
    unchanged_outside m m' tr (tr + GetTreeLength (length_ t)).
Proof.
  induction h as [|h IH]; intros t m data c tr Hh Hco Hc Hn Hr Hd Htr.
  - (* the top of the tree *)
    pose proof (CreateUpdate_shape Hash t m data c tr) as Hsh.
    apply coherent_eq in Hco. destruct Hco as (Hi & Hk & Ho & HL & Hnx).
    assert (Hnone : next_ t = None).
    { destruct t as [i [n|] k o L d]; [discriminate|reflexivity]. }
    rewrite Hnone in Hnx.
    assert (Hw := CreateUpdate_within_node Hash t m data c tr Hi Hc
                    (proj1 Ho) Hn Hr ltac:(klia)).
    rewrite Hw in Hsh |- * by
      (rewrite (not_null data Hd);
       destruct (Z.gtb_spec (length_ t) kNodeSize); [lia|];
       now rewrite andb_false_r).
    clear Hw. cbv zeta in *.
    destruct (Z.leb_spec (length_ t) kNodeSize) as [_|]; [|lia].
    destruct (negb _ && negb _);
      (eexists; eexists; split; [reflexivity|]);
      cbn [fst snd] in Hsh;
      (split; [apply coherent_eq;
               cbn [initialized_ next_ level_ offset_ length_];
               rewrite Hnone; repeat split; lia|]);
      (split; [reflexivity|]); (split; [exact Hsh|]);
      apply unchanged_outside_refl.
  - pose proof (CreateUpdate_shape Hash t m data c tr) as Hsh.
    apply coherent_eq in Hco. destruct Hco as (Hi & Hk & Ho & HL & Hnx).
    destruct (next_ t) as [n|] eqn:Hnext.
    2:{ destruct t as [i [n|] k o L d]; discriminate. }
    destruct Hnx as (Hbig & Hln & HLn & Hon & Hcn).
    specialize (Htr Hbig).
    assert (Hhn : height n = h).
    { rewrite (height_next t n Hnext) in Hh. now injection Hh. }
    assert (Hw := CreateUpdate_within_node Hash t m data c tr Hi Hc
                    (proj1 Ho) Hn Hr ltac:(klia)).
    rewrite Hw in Hsh |- * by
      (now rewrite (not_null data Hd), (not_null tr Htr)).
    clear Hw. cbv zeta in *. rewrite Hnext in Hsh |- *.
    destruct (Z.leb_spec (length_ t) kNodeSize) as [|_]; [lia|].
    pose proof (NextAligned_range (length_ t)) as HNr.
    pose proof (NextAligned_positive (length_ t) ltac:(lia)) as HNp.
    assert (Hstep : GetTreeLength (length_ t) =
                    NextAligned (length_ t) + GetTreeLength (NextAligned (length_ t))).
    { apply GetTreeLength_step; klia. }
    pose proof (GetTreeLength_bound (NextAligned (length_ t)) HNr) as HGb.
    destruct (negb ((offset_ t + c) mod kNodeSize =? 0) &&
              negb (offset_ t + c =? length_ t)) eqn:Hend.
    + (* the node is not complete *)
      apply andb_prop in Hend as [He1 He2].
      apply negb_true_iff in He1, He2.
      apply Z.eqb_neq in He1, He2.
      eexists; eexists; split; [reflexivity|].
      cbn [fst snd] in Hsh.
      split; [|split; [reflexivity|split; [exact Hsh|apply unchanged_outside_refl]]].
      apply coherent_eq. cbn [initialized_ next_ level_ offset_ length_].
      repeat split; try lia; try assumption.
      rewrite finished_stay by lia. exact Hon.
    + (* the node is complete: its digest goes to the next level *)
      assert (Hfin : (offset_ t + c) mod kNodeSize = 0 \/ offset_ t + c = length_ t).
      { apply andb_false_iff in Hend as [He|He]; apply negb_false_iff in He;
          apply Z.eqb_eq in He; auto. }
      destruct (upper_fits (length_ t) (offset_ t) ltac:(lia) ltac:(lia))
        as (Hf1 & Hf2 & Hf3).
      pose proof (finished_tree_off (length_ t) (offset_ t) ltac:(lia)) as Hto.
      fold (tree_off_of t) in Hto.
      set (d' := DigestFinal Hash (absorbed t m data c) (offset_ t + c)) in *.
      destruct (IH n (stored t m tr d') (tr + tree_off_of t) kLength
                  (tr + NextAligned (length_ t)) Hhn Hcn)
        as (n' & m'' & Hcall & Hcn' & Hon' & Hsn' & Hfr');
        try (rewrite ?Hon, ?HLn, <- ?Hto; klia).
      rewrite Hcall in *. cbn [fst snd] in Hsh.
      eexists; eexists; split; [reflexivity|].
      destruct (shape_eq_fields _ _ Hsn') as (_ & Hl' & HL').
      split; [|split; [reflexivity|split; [exact Hsh|]]].
      * apply coherent_eq. cbn [initialized_ next_ level_ offset_ length_].
        repeat split; try lia; try assumption; try congruence.
        rewrite Hon', Hon, finished_next by lia. lia.
      * rewrite HLn in Hfr'.
        eapply unchanged_outside_trans.
        -- apply (stored_unchanged t m tr d' (NextAligned (length_ t))).
           ++ rewrite <- Hto. lia.
           ++ rewrite <- Hto. lia.
           ++ rewrite <- Hto. intros Hal.
              apply upper_node_fits; try lia; exact Hal.
        -- exact Hfr'.
        -- lia.
        -- lia.
        -- lia.
        -- lia.
Qed.

End Coherence.

Lemma coherent_set_digest t d : coherent (set_digest t d) <-> coherent t.
Proof. destruct t as [i [n|] k o L d0]; reflexivity. Qed.

Lemma coherent_fields t :
  coherent t ->
  initialized_ t = true /\ 0 <= offset_ t <= length_ t /\
  length_ t <= 2 ^ 64 - kNodeSize.
Proof. intros H. apply coherent_eq in H. tauto. Qed.

(** [CreateInit] builds a coherent chain. *)
Lemma CreateInit_coherent (heap : nat) : forall t data_len tree_len t',
  next_ t = None -> 0 <= level_ t ->
  level_ t + Z.of_nat (levels_above data_len) < 2 ^ 64 ->
  0 <= data_len <= 2 ^ 64 - kNodeSize -> 0 <= tree_len ->
  CreateInit heap t data_len tree_len = (NO_ERROR, t') ->
  coherent t' /\ level_ t' = level_ t /\ offset_ t' = 0 /\ length_ t' = data_len
  /\ GetTreeLength data_len <= tree_len.
Proof.
  induction heap as [|heap IH]; intros t data_len tree_len t' Hn Hl Hb Hd Htl0;
    cbn [CreateInit].
  - destruct (Z.leb_spec data_len kNodeSize) as [Hs|]; [|discriminate].
    intros [= <-]. destruct t as [i nx l o len d]. cbn in Hn. subst nx.
    cbn in *. rewrite GetTreeLength_small by assumption.
    repeat split; try lia; reflexivity.
  - destruct (Z.leb_spec data_len kNodeSize) as [Hs|Hg].
    { intros [= <-]. destruct t as [i nx l o len d]. cbn in Hn. subst nx.
      cbn in *. rewrite GetTreeLength_small by assumption.
      repeat split; try lia; reflexivity. }
    destruct (Z.ltb_spec tree_len (NextAligned data_len)) as [|Hge];
      [discriminate|].
    set (n := set_level Tree_new _).
    rewrite levels_above_step in Hb by lia.
    assert (Hw : wrap64 (level_ t + 1) = level_ t + 1)
      by (apply wrap64_small; lia).
    assert (Hln : level_ n = level_ t + 1)
      by (subst n; destruct t; cbn in *; exact Hw).
    pose proof (NextAligned_range data_len) as HNr.
    pose proof (NextAligned_no_wrap data_len ltac:(lia)) as HNw.
    pose proof (NextAligned_positive data_len ltac:(lia)) as HNp.
    specialize (IH n (NextAligned data_len) (tree_len - NextAligned data_len)).
    destruct (CreateInit heap n _ _) as [rc n'].
    intros [= -> <-].
    destruct (IH n' eq_refl ltac:(lia) ltac:(lia) ltac:(lia) ltac:(lia) eq_refl)
      as (Hc & Hlev & Hoff & Hlen & Htl).
    rewrite (GetTreeLength_step data_len) by klia.
    destruct t as [i nx l o len d]. cbn in Hn. subst nx.
    cbn [set_next set_length set_offset set_initialized coherent
         initialized_ next_ level_ offset_ length_ digest_] in *.
    rewrite finished_zero by lia.
    repeat split; try lia; try assumption; reflexivity.
Qed.

Section CoherentCalls.

Variable Hash : list byte -> list byte.

(** Every call that does not overrun the data succeeds on a coherent
    chain. *)
Lemma CreateUpdate_coherent : forall len t m data tr,
  coherent t -> 0 <= len -> offset_ t + len <= length_ t ->
  (0 < len -> 0 < data) -> (kNodeSize < length_ t -> 0 < tr) ->
  exists t' m',
    CreateUpdate Hash t m data len tr = (Ret NO_ERROR, t', m') /\
    coherent t' /\ offset_ t' = offset_ t + len /\ shape t' = shape t /\
    unchanged_outside m m' tr (tr + GetTreeLength (length_ t)).
Proof.
  intros len.
  induction len as [len IH] using (well_founded_induction (Z.lt_wf 0)).
  intros t m data tr Hco Hl Hr Hd Htr.
  destruct (coherent_fields t Hco) as (Hi & Ho & HL).
  destruct (Z.eq_dec len 0) as [->|Hnz].
  { exists t, m. rewrite CreateUpdate_nothing by assumption.
    repeat split; try assumption; try lia; apply unchanged_outside_refl. }
  specialize (Hd ltac:(lia)).
  pose proof (Z.mod_pos_bound (offset_ t) kNodeSize ltac:(klia)) as Hm.
  destruct (Z_le_gt_dec (offset_ t mod kNodeSize + len) kNodeSize) as [Hin|Hout].
  { apply (CreateUpdate_step Hash (height t)); try assumption; try lia;
      reflexivity. }
  set (c := kNodeSize - offset_ t mod kNodeSize).
  assert (Hc : 0 < c < len) by (subst c; lia).
  pose proof (CreateUpdate_split Hash (Z.to_nat c) t m data (len - c) tr) as Hs.
  rewrite Z2Nat.id in Hs by lia.
  replace (c + (len - c)) with len in Hs by lia.
  rewrite Hs by klia. clear Hs.
  destruct (CreateUpdate_step Hash (height t) t m data c tr eq_refl Hco)
    as (t1 & m1 & Hcall1 & Hco1 & Ho1 & Hs1 & Hf1); try (subst c; lia);
    try assumption.
  rewrite Hcall1. cbn [and_then].
  destruct (shape_eq_fields _ _ Hs1) as (_ & _ & HL1).
  destruct (IH (len - c) ltac:(lia) t1 m1 (data + c) tr Hco1)
    as (t2 & m2 & Hcall2 & Hco2 & Ho2 & Hs2 & Hf2);
    try (rewrite ?Ho1, ?HL1; lia).
  exists t2, m2. rewrite Hcall2.
  repeat split; try assumption; try lia; try congruence.
  rewrite HL1 in Hf2.
  eapply unchanged_outside_trans; [exact Hf1|exact Hf2|lia|lia|lia|lia].
Qed.

(** [CreateFinalInternal] succeeds on a coherent chain whose level 0 is
    complete. *)
Lemma CreateFinalInternal_coherent (h : nat) : forall t m data tr root0,
  height t = h -> coherent t -> (level_ t = 0 -> offset_ t = length_ t) ->
  (offset_ t < length_ t -> 0 < data) -> (kNodeSize < length_ t -> 0 < tr) ->
  exists t' m' root,
    CreateFinalInternal_rec Hash h t m data tr (Some root0) =
      (Ret NO_ERROR, t', m', Some root) /\
    unchanged_outside m m' tr (tr + GetTreeLength (length_ t)).
Proof.
  induction h as [|h IH]; intros t m data tr root0 Hh Hco Hlev Hd Htr;
    rewrite CreateFinalInternal_rec_eq, CreateFinalInternal_body_result;
    destruct (coherent_fields t Hco) as (Hi & Ho & HL);
    rewrite Hi; cbn [negb orb];
    (destruct ((level_ t =? 0) && negb (offset_ t =? length_ t)) eqn:Hchk;
     [apply andb_prop in Hchk as [H1 H2]; apply Z.eqb_eq in H1;
      apply negb_true_iff in H2; apply Z.eqb_neq in H2;
      specialize (Hlev H1); contradiction|]);
    (assert (Hnull : is_null tr && (length_ t >? kNodeSize) = false)
       by (destruct (Z.gtb_spec (length_ t) kNodeSize);
           [rewrite not_null by auto; reflexivity|apply andb_false_r]));
    rewrite Hnull; cbv zeta;
    set (t0 := if length_ t =? 0 then _ else t);
    (assert (Hco0 : coherent t0)
       by (subst t0; destruct (length_ t =? 0);
           [now apply coherent_set_digest|assumption]));
    (assert (Hf0 : offset_ t0 = offset_ t /\ length_ t0 = length_ t /\
                   shape t0 = shape t)
       by (subst t0; destruct (length_ t =? 0);
           [destruct t; repeat split; apply shape_set_digest|auto]));
    destruct Hf0 as (Ho0 & HL0 & Hs0);
    rewrite Ho0, HL0, wrap64_small by klia;
    (destruct (CreateUpdate_coherent (length_ t - offset_ t) t0 m
                 (data + offset_ t) tr Hco0)
       as (t1 & m1 & Hcall & Hco1 & Ho1 & Hs1 & Hf1);
     [lia|lia|lia|rewrite HL0; exact Htr|]);
    rewrite Hcall; rewrite HL0 in Hf1;
    destruct (shape_eq_fields _ _ Hs1) as (_ & Hl1 & HL1);
    rewrite length_set_initialized, next_set_initialized, HL1, HL0;
    apply coherent_eq in Hco1; destruct Hco1 as (Hi1 & Hk1 & Hoo1 & HLL1 & Hnx1).
  - (* the top of the tree *)
    assert (Hnone : next_ t1 = None).
    { pose proof (shape_eq_height _ _ Hs1) as E1.
      pose proof (shape_eq_height _ _ Hs0) as E0.
      destruct t1 as [i [n|] k o L d]; [cbn in E1; lia|reflexivity]. }
    rewrite Hnone in Hnx1. rewrite HL1, HL0 in Hnx1.
    destruct (Z.leb_spec (length_ t) kNodeSize); [|lia].
    eexists; eexists; eexists; split; [reflexivity|exact Hf1].
  - destruct (next_ t1) as [n1|] eqn:Hnext.
    2:{ pose proof (shape_eq_height _ _ Hs1) as E1.
        pose proof (shape_eq_height _ _ Hs0) as E0.
        destruct t1 as [i [n|] k o L d]; [discriminate|cbn in E1; lia]. }
    destruct Hnx1 as (Hbig & Hln & HLn & Hon & Hcn).
    rewrite HL1, HL0 in Hbig, HLn.
    destruct (Z.leb_spec (length_ t) kNodeSize); [lia|].
    cbn [next_final].
    assert (Hhn : height n1 = h).
    { pose proof (shape_eq_height _ _ Hs1) as E1.
      pose proof (shape_eq_height _ _ Hs0) as E0.
      rewrite (height_next t1 n1 Hnext) in E1. lia. }
    pose proof (NextAligned_range (length_ t)) as HNr.
    pose proof (NextAligned_positive (length_ t) ltac:(lia)) as HNp.
    pose proof (GetTreeLength_step (length_ t) ltac:(klia) ltac:(klia)) as Hstep.
    pose proof (GetTreeLength_bound (NextAligned (length_ t)) HNr) as HGb.
    destruct (IH n1 m1 tr (tr + NextAligned (length_ t)) root0 Hhn Hcn)
      as (n' & m' & root & Hcall' & Hf');
      try (intros; lia).
    rewrite Hcall'. rewrite HLn in Hf'.
    eexists; eexists; eexists; split; [reflexivity|].
    eapply unchanged_outside_trans; [exact Hf1|exact Hf'|lia|lia|lia|lia].
Qed.

End CoherentCalls.

Section Outcomes.

Variable Hash : list byte -> list byte.

Lemma CreateUpdate_overrun t m data len tr :
  initialized_ t = true -> len <> 0 -> 0 <= offset_ t + len < 2 ^ 64 ->
  length_ t < offset_ t + len ->
  CreateUpdate Hash t m data len tr = (Ret ERR_OUT_OF_RANGE, t, m).
Proof.
  intros Hi Hl Hw Hr. unfold CreateUpdate.
  rewrite CreateUpdate_rec_eq, CreateUpdate_body_result, Hi. cbn [negb].
  destruct (Z.eqb_spec len 0); [contradiction|].
  rewrite wrap64_small by lia.
  destruct (Z.gtb_spec (offset_ t + len) (length_ t)); [reflexivity|lia].
Qed.

Lemma null_args data tr L :
  0 <= data -> 0 <= tr ->
  (is_null data || (is_null tr && (L >? kNodeSize)) = true <->
   data = 0 \/ (tr = 0 /\ kNodeSize < L)) /\
  (is_null data || (is_null tr && (L >? kNodeSize)) = false <->
   0 < data /\ (kNodeSize < L -> 0 < tr)).
Proof.
  intros Hd Ht. unfold is_null, nullptr.
  destruct (Z.eqb_spec data 0); destruct (Z.eqb_spec tr 0);
    destruct (Z.gtb_spec L kNodeSize); cbn [orb andb];
    split; split; intros; try discriminate; try reflexivity; try lia.
Qed.

(** The three outcomes of [CreateUpdate] on a coherent chain. *)
Lemma CreateUpdate_cases t m data len tr :
  coherent t -> 0 <= len -> offset_ t + len < 2 ^ 64 -> 0 <= data -> 0 <= tr ->
  (exists t' m',
     CreateUpdate Hash t m data len tr = (Ret NO_ERROR, t', m') /\
     coherent t' /\ offset_ t' = offset_ t + len /\ shape t' = shape t /\
     unchanged_outside m m' tr (tr + GetTreeLength (length_ t)) /\
     (len = 0 \/
      (offset_ t + len <= length_ t /\ data <> 0 /\
       (tr <> 0 \/ length_ t <= kNodeSize))))
  \/
  (CreateUpdate Hash t m data len tr = (Ret ERR_OUT_OF_RANGE, t, m) /\
   len <> 0 /\ length_ t < offset_ t + len)
  \/
  (CreateUpdate Hash t m data len tr = (Ret ERR_INVALID_ARGS, t, m) /\
   len <> 0 /\ offset_ t + len <= length_ t /\
   (data = 0 \/ (tr = 0 /\ kNodeSize < length_ t))).
Proof.
  intros Hco Hl Hw Hd Htr.
  destruct (coherent_fields t Hco) as (Hi & Ho & HL).
  destruct (Z.eq_dec len 0) as [->|Hnz].
  { left. exists t, m. rewrite CreateUpdate_nothing by assumption.
    repeat split; try assumption; try lia; apply unchanged_outside_refl. }
  destruct (Z_lt_ge_dec (length_ t) (offset_ t + len)) as [Hov|Hfit].
  { right. left. rewrite CreateUpdate_overrun by (assumption || klia). auto. }
  destruct (null_args data tr (length_ t) Hd Htr) as [Hn1 Hn2].
  destruct (is_null data || (is_null tr && (length_ t >? kNodeSize))) eqn:Hnull.
  { right. right.
    rewrite CreateUpdate_refuses by (assumption || klia).
    repeat split; try assumption; try lia; exact (proj1 Hn1 eq_refl). }
  destruct (proj1 Hn2 eq_refl) as [Hdp Htp].
  left.
  destruct (CreateUpdate_coherent Hash len t m data tr Hco Hl ltac:(lia)
              ltac:(auto) Htp) as (t' & m' & Hcall & Hco' & Ho' & Hs' & Hf').
  exists t', m'.
  split; [assumption|]. split; [assumption|]. split; [assumption|].
  split; [assumption|]. split; [assumption|].
  right. split; [lia|]. split; [lia|].
  destruct (Z_le_gt_dec (length_ t) kNodeSize); [now right|left].
  specialize (Htp ltac:(lia)). lia.
Qed.

(** The three outcomes of [CreateFinal] on a coherent chain. *)
Lemma CreateFinal_cases t m tr root :
  coherent t -> level_ t = 0 -> 0 <= tr ->
  (exists t' m' r,
     CreateFinal Hash t m tr root = (Ret NO_ERROR, t', m', Some r) /\
     unchanged_outside m m' tr (tr + GetTreeLength (length_ t)) /\
     offset_ t = length_ t /\ root <> None /\
     (tr <> 0 \/ length_ t <= kNodeSize))
  \/
  (CreateFinal Hash t m tr root = (Ret ERR_BAD_STATE, t, m, root) /\
   offset_ t <> length_ t)
  \/
  (CreateFinal Hash t m tr root = (Ret ERR_INVALID_ARGS, t, m, root) /\
   offset_ t = length_ t /\
   (root = None \/ (tr = 0 /\ kNodeSize < length_ t))).
Proof.
  intros Hco Hlev Htr.
  destruct (coherent_fields t Hco) as (Hi & Ho & HL).
  destruct (CreateFinal_refused Hash t m tr root) as [Hbad Hinv].
  rewrite Hi, Hlev in Hbad, Hinv. cbn [negb orb andb Z.eqb] in Hbad, Hinv.
  destruct (Z.eqb_spec (offset_ t) (length_ t)) as [Heq|Hne];
    cbn [negb] in Hbad, Hinv.
  2:{ right. left. split; [now apply Hbad|assumption]. }
  specialize (Hinv eq_refl).
  destruct root as [root0|].
  2:{ right. right. split; [now apply Hinv|]. split; [assumption|now left]. }
  cbn [orb] in Hinv.
  destruct (Z.eq_dec tr 0) as [Ez|Enz].
  - destruct (Z.gtb_spec (length_ t) kNodeSize) as [Hg|Hs].
    + right. right. split.
      * apply Hinv. subst tr. reflexivity.
      * split; [assumption|right; now split].
    + left. unfold CreateFinal, CreateFinalInternal.
      destruct (CreateFinalInternal_coherent Hash (height t) t m nullptr tr root0
                  eq_refl Hco) as (t' & m' & r & Hcall & Hf); try lia.
      exists t', m', r. repeat split; try assumption; try discriminate.
      now right.
  - left. unfold CreateFinal, CreateFinalInternal.
    destruct (CreateFinalInternal_coherent Hash (height t) t m nullptr tr root0
                eq_refl Hco) as (t' & m' & r & Hcall & Hf); try lia.
    exists t', m', r. repeat split; try assumption; try discriminate.
    now left.
Qed.

End Outcomes.

Section CreateOutcome.

Variable Hash : list byte -> list byte.

Lemma levels_above_fit data_len :
  0 <= data_len < 2 ^ 64 -> 0 + Z.of_nat (levels_above data_len) < 2 ^ 64.
Proof. intros H. pose proof (levels_above_bound data_len H). lia. Qed.

Lemma Create_frame heap m data data_len tree tree_len digest :
  0 <= data_len <= 2 ^ 64 - kNodeSize -> 0 <= tree_len ->
  0 <= data -> 0 <= tree ->
  unchanged_outside m
    (snd (fst (Create Hash heap m data data_len tree tree_len digest)))
    tree (tree + GetTreeLength data_len) /\
  (GetTreeLength data_len <= tree_len \/
   snd (fst (Create Hash heap m data data_len tree tree_len digest)) = m).
Proof.
  intros Hd Htl Hdata Htree. unfold Create.
  destruct (CreateInit heap Tree_new data_len tree_len) as [rc mt] eqn:Hinit.
  destruct rc; cbn [fst snd];
    try (split; [apply unchanged_outside_refl|now right]).
  destruct (CreateInit_coherent heap Tree_new data_len tree_len mt eq_refl
              ltac:(cbn; lia) (levels_above_fit data_len ltac:(klia)) Hd Htl Hinit)
    as (Hco & Hlev & Hoff & Hlen & Hfit).
  cbn [level_ Tree_new] in Hlev.
  split; [|now left].
  destruct (CreateUpdate_cases Hash mt m data data_len tree Hco)
    as [(t1 & m1 & Hcall & Hco1 & Ho1 & Hs1 & Hf1 & _)|[(Hcall & _)|(Hcall & _)]];
    try (rewrite ?Hoff; klia);
    rewrite Hcall; cbn [fst snd]; try apply unchanged_outside_refl.
  rewrite Hlen in Hf1.
  destruct (shape_eq_fields _ _ Hs1) as (_ & Hl1 & HL1).
  destruct (CreateFinal_cases Hash t1 m1 tree digest Hco1 ltac:(congruence) Htree)
    as [(t' & m' & r & Hcall' & Hf' & _)|[(Hcall' & _)|(Hcall' & _)]];
    rewrite Hcall'; cbn [fst snd]; try exact Hf1.
  rewrite HL1, Hlen in Hf'.
  eapply unchanged_outside_trans; [exact Hf1|exact Hf'|lia|lia|lia|lia].
Qed.

End CreateOutcome.

(** ** What the builder has hashed and stored *)

(** [lia] after the constants of the tree have been replaced by their
    values. *)
Ltac vlia :=
  pose proof kNodeSize_val as EN; pose proof kDigestsPerNode_val as ED;
  pose proof kLength_val as EL; rewrite ?EN, ?ED, ?EL in *; lia.

Lemma finished_range L o : 0 <= o <= L -> 0 <= finished L o.
Proof. intros. arith. Qed.

Lemma finished_node_below L o j :
  0 <= o <= L -> 0 <= j < finished L o ->
  j * kNodeSize + min (L - j * kNodeSize) kNodeSize <= o /\
  0 < min (L - j * kNodeSize) kNodeSize <= kNodeSize.
Proof.
  intros Ho Hj. rewrite min_spec. unfold finished in Hj.
  destruct (Z.eqb_spec o L); pose proof kNodeSize_val as EN; rewrite EN in *;
    Z.div_mod_to_equations; lia.
Qed.

Section Recorded.

Variable Hash : list byte -> list byte.

(** The input of the hash of node [j] of a level of [L] bytes at [base],
    as the source describes it: locality, length, data, padding. *)
Definition node_ctx (m : Mem) (base L k j : Z) : list byte :=
  le_bytes 8 (Z.lor (j * kNodeSize) k) ++
  le_bytes 4 (min (L - j * kNodeSize) kNodeSize mod 2 ^ 32) ++
  load m (base + j * kNodeSize) (min (L - j * kNodeSize) kNodeSize) ++
  repeat x00 (Z.to_nat (kNodeSize - min (L - j * kNodeSize) kNodeSize)).

(** What a level at offset [o] has absorbed of the node it is in. *)
Definition partial_ctx (m : Mem) (base L k o : Z) : list byte :=
  le_bytes 8 (Z.lor (o - o mod kNodeSize) k) ++
  le_bytes 4 (min (L - (o - o mod kNodeSize)) kNodeSize mod 2 ^ 32) ++
  load m (base + (o - o mod kNodeSize)) (o mod kNodeSize).

(** [recorded t m base tr]: the chain [t], whose lowest level reads its
    data at [base] and stores its digests at [tr], has absorbed the bytes
    of the node that each level is in, and the memory [m] holds the
    digests of the nodes that each level has finished, followed by zeros
    up to the end of the node of digests. *)
Fixpoint recorded (t : Tree) (m : Mem) (base tr : Z) : Prop :=
  match t with
  | mkTree i nx k o L d =>
      (o mod kNodeSize <> 0 -> o <> L -> ctx_ d = partial_ctx m base L k o) /\
      match nx with
      | None => 0 < L -> o = L -> bytes_ d = Hash (node_ctx m base L k 0)
      | Some n =>
          (forall j, 0 <= j < finished L o ->
             load m (tr + kLength * j) kLength = Hash (node_ctx m base L k j)) /\
          (forall a, tr + kLength * finished L o <= a
                       < tr + roundup (kLength * finished L o) kNodeSize ->
                     m a = x00) /\
          recorded n m tr (tr + NextAligned L)
      end
  end.

Lemma recorded_eq t m base tr :
  recorded t m base tr <->
  (offset_ t mod kNodeSize <> 0 -> offset_ t <> length_ t ->
   ctx_ (digest_ t) = partial_ctx m base (length_ t) (level_ t) (offset_ t)) /\
  match next_ t with
  | None =>
      0 < length_ t -> offset_ t = length_ t ->
      bytes_ (digest_ t) = Hash (node_ctx m base (length_ t) (level_ t) 0)
  | Some n =>
      (forall j, 0 <= j < finished (length_ t) (offset_ t) ->
         load m (tr + kLength * j) kLength =
         Hash (node_ctx m base (length_ t) (level_ t) j)) /\
      (forall a, tr + kLength * finished (length_ t) (offset_ t) <= a
                   < tr + roundup (kLength * finished (length_ t) (offset_ t))
                          kNodeSize ->
                 m a = x00) /\
      recorded n m tr (tr + NextAligned (length_ t))
  end.
Proof. destruct t as [i [n|] k o L d]; reflexivity. Qed.

Lemma node_ctx_ext m m' base L k j :
  (forall a, base + j * kNodeSize <= a
               < base + j * kNodeSize + min (L - j * kNodeSize) kNodeSize ->
             m' a = m a) ->
  node_ctx m' base L k j = node_ctx m base L k j.
Proof.
  intros H. unfold node_ctx. f_equal. f_equal. f_equal.
  apply load_ext. exact H.
Qed.

Lemma partial_ctx_ext m m' base L k o :
  0 <= o ->
  (forall a, base <= a < base + o -> m' a = m a) ->
  partial_ctx m' base L k o = partial_ctx m base L k o.
Proof.
  intros Ho H. unfold partial_ctx. f_equal. f_equal.
  apply load_ext. intros a Ha. apply H.
  pose proof (Z.mod_pos_bound o kNodeSize ltac:(klia)).
  pose proof (Z.mod_le o kNodeSize Ho ltac:(klia)). lia.
Qed.

(** [recorded] looks at the data that the lowest level has consumed and
    at the tree buffer, and at nothing else. *)
Lemma recorded_ext (h : nat) : forall t m m' base tr,
  height t = h -> coherent t ->
  (forall a, base <= a < base + offset_ t -> m' a = m a) ->
  (forall a, tr <= a -> m' a = m a) ->
  recorded t m base tr -> recorded t m' base tr.
Proof.
  induction h as [|h IH]; intros t m m' base tr Hh Hco Hlow Hup Hrec;
    apply recorded_eq in Hrec; apply recorded_eq;
    apply coherent_eq in Hco; destruct Hco as (Hi & Hk & Ho & HL & Hnx);
    destruct Hrec as [Hpart Hrest].
  - assert (Hnone : next_ t = None)
      by (destruct t as [i [n|] k o L d]; [discriminate|reflexivity]).
    rewrite Hnone in *. split.
    + intros H1 H2. rewrite (partial_ctx_ext m m') by (assumption || lia). auto.
    + intros H1 H2. rewrite (node_ctx_ext m m'); [auto|].
      intros a Ha. apply Hlow. rewrite min_spec in Ha. lia.
  - destruct (next_ t) as [n|] eqn:Hnext.
    2:{ destruct t as [i [n|] k o L d]; discriminate. }
    destruct Hnx as (Hbig & Hln & HLn & Hon & Hcn).
    destruct Hrest as (Hdig & Hzero & Hrn).
    assert (Hhn : height n = h).
    { rewrite (height_next t n Hnext) in Hh. now injection Hh. }
    pose proof (finished_range (length_ t) (offset_ t) Ho) as Hfr.
    pose proof (NextAligned_range (length_ t)) as HNr.
    split; [|split; [|split]].
    + intros H1 H2. rewrite (partial_ctx_ext m m') by (assumption || lia). auto.
    + intros j Hj.
      destruct (finished_node_below (length_ t) (offset_ t) j Ho Hj) as [Hb _].
      rewrite (node_ctx_ext m m') by (intros a Ha; apply Hlow; vlia).
      rewrite <- Hdig by assumption.
      apply load_ext. intros a Ha. apply Hup. vlia.
    + intros a Ha. rewrite Hup by vlia. now apply Hzero.
    + apply (IH n m m'); try assumption.
      * intros a Ha. apply Hup. lia.
      * intros a Ha. apply Hup. lia.
Qed.

End Recorded.

Lemma nth_load_from (m : Mem) (n : nat) : forall p i d,
  (i < n)%nat -> nth i (load_from m p n) d = m (p + Z.of_nat i).
Proof.
  induction n as [|n IH]; intros p i d Hi; [lia|].
  cbn [load_from]. destruct i as [|i]; cbn [nth].
  - f_equal. lia.
  - rewrite IH by lia. f_equal. lia.
Qed.

Lemma load_store m p bs :
  load (store m p bs) p (Z.of_nat (List.length bs)) = bs.
Proof.
  unfold load. rewrite Nat2Z.id.
  apply (nth_ext _ _ x00 x00); [apply load_from_length|].
  rewrite load_from_length. intros i Hi.
  rewrite nth_load_from by assumption. unfold store.
  destruct (Z.leb_spec p (p + Z.of_nat i)); [|lia].
  destruct (Z.ltb_spec (p + Z.of_nat i) (p + Z.of_nat (List.length bs))); [|lia].
  cbn [andb]. f_equal. lia.
Qed.

Lemma load_zeros m p n :
  0 <= n -> (forall a, p <= a < p + n -> m a = x00) ->
  load m p n = repeat x00 (Z.to_nat n).
Proof.
  intros Hn H. unfold load.
  apply (nth_ext _ _ x00 x00).
  - now rewrite load_from_length, repeat_length.
  - rewrite load_from_length. intros i Hi.
    rewrite nth_load_from by assumption. rewrite nth_repeat.
    apply H. lia.
Qed.

Section Contexts.

Variable Hash : list byte -> list byte.

Lemma bytes_DigestFinal d x :
  bytes_ (DigestFinal Hash d x) = Hash (ctx_ (DigestFinal Hash d x)).
Proof. unfold DigestFinal. cbv zeta. reflexivity. Qed.

Lemma ctx_DigestFinal d x :
  ctx_ (DigestFinal Hash d x) =
  ctx_ d ++ repeat x00 (Z.to_nat (if x mod kNodeSize =? 0 then 0
                                   else kNodeSize - x mod kNodeSize)).
Proof.
  unfold DigestFinal. cbv zeta.
  destruct (x mod kNodeSize =? 0); cbn [negb Digest_Final Digest_Update ctx_].
  - cbn [Z.to_nat repeat]. now rewrite app_nil_r.
  - reflexivity.
Qed.

Lemma ctx_DigestInit d locality len :
  ctx_ (DigestInit d locality len) =
  le_bytes 8 locality ++ le_bytes 4 (min len kNodeSize mod 2 ^ 32).
Proof. reflexivity. Qed.

(** What a level has absorbed after [c] more bytes of its node. *)
Lemma ctx_absorbed t m base c :
  0 <= offset_ t -> 0 < c ->
  offset_ t mod kNodeSize + c <= kNodeSize ->
  offset_ t + c <= length_ t -> length_ t < 2 ^ 64 ->
  (offset_ t mod kNodeSize <> 0 ->
   ctx_ (digest_ t) = partial_ctx m base (length_ t) (level_ t) (offset_ t)) ->
  ctx_ (absorbed t m (base + offset_ t) c) =
  le_bytes 8 (Z.lor (offset_ t - offset_ t mod kNodeSize) (level_ t)) ++
  le_bytes 4 (min (length_ t - (offset_ t - offset_ t mod kNodeSize)) kNodeSize
              mod 2 ^ 32) ++
  load m (base + (offset_ t - offset_ t mod kNodeSize))
    (offset_ t mod kNodeSize + c).
Proof.
  intros Ho Hc Hn Hr Hb Hpart. unfold absorbed.
  pose proof (Z.mod_pos_bound (offset_ t) kNodeSize ltac:(klia)) as Hm.
  destruct (Z.eqb_spec (offset_ t mod kNodeSize) 0) as [E|E].
  - unfold Digest_Update. cbn [ctx_]. rewrite ctx_DigestInit.
    rewrite E, Z.sub_0_r, Z.add_0_l, wrap64_small by lia.
    now rewrite <- !app_assoc.
  - unfold Digest_Update. cbn [ctx_]. rewrite (Hpart E). unfold partial_ctx.
    rewrite <- !app_assoc. f_equal. f_equal.
    rewrite load_app by lia. f_equal. f_equal. lia.
Qed.

Lemma partial_ctx_after m base L k o c :
  0 <= o -> 0 < c -> o mod kNodeSize + c <= kNodeSize ->
  (o + c) mod kNodeSize <> 0 ->
  partial_ctx m base L k (o + c) =
  le_bytes 8 (Z.lor (o - o mod kNodeSize) k) ++
  le_bytes 4 (min (L - (o - o mod kNodeSize)) kNodeSize mod 2 ^ 32) ++
  load m (base + (o - o mod kNodeSize)) (o mod kNodeSize + c).
Proof.
  intros Ho Hc Hn Hne. unfold partial_ctx.
  assert (E : (o + c) mod kNodeSize = o mod kNodeSize + c).
  { pose proof kNodeSize_val as EN. rewrite EN in *.
    Z.div_mod_to_equations. lia. }
  rewrite E. replace (o + c - (o mod kNodeSize + c)) with (o - o mod kNodeSize) by lia.
  reflexivity.
Qed.

Lemma node_ctx_complete m base L k o c :
  0 <= o -> 0 < c -> o mod kNodeSize + c <= kNodeSize -> o + c <= L ->
  (o + c) mod kNodeSize = 0 \/ o + c = L ->
  node_ctx m base L k (o / kNodeSize) =
  (le_bytes 8 (Z.lor (o - o mod kNodeSize) k) ++
   le_bytes 4 (min (L - (o - o mod kNodeSize)) kNodeSize mod 2 ^ 32) ++
   load m (base + (o - o mod kNodeSize)) (o mod kNodeSize + c)) ++
  repeat x00 (Z.to_nat (if (o + c) mod kNodeSize =? 0 then 0
                        else kNodeSize - (o + c) mod kNodeSize)).
Proof.
  intros Ho Hc Hn Hr Hend. unfold node_ctx.
  assert (Ej : o / kNodeSize * kNodeSize = o - o mod kNodeSize).
  { pose proof kNodeSize_val as EN. rewrite EN in *.
    Z.div_mod_to_equations. lia. }
  rewrite Ej.
  assert (Emin : min (L - (o - o mod kNodeSize)) kNodeSize = o mod kNodeSize + c).
  { rewrite min_spec. pose proof kNodeSize_val as EN. rewrite EN in *.
    destruct Hend; Z.div_mod_to_equations; lia. }
  rewrite Emin.
  assert (Epad : (if (o + c) mod kNodeSize =? 0 then 0
                  else kNodeSize - (o + c) mod kNodeSize) =
                 kNodeSize - (o mod kNodeSize + c)).
  { destruct (Z.eqb_spec ((o + c) mod kNodeSize) 0);
      pose proof kNodeSize_val as EN; rewrite EN in *;
      Z.div_mod_to_equations; lia. }
  rewrite Epad. now rewrite <- !app_assoc.
Qed.

End Contexts.

(** The memory after a level has stored a digest. *)
Lemma stored_outside t m tr d a :
  a < tr + tree_off_of t \/
  tr + tree_off_of t +
    (if tree_off_of t mod kNodeSize =? 0 then kNodeSize else kLength) <= a ->
  stored t m tr d a = m a.
Proof.
  intros Ha. unfold stored, store, memset.
  pose proof (firstn_le_length (Z.to_nat kLength) (bytes_ d)) as Hf.
  destruct (Z.eqb_spec (tree_off_of t mod kNodeSize) 0) as [E|E];
    repeat match goal with
           | |- context [?x <=? ?y] => destruct (Z.leb_spec x y)
           | |- context [?x <? ?y] => destruct (Z.ltb_spec x y)
           end; cbn [andb]; try reflexivity; exfalso; klia.
Qed.

Lemma stored_digest t m tr d :
  List.length (bytes_ d) = Z.to_nat kLength ->
  load (stored t m tr d) (tr + tree_off_of t) kLength = bytes_ d.
Proof.
  intros Hl. unfold stored.
  rewrite firstn_all2 by lia.
  assert (E : kLength = Z.of_nat (List.length (bytes_ d))) by klia.
  rewrite E. apply load_store.
Qed.

Lemma stored_zeros t m tr d a :
  0 <= tree_off_of t ->
  (forall b, tr + tree_off_of t <= b < tr + roundup (tree_off_of t) kNodeSize ->
             m b = x00) ->
  tree_off_of t mod kLength = 0 ->
  tree_off_of t + kLength <= 2 ^ 64 - kNodeSize ->
  tr + tree_off_of t + kLength <= a
    < tr + roundup (tree_off_of t + kLength) kNodeSize ->
  stored t m tr d a = x00.
Proof.
  intros H0 Hz Hal Hb Ha. unfold stored, store, memset.
  pose proof (firstn_le_length (Z.to_nat kLength) (bytes_ d)) as Hf.
  rewrite roundup_exact in Ha by klia.
  rewrite roundup_exact in Hz by klia.
  destruct (Z.ltb_spec a (tr + tree_off_of t +
              Z.of_nat (List.length (firstn (Z.to_nat kLength) (bytes_ d)))));
    [klia|]. rewrite andb_false_r.
  destruct (Z.eqb_spec (tree_off_of t mod kNodeSize) 0) as [E|E].
  - destruct (Z.leb_spec (tr + tree_off_of t) a); [|klia].
    destruct (Z.ltb_spec a (tr + tree_off_of t + kNodeSize)); [reflexivity|].
    exfalso. pose proof kNodeSize_val as EN. pose proof kLength_val as EL.
    rewrite EN, EL in *. Z.div_mod_to_equations. lia.
  - apply Hz. pose proof kNodeSize_val as EN. pose proof kLength_val as EL.
    rewrite EN, EL in *. Z.div_mod_to_equations. lia.
Qed.

(** The data of a level at [base] and the part of the tree buffer at [tr]
    that holds the levels above it do not overlap. *)
Definition separate (base L tr : Z) : Prop :=
  base + L <= tr \/ tr + GetTreeLength L <= base.

Lemma roundup_fits x B :
  0 <= x <= B -> B mod kNodeSize = 0 -> B <= 2 ^ 64 - kNodeSize ->
  x <= roundup x kNodeSize <= B.
Proof.
  intros Hx HB Hb. rewrite roundup_exact by lia.
  pose proof kNodeSize_val as EN. rewrite EN in *.
  Z.div_mod_to_equations. lia.
Qed.

Lemma finished_last L o :
  0 <= o < L -> finished L o = o / kNodeSize.
Proof. intros. arith. Qed.

Lemma tree_off_aligned L o :
  0 <= o < L -> (kLength * finished L o) mod kLength = 0.
Proof.
  intros H. rewrite Z.mul_comm. apply Z.mod_mul. klia.
Qed.

Section RecordedStep.

Variable Hash : list byte -> list byte.

Hypothesis Hash_length : forall x, List.length (Hash x) = Z.to_nat kLength.

Lemma CreateUpdate_step_recorded (h : nat) : forall t m base tr c t' m',
  height t = h -> coherent t -> recorded Hash t m base tr ->
  0 < c -> offset_ t mod kNodeSize + c <= kNodeSize ->
  offset_ t + c <= length_ t ->
  0 < base -> (kNodeSize < length_ t -> 0 < tr) ->
  separate base (length_ t) tr ->
  CreateUpdate Hash t m (base + offset_ t) c tr = (Ret NO_ERROR, t', m') ->
  recorded Hash t' m' base tr.
Proof.
  induction h as [|h IH];
    intros t m base tr c t' m' Hh Hco Hrec Hc Hn Hr Hbase Htr Hsep Hcall;
    pose proof Hco as Hco0;
    apply coherent_eq in Hco; destruct Hco as (Hi & Hk & Ho & HL & Hnx);
    apply recorded_eq in Hrec; destruct Hrec as [Hpart Hrest];
    pose proof (ctx_absorbed t m base c (proj1 Ho) Hc Hn Hr ltac:(klia)
                  (fun E => Hpart E ltac:(lia))) as Hctx;
    pose proof (Z.mod_pos_bound (offset_ t) kNodeSize ltac:(klia)) as Hm.
  - assert (Hnone : next_ t = None)
      by (destruct t as [i [n|] k o L d]; [discriminate|reflexivity]).
    rewrite Hnone in Hnx, Hrest.
    assert (Hnull : is_null (base + offset_ t) ||
                      (is_null tr && (length_ t >? kNodeSize)) = false).
    { rewrite (not_null (base + offset_ t)) by lia.
      destruct (Z.gtb_spec (length_ t) kNodeSize); [lia|].
      now rewrite andb_false_r. }
    rewrite (CreateUpdate_within_node Hash t m (base + offset_ t) c tr Hi Hc
               (proj1 Ho) Hn Hr ltac:(klia) Hnull) in Hcall.
    cbv zeta in Hcall. rewrite Hnone in Hcall.
    destruct (Z.leb_spec (length_ t) kNodeSize) as [_|]; [|lia].
    destruct (negb ((offset_ t + c) mod kNodeSize =? 0) &&
              negb (offset_ t + c =? length_ t)) eqn:Hend.
    + apply andb_prop in Hend as [He1 He2].
      apply negb_true_iff in He1, He2. apply Z.eqb_neq in He1, He2.
      injection Hcall as <- <-. apply recorded_eq.
      cbn [initialized_ next_ level_ offset_ length_ digest_]. split.
      * intros _ _. rewrite Hctx. symmetry.
        apply partial_ctx_after; lia.
      * intros _ Heq. contradiction.
    + assert (Hfin : (offset_ t + c) mod kNodeSize = 0 \/ offset_ t + c = length_ t).
      { apply andb_false_iff in Hend as [He|He]; apply negb_false_iff in He;
          apply Z.eqb_eq in He; auto. }
      injection Hcall as <- <-. apply recorded_eq.
      cbn [initialized_ next_ level_ offset_ length_ digest_]. split.
      * intros H1 H2. destruct Hfin; contradiction.
      * intros _ _. rewrite bytes_DigestFinal, ctx_DigestFinal, Hctx.
        pose proof (node_ctx_complete m base (length_ t) (level_ t) (offset_ t) c
                      (proj1 Ho) Hc Hn Hr Hfin) as Hnc.
        rewrite (Z.div_small (offset_ t) kNodeSize) in Hnc by klia.
        now rewrite Hnc.
  - destruct (next_ t) as [n|] eqn:Hnext.
    2:{ destruct t as [i [n|] k o L d]; discriminate. }
    destruct Hnx as (Hbig & Hln & HLn & Hon & Hcn).
    destruct Hrest as (Hdig & Hzero & Hrn).
    specialize (Htr Hbig).
    assert (Hhn : height n = h).
    { rewrite (height_next t n Hnext) in Hh. now injection Hh. }
    assert (Hnull : is_null (base + offset_ t) ||
                      (is_null tr && (length_ t >? kNodeSize)) = false).
    { rewrite (not_null (base + offset_ t)) by lia.
      now rewrite (not_null tr Htr). }
    rewrite (CreateUpdate_within_node Hash t m (base + offset_ t) c tr Hi Hc
               (proj1 Ho) Hn Hr ltac:(klia) Hnull) in Hcall.
    cbv zeta in Hcall. rewrite Hnext in Hcall.
    destruct (Z.leb_spec (length_ t) kNodeSize) as [|_]; [lia|].
    destruct (negb ((offset_ t + c) mod kNodeSize =? 0) &&
              negb (offset_ t + c =? length_ t)) eqn:Hend.
    + apply andb_prop in Hend as [He1 He2].
      apply negb_true_iff in He1, He2. apply Z.eqb_neq in He1, He2.
      injection Hcall as <- <-. apply recorded_eq.
      cbn [initialized_ next_ level_ offset_ length_ digest_].
      rewrite finished_stay by lia. split.
      * intros _ _. rewrite Hctx. symmetry.
        apply partial_ctx_after; lia.
      * auto.
    + assert (Hfin : (offset_ t + c) mod kNodeSize = 0 \/ offset_ t + c = length_ t).
      { apply andb_false_iff in Hend as [He|He]; apply negb_false_iff in He;
          apply Z.eqb_eq in He; auto. }
      pose proof (NextAligned_range (length_ t)) as HNr.
      pose proof (NextAligned_positive (length_ t) ltac:(lia)) as HNp.
      pose proof (NextAligned_no_wrap (length_ t) ltac:(lia)) as HNw.
      pose proof (NextAligned_aligned (length_ t)) as HNa.
      pose proof (GetTreeLength_step (length_ t) ltac:(klia) ltac:(klia)) as Hstep.
      pose proof (GetTreeLength_bound (NextAligned (length_ t)) HNr) as HGb.
      destruct (upper_fits (length_ t) (offset_ t) ltac:(lia) ltac:(lia))
        as (Hf1 & Hf2 & Hf3).
      pose proof (finished_tree_off (length_ t) (offset_ t) ltac:(lia)) as Hto.
      fold (tree_off_of t) in Hto.
      pose proof (finished_last (length_ t) (offset_ t) ltac:(lia)) as Hlast.
      pose proof (finished_next (length_ t) (offset_ t) c (proj1 Ho) Hc Hn Hr Hfin)
        as Hnextf.
      set (d' := DigestFinal Hash (absorbed t m (base + offset_ t) c)
                   (offset_ t + c)) in *.
      set (m1 := stored t m tr d') in *.
      assert (Hwidth : tree_off_of t +
                (if tree_off_of t mod kNodeSize =? 0 then kNodeSize else kLength)
                <= NextAligned (length_ t)).
      { destruct (Z.eqb_spec (tree_off_of t mod kNodeSize) 0) as [E|E].
        - rewrite <- Hto in *. apply upper_node_fits; try lia; exact E.
        - rewrite <- Hto. lia. }
      destruct (CreateUpdate_step Hash h n m1 (tr + tree_off_of t) kLength
                  (tr + NextAligned (length_ t)) Hhn Hcn)
        as (n' & m'' & Hcn' & Hcon' & Hon' & Hsn' & Hfr');
        try (rewrite ?Hon, ?HLn, <- ?Hto; klia).
      rewrite Hcn' in Hcall. injection Hcall as <- <-.
      rewrite HLn in Hfr'.
      (* the memory outside the digests written by this call *)
      assert (Hlow : forall a, a < tr + tree_off_of t -> m'' a = m a).
      { intros a Ha. rewrite Hfr' by klia. apply stored_outside. now left. }
      assert (Hhigh : forall a, tr + GetTreeLength (length_ t) <= a -> m'' a = m a).
      { intros a Ha. rewrite Hfr' by klia. apply stored_outside. right.
        destruct (tree_off_of t mod kNodeSize =? 0); klia. }
      assert (Hdata : forall a, base <= a < base + length_ t -> m'' a = m a).
      { intros a Ha. destruct Hsep as [Hs|Hs]; [apply Hlow|apply Hhigh]; klia. }
      assert (Hd' : bytes_ d' =
                    Hash (node_ctx m base (length_ t) (level_ t)
                            (offset_ t / kNodeSize))).
      { subst d'. rewrite bytes_DigestFinal, ctx_DigestFinal, Hctx. f_equal.
        symmetry. apply node_ctx_complete; lia. }
      apply recorded_eq.
      cbn [initialized_ next_ level_ offset_ length_ digest_].
      rewrite Hnextf.
      split; [|split; [|split]].
      * intros H1 H2. destruct Hfin; contradiction.
      * intros j Hj.
        assert (Hjo : j * kNodeSize + min (length_ t - j * kNodeSize) kNodeSize
                      <= length_ t /\ 0 <= j * kNodeSize).
        { rewrite min_spec. rewrite Hlast in Hj.
          pose proof kNodeSize_val as EN. rewrite EN in *.
          clear - Hj Ho Hc Hr EN. Z.div_mod_to_equations. lia. }
        rewrite (node_ctx_ext m m'') by (intros a Ha; apply Hdata; lia).
        destruct (Z_lt_ge_dec j (finished (length_ t) (offset_ t))) as [Hold|Hnew].
        -- rewrite <- Hdig by lia.
           apply load_ext. intros a Ha. apply Hlow. rewrite <- Hto. vlia.
        -- assert (Ej : j = finished (length_ t) (offset_ t)) by lia.
           rewrite Ej at 2. rewrite Hlast, <- Hd'.
           rewrite Ej, Hto.
           rewrite <- (stored_digest t m tr d').
           2:{ subst d'. rewrite bytes_DigestFinal. apply Hash_length. }
           apply load_ext. intros a Ha. apply Hfr'. klia.
      * intros a Ha.
        replace (kLength * (finished (length_ t) (offset_ t) + 1))
          with (tree_off_of t + kLength) in Ha by lia.
        pose proof (roundup_fits (tree_off_of t + kLength)
                      (NextAligned (length_ t)) ltac:(klia) HNa HNw) as Hrf.
        rewrite Hfr' by klia.
        apply stored_zeros.
        -- klia.
        -- intros b Hb. apply Hzero. rewrite Hto. exact Hb.
        -- rewrite <- Hto. apply (tree_off_aligned (length_ t) (offset_ t)). lia.
        -- klia.
        -- lia.
      * apply (IH n m1 tr (tr + NextAligned (length_ t)) kLength);
          try assumption; try (rewrite ?Hon, ?HLn; klia).
        -- apply (recorded_ext Hash h n m m1); try assumption.
           ++ intros a Ha. apply stored_outside. left. lia.
           ++ intros a Ha. apply stored_outside. right.
              destruct (tree_off_of t mod kNodeSize =? 0); klia.
        -- left. lia.
        -- rewrite Hon, Hto. exact Hcn'.
Qed.

End RecordedStep.

Lemma NextLength_finished L :
  kNodeSize < L <= 2 ^ 64 - kNodeSize ->
  kLength * finished L L = NextLength L /\
  roundup (kLength * finished L L) kNodeSize = NextAligned L /\
  finished L L = (L + (kNodeSize - 1)) / kNodeSize /\
  0 < NextLength L <= NextAligned L.
Proof.
  intros H. unfold finished. rewrite Z.eqb_refl.
  assert (E : kLength * ((L + (kNodeSize - 1)) / kNodeSize) = NextLength L).
  { unfold NextLength. destruct (Z.gtb_spec L kNodeSize); [|lia].
    rewrite roundup_exact by klia.
    pose proof kNodeSize_val as EN. pose proof kDigestsPerNode_val as ED.
    pose proof kLength_val as EL. rewrite EN, ED, EL in *.
    Z.div_mod_to_equations. lia. }
  rewrite E. repeat split; try reflexivity.
  - rewrite <- E. pose proof kNodeSize_val as EN. pose proof kLength_val as EL.
    rewrite EN, EL in *. Z.div_mod_to_equations. lia.
  - unfold NextAligned. rewrite roundup_exact.
    + pose proof kNodeSize_val as EN. rewrite EN in *.
      Z.div_mod_to_equations. lia.
    + rewrite <- E. pose proof kNodeSize_val as EN. pose proof kLength_val as EL.
      rewrite EN, EL in *. Z.div_mod_to_equations. lia.
Qed.

Section Complete.

Variable Hash : list byte -> list byte.

Hypothesis Hash_length : forall x, List.length (Hash x) = Z.to_nat kLength.

(** A chain that has consumed nothing has recorded nothing. *)
Lemma recorded_fresh (h : nat) : forall t m base tr,
  height t = h -> coherent t -> offset_ t = 0 -> 0 < length_ t ->
  recorded Hash t m base tr.
Proof.
  induction h as [|h IH]; intros t m base tr Hh Hco Hz Hpos;
    apply coherent_eq in Hco; destruct Hco as (Hi & Hk & Ho & HL & Hnx);
    apply recorded_eq; rewrite Hz.
  - assert (Hnone : next_ t = None)
      by (destruct t as [i [n|] k o L d]; [discriminate|reflexivity]).
    rewrite Hnone. split.
    + intros Hx. exfalso. apply Hx. apply Z.mod_0_l. klia.
    + intros _ Hx. lia.
  - destruct (next_ t) as [n|] eqn:Hnext.
    2:{ destruct t as [i [n|] k o L d]; discriminate. }
    destruct Hnx as (Hbig & Hln & HLn & Hon & Hcn).
    assert (Hhn : height n = h).
    { rewrite (height_next t n Hnext) in Hh. now injection Hh. }
    rewrite Hz in Hon. rewrite finished_zero in * by lia.
    pose proof (NextAligned_positive (length_ t) ltac:(lia)).
    split; [|split; [|split]].
    + intros Hx. exfalso. apply Hx. apply Z.mod_0_l. klia.
    + intros j Hj. lia.
    + intros a Ha. rewrite Z.mul_0_r in Ha.
      change (roundup 0 kNodeSize) with 0 in Ha. lia.
    + apply IH; try assumption; klia.
Qed.

(** Every call that does not overrun the data keeps the record. *)
Lemma CreateUpdate_recorded : forall len t m base tr t' m',
  coherent t -> recorded Hash t m base tr -> 0 <= len ->
  offset_ t + len <= length_ t -> 0 < base ->
  (kNodeSize < length_ t -> 0 < tr) -> separate base (length_ t) tr ->
  CreateUpdate Hash t m (base + offset_ t) len tr = (Ret NO_ERROR, t', m') ->
  recorded Hash t' m' base tr.
Proof.
  intros len.
  induction len as [len IH] using (well_founded_induction (Z.lt_wf 0)).
  intros t m base tr t' m' Hco Hrec Hl Hr Hbase Htr Hsep Hcall.
  destruct (coherent_fields t Hco) as (Hi & Ho & HL).
  destruct (Z.eq_dec len 0) as [->|Hnz].
  { rewrite CreateUpdate_nothing in Hcall by assumption.
    injection Hcall as <- <-. exact Hrec. }
  pose proof (Z.mod_pos_bound (offset_ t) kNodeSize ltac:(klia)) as Hm.
  destruct (Z_le_gt_dec (offset_ t mod kNodeSize + len) kNodeSize) as [Hin|Hout].
  { apply (CreateUpdate_step_recorded Hash Hash_length (height t) t m base tr len);
      try assumption; try lia; reflexivity. }
  set (c := kNodeSize - offset_ t mod kNodeSize) in *.
  assert (Hc : 0 < c < len) by (subst c; lia).
  pose proof (CreateUpdate_split Hash (Z.to_nat c) t m (base + offset_ t)
                (len - c) tr) as Hs.
  rewrite Z2Nat.id in Hs by lia.
  replace (c + (len - c)) with len in Hs by lia.
  rewrite Hs in Hcall by klia. clear Hs.
  destruct (CreateUpdate_step Hash (height t) t m (base + offset_ t) c tr
              eq_refl Hco)
    as (t1 & m1 & Hcall1 & Hco1 & Ho1 & Hs1 & Hf1); try (subst c; lia);
    try assumption.
  rewrite Hcall1 in Hcall. cbn [and_then] in Hcall.
  destruct (shape_eq_fields _ _ Hs1) as (_ & _ & HL1).
  assert (Hrec1 : recorded Hash t1 m1 base tr).
  { apply (CreateUpdate_step_recorded Hash Hash_length (height t) t m base tr c);
      try assumption; try (subst c; lia); reflexivity. }
  apply (IH (len - c) ltac:(lia) t1 m1 base tr); try assumption;
    try (rewrite ?Ho1, ?HL1; lia); try (rewrite HL1; assumption).
  rewrite Ho1. rewrite <- Hcall. f_equal. lia.
Qed.

(** [complete m base L k tr r]: the memory [m] holds the whole tree above
    the [L] bytes of level [k] at [base], from the digests of that level
    at [tr] up to the top level, whose digest is the value of [r]. *)
Inductive complete (m : Mem) : Z -> Z -> Z -> Z -> Digest -> Prop :=
| complete_top base L k tr r :
    L <= kNodeSize ->
    bytes_ r = Hash (node_ctx m base L k 0) ->
    complete m base L k tr r
| complete_up base L k tr r :
    kNodeSize < L ->
    (forall j, 0 <= j < (L + (kNodeSize - 1)) / kNodeSize ->
       load m (tr + kLength * j) kLength = Hash (node_ctx m base L k j)) ->
    (forall a, tr + NextLength L <= a < tr + NextAligned L -> m a = x00) ->
    complete m tr (NextAligned L) (k + 1) (tr + NextAligned L) r ->
    complete m base L k tr r.

(** When the data is complete, [CreateFinalInternal] completes the
    tree. *)
Lemma CreateFinalInternal_complete (h : nat) :
  forall t m data base tr root0 t' m' r,
  height t = h -> coherent t -> recorded Hash t m base tr ->
  0 < length_ t -> (offset_ t < length_ t -> data = base) ->
  (level_ t = 0 -> offset_ t = length_ t) ->
  0 < base -> (kNodeSize < length_ t -> 0 < tr) ->
  separate base (length_ t) tr ->
  CreateFinalInternal_rec Hash h t m data tr (Some root0) =
    (Ret NO_ERROR, t', m', Some r) ->
  complete m' base (length_ t) (level_ t) tr r.
Proof.
  induction h as [|h IH];
    intros t m data base tr root0 t' m' r Hh Hco Hrec Hpos Hdata Hlev Hbase
      Htr Hsep Hcall;
    destruct (coherent_fields t Hco) as (Hi & Ho & HL);
    rewrite CreateFinalInternal_rec_eq, CreateFinalInternal_body_result in Hcall;
    rewrite Hi in Hcall; cbn [negb orb] in Hcall;
    (destruct ((level_ t =? 0) && negb (offset_ t =? length_ t)) eqn:Hchk;
     [discriminate|]);
    (assert (Hnull : is_null tr && (length_ t >? kNodeSize) = false)
       by (destruct (Z.gtb_spec (length_ t) kNodeSize);
           [rewrite not_null by auto; reflexivity|apply andb_false_r]));
    rewrite Hnull in Hcall; cbv zeta in Hcall;
    (destruct (Z.eqb_spec (length_ t) 0) as [|_]; [lia|]);
    rewrite wrap64_small in Hcall by klia;
    (assert (Hupd : exists t1 m1,
               CreateUpdate Hash t m (data + offset_ t)
                 (length_ t - offset_ t) tr = (Ret NO_ERROR, t1, m1) /\
               coherent t1 /\ recorded Hash t1 m1 base tr /\
               offset_ t1 = length_ t /\ shape t1 = shape t /\
               unchanged_outside m m1 tr (tr + GetTreeLength (length_ t)));
     [destruct (Z.eq_dec (offset_ t) (length_ t)) as [Heq|Hne];
      [exists t, m; rewrite Heq, Z.sub_diag;
       rewrite CreateUpdate_nothing by assumption;
       repeat split; try assumption; apply unchanged_outside_refl
      |rewrite (Hdata ltac:(lia));
       destruct (CreateUpdate_coherent Hash (length_ t - offset_ t) t m
                   (base + offset_ t) tr Hco)
         as (t1 & m1 & Hc1 & Hco1 & Ho1 & Hs1 & Hf1);
       [lia|lia|lia|exact Htr|];
       exists t1, m1; repeat split; try assumption; try lia;
       apply (CreateUpdate_recorded (length_ t - offset_ t) t m base tr);
       try assumption; lia]
     |]);
    destruct Hupd as (t1 & m1 & Hc1 & Hco1 & Hrec1 & Ho1 & Hs1 & Hf1);
    rewrite Hc1 in Hcall;
    destruct (shape_eq_fields _ _ Hs1) as (_ & Hl1 & HL1);
    rewrite length_set_initialized, next_set_initialized, HL1 in Hcall;
    apply coherent_eq in Hco1; destruct Hco1 as (Hi1 & Hk1 & Hoo1 & HLL1 & Hnx1);
    apply recorded_eq in Hrec1; destruct Hrec1 as [Hpart1 Hrest1];
    rewrite <- Hl1, <- HL1.
  - assert (Hnone : next_ t1 = None).
    { pose proof (shape_eq_height _ _ Hs1) as E1.
      destruct t1 as [i [n|] k o L d]; [cbn in E1; lia|reflexivity]. }
    rewrite Hnone in Hnx1, Hrest1.
    rewrite HL1 in Hnx1.
    destruct (Z.leb_spec (length_ t) kNodeSize); [|lia].
    injection Hcall as _ <- <-.
    apply complete_top; [lia|].
    destruct t1; cbn in *. apply Hrest1; lia.
  - destruct (next_ t1) as [n1|] eqn:Hnext.
    2:{ pose proof (shape_eq_height _ _ Hs1) as E1.
        destruct t1 as [i [n|] k o L d]; [discriminate|cbn in E1; lia]. }
    destruct Hnx1 as (Hbig & Hln & HLn & Hon & Hcn).
    destruct Hrest1 as (Hdig & Hzero & Hrn).
    rewrite HL1 in Hbig.
    destruct (Z.leb_spec (length_ t) kNodeSize); [lia|].
    cbn [next_final] in Hcall.
    assert (Hhn : height n1 = h).
    { pose proof (shape_eq_height _ _ Hs1) as E1.
      rewrite (height_next t1 n1 Hnext) in E1. lia. }
    pose proof (NextAligned_range (length_ t)) as HNr.
    pose proof (NextAligned_positive (length_ t) ltac:(lia)) as HNp.
    pose proof (GetTreeLength_step (length_ t) ltac:(klia) ltac:(klia)) as Hstep.
    pose proof (GetTreeLength_bound (NextAligned (length_ t)) HNr) as HGb.
    destruct (NextLength_finished (length_ t) ltac:(lia)) as (HNL & HNA & Hfin & HNLr).
    rewrite HL1 in HLn.
    destruct (CreateFinalInternal_coherent Hash h n1 m1 tr
                (tr + NextAligned (length_ t)) root0 Hhn Hcn)
      as (n' & m'' & root & Hcall' & Hf'); try (intros; lia).
    rewrite Hcall' in Hcall. injection Hcall as _ <- <-.
    rewrite HLn in Hf'.
    assert (Hkeep : forall a, a < tr + NextAligned (length_ t) \/
                              tr + GetTreeLength (length_ t) <= a ->
                              m'' a = m1 a).
    { intros a Ha. apply Hf'. lia. }
    assert (Hkd : forall a, base <= a < base + length_ t -> m'' a = m1 a).
    { intros a Ha. apply Hkeep. destruct Hsep; lia. }
    rewrite Ho1, HL1 in Hdig, Hzero.
    rewrite HL1 in Hrn.
    apply complete_up.
    + rewrite HL1. lia.
    + rewrite HL1, Hl1. intros j Hj. rewrite <- Hfin in Hj.
      destruct (finished_node_below (length_ t) (length_ t) j ltac:(lia) Hj)
        as [Hb _].
      rewrite (node_ctx_ext m1 m'') by (intros a Ha; apply Hkd; vlia).
      rewrite <- Hl1, <- Hdig by assumption.
      apply load_ext. intros a Ha. apply Hkeep. left. vlia.
    + rewrite HL1. intros a Ha. rewrite Hkeep by lia.
      apply Hzero. rewrite HNA, HNL. exact Ha.
    + assert (Hc : complete m'' tr (length_ n1) (level_ n1)
                     (tr + NextAligned (length_ t)) root).
      { apply (IH n1 m1 tr tr (tr + NextAligned (length_ t)) root0 n');
          try assumption; try (intros; lia); try (rewrite HLn; lia).
        rewrite HLn. left. lia. }
      rewrite HLn, Hln in Hc. rewrite HL1. exact Hc.
Qed.

End Complete.

(** ** The verifier on a complete tree *)

Lemma load_split m p a n :
  0 <= a <= n -> load m p n = load m p a ++ load m (p + a) (n - a).
Proof.
  intros H. rewrite <- load_app by lia. f_equal. lia.
Qed.

Section VerifyComplete.

Variable Hash : list byte -> list byte.

(** The digest that [VerifyLevel] computes for a whole node of memory is
    the digest of the node, provided that the bytes between the end of a
    partial last node and the end of that node are zero. *)
Lemma VerifyLevel_actual_node m base L k j n :
  0 <= j -> 0 < n -> j * kNodeSize < L -> L <= 2 ^ 64 - kNodeSize ->
  (forall a, base + L <= a < base + roundup L kNodeSize -> m a = x00) ->
  snd (VerifyLevel_actual Hash m (base + j * kNodeSize) L (j * kNodeSize)
         (n * kNodeSize) k) = kNodeSize /\
  bytes_ (fst (VerifyLevel_actual Hash m (base + j * kNodeSize) L (j * kNodeSize)
                 (n * kNodeSize) k)) =
  Hash (node_ctx m base L k j).
Proof.
  intros Hj Hn HjL HL Hz. unfold VerifyLevel_actual, DigestUpdate. cbv zeta.
  assert (Emod : (j * kNodeSize) mod kNodeSize = 0) by (apply Z.mod_mul; klia).
  rewrite Emod, Z.sub_0_r.
  assert (Emin : min (n * kNodeSize) kNodeSize = kNodeSize).
  { rewrite min_spec. pose proof kNodeSize_val as EN. rewrite EN in *. lia. }
  rewrite Emin. cbn [fst snd]. split; [reflexivity|].
  rewrite bytes_DigestFinal, ctx_DigestFinal. f_equal.
  rewrite (wrap64_small (j * kNodeSize + kNodeSize)) by vlia.
  assert (Emod' : (j * kNodeSize + kNodeSize) mod kNodeSize = 0).
  { pose proof kNodeSize_val as EN. rewrite EN in *.
    Z.div_mod_to_equations. lia. }
  rewrite Emod'. change (0 =? 0) with true. cbv iota.
  cbn [Z.to_nat repeat]. rewrite app_nil_r.
  unfold Digest_Update. cbn [ctx_]. rewrite ctx_DigestInit.
  rewrite (wrap64_small (L - j * kNodeSize)) by vlia.
  unfold node_ctx. rewrite <- !app_assoc. f_equal. f_equal.
  rewrite min_spec.
  destruct (Z_le_gt_dec kNodeSize (L - j * kNodeSize)) as [Hfull|Hpart].
  - rewrite Z.min_r by lia. rewrite Z.sub_diag. cbn [Z.to_nat repeat].
    now rewrite app_nil_r.
  - rewrite Z.min_l by lia.
    rewrite (load_split m (base + j * kNodeSize) (L - j * kNodeSize) kNodeSize)
      by lia.
    f_equal. apply load_zeros; [lia|].
    intros a Ha. apply Hz. rewrite roundup_exact by vlia.
    pose proof kNodeSize_val as EN. rewrite EN in *.
    Z.div_mod_to_equations. lia.
Qed.

Lemma VerifyLevel_loop_complete (fuel : nat) : forall m base L k tr j n,
  0 <= j -> 0 <= n -> (j + n) * kNodeSize < L + kNodeSize ->
  L <= 2 ^ 64 - kNodeSize ->
  (forall i, 0 <= i < (L + (kNodeSize - 1)) / kNodeSize ->
     load m (tr + kLength * i) kLength = Hash (node_ctx m base L k i)) ->
  (forall a, base + L <= a < base + roundup L kNodeSize -> m a = x00) ->
  VerifyLevel_loop Hash fuel m (base + j * kNodeSize) L (j * kNodeSize)
    (n * kNodeSize) k (tr + kLength * j) = NO_ERROR.
Proof.
  induction fuel as [|fuel IH]; intros m base L k tr j n Hj Hn Hfit HL Hdig Hz;
    cbn [VerifyLevel_loop]; [reflexivity|].
  destruct (Z.gtb_spec (n * kNodeSize) 0) as [Hpos|]; [|reflexivity].
  assert (Hn1 : 0 < n) by vlia.
  destruct (VerifyLevel_actual_node m base L k j n Hj Hn1 ltac:(vlia) HL Hz)
    as [Hchunk Hbytes].
  destruct (VerifyLevel_actual Hash m (base + j * kNodeSize) L (j * kNodeSize)
              (n * kNodeSize) k) as [actual chunk].
  cbn [fst snd] in Hchunk, Hbytes. subst chunk.
  rewrite Hbytes, Hdig, bytes_eqb_refl.
  2:{ pose proof kNodeSize_val as EN. rewrite EN in *.
      Z.div_mod_to_equations. lia. }
  cbn [negb].
  rewrite wrap64_small by vlia.
  replace (base + j * kNodeSize + kNodeSize) with (base + (j + 1) * kNodeSize)
    by lia.
  replace (j * kNodeSize + kNodeSize) with ((j + 1) * kNodeSize) by lia.
  replace (n * kNodeSize - kNodeSize) with ((n - 1) * kNodeSize) by lia.
  replace (tr + kLength * j + kLength) with (tr + kLength * (j + 1)) by lia.
  apply IH; try assumption; try lia.
Qed.

Lemma VerifyLevel_complete m base L k tr offset length :
  0 < base -> 0 < tr -> kNodeSize < L <= 2 ^ 64 - kNodeSize ->
  0 <= offset -> 0 <= length -> offset + length <= L ->
  (forall i, 0 <= i < (L + (kNodeSize - 1)) / kNodeSize ->
     load m (tr + kLength * i) kLength = Hash (node_ctx m base L k i)) ->
  (forall a, base + L <= a < base + roundup L kNodeSize -> m a = x00) ->
  VerifyLevel Hash m base L tr offset length k = NO_ERROR.
Proof.
  intros Hbase Htr HL Ho Hl Hr Hdig Hz. unfold VerifyLevel.
  rewrite (not_null base Hbase), (not_null tr Htr).
  destruct (Z.leb_spec L kNodeSize); [lia|]. cbn [orb].
  rewrite (wrap64_small (offset + length)) by klia.
  destruct (Z.gtb_spec (offset + length) L); [lia|]. cbv zeta.
  pose proof (Z.mod_pos_bound offset kNodeSize ltac:(klia)) as Hm.
  set (j := offset / kNodeSize).
  assert (Eal : offset - offset mod kNodeSize = j * kNodeSize).
  { subst j. pose proof kNodeSize_val as EN. rewrite EN in *.
    Z.div_mod_to_equations. lia. }
  rewrite Eal.
  rewrite (wrap64_small (j * kNodeSize + length)) by klia.
  rewrite roundup_exact by klia.
  set (e := (j * kNodeSize + length + (kNodeSize - 1)) / kNodeSize).
  assert (He : j <= e /\ e * kNodeSize < L + kNodeSize).
  { subst e. pose proof kNodeSize_val as EN. rewrite EN in *.
    Z.div_mod_to_equations. lia. }
  rewrite wrap64_small by vlia.
  replace (e * kNodeSize - j * kNodeSize) with ((e - j) * kNodeSize) by lia.
  replace (j * kNodeSize / kDigestsPerNode) with (kLength * j).
  2:{ pose proof kNodeSize_val as EN. pose proof kDigestsPerNode_val as ED.
      pose proof kLength_val as EL. rewrite EN, ED, EL in *.
      Z.div_mod_to_equations. lia. }
  apply VerifyLevel_loop_complete; try assumption; try lia;
    subst j; apply Z.div_pos; klia.
Qed.

Lemma VerifyRoot_complete m base k root_len r :
  0 < base -> 0 <= k -> 0 < root_len <= kNodeSize ->
  (forall a, base + root_len <= a < base + kNodeSize -> m a = x00) ->
  bytes_ r = Hash (node_ctx m base kNodeSize k 0) ->
  VerifyRoot Hash m base root_len k r = NO_ERROR.
Proof.
  intros Hbase Hk Hrl Hz Hr. unfold VerifyRoot.
  rewrite (not_null base Hbase). cbn [andb orb].
  destruct (Z.gtb_spec root_len kNodeSize); [lia|].
  unfold Digest_eqb. rewrite Hr.
  assert (E : bytes_ (VerifyRoot_actual Hash m base root_len k) =
              Hash (node_ctx m base kNodeSize k 0));
    [|now rewrite E, bytes_eqb_refl].
  unfold VerifyRoot_actual, DigestUpdate. cbv zeta.
  rewrite bytes_DigestFinal, ctx_DigestFinal. f_equal.
  unfold Digest_Update. cbn [ctx_]. rewrite ctx_DigestInit.
  destruct (Z.eqb_spec root_len 0); [lia|].
  rewrite (Z.mod_0_l kNodeSize) by klia. rewrite Z.sub_0_r.
  rewrite (min_spec root_len), Z.min_l by lia.
  unfold node_ctx. rewrite Z.mul_0_l, Z.lor_0_l, Z.sub_0_r, Z.add_0_r.
  rewrite <- !app_assoc. f_equal. f_equal.
  rewrite (min_spec kNodeSize), Z.min_id, Z.sub_diag.
  cbn [Z.to_nat repeat]. rewrite app_nil_r.
  destruct (Z.eq_dec root_len kNodeSize) as [->|Hne].
  - rewrite Z.mod_same by klia. change (0 =? 0) with true. cbv iota.
    cbn [Z.to_nat repeat]. now rewrite app_nil_r.
  - rewrite Z.mod_small by lia.
    destruct (Z.eqb_spec root_len 0); [lia|].
    rewrite (load_split m base root_len kNodeSize) by lia.
    f_equal. symmetry. apply load_zeros; [lia|].
    intros a Ha. apply Hz. lia.
Qed.

Lemma Verify_loop_complete : forall L,
  forall m base k tr tree_len offset length r root_len,
  complete Hash m base L k tr r ->
  0 <= offset -> 0 <= length -> offset + length <= L ->
  0 <= L <= 2 ^ 64 - kNodeSize -> GetTreeLength L <= tree_len ->
  0 < base -> 0 < tr ->
  0 <= k -> k + Z.of_nat (levels_above L) < 2 ^ 64 ->
  (forall a, base + L <= a < base + roundup L kNodeSize -> m a = x00) ->
  (L <= kNodeSize ->
   L = kNodeSize /\ 0 < root_len <= kNodeSize /\
   forall a, base + root_len <= a < base + kNodeSize -> m a = x00) ->
  Verify_loop Hash m base L tr tree_len offset length r k root_len = NO_ERROR.
Proof.
  intros L.
  induction L as [L IH] using (well_founded_induction (Z.lt_wf 0)).
  intros m base k tr tree_len offset length r root_len
    Hcomp Ho Hl Hr HL Hfit Hbase Htr Hk Hlev Hz Htop.
  rewrite Verify_loop_eq.
  destruct (Z.gtb_spec L kNodeSize) as [Hg|Hs].
  - inversion Hcomp as [? ? ? ? ? Hsmall _|? ? ? ? ? _ Hdig Hzero Hup]; subst;
      [lia|].
    rewrite VerifyLevel_complete by (assumption || lia).
    pose proof (NextAligned_range L) as HNr.
    pose proof (NextAligned_positive L ltac:(lia)) as HNp.
    pose proof (NextAligned_decreases L Hg) as HNd.
    pose proof (NextAligned_no_wrap L ltac:(lia)) as HNw.
    pose proof (NextAligned_aligned L) as HNa.
    pose proof (GetTreeLength_step L ltac:(klia) ltac:(klia)) as Hstep.
    pose proof (GetTreeLength_bound (NextAligned L) HNr) as HGb.
    destruct (NextLength_finished L ltac:(lia)) as (_ & _ & _ & HNLr).
    destruct (Z.ltb_spec tree_len (NextAligned L)); [lia|].
    destruct (next_range_valid L offset length Ho Hl Hr ltac:(lia))
      as (H1 & H2 & H3 & H4).
    rewrite levels_above_step in Hlev by lia.
    rewrite wrap64_small by lia.
    apply IH; try assumption; try lia.
    + intros a Ha. rewrite roundup_exact in Ha by klia.
      exfalso. pose proof kNodeSize_val as EN. rewrite EN in *.
      clear - Ha HNa HNr EN. Z.div_mod_to_equations. lia.
    + intros Hsm. assert (En : NextAligned L = kNodeSize) by lia.
      rewrite En in *. repeat split; try lia. exact Hzero.
  - destruct (Htop Hs) as (EL & Hrl & Hz0). subst L.
    inversion Hcomp as [? ? ? ? ? _ Hroot|? ? ? ? ? Hbig _ _ _]; subst; [|lia].
    now apply VerifyRoot_complete.
Qed.

End VerifyComplete.

(** ** The tree that [Create] builds *)

Section CreateComplete.

Variable Hash : list byte -> list byte.

Hypothesis Hash_length : forall x, List.length (Hash x) = Z.to_nat kLength.

Lemma Create_complete heap m data data_len tree tree_len root0 :
  kNodeSize < data_len <= 2 ^ 64 - kNodeSize -> 0 < data -> 0 < tree ->
  separate data data_len tree ->
  GetTreeLength data_len <= tree_len -> (levels_above data_len <= heap)%nat ->
  exists m' root,
    Create Hash heap m data data_len tree tree_len (Some root0) =
      (Ret NO_ERROR, m', Some root) /\
    complete Hash m' data data_len 0 tree root /\
    unchanged_outside m m' tree (tree + GetTreeLength data_len).
Proof.
  intros Hd Hdata Htree Hsep Hfit Hheap. unfold Create.
  pose proof (GetTreeLength_bound data_len ltac:(klia)) as Hgb.
  pose proof (CreateInit_status_is heap Tree_new data_len tree_len
                ltac:(klia) ltac:(lia) Hheap) as Hst.
  destruct (CreateInit heap Tree_new data_len tree_len) as [rc mt] eqn:Hinit.
  cbn [fst] in Hst.
  destruct (Z.ltb_spec tree_len (GetTreeLength data_len)); [lia|]. subst rc.
  destruct (CreateInit_coherent heap Tree_new data_len tree_len mt eq_refl
              ltac:(cbn; lia) (levels_above_fit data_len ltac:(klia))
              ltac:(klia) ltac:(lia) Hinit)
    as (Hco & Hlev & Hoff & Hlen & _).
  cbn [level_ Tree_new] in Hlev.
  pose proof (recorded_fresh Hash (height mt) mt m data tree eq_refl Hco Hoff
                ltac:(klia)) as Hrec.
  destruct (CreateUpdate_coherent Hash data_len mt m data tree Hco)
    as (t1 & m1 & Hcall & Hco1 & Ho1 & Hs1 & Hf1);
    try (rewrite ?Hoff, ?Hlen; klia); try (intros; assumption).
  rewrite Hcall. rewrite Hlen in Hf1.
  destruct (shape_eq_fields _ _ Hs1) as (_ & Hl1 & HL1).
  assert (Hrec1 : recorded Hash t1 m1 data tree).
  { apply (CreateUpdate_recorded Hash Hash_length data_len mt m data tree);
      try assumption; try (rewrite ?Hoff, ?Hlen; klia);
      try (intros; assumption); try (now rewrite Hlen).
    rewrite Hoff, Z.add_0_r. exact Hcall. }
  unfold CreateFinal, CreateFinalInternal.
  destruct (CreateFinalInternal_coherent Hash (height t1) t1 m1 nullptr tree root0
              eq_refl Hco1)
    as (t' & m' & r & Hcall' & Hf');
    try (intros; lia); try (intros; assumption).
  rewrite Hcall'. rewrite HL1, Hlen in Hf'.
  exists m', r. split; [reflexivity|]. split.
  - pose proof (CreateFinalInternal_complete Hash Hash_length (height t1) t1 m1
                  nullptr data tree root0 t' m' r eq_refl Hco1 Hrec1) as Hc.
    rewrite HL1, Hl1, Hlen, Hlev in Hc.
    apply Hc; try assumption; try (intros; lia); klia.
  - eapply unchanged_outside_trans; [exact Hf1|exact Hf'|lia|lia|lia|lia].
Qed.

End CreateComplete.

(** The SHA-256 of this development returns thirty-two bytes. *)
Lemma SHA256_rounds_length ks : forall st ws,
  List.length st = 8%nat -> List.length (SHA256.rounds ks st ws) = 8%nat.
Proof.
  induction ks as [|k ks IH]; intros st ws Hst; cbn [SHA256.rounds];
    [assumption|].
  unfold SHA256.round. cbv zeta. apply IH. reflexivity.
Qed.

Lemma SHA256_compress_length st block :
  List.length st = 8%nat -> List.length (SHA256.compress st block) = 8%nat.
Proof.
  intros Hst. unfold SHA256.compress.
  rewrite length_map, length_combine, SHA256_rounds_length by assumption.
  rewrite Hst. reflexivity.
Qed.

Lemma SHA256_blocks_length n : forall st bs,
  List.length st = 8%nat -> List.length (SHA256.blocks n st bs) = 8%nat.
Proof.
  induction n as [|n IH]; intros st bs Hst; cbn [SHA256.blocks];
    [assumption|].
  apply IH. now apply SHA256_compress_length.
Qed.

Lemma SHA256_be_bytes_length n z : List.length (SHA256.be_bytes n z) = n.
Proof.
  revert z. induction n as [|n IH]; intros z; cbn [SHA256.be_bytes];
    [reflexivity|].
  rewrite length_app, IH. cbn. lia.
Qed.

Lemma SHA256_hash_length msg :
  List.length (SHA256.hash msg) = Z.to_nat kLength.
Proof.
  unfold SHA256.hash. cbv zeta. rewrite length_map.
  match goal with |- context [SHA256.blocks ?n ?st ?bs] =>
    pose proof (SHA256_blocks_length n st bs eq_refl) as Hb;
    destruct (SHA256.blocks n st bs) as [|a [|b [|c [|d [|e [|f [|g [|h [|i l]]]]]]]]];
    try discriminate Hb end.
  cbn [flat_map]. rewrite !length_app, !SHA256_be_bytes_length. reflexivity.
Qed.

(** ** What an accepted verification has checked *)

Section Accepted.

Variable Hash : list byte -> list byte.

(** The input of the hash that [VerifyLevel] computes for node [j]: it
    always takes a whole node of memory. *)
Definition verifier_ctx (m : Mem) (base L k j : Z) : list byte :=
  le_bytes 8 (Z.lor (j * kNodeSize) k) ++
  le_bytes 4 (min (L - j * kNodeSize) kNodeSize mod 2 ^ 32) ++
  load m (base + j * kNodeSize) kNodeSize.

Lemma VerifyLevel_actual_ctx m base L k j n :
  0 <= j -> 0 < n -> j * kNodeSize < L -> L <= 2 ^ 64 - kNodeSize ->
  snd (VerifyLevel_actual Hash m (base + j * kNodeSize) L (j * kNodeSize)
         (n * kNodeSize) k) = kNodeSize /\
  ctx_ (fst (VerifyLevel_actual Hash m (base + j * kNodeSize) L (j * kNodeSize)
               (n * kNodeSize) k)) = verifier_ctx m base L k j /\
  bytes_ (fst (VerifyLevel_actual Hash m (base + j * kNodeSize) L (j * kNodeSize)
                 (n * kNodeSize) k)) = Hash (verifier_ctx m base L k j).
Proof.
  intros Hj Hn HjL HL. unfold VerifyLevel_actual, DigestUpdate. cbv zeta.
  assert (Emod : (j * kNodeSize) mod kNodeSize = 0) by (apply Z.mod_mul; klia).
  rewrite Emod, Z.sub_0_r.
  assert (Emin : min (n * kNodeSize) kNodeSize = kNodeSize).
  { rewrite min_spec. pose proof kNodeSize_val as EN. rewrite EN in *. lia. }
  rewrite Emin. cbn [fst snd]. split; [reflexivity|].
  rewrite bytes_DigestFinal.
  assert (E : ctx_ (DigestFinal Hash
                      (Digest_Update
                         (DigestInit Digest_new (Z.lor (j * kNodeSize) k)
                            (wrap64 (L - j * kNodeSize)))
                         (load m (base + j * kNodeSize) kNodeSize))
                      (wrap64 (j * kNodeSize + kNodeSize))) =
              verifier_ctx m base L k j); [|now rewrite E].
  rewrite ctx_DigestFinal.
  rewrite (wrap64_small (j * kNodeSize + kNodeSize)) by vlia.
  assert (Emod' : (j * kNodeSize + kNodeSize) mod kNodeSize = 0).
  { pose proof kNodeSize_val as EN. rewrite EN in *.
    Z.div_mod_to_equations. lia. }
  rewrite Emod'. change (0 =? 0) with true. cbv iota.
  cbn [Z.to_nat repeat]. rewrite app_nil_r.
  unfold Digest_Update. cbn [ctx_]. rewrite ctx_DigestInit.
  rewrite (wrap64_small (L - j * kNodeSize)) by vlia.
  unfold verifier_ctx. now rewrite <- !app_assoc.
Qed.

Lemma VerifyLevel_loop_accepted (fuel : nat) : forall m base L k tr j n,
  0 <= j -> 0 <= n -> (Z.to_nat n <= fuel)%nat ->
  (j + n) * kNodeSize < L + kNodeSize -> L <= 2 ^ 64 - kNodeSize ->
  VerifyLevel_loop Hash fuel m (base + j * kNodeSize) L (j * kNodeSize)
    (n * kNodeSize) k (tr + kLength * j) = NO_ERROR ->
  forall i, j <= i < j + n ->
    load m (tr + kLength * i) kLength = Hash (verifier_ctx m base L k i).
Proof.
  induction fuel as [|fuel IH];
    intros m base L k tr j n Hj Hn Hfuel Hfit HL Hloop i Hi; [lia|].
  cbn [VerifyLevel_loop] in Hloop.
  destruct (Z.gtb_spec (n * kNodeSize) 0) as [Hpos|]; [|vlia].
  assert (Hn1 : 0 < n) by vlia.
  destruct (VerifyLevel_actual_ctx m base L k j n Hj Hn1 ltac:(vlia) HL)
    as (Hchunk & _ & Hbytes).
  destruct (VerifyLevel_actual Hash m (base + j * kNodeSize) L (j * kNodeSize)
              (n * kNodeSize) k) as [actual chunk].
  cbn [fst snd] in Hchunk, Hbytes. subst chunk.
  destruct (bytes_eqb (bytes_ actual) (load m (tr + kLength * j) kLength)) eqn:Heq;
    cbn [negb] in Hloop; [|discriminate].
  apply bytes_eqb_eq in Heq.
  destruct (Z.eq_dec i j) as [->|Hne].
  { now rewrite <- Heq, Hbytes. }
  rewrite wrap64_small in Hloop by vlia.
  replace (base + j * kNodeSize + kNodeSize) with (base + (j + 1) * kNodeSize)
    in Hloop by lia.
  replace (j * kNodeSize + kNodeSize) with ((j + 1) * kNodeSize) in Hloop by lia.
  replace (n * kNodeSize - kNodeSize) with ((n - 1) * kNodeSize) in Hloop by lia.
  replace (tr + kLength * j + kLength) with (tr + kLength * (j + 1)) in Hloop
    by lia.
  apply (IH m base L k tr (j + 1) (n - 1)); try assumption; try lia.
Qed.

Lemma VerifyLevel_accepted m base L k tr offset length :
  kNodeSize < L <= 2 ^ 64 - kNodeSize ->
  0 <= offset -> 0 <= length -> offset + length <= L ->
  VerifyLevel Hash m base L tr offset length k = NO_ERROR ->
  forall i,
    offset / kNodeSize <= i
      < (offset - offset mod kNodeSize + length + (kNodeSize - 1)) / kNodeSize ->
    load m (tr + kLength * i) kLength = Hash (verifier_ctx m base L k i).
Proof.
  intros HL Ho Hl Hr. unfold VerifyLevel.
  destruct (_ || _); [discriminate|].
  rewrite (wrap64_small (offset + length)) by klia.
  destruct (Z.gtb_spec (offset + length) L); [lia|]. cbv zeta.
  pose proof (Z.mod_pos_bound offset kNodeSize ltac:(klia)) as Hm.
  set (j := offset / kNodeSize).
  assert (Eal : offset - offset mod kNodeSize = j * kNodeSize).
  { subst j. pose proof kNodeSize_val as EN. rewrite EN in *.
    Z.div_mod_to_equations. lia. }
  rewrite Eal.
  rewrite (wrap64_small (j * kNodeSize + length)) by klia.
  rewrite roundup_exact by klia.
  set (e := (j * kNodeSize + length + (kNodeSize - 1)) / kNodeSize).
  assert (He : j <= e /\ e * kNodeSize < L + kNodeSize).
  { subst e. pose proof kNodeSize_val as EN. rewrite EN in *.
    Z.div_mod_to_equations. lia. }
  assert (Hj : 0 <= j) by (subst j; apply Z.div_pos; klia).
  rewrite wrap64_small by vlia.
  replace (e * kNodeSize - j * kNodeSize) with ((e - j) * kNodeSize) by lia.
  replace (j * kNodeSize / kDigestsPerNode) with (kLength * j).
  2:{ pose proof kNodeSize_val as EN. pose proof kDigestsPerNode_val as ED.
      pose proof kLength_val as EL. rewrite EN, ED, EL in *.
      Z.div_mod_to_equations. lia. }
  intros Hloop i Hi.
  refine (VerifyLevel_loop_accepted _ m base L k tr j (e - j) Hj _ _ _ _ Hloop i _);
    try lia.
  rewrite Z2Nat.inj_mul by vlia.
  pose proof kNodeSize_val as EN. rewrite EN.
  assert (0 < Z.to_nat 8192)%nat by lia. nia.
Qed.

End Accepted.

Lemma load_all_zero m p n :
  0 <= n -> load m p n = repeat x00 (Z.to_nat n) ->
  forall a, p <= a < p + n -> m a = x00.
Proof.
  intros Hn E a Ha. unfold load in E.
  assert (Hi : (Z.to_nat (a - p) < Z.to_nat n)%nat) by lia.
  pose proof (nth_load_from m (Z.to_nat n) p (Z.to_nat (a - p)) x00 Hi) as Hnth.
  rewrite E, nth_repeat in Hnth. rewrite Hnth. f_equal. lia.
Qed.

Lemma verifier_ctx_node_ctx m base L k j :
  0 <= j -> j * kNodeSize < L < (j + 1) * kNodeSize ->
  (verifier_ctx m base L k j = node_ctx m base L k j <->
   forall a, base + L <= a < base + (j + 1) * kNodeSize -> m a = x00).
Proof.
  intros Hj HL. unfold verifier_ctx, node_ctx.
  rewrite min_spec, Z.min_l by lia.
  rewrite (load_split m (base + j * kNodeSize) (L - j * kNodeSize) kNodeSize)
    by lia.
  replace (base + j * kNodeSize + (L - j * kNodeSize)) with (base + L) by lia.
  split.
  - intros E. apply app_inv_head in E. apply app_inv_head in E.
    apply app_inv_head in E.
    intros a Ha. apply (load_all_zero m (base + L) (kNodeSize - (L - j * kNodeSize)));
      [lia|exact E|lia].
  - intros Hz. f_equal. f_equal. f_equal.
    apply load_zeros; [lia|]. intros a Ha. apply Hz. lia.
Qed.

(** A successful [CreateInit] had the allocator and the tree buffer that
    it needs. *)
Lemma CreateInit_accepted (heap : nat) : forall t data_len tree_len t',
  0 <= data_len < 2 ^ 64 -> 0 <= tree_len ->
  CreateInit heap t data_len tree_len = (NO_ERROR, t') ->
  (levels_above data_len <= heap)%nat /\ GetTreeLength data_len <= tree_len.
Proof.
  induction heap as [|heap IH]; intros t data_len tree_len t' Hd Ht;
    cbn [CreateInit].
  - destruct (Z.leb_spec data_len kNodeSize) as [Hs|]; [|discriminate].
    intros _. rewrite levels_above_small, GetTreeLength_small by assumption.
    split; lia.
  - destruct (Z.leb_spec data_len kNodeSize) as [Hs|Hg].
    { intros _. rewrite levels_above_small, GetTreeLength_small by assumption.
      split; lia. }
    destruct (Z.ltb_spec tree_len (NextAligned data_len)) as [|Hge];
      [discriminate|].
    pose proof (NextAligned_range data_len) as HNr.
    specialize (IH (set_level Tree_new (wrap64 (level_ (set_length
                      (set_offset (set_initialized t true) 0) data_len) + 1)))
                   (NextAligned data_len) (tree_len - NextAligned data_len)).
    destruct (CreateInit heap _ (NextAligned data_len) _) as [rc n'].
    intros [= -> _].
    destruct (IH n' HNr ltac:(lia) eq_refl) as [Hlev Hfit].
    rewrite levels_above_step by lia. split; [lia|].
    destruct (Z.eq_dec (NextAligned data_len) 0) as [Hz|Hnz].
    + rewrite GetTreeLength_eq. cbv zeta. rewrite Hz. cbn. lia.
    + rewrite GetTreeLength_step by assumption. lia.
Qed.

(** ** C-style wrapper functions *)

Section Wrappers.

Variable Hash : list byte -> list byte.

(** [Digest::CopyTo] and the constructor of a [Digest] from bytes belong
    to merkle/digest.cpp, which is not among these sources.  The wrappers
    only pass their arguments on to them, so they are modelled over any
    implementation of the two. *)
Variable CopyTo : Digest -> Mem -> Z -> Z -> mx_status_t * Mem.
Variable Digest_of_bytes : Mem -> Z -> Digest.

Definition merkle_tree_get_tree_length (data_len : Z) : Z :=
  GetTreeLength data_len.

(** [merkle_tree_create_init].  A handle [merkle_tree_t*] is [None] when
    it is null and otherwise the [Tree] that the wrapper object holds;
    [out] says whether the pointer [out] is non-null.  The second
    component of the result is the handle stored through [out], if one is
    stored: on every error path the [unique_ptr] deletes the wrapper and
    nothing is stored.  The wrapper object comes from the same allocator
    as the levels of the tree. *)
Definition merkle_tree_create_init (heap : nat) (data_len tree_len : Z)
  (out : bool) : mx_status_t * option Tree :=
  if negb out then (ERR_INVALID_ARGS, None)
  else
    match heap with
    | O => (ERR_NO_MEMORY, None)
    | S heap' =>
        match CreateInit heap' Tree_new data_len tree_len with
        | (NO_ERROR, obj) => (NO_ERROR, Some obj)
        | (rc, _) => (rc, None)
        end
    end.

(** [merkle_tree_create_update]; the second component is the wrapper
    object after the call. *)
Definition merkle_tree_create_update (mt : option Tree) (m : Mem)
  (data length tree : Z) : outcome * option Tree * Mem :=
  match mt with
  | None => (Ret ERR_INVALID_ARGS, None, m)
  | Some obj =>
      let '(rc, obj', m') := CreateUpdate Hash obj m data length tree in
      (rc, Some obj', m')
  end.

(** [merkle_tree_create_final].  The [unique_ptr] takes possession of the
    wrapper object on entry, so the object is deleted on every path on
    which the handle is not null. *)
Definition merkle_tree_create_final (mt : option Tree) (m : Mem)
  (tree out out_len : Z) : outcome * Mem :=
  match mt with
  | None => (Ret ERR_INVALID_ARGS, m)
  | Some obj =>
      match CreateFinal Hash obj m tree (Some Digest_new) with
      | (Ret NO_ERROR, _, m', Some digest) =>
          let '(rc, m'') := CopyTo digest m' out out_len in (Ret rc, m'')
      | (rc, _, m', _) => (rc, m')
      end
  end.

(** [merkle_tree_create]. *)
Definition merkle_tree_create (heap : nat) (m : Mem)
  (data data_len tree tree_len out out_len : Z) : outcome * Mem :=
  match Create Hash heap m data data_len tree tree_len (Some Digest_new) with
  | (Ret NO_ERROR, m', Some digest) =>
      let '(rc, m'') := CopyTo digest m' out out_len in (Ret rc, m'')
  | (rc, m', _) => (rc, m')
  end.

(** [merkle_tree_verify]. *)
Definition merkle_tree_verify (m : Mem)
  (data data_len tree tree_len offset length root root_len : Z) : mx_status_t :=
  if root_len <? kLength then ERR_INVALID_ARGS
  else Verify Hash m data data_len tree tree_len offset length
         (Digest_of_bytes m root).

(** A caller that streams the data through the wrappers, as long as the
    calls succeed. *)
Fixpoint merkle_tree_create_updates (mt : option Tree) (m : Mem) (data : Z)
  (chunks : list Z) (tree : Z) : outcome * option Tree * Mem :=
  match chunks with
  | [] => (Ret NO_ERROR, mt, m)
  | c :: chunks' =>
      match merkle_tree_create_update mt m data c tree with
      | (Ret NO_ERROR, mt', m') =>
          merkle_tree_create_updates mt' m' (data + c) chunks' tree
      | r => r
      end
  end.

Definition merkle_tree_streamed (heap : nat) (m : Mem) (data data_len : Z)
  (chunks : list Z) (tree tree_len out out_len : Z) : outcome * Mem :=
  match merkle_tree_create_init heap data_len tree_len true with
  | (NO_ERROR, mt) =>
      match merkle_tree_create_updates mt m data chunks tree with
      | (Ret NO_ERROR, mt', m') => merkle_tree_create_final mt' m' tree out out_len
      | (rc, _, m') => (rc, m')
      end
  | (rc, _) => (Ret rc, m)
  end.

Lemma merkle_tree_create_updates_Some chunks : forall t m data tree,
  merkle_tree_create_updates (Some t) m data chunks tree =
  let '(rc, t', m') := CreateUpdates Hash t m data chunks tree in
  (rc, Some t', m').
Proof.
  induction chunks as [|c chunks IH]; intros t m data tree;
    cbn [merkle_tree_create_updates CreateUpdates]; [reflexivity|].
  unfold merkle_tree_create_update.
  destruct (CreateUpdate Hash t m data c tree) as [[rc t1] m1].
  destruct rc as [[]|]; cbn [and_then]; try reflexivity.
  apply IH.
Qed.

Lemma merkle_tree_streamed_create heap m data data_len chunks tree tree_len
  out out_len :
  Forall (fun c => 0 <= c) chunks -> total chunks = data_len ->
  data_len < 2 ^ 64 -> 0 <= data ->
  merkle_tree_streamed (S heap) m data data_len chunks tree tree_len out out_len =
  merkle_tree_create heap m data data_len tree tree_len out out_len.
Proof.
  intros Hc Ht Hb Hd.
  unfold merkle_tree_streamed, merkle_tree_create, merkle_tree_create_init,
    Create.
  cbn [negb].
  pose proof (CreateInit_fields heap Tree_new data_len tree_len) as Hf.
  destruct (CreateInit heap Tree_new data_len tree_len) as [rc mt].
  cbn [snd] in Hf. destruct Hf as (Hi & Ho & Hl & _).
  destruct rc; try reflexivity.
  rewrite merkle_tree_create_updates_Some.
  rewrite (CreateUpdates_whole Hash chunks mt m data tree)
    by (rewrite ?Ho, ?Hl; (assumption || lia)).
  rewrite Ht.
  destruct (CreateUpdate Hash mt m data data_len tree) as [[rc t1] m1].
  destruct rc as [[]|]; try reflexivity.
  unfold merkle_tree_create_final.
  destruct (CreateFinal Hash t1 m1 tree (Some Digest_new))
    as [[[rc t2] m2] digest].
  destruct rc as [[]|]; reflexivity.
Qed.

Lemma merkle_tree_create_init_cases heap data_len tree_len out :
  is_size_t data_len -> is_size_t tree_len ->
  match merkle_tree_create_init heap data_len tree_len out with
  | (NO_ERROR, Some obj) =>
      out = true /\ (levels_above data_len < heap)%nat /\
      GetTreeLength data_len <= tree_len /\
      initialized_ obj = true /\ offset_ obj = 0 /\ length_ obj = data_len /\
      (data_len <= 2 ^ 64 - kNodeSize -> coherent obj)
  | (NO_ERROR, None) => False
  | (_, Some _) => False
  | (_, None) =>
      out = false \/ (heap <= levels_above data_len)%nat \/
      tree_len < GetTreeLength data_len
  end.
Proof.
  intros Hd Ht. unfold merkle_tree_create_init.
  destruct out; cbn [negb]; [|now left].
  destruct heap as [|heap]; [right; left; lia|].
  pose proof (CreateInit_fields heap Tree_new data_len tree_len) as Hf.
  pose proof (CreateInit_accepted heap Tree_new data_len tree_len) as Hinv.
  pose proof (CreateInit_status_is heap Tree_new data_len tree_len Hd (proj1 Ht))
    as Hs.
  destruct (CreateInit heap Tree_new data_len tree_len) as [rc obj] eqn:Hinit.
  cbn [fst snd] in Hs, Hf, Hinv. destruct Hf as (Hi & Ho & Hl & _).
  assert (Herr : rc <> NO_ERROR ->
                 (S heap <= levels_above data_len)%nat \/
                 tree_len < GetTreeLength data_len).
  { intros Hne.
    destruct (Nat.le_gt_cases (levels_above data_len) heap) as [Hle|Hgt];
      [|left; lia].
    specialize (Hs Hle).
    destruct (Z.ltb_spec tree_len (GetTreeLength data_len)); [now right|].
    contradiction. }
  destruct rc; try (right; apply Herr; discriminate).
  destruct (Hinv obj Hd (proj1 Ht) eq_refl) as [Hlev Hfit].
  repeat split; try assumption; try lia.
  intros Hnw.
  apply (CreateInit_coherent heap Tree_new data_len tree_len obj eq_refl
           ltac:(cbn; lia) (levels_above_fit data_len Hd)
           ltac:(unfold is_size_t in Hd; lia) (proj1 Ht) Hinit).
Qed.

End Wrappers.

(** ** What the upper levels check of a short range *)

Lemma store_outside m p bs a :
  ~ (p <= a < p + Z.of_nat (List.length bs)) -> store m p bs a = m a.
Proof.
  intros H. unfold store.
  destruct (Z.leb_spec p a); [|reflexivity].
  destruct (Z.ltb_spec a (p + Z.of_nat (List.length bs))); [lia|reflexivity].
Qed.

Section ShortRange.

Variable Hash : list byte -> list byte.

(** The converse of [VerifyLevel_loop_accepted]: the loop accepts when
    the digest stored for each node is the hash of what the loop reads
    for it. *)
Lemma VerifyLevel_loop_matching (fuel : nat) : forall m base L k tr j n,
  0 <= j -> 0 <= n ->
  (j + n) * kNodeSize < L + kNodeSize -> L <= 2 ^ 64 - kNodeSize ->
  (forall i, j <= i < j + n ->
     load m (tr + kLength * i) kLength = Hash (verifier_ctx m base L k i)) ->
  VerifyLevel_loop Hash fuel m (base + j * kNodeSize) L (j * kNodeSize)
    (n * kNodeSize) k (tr + kLength * j) = NO_ERROR.
Proof.
  induction fuel as [|fuel IH];
    intros m base L k tr j n Hj Hn Hfit HL Hdig; [reflexivity|].
  cbn [VerifyLevel_loop].
  destruct (Z.gtb_spec (n * kNodeSize) 0) as [Hpos|]; [|reflexivity].
  assert (Hn1 : 0 < n) by vlia.
  destruct (VerifyLevel_actual_ctx Hash m base L k j n Hj Hn1 ltac:(vlia) HL)
    as (Hchunk & _ & Hbytes).
  destruct (VerifyLevel_actual Hash m (base + j * kNodeSize) L (j * kNodeSize)
              (n * kNodeSize) k) as [actual chunk].
  cbn [fst snd] in Hchunk, Hbytes. subst chunk.
  rewrite Hbytes, <- (Hdig j) by lia.
  rewrite bytes_eqb_refl. cbn [negb].
  rewrite wrap64_small by vlia.
  replace (base + j * kNodeSize + kNodeSize) with (base + (j + 1) * kNodeSize)
    by lia.
  replace (j * kNodeSize + kNodeSize) with ((j + 1) * kNodeSize) by lia.
  replace (n * kNodeSize - kNodeSize) with ((n - 1) * kNodeSize) by lia.
  replace (tr + kLength * j + kLength) with (tr + kLength * (j + 1)) by lia.
  apply IH; try lia.
  intros i Hi. apply Hdig. lia.
Qed.

(** [VerifyLevel] accepts in [m2] a range whose arguments it accepted in
    [m1], when the digests of the nodes that it reads match in [m2]. *)
Lemma VerifyLevel_matching m1 m2 base L k tr offset length :
  kNodeSize < L <= 2 ^ 64 - kNodeSize ->
  0 <= offset -> 0 <= length -> offset + length <= L ->
  VerifyLevel Hash m1 base L tr offset length k = NO_ERROR ->
  (forall i,
     offset / kNodeSize <= i
       < (offset - offset mod kNodeSize + length + (kNodeSize - 1)) / kNodeSize ->
     load m2 (tr + kLength * i) kLength = Hash (verifier_ctx m2 base L k i)) ->
  VerifyLevel Hash m2 base L tr offset length k = NO_ERROR.
Proof.
  intros HL Ho Hl Hr. unfold VerifyLevel.
  destruct (_ || _); [discriminate|]. intros _.
  rewrite (wrap64_small (offset + length)) by klia.
  destruct (Z.gtb_spec (offset + length) L); [lia|]. cbv zeta.
  pose proof (Z.mod_pos_bound offset kNodeSize ltac:(klia)) as Hm.
  set (j := offset / kNodeSize).
  assert (Eal : offset - offset mod kNodeSize = j * kNodeSize).
  { subst j. pose proof kNodeSize_val as EN. rewrite EN in *.
    Z.div_mod_to_equations. lia. }
  rewrite Eal.
  rewrite (wrap64_small (j * kNodeSize + length)) by klia.
  rewrite roundup_exact by klia.
  set (e := (j * kNodeSize + length + (kNodeSize - 1)) / kNodeSize).
  assert (He : j <= e /\ e * kNodeSize < L + kNodeSize).
  { subst e. pose proof kNodeSize_val as EN. rewrite EN in *.
    Z.div_mod_to_equations. lia. }
  assert (Hj : 0 <= j) by (subst j; apply Z.div_pos; klia).
  rewrite wrap64_small by vlia.
  replace (e * kNodeSize - j * kNodeSize) with ((e - j) * kNodeSize) by lia.
  replace (j * kNodeSize / kDigestsPerNode) with (kLength * j).
  2:{ pose proof kNodeSize_val as EN. pose proof kDigestsPerNode_val as ED.
      pose proof kLength_val as EL. rewrite EN, ED, EL in *.
      Z.div_mod_to_equations. lia. }
  intros Hdig.
  apply VerifyLevel_loop_matching; try lia.
  intros i Hi. apply Hdig. lia.
Qed.

(** With a length of zero [VerifyLevel] hashes nothing, so the levels
    that [Verify] reaches with a length of zero are read only by
    [VerifyRoot]: the result depends on no byte below the tree of the
    first such level. *)
Lemma Verify_loop_zero_length : forall data_len,
  forall m1 m2 data tree tree_len offset root level root_len,
  kNodeSize < data_len <= 2 ^ 64 - kNodeSize -> 0 <= offset <= data_len ->
  (forall a, tree <= a -> m1 a = m2 a) ->
  Verify_loop Hash m1 data data_len tree tree_len offset 0 root level root_len =
  Verify_loop Hash m2 data data_len tree tree_len offset 0 root level root_len.
Proof.
  intros data_len.
  induction data_len as [data_len IH] using (well_founded_induction (Z.lt_wf 0)).
  intros m1 m2 data tree tree_len offset root level root_len Hd Ho Hag.
  rewrite (Verify_loop_eq Hash m1 data data_len tree tree_len offset 0 root
             level root_len).
  rewrite (Verify_loop_eq Hash m2 data data_len tree tree_len offset 0 root
             level root_len).
  destruct (Z.gtb_spec data_len kNodeSize) as [Hg|]; [|lia].
  pose proof (Z.mod_pos_bound offset kNodeSize ltac:(klia)) as Hm.
  pose proof (Z.mod_le offset kNodeSize ltac:(lia) ltac:(klia)) as Hm'.
  assert (Hal : (offset - offset mod kNodeSize) mod kNodeSize = 0).
  { pose proof kNodeSize_val as E1. rewrite E1 in *.
    clear - Ho. Z.div_mod_to_equations. lia. }
  assert (Hru : roundup (offset - offset mod kNodeSize + 0) kNodeSize =
                offset - offset mod kNodeSize).
  { rewrite roundup_exact by klia.
    pose proof kNodeSize_val as E1. rewrite E1 in *.
    clear - Hal. Z.div_mod_to_equations. lia. }
  assert (Hq : 0 <= (offset - offset mod kNodeSize) / kDigestsPerNode).
  { apply Z.div_pos; klia. }
  rewrite (VerifyLevel_ext_checked Hash m1 m2); try lia.
  2:{ intros a Ha. apply Hag. lia. }
  destruct (VerifyLevel Hash m2 data data_len tree offset 0 level);
    try reflexivity.
  destruct (_ <? _); [reflexivity|].
  destruct (next_range_valid data_len offset 0 ltac:(lia) ltac:(lia) ltac:(lia)
              ltac:(lia)) as (H1 & _ & H3 & H4).
  pose proof (NextAligned_range data_len) as Hnr.
  pose proof (NextAligned_decreases data_len Hg) as Hnd.
  rewrite (Z.div_0_l kDigestsPerNode) in * by klia.
  destruct (Z_gt_dec (NextAligned data_len) kNodeSize) as [Hup|Htop].
  - apply IH; try lia.
    intros a Ha. apply Hag. lia.
  - rewrite (Verify_loop_eq Hash m1), (Verify_loop_eq Hash m2).
    destruct (Z.gtb_spec (NextAligned data_len) kNodeSize); [lia|].
    apply VerifyRoot_ext. intros a Ha. apply Hag. lia.
Qed.

End ShortRange.

(** ** What an accepted verification proves of a tree of two levels *)

(** Two memories of which one block of bytes, followed by anything, is
    a block of the other, agree on the first block. *)
Lemma load_prefix_agree m1 m2 p n1 n2 pad :
  load m1 p n1 ++ pad = load m2 p n2 ->
  forall a, p <= a < p + n1 -> m1 a = m2 a.
Proof.
  intros E a Ha.
  assert (Hlen : (Z.to_nat n1 + List.length pad = Z.to_nat n2)%nat).
  { rewrite <- (load_length m1 p n1), <- (load_length m2 p n2), <- E.
    now rewrite length_app. }
  assert (Hi : (Z.to_nat (a - p) < Z.to_nat n1)%nat) by lia.
  pose proof (nth_load_from m1 (Z.to_nat n1) p (Z.to_nat (a - p)) x00 Hi) as H1.
  pose proof (nth_load_from m2 (Z.to_nat n2) p (Z.to_nat (a - p)) x00
                ltac:(lia)) as H2.
  fold (load m1 p n1) in H1. fold (load m2 p n2) in H2.
  rewrite <- E, app_nth1 in H2 by (rewrite load_length; lia).
  rewrite H1 in H2. rewrite Z2Nat.id in H2 by lia.
  replace (p + (a - p)) with a in H2 by lia. exact H2.
Qed.

Section TwoLevels.

Variable Hash : list byte -> list byte.

(** The input that [VerifyRoot] hashes for a top node that is not
    empty. *)
Lemma VerifyRoot_actual_ctx m base root_len k :
  0 < root_len <= kNodeSize ->
  ctx_ (VerifyRoot_actual Hash m base root_len k) =
  le_bytes 8 k ++ le_bytes 4 (kNodeSize mod 2 ^ 32) ++
  load m base root_len ++ repeat x00 (Z.to_nat (kNodeSize - root_len)).
Proof.
  intros Hrl.
  unfold VerifyRoot_actual, DigestUpdate. cbv zeta.
  rewrite ctx_DigestFinal.
  unfold Digest_Update. cbn [ctx_]. rewrite ctx_DigestInit.
  destruct (Z.eqb_spec root_len 0); [lia|].
  rewrite (Z.mod_0_l kNodeSize) by klia. rewrite Z.sub_0_r.
  rewrite (min_spec root_len), Z.min_l by lia.
  rewrite (min_spec kNodeSize), Z.min_id.
  rewrite <- !app_assoc. do 3 f_equal.
  destruct (Z.eq_dec root_len kNodeSize) as [->|Hne].
  - rewrite Z.mod_same by klia. change (0 =? 0) with true. cbv iota.
    now rewrite Z.sub_diag.
  - rewrite Z.mod_small by lia.
    destruct (Z.eqb_spec root_len 0); [lia|reflexivity].
Qed.

(** The digest that [VerifyRoot] compares with the root. *)
Lemma VerifyRoot_accepted m base root_len k r :
  VerifyRoot Hash m base root_len k r = NO_ERROR ->
  bytes_ r = Hash (ctx_ (VerifyRoot_actual Hash m base root_len k)).
Proof.
  unfold VerifyRoot.
  destruct (_ || _); [discriminate|].
  destruct (Digest_eqb _ r) eqn:Heq; [|discriminate]. intros _.
  apply bytes_eqb_eq in Heq. rewrite <- Heq.
  unfold VerifyRoot_actual, DigestUpdate. cbv zeta.
  apply bytes_DigestFinal.
Qed.

(** A blob of more than one node and at most [kDigestsPerNode] nodes has
    two levels.  [VerifyRoot] hashes the one node of digests, and
    [VerifyLevel] compares the nodes of the range with digests in that
    node.  When [Verify] accepts a memory [m2] against the root of the
    tree of a memory [m], a byte that it read for a node of the range is
    in [m2] what it is in [m], unless the builder and the verifier
    hashed different inputs to the same digest, for the top node or for
    the node of the byte. *)
Lemma complete_two_levels_sound m m2 data L tree tree_len offset length root :
  complete Hash m data L 0 tree root ->
  kNodeSize < L <= kNodeSize * kDigestsPerNode ->
  0 <= offset -> 0 <= length -> offset + length <= L ->
  Verify Hash m2 data L tree tree_len offset length root = NO_ERROR ->
  forall a,
    data + (offset - offset mod kNodeSize) <= a
      < data + roundup (offset - offset mod kNodeSize + length) kNodeSize ->
    a < data + L ->
    m2 a = m a \/
    (node_ctx m tree kNodeSize 1 0 <>
       ctx_ (VerifyRoot_actual Hash m2 tree (NextLength L) 1) /\
     Hash (node_ctx m tree kNodeSize 1 0) =
       Hash (ctx_ (VerifyRoot_actual Hash m2 tree (NextLength L) 1))) \/
    (node_ctx m data L 0 ((a - data) / kNodeSize) <>
       verifier_ctx m2 data L 0 ((a - data) / kNodeSize) /\
     Hash (node_ctx m data L 0 ((a - data) / kNodeSize)) =
       Hash (verifier_ctx m2 data L 0 ((a - data) / kNodeSize))).
Proof.
  intros Hcomp HL Ho Hl Hr Hv a Ha HaL.
  assert (HN : kNodeSize < L <= 2 ^ 64 - kNodeSize).
  { pose proof kNodeSize_val as EN. pose proof kDigestsPerNode_val as ED.
    rewrite EN, ED in *. lia. }
  assert (Hgeo : NextAligned L = kNodeSize /\ 0 < NextLength L <= kNodeSize /\
                 NextLength L = kLength * ((L + (kNodeSize - 1)) / kNodeSize)).
  { clear - HL. geometry. }
  destruct Hgeo as (HNA & HNL & HNLe).
  unfold Verify in Hv. rewrite Verify_loop_eq in Hv.
  destruct (Z.gtb_spec L kNodeSize); [|lia].
  destruct (VerifyLevel Hash m2 data L tree offset length 0) eqn:HVL;
    try discriminate.
  destruct (tree_len <? NextAligned L); [discriminate|].
  rewrite Verify_loop_eq, HNA in Hv.
  destruct (Z.gtb_spec kNodeSize kNodeSize); [lia|].
  change (wrap64 (0 + 1)) with 1 in Hv.
  apply VerifyRoot_accepted in Hv.
  inversion Hcomp as [|? ? ? ? ? _ Hdig _ Hup]; subst; [lia|].
  rewrite HNA in Hup.
  inversion Hup as [? ? ? ? ? _ Hroot|? ? ? ? ? Hbad]; subst; [|lia].
  change (0 + 1) with 1 in Hroot.
  rewrite Hroot in Hv.
  destruct (bytes_eqb (node_ctx m tree kNodeSize 1 0)
              (ctx_ (VerifyRoot_actual Hash m2 tree (NextLength L) 1))) eqn:Hxy.
  2:{ right. left. split; [|exact Hv].
      intros E. rewrite E, bytes_eqb_refl in Hxy. discriminate. }
  apply bytes_eqb_eq in Hxy.
  rewrite (VerifyRoot_actual_ctx m2 tree (NextLength L) 1 HNL) in Hxy.
  unfold node_ctx in Hxy.
  rewrite Z.mul_0_l, Z.sub_0_r, Z.add_0_r, min_spec, Z.min_id, Z.sub_diag
    in Hxy.
  change (Z.lor 0 1) with 1 in Hxy.
  apply app_inv_head in Hxy. apply app_inv_head in Hxy.
  cbn [Z.to_nat repeat] in Hxy. rewrite app_nil_r in Hxy. symmetry in Hxy.
  pose proof (load_prefix_agree m2 m tree (NextLength L) kNodeSize _ Hxy)
    as Htree.
  pose proof (Z.mod_pos_bound offset kNodeSize ltac:(klia)) as Hm.
  pose proof (Z.mod_le offset kNodeSize Ho ltac:(klia)) as Hm'.
  rewrite roundup_exact in Ha by klia.
  set (i := (a - data) / kNodeSize).
  assert (Hia : i * kNodeSize <= a - data < (i + 1) * kNodeSize).
  { subst i. pose proof kNodeSize_val as EN. rewrite EN in *.
    clear - Ha Ho Hm'. Z.div_mod_to_equations. lia. }
  assert (Hi : offset / kNodeSize <= i
               < (offset - offset mod kNodeSize + length + (kNodeSize - 1))
                 / kNodeSize).
  { subst i. pose proof kNodeSize_val as EN. rewrite EN in *.
    clear - Ha Ho Hm Hm'. Z.div_mod_to_equations. lia. }
  assert (Hi0 : 0 <= i).
  { pose proof (Z.div_pos offset kNodeSize Ho ltac:(klia)). lia. }
  assert (Hic : 0 <= i < (L + (kNodeSize - 1)) / kNodeSize).
  { pose proof kNodeSize_val as EN. rewrite EN in *.
    clear - Hi0 Hia HaL. Z.div_mod_to_equations. lia. }
  pose proof (VerifyLevel_accepted Hash m2 data L 0 tree offset length HN Ho Hl
                Hr HVL i Hi) as Hacc.
  rewrite (load_ext m2 m) in Hacc by (intros b Hb; apply Htree; klia).
  rewrite (Hdig i Hic) in Hacc.
  destruct (bytes_eqb (node_ctx m data L 0 i) (verifier_ctx m2 data L 0 i))
    eqn:Hctx.
  - left. apply bytes_eqb_eq in Hctx.
    unfold verifier_ctx, node_ctx in Hctx.
    apply app_inv_head in Hctx. apply app_inv_head in Hctx.
    symmetry.
    apply (load_prefix_agree m m2 (data + i * kNodeSize)
             (min (L - i * kNodeSize) kNodeSize) kNodeSize _ Hctx).
    rewrite min_spec. lia.
  - right. right. split; [|exact Hacc].
    intros E. rewrite E, bytes_eqb_refl in Hctx. discriminate.
Qed.

End TwoLevels.

(** A level of more than [kNodeSize * kDigestsPerNode] bytes has more
    than one node of digests above it, and the digest of each of its
    nodes is in them. *)
Lemma two_levels_above L offset :
  kNodeSize * kDigestsPerNode < L <= 2 ^ 64 - kNodeSize ->
  0 <= offset -> (offset / kNodeSize + 1) * kNodeSize <= L ->
  kNodeSize < NextAligned L <= 2 ^ 64 - kNodeSize /\
  kLength * (offset / kNodeSize) + kLength <= NextAligned L.
Proof. intros HL Ho Hfull. geometry. Qed.

(** ** Two nodes of zero bytes and their tree *)

(** The blob of two nodes that the examples of [Verify] use: [Create]
    builds its tree at [tree_at], and [Verify] accepts every range of it
    against the root that [Create] returned. *)
Lemma two_nodes_built :
  exists m' root,
    Create SHA256.hash 1 zero_mem data_at 16384 tree_at 8192 (Some Digest_new) =
      (Ret NO_ERROR, m', Some root) /\
    complete SHA256.hash m' data_at 16384 0 tree_at root /\
    unchanged_outside zero_mem m' tree_at (tree_at + GetTreeLength 16384) /\
    (forall offset length, 0 <= offset -> 0 <= length -> offset + length <= 16384 ->
       Verify SHA256.hash m' data_at 16384 tree_at 8192 offset length root =
       NO_ERROR).
Proof.
  destruct (Create_complete SHA256.hash SHA256_hash_length 1 zero_mem data_at
              16384 tree_at 8192 Digest_new)
    as (m' & root & Hc & Hcomp & Hf);
    try (unfold data_at, tree_at; klia).
  { left. unfold data_at, tree_at. lia. }
  { vm_compute. discriminate. }
  { rewrite levels_above_step by klia.
    rewrite levels_above_small; [lia|]. vm_compute. discriminate. }
  exists m', root. repeat split; try assumption.
  intros offset length Ho Hl Hr. unfold Verify.
  apply (Verify_loop_complete SHA256.hash 16384 m' data_at 0 tree_at 8192 offset
           length root 16384); try assumption;
    try (unfold data_at, tree_at; klia).
  - vm_compute. discriminate.
  - apply levels_above_fit. klia.
  - intros a Ha. change (roundup 16384 kNodeSize) with 16384 in Ha. lia.
Qed.

(** ** A refused [CreateFinal] and the calls after it *)

Section Resume.

Variable Hash : list byte -> list byte.


End Resume.

(** ** The builder in two memories *)

(** A frame of the loop of [CreateUpdate] with another memory. *)
Definition set_mem (f : Frame) (m : Mem) : Frame :=
  mkFrame (f_this f) m (f_in f) (f_length f) (f_out f) (f_tree_off f) (f_rc f).

(** [u] reads its data and nothing else: run in two memories that hold
    the same data, it returns the same status and the same builder, and
    it leaves the memories equal wherever they were equal. *)
Definition reads_data_only (u : UpdateFn) : Prop :=
  forall t m1 m2 data len tree,
    (forall a, data <= a < data + len -> m1 a = m2 a) ->
    fst (fst (u t m1 data len tree)) = fst (fst (u t m2 data len tree)) /\
    snd (fst (u t m1 data len tree)) = snd (fst (u t m2 data len tree)) /\
    (forall a, m1 a = m2 a ->
       snd (u t m1 data len tree) a = snd (u t m2 data len tree) a).

Lemma store_same m1 m2 p bs a :
  (p <= a < p + Z.of_nat (List.length bs) \/ m1 a = m2 a) ->
  store m1 p bs a = store m2 p bs a.
Proof.
  intros H. unfold store.
  destruct (Z.leb_spec p a); [|cbn [andb]; destruct H; [lia|assumption]].
  destruct (Z.ltb_spec a (p + Z.of_nat (List.length bs))); cbn [andb];
    [reflexivity|destruct H; [lia|assumption]].
Qed.

Lemma memset_same m1 m2 p v n a :
  m1 a = m2 a -> memset m1 p v n a = memset m2 p v n a.
Proof. intros H. unfold memset. now destruct (_ && _). Qed.

Section TwoMemories.

Variable Hash : list byte -> list byte.
Hypothesis Hash_length : forall x, List.length (Hash x) = Z.to_nat kLength.

Lemma absorb_set_mem f m2 :
  0 < f_length f ->
  (forall a, f_in f <= a < f_in f + f_length f -> f_mem f a = m2 a) ->
  absorb (set_mem f m2) = set_mem (absorb f) m2.
Proof.
  intros Hl Hag. unfold absorb, set_mem.
  cbn [f_this f_mem f_in f_length f_out f_tree_off f_rc].
  pose proof (chunk_bounds (f_length f) (offset_ (f_this f)) Hl) as Hc.
  cbv zeta in Hc.
  rewrite (load_ext m2 (f_mem f)); [reflexivity|].
  intros a Ha. symmetry. apply Hag. lia.
Qed.

Lemma finish_in u next f :
  f_in (fst (finish Hash u next f)) = f_in f.
Proof.
  unfold finish.
  destruct (_ && _); [reflexivity|].
  destruct (_ <=? _); [reflexivity|].
  destruct (next_ _); [|reflexivity].
  destruct (u _ _ _ _ _) as [[rc n'] m']. reflexivity.
Qed.

Lemma finish_set_mem u next f m2 :
  reads_data_only u ->
  snd (finish Hash u next (set_mem f m2)) = snd (finish Hash u next f) /\
  fst (finish Hash u next (set_mem f m2)) =
    set_mem (fst (finish Hash u next f))
      (f_mem (fst (finish Hash u next (set_mem f m2)))) /\
  (forall a, f_mem f a = m2 a ->
     f_mem (fst (finish Hash u next f)) a =
     f_mem (fst (finish Hash u next (set_mem f m2))) a).
Proof.
  intros Hu. unfold finish, set_mem.
  cbn [f_this f_mem f_in f_length f_out f_tree_off f_rc].
  destruct (_ && _); [cbn [fst snd f_mem]; auto|].
  destruct (_ <=? _); [cbn [fst snd f_mem]; auto|].
  set (d := firstn (Z.to_nat kLength)
              (bytes_ (digest_ (set_digest (f_this f)
                 (DigestFinal Hash (digest_ (f_this f)) (offset_ (f_this f))))))).
  assert (Hd : Z.of_nat (List.length d) = kLength).
  { subst d. destruct (f_this f) as [i n l o len dg].
    cbn [digest_ set_digest offset_].
    rewrite bytes_DigestFinal, length_firstn, Hash_length. klia. }
  set (w1 := if f_tree_off f mod kNodeSize =? 0
             then memset (f_mem f) (f_out f) x00 kNodeSize else f_mem f).
  set (w2 := if f_tree_off f mod kNodeSize =? 0
             then memset m2 (f_out f) x00 kNodeSize else m2).
  assert (Hw : forall a, f_mem f a = m2 a ->
                 store w1 (f_out f) d a = store w2 (f_out f) d a).
  { intros a Ha. apply store_same. right. subst w1 w2.
    destruct (_ =? 0); [now apply memset_same|assumption]. }
  assert (Hdata : forall a, f_out f <= a < f_out f + kLength ->
                    store w1 (f_out f) d a = store w2 (f_out f) d a).
  { intros a Ha. apply store_same. left. lia. }
  destruct (next_ _) as [n|]; [|cbn [fst snd f_mem]; auto].
  destruct (Hu n (store w1 (f_out f) d) (store w2 (f_out f) d) (f_out f) kLength
              next Hdata) as (H1 & H2 & H3).
  destruct (u n (store w1 (f_out f) d) (f_out f) kLength next) as [[rc1 n1] m1'].
  destruct (u n (store w2 (f_out f) d) (f_out f) kLength next) as [[rc2 n2] m2'].
  cbn [fst snd] in H1, H2, H3. subst rc2 n2.
  cbn [fst snd f_mem]. repeat split. intros a Ha. apply H3. now apply Hw.
Qed.

Lemma CreateUpdate_loop_set_mem u next (Hu : reads_data_only u) :
  forall fuel f m2,
  (forall a, f_in f <= a < f_in f + f_length f -> f_mem f a = m2 a) ->
  CreateUpdate_loop Hash u next fuel (set_mem f m2) =
    set_mem (CreateUpdate_loop Hash u next fuel f)
      (f_mem (CreateUpdate_loop Hash u next fuel (set_mem f m2))) /\
  (forall a, f_mem f a = m2 a ->
     f_mem (CreateUpdate_loop Hash u next fuel f) a =
     f_mem (CreateUpdate_loop Hash u next fuel (set_mem f m2)) a).
Proof.
  induction fuel as [|fuel IH]; intros f m2 Hag; cbn [CreateUpdate_loop].
  - split; [reflexivity|]. intros a Ha. exact Ha.
  - change (f_length (set_mem f m2)) with (f_length f).
    change (f_rc (set_mem f m2)) with (f_rc f).
    destruct (Z.gtb_spec (f_length f) 0) as [Hpos|];
      [|split; [reflexivity|intros a Ha; exact Ha]].
    destruct (is_ok (f_rc f)); cbn [andb];
      [|split; [reflexivity|intros a Ha; exact Ha]].
    rewrite !CreateUpdate_iter_eq.
    rewrite (absorb_set_mem f m2 Hpos Hag).
    destruct (finish_set_mem u next (absorb f) m2 Hu) as (Hc & Hf & Hk).
    pose proof (chunk_bounds (f_length f) (offset_ (f_this f)) Hpos) as Hch.
    cbv zeta in Hch.
    destruct (finish Hash u next (set_mem (absorb f) m2)) as [g2 c2].
    destruct (finish Hash u next (absorb f)) as [g1 c1] eqn:Hfin.
    cbn [fst snd] in Hc, Hf, Hk. subst c2.
    change (f_mem (absorb f)) with (f_mem f) in Hk.
    destruct c1.
    + rewrite Hf.
      assert (Hag' : forall a, f_in g1 <= a < f_in g1 + f_length g1 ->
                       f_mem g1 a = f_mem g2 a).
      { intros a Ha. apply Hk. apply Hag.
        pose proof (finish_length Hash u next (absorb f)) as HL.
        rewrite Hfin in HL. cbn [fst] in HL.
        pose proof (finish_in u next (absorb f)) as Hin.
        rewrite Hfin in Hin. cbn [fst] in Hin.
        rewrite Hin, HL in Ha. unfold absorb in Ha.
        cbn [f_in f_length] in Ha. lia. }
      destruct (IH g1 (f_mem g2) Hag') as (IH1 & IH2).
      split; [exact IH1|].
      intros a Ha. apply IH2. now apply Hk.
    + split; [exact Hf|exact Hk].
Qed.

Lemma CreateUpdate_body_reads_data_only u :
  reads_data_only u -> reads_data_only (CreateUpdate_body Hash u).
Proof.
  intros Hu t m1 m2 data len tree Hag.
  rewrite !CreateUpdate_body_result.
  destruct (negb _); [cbn [fst snd]; auto|].
  destruct (Z.eqb_spec len 0); [cbn [fst snd]; auto|].
  destruct (_ >? _); [cbn [fst snd]; auto|].
  destruct (_ || _); [cbn [fst snd]; auto|].
  cbv zeta. cbn [fst snd].
  set (f := mkFrame t m1 data len _ _ NO_ERROR).
  change (mkFrame t m2 data len
            (tree + (offset_ t - offset_ t mod kNodeSize) / kDigestsPerNode)
            ((offset_ t - offset_ t mod kNodeSize) / kDigestsPerNode) NO_ERROR)
    with (set_mem f m2).
  destruct (CreateUpdate_loop_set_mem u (tree + NextAligned (length_ t)) Hu
              (Z.to_nat len) f m2 Hag) as (H1 & H2).
  rewrite H1. cbn [set_mem f_rc f_this f_mem]. repeat split. exact H2.
Qed.

Lemma CreateUpdate_rec_reads_data_only (depth : nat) :
  reads_data_only (CreateUpdate_rec Hash depth).
Proof.
  induction depth as [|depth IH]; rewrite CreateUpdate_rec_eq;
    apply CreateUpdate_body_reads_data_only.
  - intros t m1 m2 data len tree _. cbn [next_update fst snd]. auto.
  - exact IH.
Qed.

(** [CreateUpdate] reads its data and nothing else. *)
Lemma CreateUpdate_reads_data_only t m1 m2 data len tree :
  (forall a, data <= a < data + len -> m1 a = m2 a) ->
  fst (fst (CreateUpdate Hash t m1 data len tree)) =
    fst (fst (CreateUpdate Hash t m2 data len tree)) /\
  snd (fst (CreateUpdate Hash t m1 data len tree)) =
    snd (fst (CreateUpdate Hash t m2 data len tree)) /\
  (forall a, m1 a = m2 a ->
     snd (CreateUpdate Hash t m1 data len tree) a =
     snd (CreateUpdate Hash t m2 data len tree) a).
Proof. apply CreateUpdate_rec_reads_data_only. Qed.

End TwoMemories.

(** ** Pieces of data at any addresses *)

(** Calls of [CreateUpdate], each given as the pointer and the length of
    its piece of data. *)
Fixpoint CreateUpdateCalls (Hash : list byte -> list byte) (t : Tree) (m : Mem)
  (calls : list (Z * Z)) (tree : Z) : outcome * Tree * Mem :=
  match calls with
  | [] => (Ret NO_ERROR, t, m)
  | (p, c) :: calls' =>
      and_then (CreateUpdate Hash t m p c tree)
        (fun t1 m1 => CreateUpdateCalls Hash t1 m1 calls' tree)
  end.

(** [CreateInit], the calls of [CreateUpdate] and [CreateFinal], as
    [Create] chains them. *)
Definition CreateCalls (Hash : list byte -> list byte) (heap : nat) (m : Mem)
  (data_len : Z) (calls : list (Z * Z)) (tree tree_len : Z)
  (digest : option Digest) : outcome * Mem * option Digest :=
  let mt := Tree_new in
  match CreateInit heap mt data_len tree_len with
  | (NO_ERROR, mt) =>
      match CreateUpdateCalls Hash mt m calls tree with
      | (Ret NO_ERROR, mt, m) =>
          let '(rc, _, m, digest) := CreateFinal Hash mt m tree digest in
          (rc, m, digest)
      | (rc, _, m) => (rc, m, digest)
      end
  | (rc, _) => (Ret rc, m, digest)
  end.

(** The bytes that the pieces hold, one piece after the other. *)
Definition contents (m : Mem) (calls : list (Z * Z)) : list byte :=
  List.concat (map (fun pc => load m (fst pc) (snd pc)) calls).

Definition lengths (calls : list (Z * Z)) : Z := total (map snd calls).

(** A piece that is present and does not overlap the [W] bytes at
    [tree]. *)
Definition piece_ok (tree W : Z) (pc : Z * Z) : Prop :=
  0 <= snd pc /\ 0 < fst pc /\
  (fst pc + snd pc <= tree \/ tree + W <= fst pc).

Lemma contents_length m calls :
  Forall (fun pc => 0 <= snd pc) calls ->
  Z.of_nat (List.length (contents m calls)) = lengths calls.
Proof.
  unfold contents, lengths, total.
  induction 1 as [|pc calls Hc _ IH]; [reflexivity|].
  cbn [map List.concat fold_right]. rewrite length_app, load_length. lia.
Qed.

Lemma lengths_nonneg calls :
  Forall (fun pc => 0 <= snd pc) calls -> 0 <= lengths calls.
Proof.
  unfold lengths, total.
  induction 1 as [|pc calls Hc _ IH]; cbn [map fold_right]; lia.
Qed.

Lemma app_same_length (A : Type) (a c b d : list A) :
  List.length a = List.length c -> a ++ b = c ++ d -> a = c /\ b = d.
Proof.
  revert c. induction a as [|x a IH]; intros [|y c] Hl E; try discriminate.
  - now split.
  - cbn in Hl, E. injection E as -> E. injection Hl as Hl.
    destruct (IH c Hl E) as [-> ->]. now split.
Qed.

Lemma load_pointwise m1 m2 p q n :
  load m1 p n = load m2 q n ->
  forall i, 0 <= i < n -> m1 (p + i) = m2 (q + i).
Proof.
  intros E i Hi. unfold load in E.
  assert (Hn : (Z.to_nat i < Z.to_nat n)%nat) by lia.
  pose proof (nth_load_from m1 (Z.to_nat n) p (Z.to_nat i) x00 Hn) as H1.
  pose proof (nth_load_from m2 (Z.to_nat n) q (Z.to_nat i) x00 Hn) as H2.
  rewrite E, H2, Z2Nat.id in H1 by lia. now symmetry.
Qed.

Lemma pointwise_load m1 m2 p q n :
  (forall i, 0 <= i < n -> m1 (p + i) = m2 (q + i)) ->
  load m1 p n = load m2 q n.
Proof.
  intros H. unfold load.
  apply (nth_ext _ _ x00 x00); [now rewrite !load_from_length|].
  rewrite load_from_length. intros i Hi.
  rewrite !nth_load_from by assumption. apply H. lia.
Qed.

Section Pointers.

Variable Hash : list byte -> list byte.
Hypothesis Hash_length : forall x, List.length (Hash x) = Z.to_nat kLength.

(** A call that stays inside a node depends on its pointer and on the
    memory only through the bytes of its piece. *)
Lemma CreateUpdate_two_pointers t m1 m2 p q c tree :
  initialized_ t = true -> 0 < c -> 0 <= offset_ t ->
  offset_ t mod kNodeSize + c <= kNodeSize ->
  offset_ t + c <= length_ t -> length_ t < 2 ^ 64 ->
  is_null p = false -> is_null q = false ->
  is_null tree && (length_ t >? kNodeSize) = false ->
  load m1 p c = load m2 q c ->
  fst (fst (CreateUpdate Hash t m1 p c tree)) =
    fst (fst (CreateUpdate Hash t m2 q c tree)) /\
  snd (fst (CreateUpdate Hash t m1 p c tree)) =
    snd (fst (CreateUpdate Hash t m2 q c tree)) /\
  (forall a, m1 a = m2 a ->
     snd (CreateUpdate Hash t m1 p c tree) a =
     snd (CreateUpdate Hash t m2 q c tree) a).
Proof.
  intros Hi Hc Ho Hn Hr Hb Hp Hq Ht E.
  rewrite !CreateUpdate_within_node; try assumption;
    try (rewrite ?Hp, ?Hq; exact Ht).
  cbv zeta.
  assert (Ea : absorbed t m1 p c = absorbed t m2 q c)
    by (unfold absorbed; now rewrite E).
  rewrite Ea.
  destruct (negb ((offset_ t + c) mod kNodeSize =? 0) &&
            negb (offset_ t + c =? length_ t)); [cbn [fst snd]; auto|].
  destruct (length_ t <=? kNodeSize); [cbn [fst snd]; auto|].
  set (d' := DigestFinal Hash (absorbed t m2 q c) (offset_ t + c)).
  assert (Hd : Z.of_nat (List.length (firstn (Z.to_nat kLength) (bytes_ d'))) =
               kLength).
  { subst d'. rewrite bytes_DigestFinal, length_firstn, Hash_length. klia. }
  assert (Hw : forall a, m1 a = m2 a ->
                 stored t m1 tree d' a = stored t m2 tree d' a).
  { intros a Ha. unfold stored. apply store_same. right.
    destruct (_ =? 0); [now apply memset_same|assumption]. }
  assert (Hdata : forall a,
            tree + tree_off_of t <= a < tree + tree_off_of t + kLength ->
            stored t m1 tree d' a = stored t m2 tree d' a).
  { intros a Ha. unfold stored. apply store_same. left. lia. }
  destruct (next_ t) as [n|]; [|cbn [fst snd]; auto].
  destruct (CreateUpdate_reads_data_only Hash Hash_length n
              (stored t m1 tree d') (stored t m2 tree d')
              (tree + tree_off_of t) kLength (tree + NextAligned (length_ t))
              Hdata) as (H1 & H2 & H3).
  destruct (CreateUpdate Hash n (stored t m1 tree d') _ _ _) as [[rc1 n1] m1'].
  destruct (CreateUpdate Hash n (stored t m2 tree d') _ _ _) as [[rc2 n2] m2'].
  cbn [fst snd] in *. subst rc2 n2.
  split; [reflexivity|]. split; [reflexivity|].
  intros a Ha. apply H3. now apply Hw.
Qed.

(** A piece fed from two places that hold the same bytes, in two
    memories, with the places clear of the tree. *)
Lemma CreateUpdate_relocated (n : nat) : forall t m1 m2 p q tree,
  coherent t -> offset_ t + Z.of_nat n <= length_ t ->
  0 < p -> 0 < q -> (kNodeSize < length_ t -> 0 < tree) ->
  (forall i, 0 <= i < Z.of_nat n -> m1 (p + i) = m2 (q + i)) ->
  (p + Z.of_nat n <= tree \/ tree + GetTreeLength (length_ t) <= p) ->
  (q + Z.of_nat n <= tree \/ tree + GetTreeLength (length_ t) <= q) ->
  exists t' m1' m2',
    CreateUpdate Hash t m1 p (Z.of_nat n) tree = (Ret NO_ERROR, t', m1') /\
    CreateUpdate Hash t m2 q (Z.of_nat n) tree = (Ret NO_ERROR, t', m2') /\
    coherent t' /\ offset_ t' = offset_ t + Z.of_nat n /\ shape t' = shape t /\
    unchanged_outside m1 m1' tree (tree + GetTreeLength (length_ t)) /\
    unchanged_outside m2 m2' tree (tree + GetTreeLength (length_ t)) /\
    (forall a, m1 a = m2 a -> m1' a = m2' a).
Proof.
  induction n as [|n IH]; intros t m1 m2 p q tree Hco Hr Hp Hq Htr Hag Hd1 Hd2;
    destruct (coherent_fields t Hco) as (Hi & Ho & HL).
  - exists t, m1, m2. change (Z.of_nat 0) with 0.
    rewrite !CreateUpdate_nothing by assumption.
    repeat split; try apply unchanged_outside_refl; auto. lia.
  - pose proof (GetTreeLength_bound (length_ t) ltac:(klia)) as HG.
    replace (Z.of_nat (S n)) with (1 + Z.of_nat n) in * by lia.
    rewrite !CreateUpdate_first_byte by klia.
    pose proof (Z.mod_pos_bound (offset_ t) kNodeSize ltac:(klia)) as Hm.
    destruct (CreateUpdate_step Hash (height t) t m1 p 1 tree eq_refl Hco)
      as (t1 & m1a & Hc1 & Hco1 & Ho1 & Hs1 & Hf1); try lia; try assumption.
    destruct (CreateUpdate_step Hash (height t) t m2 q 1 tree eq_refl Hco)
      as (t2 & m2a & Hc2 & Hco2 & Ho2 & Hs2 & Hf2); try lia; try assumption.
    assert (Hnull : is_null tree && (length_ t >? kNodeSize) = false).
    { destruct (Z.gtb_spec (length_ t) kNodeSize);
        [rewrite not_null by auto; reflexivity|apply andb_false_r]. }
    destruct (CreateUpdate_two_pointers t m1 m2 p q 1 tree Hi ltac:(lia)
                ltac:(lia) ltac:(lia) ltac:(lia) ltac:(klia)
                (not_null p Hp) (not_null q Hq) Hnull)
      as (_ & E2 & E3).
    { apply pointwise_load. intros i Hi'. apply Hag. lia. }
    rewrite Hc1, Hc2 in E2, E3. cbn [fst snd] in E2, E3. subst t2.
    rewrite Hc1, Hc2. cbn [and_then].
    destruct (shape_eq_fields _ _ Hs1) as (_ & _ & HL1).
    destruct (IH t1 m1a m2a (p + 1) (q + 1) tree Hco1)
      as (t' & m1' & m2' & Hc1' & Hc2' & Hco' & Ho' & Hs' & Hf1' & Hf2' & Hk);
      try (rewrite ?HL1, ?Ho1; lia); try (rewrite HL1; assumption).
    { intros i Hi'. rewrite (Hf1 (p + 1 + i)), (Hf2 (q + 1 + i)) by lia.
      replace (p + 1 + i) with (p + (1 + i)) by lia.
      replace (q + 1 + i) with (q + (1 + i)) by lia. apply Hag. lia. }
    exists t', m1', m2'. rewrite HL1 in Hf1', Hf2'.
    repeat split; try assumption; try lia.
    + now rewrite Hs'.
    + eapply unchanged_outside_trans; [exact Hf1|exact Hf1'|lia|lia|lia|lia].
    + eapply unchanged_outside_trans; [exact Hf2|exact Hf2'|lia|lia|lia|lia].
    + intros a Ha. apply Hk. now apply E3.
Qed.

End Pointers.

Lemma unchanged_outside_load m m' lo hi p n :
  unchanged_outside m m' lo hi -> 0 <= n -> p + n <= lo \/ hi <= p ->
  load m' p n = load m p n.
Proof.
  intros Hf Hn Hd. apply load_ext. intros a Ha. apply Hf. lia.
Qed.

Lemma contents_unchanged m m' tree W calls :
  unchanged_outside m m' tree (tree + W) -> Forall (piece_ok tree W) calls ->
  contents m' calls = contents m calls.
Proof.
  intros Hf. unfold contents.
  induction 1 as [|pc calls (Hc & Hp & Hd) _ IH]; [reflexivity|].
  cbn [map List.concat]. rewrite IH. f_equal.
  now apply (unchanged_outside_load m m' tree (tree + W)).
Qed.

Section PointersCalls.

Variable Hash : list byte -> list byte.
Hypothesis Hash_length : forall x, List.length (Hash x) = Z.to_nat kLength.

(** Pieces at any addresses, in one memory, against the same bytes in a
    row, in another. *)
Lemma CreateUpdateCalls_relocated (calls : list (Z * Z)) :
  forall t m1 m2 q tree,
  coherent t -> offset_ t + lengths calls <= length_ t ->
  Forall (piece_ok tree (GetTreeLength (length_ t))) calls ->
  0 < q ->
  (q + lengths calls <= tree \/ tree + GetTreeLength (length_ t) <= q) ->
  (kNodeSize < length_ t -> 0 < tree) ->
  contents m1 calls = load m2 q (lengths calls) ->
  exists t' m1' m2',
    CreateUpdateCalls Hash t m1 calls tree = (Ret NO_ERROR, t', m1') /\
    CreateUpdate Hash t m2 q (lengths calls) tree = (Ret NO_ERROR, t', m2') /\
    coherent t' /\ offset_ t' = offset_ t + lengths calls /\
    shape t' = shape t /\
    unchanged_outside m1 m1' tree (tree + GetTreeLength (length_ t)) /\
    unchanged_outside m2 m2' tree (tree + GetTreeLength (length_ t)) /\
    (forall a, m1 a = m2 a -> m1' a = m2' a).
Proof.
  induction calls as [|[p c] calls IH];
    intros t m1 m2 q tree Hco Hr Hok Hq Hd Htr E;
    destruct (coherent_fields t Hco) as (Hi & Ho & HL).
  - exists t, m1, m2. change (lengths []) with 0.
    rewrite CreateUpdate_nothing by assumption. cbn [CreateUpdateCalls].
    repeat split; try apply unchanged_outside_refl; auto. lia.
  - inversion Hok as [|? ? (Hc & Hp & Hdp) Hoks]; subst. cbn [fst snd] in *.
    assert (Hnn : Forall (fun pc => 0 <= snd pc) calls).
    { eapply Forall_impl; [|exact Hoks]. intros pc (H & _). exact H. }
    pose proof (lengths_nonneg calls Hnn) as Hlen.
    assert (El : lengths ((p, c) :: calls) = c + lengths calls) by reflexivity.
    rewrite El in *.
    pose proof (GetTreeLength_bound (length_ t) ltac:(klia)) as HG.
    change (contents m1 ((p, c) :: calls))
      with (load m1 p c ++ contents m1 calls) in E.
    rewrite load_app in E by lia.
    apply app_same_length in E; [|now rewrite !load_length].
    destruct E as [E1 E2].
    destruct (CreateUpdate_relocated Hash Hash_length (Z.to_nat c) t m1 m2 p q
                tree Hco)
      as (t1 & m1a & m2a & Hc1 & Hc2 & Hco1 & Ho1 & Hs1 & Hf1 & Hf2 & Hk1);
      try (rewrite ?Z2Nat.id by lia; lia); try assumption.
    { rewrite Z2Nat.id by lia. now apply load_pointwise. }
    rewrite Z2Nat.id in Hc1, Hc2, Ho1 by lia.
    destruct (shape_eq_fields _ _ Hs1) as (_ & _ & HL1).
    destruct (IH t1 m1a m2a (q + c) tree Hco1)
      as (t' & m1' & m2' & Hc1' & Hc2' & Hco' & Ho' & Hs' & Hf1' & Hf2' & Hk');
      try (rewrite ?HL1, ?Ho1; lia); try (rewrite HL1; assumption).
    { rewrite (contents_unchanged m1 m1a tree (GetTreeLength (length_ t)))
        by assumption.
      rewrite (unchanged_outside_load m2 m2a tree
                 (tree + GetTreeLength (length_ t)))
        by (assumption || lia).
      exact E2. }
    exists t', m1', m2'. rewrite HL1 in Hf1', Hf2'.
    cbn [CreateUpdateCalls]. rewrite Hc1. cbn [and_then].
    split; [exact Hc1'|]. split.
    { replace (c + lengths calls)
        with (Z.of_nat (Z.to_nat c) + lengths calls) by lia.
      rewrite CreateUpdate_split by klia.
      rewrite Z2Nat.id by lia. rewrite Hc2. exact Hc2'. }
    repeat split; try assumption; try lia.
    + now rewrite Hs'.
    + eapply unchanged_outside_trans; [exact Hf1|exact Hf1'|lia|lia|lia|lia].
    + eapply unchanged_outside_trans; [exact Hf2|exact Hf2'|lia|lia|lia|lia].
    + intros a Ha. apply Hk'. now apply Hk1.
Qed.

(** [CreateFinalInternal] reads the rest of its level and the tree above
    it: in two memories that agree there it returns the same root. *)
Lemma CreateFinalInternal_two_memories (h : nat) :
  forall t m1 m2 data tr root0,
  height t = h -> coherent t -> (level_ t = 0 -> offset_ t = length_ t) ->
  (offset_ t < length_ t -> 0 < data) -> (kNodeSize < length_ t -> 0 < tr) ->
  (forall a, data + offset_ t <= a < data + length_ t -> m1 a = m2 a) ->
  (forall a, tr <= a < tr + GetTreeLength (length_ t) -> m1 a = m2 a) ->
  exists t' m1' m2' root,
    CreateFinalInternal_rec Hash h t m1 data tr (Some root0) =
      (Ret NO_ERROR, t', m1', Some root) /\
    CreateFinalInternal_rec Hash h t m2 data tr (Some root0) =
      (Ret NO_ERROR, t', m2', Some root) /\
    (forall a, m1 a = m2 a -> m1' a = m2' a).
Proof.
  induction h as [|h IH]; intros t m1 m2 data tr root0 Hh Hco Hlev Hd Htr Hag Hat;
    rewrite !CreateFinalInternal_rec_eq, !CreateFinalInternal_body_result;
    destruct (coherent_fields t Hco) as (Hi & Ho & HL);
    rewrite Hi; cbn [negb orb];
    (destruct ((level_ t =? 0) && negb (offset_ t =? length_ t)) eqn:Hchk;
     [apply andb_prop in Hchk as [H1 H2]; apply Z.eqb_eq in H1;
      apply negb_true_iff in H2; apply Z.eqb_neq in H2;
      specialize (Hlev H1); contradiction|]);
    (assert (Hnull : is_null tr && (length_ t >? kNodeSize) = false)
       by (destruct (Z.gtb_spec (length_ t) kNodeSize);
           [rewrite not_null by auto; reflexivity|apply andb_false_r]));
    rewrite Hnull; cbv zeta;
    set (t0 := if length_ t =? 0 then _ else t);
    (assert (Hco0 : coherent t0)
       by (subst t0; destruct (length_ t =? 0);
           [now apply coherent_set_digest|assumption]));
    (assert (Hf0 : offset_ t0 = offset_ t /\ length_ t0 = length_ t /\
                   shape t0 = shape t)
       by (subst t0; destruct (length_ t =? 0);
           [destruct t; repeat split; apply shape_set_digest|auto]));
    destruct Hf0 as (Ho0 & HL0 & Hs0);
    rewrite Ho0, HL0, wrap64_small by klia;
    (destruct (CreateUpdate_coherent Hash (length_ t - offset_ t) t0 m1
                 (data + offset_ t) tr Hco0)
       as (t1 & m1a & Hcall1 & Hco1 & Ho1 & Hs1 & Hf1);
     [lia|lia|lia|rewrite HL0; exact Htr|]);
    (destruct (CreateUpdate_coherent Hash (length_ t - offset_ t) t0 m2
                 (data + offset_ t) tr Hco0)
       as (t2 & m2a & Hcall2 & _ & _ & _ & Hf2);
     [lia|lia|lia|rewrite HL0; exact Htr|]);
    (destruct (CreateUpdate_reads_data_only Hash Hash_length t0 m1 m2
                 (data + offset_ t) (length_ t - offset_ t) tr)
       as (_ & E2 & E3); [intros a Ha; apply Hag; lia|]);
    rewrite Hcall1, Hcall2 in E2, E3; cbn [fst snd] in E2, E3; subst t2;
    rewrite Hcall1, Hcall2; rewrite HL0 in Hf1, Hf2;
    destruct (shape_eq_fields _ _ Hs1) as (_ & Hl1 & HL1);
    rewrite length_set_initialized, next_set_initialized, HL1, HL0;
    apply coherent_eq in Hco1; destruct Hco1 as (Hi1 & Hk1 & Hoo1 & HLL1 & Hnx1).
  - (* the top of the tree *)
    assert (Hnone : next_ t1 = None).
    { pose proof (shape_eq_height _ _ Hs1) as E1.
      pose proof (shape_eq_height _ _ Hs0) as E0.
      destruct t1 as [i [n|] k o L d]; [cbn in E1; lia|reflexivity]. }
    rewrite Hnone in Hnx1. rewrite HL1, HL0 in Hnx1.
    destruct (Z.leb_spec (length_ t) kNodeSize); [|lia].
    eexists; eexists; eexists; eexists.
    split; [reflexivity|]. split; [reflexivity|exact E3].
  - destruct (next_ t1) as [n1|] eqn:Hnext.
    2:{ pose proof (shape_eq_height _ _ Hs1) as E1.
        pose proof (shape_eq_height _ _ Hs0) as E0.
        destruct t1 as [i [n|] k o L d]; [discriminate|cbn in E1; lia]. }
    destruct Hnx1 as (Hbig & Hln & HLn & Hon & Hcn).
    rewrite HL1, HL0 in Hbig, HLn.
    destruct (Z.leb_spec (length_ t) kNodeSize); [lia|].
    cbn [next_final].
    assert (Hhn : height n1 = h).
    { pose proof (shape_eq_height _ _ Hs1) as E1.
      pose proof (shape_eq_height _ _ Hs0) as E0.
      rewrite (height_next t1 n1 Hnext) in E1. lia. }
    pose proof (NextAligned_range (length_ t)) as HNr.
    pose proof (NextAligned_positive (length_ t) ltac:(lia)) as HNp.
    pose proof (GetTreeLength_step (length_ t) ltac:(klia) ltac:(klia)) as Hstep.
    pose proof (GetTreeLength_bound (NextAligned (length_ t)) HNr) as HGb.
    destruct (coherent_fields n1 Hcn) as (_ & Hon1 & _).
    destruct (IH n1 m1a m2a tr (tr + NextAligned (length_ t)) root0 Hhn Hcn)
      as (n' & m1' & m2' & root & Hc1' & Hc2' & Hk');
      try (intros; lia).
    { intros a Ha. apply E3. apply Hat. rewrite HLn in Ha. lia. }
    { intros a Ha. apply E3. apply Hat. rewrite HLn in Ha. lia. }
    rewrite Hc1', Hc2'.
    eexists; eexists; eexists; eexists.
    split; [reflexivity|]. split; [reflexivity|].
    intros a Ha. apply Hk'. now apply E3.
Qed.

End PointersCalls.

(** ** The tree as a function of the bytes *)

Lemma node_ctx_content m1 m2 base1 base2 L k j :
  0 <= j -> j * kNodeSize <= L ->
  load m1 base1 L = load m2 base2 L ->
  node_ctx m1 base1 L k j = node_ctx m2 base2 L k j.
Proof.
  intros Hj HL E. unfold node_ctx. do 3 f_equal.
  apply pointwise_load. intros i Hi.
  rewrite min_spec in Hi.
  replace (base1 + j * kNodeSize + i) with (base1 + (j * kNodeSize + i)) by lia.
  replace (base2 + j * kNodeSize + i) with (base2 + (j * kNodeSize + i)) by lia.
  apply (load_pointwise m1 m2 base1 base2 L E). vlia.
Qed.

Section Content.

Variable Hash : list byte -> list byte.

(** Two complete trees over the same bytes have the same root and the
    same bytes, wherever the data and the trees are. *)
Lemma complete_content m1 base1 L k tr1 r1 :
  complete Hash m1 base1 L k tr1 r1 ->
  forall m2 base2 tr2 r2,
  complete Hash m2 base2 L k tr2 r2 ->
  0 <= L <= 2 ^ 64 - kNodeSize ->
  load m1 base1 L = load m2 base2 L ->
  bytes_ r1 = bytes_ r2 /\
  load m1 tr1 (GetTreeLength L) = load m2 tr2 (GetTreeLength L).
Proof.
  induction 1 as [base1 L k tr1 r1 Hs Hr1|base1 L k tr1 r1 Hg Hdig1 Hz1 Hup1 IH];
    intros m2 base2 tr2 r2 H2 HL E.
  - inversion H2 as [? ? ? ? ? _ Hr2|? ? ? ? ? Hg2]; subst; [|lia].
    rewrite GetTreeLength_small by assumption. split; [|reflexivity].
    rewrite Hr1, Hr2. f_equal. apply node_ctx_content; [lia|lia|exact E].
  - inversion H2 as [? ? ? ? ? Hs2|? ? ? ? ? _ Hdig2 Hz2 Hup2]; subst; [lia|].
    destruct (NextLength_finished L ltac:(lia)) as (HNL & _ & Hfin & HNLr).
    rewrite Hfin in HNL.
    pose proof (NextAligned_range L) as HNr.
    pose proof (NextAligned_positive L ltac:(lia)) as HNp.
    pose proof (NextAligned_no_wrap L ltac:(lia)) as HNw.
    assert (Elev : load m1 tr1 (NextAligned L) = load m2 tr2 (NextAligned L)).
    { apply pointwise_load. intros i Hi.
      destruct (Z_lt_ge_dec i (NextLength L)) as [Hlt|Hge].
      - set (j := i / kLength).
        assert (Hj : 0 <= j < (L + (kNodeSize - 1)) / kNodeSize /\
                     kLength * j <= i < kLength * j + kLength).
        { subst j. pose proof kLength_val as EL. rewrite EL in *.
          Z.div_mod_to_equations. lia. }
        destruct Hj as (Hj & Hij).
        assert (HjL : j * kNodeSize <= L).
        { pose proof kNodeSize_val as EN. rewrite EN in *.
          Z.div_mod_to_equations. lia. }
        pose proof (Hdig1 j Hj) as D1. pose proof (Hdig2 j Hj) as D2.
        rewrite (node_ctx_content m1 m2 base1 base2 L k j) in D1
          by (lia || assumption).
        rewrite <- D2 in D1.
        pose proof (load_pointwise _ _ _ _ _ D1 (i - kLength * j) ltac:(lia))
          as Hp.
        replace (tr1 + kLength * j + (i - kLength * j)) with (tr1 + i) in Hp
          by lia.
        replace (tr2 + kLength * j + (i - kLength * j)) with (tr2 + i) in Hp
          by lia.
        exact Hp.
      - rewrite Hz1, Hz2 by lia. reflexivity. }
    destruct (IH m2 tr2 (tr2 + NextAligned L) r2 Hup2 ltac:(lia) Elev)
      as (Er & Eup).
    split; [exact Er|].
    rewrite (GetTreeLength_step L) by klia.
    pose proof (GetTreeLength_bound (NextAligned L) HNr) as HGb.
    rewrite !load_app by lia. now rewrite Elev, Eup.
Qed.

Hypothesis Hash_length : forall x, List.length (Hash x) = Z.to_nat kLength.

Lemma Create_empty heap m data tree tree_len root0 :
  Create Hash heap m data 0 tree tree_len (Some root0) =
  (Ret NO_ERROR, m, Some (DigestFinal Hash (DigestInit Digest_new 0 0) 0)).
Proof.
  unfold Create.
  assert (Hinit : CreateInit heap Tree_new 0 tree_len =
                  (NO_ERROR, snd (CreateInit heap Tree_new 0 tree_len)))
    by (destruct heap; reflexivity).
  rewrite Hinit.
  rewrite CreateUpdate_nothing by (destruct heap; reflexivity).
  now rewrite CreateFinal_empty.
Qed.

(** The root and the tree that [Create] computes are a function of the
    bytes of the data: of the address of the data, of the address of the
    tree, and of the rest of the memory they are independent. *)
Lemma Create_content heap1 heap2 m1 m2 data1 data2 L tree1 tree2 tlen1 tlen2 d1 d2 :
  0 <= L <= 2 ^ 64 - kNodeSize ->
  0 < data1 -> 0 < data2 ->
  (kNodeSize < L -> 0 < tree1) -> (kNodeSize < L -> 0 < tree2) ->
  separate data1 L tree1 -> separate data2 L tree2 ->
  GetTreeLength L <= tlen1 -> GetTreeLength L <= tlen2 ->
  (levels_above L <= heap1)%nat -> (levels_above L <= heap2)%nat ->
  load m1 data1 L = load m2 data2 L ->
  exists m1' r1 m2' r2,
    Create Hash heap1 m1 data1 L tree1 tlen1 (Some d1) =
      (Ret NO_ERROR, m1', Some r1) /\
    Create Hash heap2 m2 data2 L tree2 tlen2 (Some d2) =
      (Ret NO_ERROR, m2', Some r2) /\
    bytes_ r1 = bytes_ r2 /\
    load m1' tree1 (GetTreeLength L) = load m2' tree2 (GetTreeLength L).
Proof.
  intros HL Hd1 Hd2 Ht1 Ht2 Hs1 Hs2 Hf1 Hf2 Hh1 Hh2 E.
  destruct (Z_le_gt_dec L kNodeSize) as [Hsmall|Hbig].
  - rewrite GetTreeLength_small by assumption.
    destruct (Z.eq_dec L 0) as [->|Hnz].
    + rewrite !Create_empty. do 4 eexists. repeat split; reflexivity.
    + rewrite !Create_single_node by (try apply not_null; lia).
      do 4 eexists. split; [reflexivity|]. split; [reflexivity|].
      now rewrite E.
  - destruct (Create_complete Hash Hash_length heap1 m1 data1 L tree1 tlen1 d1)
      as (m1' & r1 & Hc1 & Hcomp1 & Hfr1); try lia; try assumption; auto.
    destruct (Create_complete Hash Hash_length heap2 m2 data2 L tree2 tlen2 d2)
      as (m2' & r2 & Hc2 & Hcomp2 & Hfr2); try lia; try assumption; auto.
    exists m1', r1, m2', r2. split; [exact Hc1|]. split; [exact Hc2|].
    apply (complete_content m1' data1 L 0 tree1 r1 Hcomp1 m2' data2 tree2 r2
             Hcomp2 HL).
    rewrite (unchanged_outside_load m1 m1' tree1 (tree1 + GetTreeLength L))
      by (try assumption; try lia; destruct Hs1; lia).
    rewrite (unchanged_outside_load m2 m2' tree2 (tree2 + GetTreeLength L))
      by (try assumption; try lia; destruct Hs2; lia).
    exact E.
Qed.

(** Pieces at any addresses, against a blob in another memory whose tree
    buffer starts with the same bytes: the same status, the same root,
    the same tree. *)
Lemma CreateCalls_relocated heap m1 m2 q L calls tree tree_len d0 :
  0 <= L <= 2 ^ 64 - kNodeSize ->
  Forall (piece_ok tree (GetTreeLength L)) calls ->
  0 < q -> (q + L <= tree \/ tree + GetTreeLength L <= q) ->
  0 <= tree -> (kNodeSize < L -> 0 < tree) ->
  GetTreeLength L <= tree_len -> (levels_above L <= heap)%nat ->
  contents m1 calls = load m2 q L ->
  (forall a, tree <= a < tree + GetTreeLength L -> m1 a = m2 a) ->
  exists m1' m2' r,
    CreateCalls Hash heap m1 L calls tree tree_len (Some d0) =
      (Ret NO_ERROR, m1', Some r) /\
    Create Hash heap m2 q L tree tree_len (Some d0) =
      (Ret NO_ERROR, m2', Some r) /\
    (forall a, m1 a = m2 a -> m1' a = m2' a) /\
    unchanged_outside m2 m2' tree (tree + GetTreeLength L).
Proof.
  intros HL Hok Hq Hsep Htree0 Htree Hfit Hheap E Hag.
  assert (Hnn : Forall (fun pc => 0 <= snd pc) calls).
  { eapply Forall_impl; [|exact Hok]. intros pc (H & _). exact H. }
  assert (Elen : lengths calls = L).
  { rewrite <- (contents_length m1 calls Hnn), E, load_length. lia. }
  unfold CreateCalls, Create.
  pose proof (GetTreeLength_bound L ltac:(klia)) as Hgb.
  pose proof (CreateInit_status_is heap Tree_new L tree_len
                ltac:(klia) ltac:(lia) Hheap) as Hst.
  destruct (CreateInit heap Tree_new L tree_len) as [rc mt] eqn:Hinit.
  cbn [fst] in Hst.
  destruct (Z.ltb_spec tree_len (GetTreeLength L)); [lia|]. subst rc.
  destruct (CreateInit_coherent heap Tree_new L tree_len mt eq_refl
              ltac:(cbn; lia) (levels_above_fit L ltac:(klia)) HL
              ltac:(lia) Hinit)
    as (Hco & Hlev & Hoff & Hlen & _).
  cbn [level_ Tree_new] in Hlev.
  assert (H1 : offset_ mt + lengths calls <= length_ mt)
    by (rewrite Hoff, Hlen, Elen; lia).
  assert (H2 : Forall (piece_ok tree (GetTreeLength (length_ mt))) calls)
    by (now rewrite Hlen).
  assert (H4 : q + lengths calls <= tree \/
               tree + GetTreeLength (length_ mt) <= q)
    by (now rewrite Hlen, Elen).
  assert (H5 : kNodeSize < length_ mt -> 0 < tree) by (now rewrite Hlen).
  assert (H6 : contents m1 calls = load m2 q (lengths calls))
    by (now rewrite Elen).
  destruct (CreateUpdateCalls_relocated Hash Hash_length calls mt m1 m2 q tree
              Hco H1 H2 Hq H4 H5 H6)
    as (t1 & m1a & m2a & Hc1 & Hc2 & Hco1 & Ho1 & Hs1 & Hf1 & Hf2 & Hk).
  rewrite Elen in Hc2. rewrite Hc1, Hc2. rewrite Hlen in Hf1, Hf2.
  destruct (shape_eq_fields _ _ Hs1) as (_ & Hl1 & HL1).
  unfold CreateFinal, CreateFinalInternal.
  destruct (CreateFinalInternal_two_memories Hash Hash_length (height t1) t1
              m1a m2a nullptr tree d0 eq_refl Hco1)
    as (t' & m1' & m2' & r & Hfin1 & Hfin2 & Hk');
    try (intros; lia); try (rewrite HL1, Hlen; assumption).
  { intros a Ha. rewrite HL1, Hlen in Ha. apply Hk. now apply Hag. }
  rewrite Hfin1, Hfin2.
  exists m1', m2', r. split; [reflexivity|]. split; [reflexivity|]. split.
  - intros a Ha. apply Hk'. now apply Hk.
  - destruct (CreateFinalInternal_coherent Hash (height t1) t1 m2a nullptr tree
                d0 eq_refl Hco1)
      as (t'' & m'' & r'' & Hcall' & Hf');
      try (intros; lia); try (rewrite HL1, Hlen; assumption).
    rewrite Hfin2 in Hcall'. injection Hcall' as _ <- _.
    rewrite HL1, Hlen in Hf'.
    eapply unchanged_outside_trans; [exact Hf2|exact Hf'|lia|lia|lia|lia].
Qed.

(** The blob of another memory, copied to the address [q]. *)
Definition with_copy (ms m : Mem) (q data L : Z) : Mem :=
  fun a => if (q <=? a) && (a <? q + L) then m (data + (a - q)) else ms a.

Lemma with_copy_load ms m q data L :
  load (with_copy ms m q data L) q L = load m data L.
Proof.
  apply pointwise_load. intros i Hi. unfold with_copy.
  destruct (Z.leb_spec q (q + i)); [|lia].
  destruct (Z.ltb_spec (q + i) (q + L)); [|lia].
  cbn [andb]. f_equal. lia.
Qed.

Lemma with_copy_outside ms m q data L a :
  ~ (q <= a < q + L) -> with_copy ms m q data L a = ms a.
Proof.
  intros H. unfold with_copy.
  destruct (Z.leb_spec q a); [|reflexivity].
  destruct (Z.ltb_spec a (q + L)); [lia|reflexivity].
Qed.

(** Pieces at any addresses in one memory against a blob of the same
    bytes at any address in any other memory, each with a tree buffer of
    its own: the same root and the same tree. *)
Lemma CreateCalls_content heap1 heap2 ms m data L calls tree1 tree2 tlen1 tlen2
  d1 d2 :
  0 <= L <= 2 ^ 64 - kNodeSize ->
  Forall (piece_ok tree1 (GetTreeLength L)) calls ->
  contents ms calls = load m data L ->
  0 <= tree1 -> (kNodeSize < L -> 0 < tree1) ->
  0 < data -> (kNodeSize < L -> 0 < tree2) -> separate data L tree2 ->
  GetTreeLength L <= tlen1 -> GetTreeLength L <= tlen2 ->
  (levels_above L <= heap1)%nat -> (levels_above L <= heap2)%nat ->
  exists ms' rs m' r,
    CreateCalls Hash heap1 ms L calls tree1 tlen1 (Some d1) =
      (Ret NO_ERROR, ms', Some rs) /\
    Create Hash heap2 m data L tree2 tlen2 (Some d2) =
      (Ret NO_ERROR, m', Some r) /\
    bytes_ rs = bytes_ r /\
    load ms' tree1 (GetTreeLength L) = load m' tree2 (GetTreeLength L).
Proof.
  intros HL Hok E Ht0 Ht1 Hd Ht2 Hs2 Hf1 Hf2 Hh1 Hh2.
  pose proof (GetTreeLength_bound L ltac:(klia)) as Hgb.
  set (q := tree1 + GetTreeLength L + 1).
  set (mh := with_copy ms m q data L).
  destruct (CreateCalls_relocated heap1 ms mh q L calls tree1 tlen1 d1 HL Hok)
    as (ms' & mh' & rs & Hc1 & Hch & Hk & Hfr); try assumption;
    try (subst q; lia).
  { subst mh. now rewrite with_copy_load. }
  { intros a Ha. subst mh. symmetry. apply with_copy_outside. subst q. lia. }
  destruct (Create_content heap1 heap2 mh m q data L tree1 tree2 tlen1 tlen2
              d1 d2 HL)
    as (mh'' & rh & m' & r & Hch' & Hc2 & Er & Et); try assumption;
    try (subst q; lia).
  { right. subst q. lia. }
  { subst mh. apply with_copy_load. }
  rewrite Hch in Hch'. injection Hch' as <- <-.
  exists ms', rs, m', r. split; [exact Hc1|]. split; [exact Hc2|].
  split; [exact Er|]. rewrite <- Et.
  apply load_ext. intros a Ha. apply Hk.
  subst mh. symmetry. apply with_copy_outside. subst q. lia.
Qed.

End Content.

Lemma load_memset m p v n q c :
  p <= q -> q + c <= p + n ->
  load (memset m p v n) q c = repeat v (Z.to_nat c).
Proof.
  intros H1 H2. unfold load.
  apply (nth_ext _ _ x00 x00).
  - now rewrite load_from_length, repeat_length.
  - rewrite load_from_length. intros i Hi.
    rewrite nth_load_from by assumption.
    rewrite (nth_indep _ x00 v) by (rewrite repeat_length; lia).
    rewrite nth_repeat. unfold memset.
    destruct (Z.leb_spec p (q + Z.of_nat i)); [|lia].
    destruct (Z.ltb_spec (q + Z.of_nat i) (p + n)); [reflexivity|lia].
Qed.

(** * The claims of the specification *)

(** C5 (as the code has it).  For [data_len = 0], [CreateFinal] emits the
    hash of the 8-byte locality tag 0 followed by the 4-byte length tag 0
    and nothing else: [DigestFinal] adds padding only when its offset is
    not a multiple of the node size, and here it is 0.  [VerifyRoot]
    recomputes the same value for a zero-length blob, so the empty blob
    verifies. *)
Theorem empty_blob_root (Hash : list byte -> list byte)
  (heap : nat) (tree_len : Z) (m : Mem) (tree : Z) (r : Digest) :
  exists t' d,
    CreateFinal Hash (snd (CreateInit heap Tree_new 0 tree_len)) m tree (Some r)
      = (Ret NO_ERROR, t', m, Some d)
    /\ ctx_ d = le_bytes 8 0 ++ le_bytes 4 0
    /\ bytes_ d = Hash (le_bytes 8 0 ++ le_bytes 4 0)
    /\ (forall m' data, VerifyRoot_actual Hash m' data 0 0 = d)
    /\ (forall m' data tree' tree_len' offset length,
          Verify Hash m' data 0 tree' tree_len' offset length d = NO_ERROR).
Proof.
  eexists _, _. split; [apply CreateFinal_empty|].
  repeat split.
  intros m' data tree' tree_len' offset length.
  rewrite Verify_small by (unfold kNodeSize; lia).
  unfold VerifyRoot. rewrite VerifyRoot_actual_empty, Digest_eqb_refl.
  now rewrite andb_false_r.
Qed.

(** C5 (as stated) fails for SHA-256: the root of the empty blob is the
    digest of twelve zero bytes, the value that the unit tests call
    [kNoDataDigest], and not the digest of those bytes followed by a node
    of zero padding. *)
Lemma empty_blob_root_is_not_padded :
  exists t' d,
    CreateFinal SHA256.hash (snd (CreateInit 0 Tree_new 0 0)) zero_mem nullptr
      (Some Digest_new) = (Ret NO_ERROR, t', zero_mem, Some d)
    /\ to_hex (bytes_ d) =
       list_byte_of_string
         "15ec7bf0b50732b49f8228e07d24365338f9e3ab994b00af08e5a3bffe55fd8b"
    /\ bytes_ d <>
       SHA256.hash (le_bytes 8 0 ++ le_bytes 4 0 ++ repeat x00 (Z.to_nat kNodeSize)).
Proof.
  eexists _, _. split; [apply CreateFinal_empty|].
  split; [vm_compute; reflexivity|].
  vm_compute. discriminate.
Qed.

(** C6 (as the code has it).  The range check lives in [VerifyLevel] only.
    For a blob of more than one node, with data and tree present,
    [Verify] returns [ERR_OUT_OF_RANGE] when [offset + length], computed
    modulo [2 ^ 64], exceeds [data_len].  For a blob of at most one node
    no range is checked: [Verify] is [VerifyRoot] on the whole blob and
    never returns [ERR_OUT_OF_RANGE]. *)
Theorem Verify_range_check (Hash : list byte -> list byte) (m : Mem)
  (data data_len tree tree_len offset length : Z) (root : Digest) :
  (kNodeSize < data_len -> is_null data = false -> is_null tree = false ->
   data_len < wrap64 (offset + length) ->
   Verify Hash m data data_len tree tree_len offset length root = ERR_OUT_OF_RANGE)
  /\
  (data_len <= kNodeSize ->
   Verify Hash m data data_len tree tree_len offset length root =
     VerifyRoot Hash m data data_len 0 root
   /\ Verify Hash m data data_len tree tree_len offset length root <> ERR_OUT_OF_RANGE).
Proof.
  split.
  - apply Verify_out_of_range.
  - intros Hs. split.
    + now apply Verify_small.
    + now apply Verify_small_not_out_of_range.
Qed.

Lemma Verify_range_check_witness :
  Verify SHA256.hash zero_mem data_at 16384 tree_at 8192 16000 385 Digest_new
  = ERR_OUT_OF_RANGE.
Proof.
  apply (proj1 (Verify_range_check SHA256.hash zero_mem data_at 16384 tree_at 8192
                  16000 385 Digest_new)); reflexivity.
Defined.

(** C6 (as stated) fails twice.  The empty blob verifies for the range
    [[1, 2)], which lies outside it.  And for a blob of two nodes the range
    of offset [2 ^ 64 - 8192] and length [16384] ends far beyond the blob,
    but the 64-bit sum wraps to 8192 and passes the check: the call goes on
    to hash and answers [ERR_IO_DATA_INTEGRITY]. *)
Lemma Verify_range_check_counterexample :
  (0 < 1 + 1 /\
   Verify SHA256.hash zero_mem data_at 0 nullptr 0 1 1
     (DigestFinal SHA256.hash (DigestInit Digest_new 0 0) 0) = NO_ERROR)
  /\
  (16384 < (2 ^ 64 - 8192) + 16384 /\
   Verify SHA256.hash zero_mem data_at 16384 tree_at 8192 (2 ^ 64 - 8192) 16384
     Digest_new = ERR_IO_DATA_INTEGRITY).
Proof.
  split; (split; [lia|]).
  - vm_compute. reflexivity.
  - vm_compute. reflexivity.
Qed.

(** C7 (where the code departs from it).  [CreateInit] sets
    [initialized_] before it allocates or checks anything and no error
    path clears it, so after [ERR_NO_MEMORY] or [ERR_BUFFER_TOO_SMALL]
    the builder is not fresh: level 0 is initialised, at offset 0 of
    [data_len] bytes.  [CreateUpdate] on that builder is not refused with
    [ERR_BAD_STATE] on entry ([CreateFinal] is, right after the failed
    call, because level 0 is short of its length).  Fed less than a node
    [CreateUpdate] returns [NO_ERROR].
    Fed the first whole node it finishes the node's digest and goes on to
    the level above: when that level was not allocated it dereferences
    the null [next_]; when that level was allocated and not initialised
    (the tree buffer was reported too small for it) it first writes the
    digest into the tree buffer and then returns the [ERR_BAD_STATE] of
    the level above. *)
Theorem failed_CreateInit_leaves_builder_open (Hash : list byte -> list byte)
  (heap : nat) (t : Tree) (data_len tree_len : Z) (rc : mx_status_t) (t' : Tree) :
  CreateInit heap t data_len tree_len = (rc, t') -> rc <> NO_ERROR ->
  data_len < 2 ^ 64 ->
  (rc = ERR_NO_MEMORY \/ rc = ERR_BUFFER_TOO_SMALL) /\
  initialized_ t' = true /\ offset_ t' = 0 /\ length_ t' = data_len /\
  kNodeSize < data_len /\
  (level_ t = 0 -> forall m tree root,
     CreateFinal Hash t' m tree root = (Ret ERR_BAD_STATE, t', m, root)) /\
  (forall m data len tree,
     0 < len < kNodeSize -> is_null data = false -> is_null tree = false ->
     exists t'',
       CreateUpdate Hash t' m data len tree = (Ret NO_ERROR, t'', m) /\
       offset_ t'' = len /\ initialized_ t'' = true) /\
  (next_ t' = None ->
   forall m data tree, is_null data = false -> is_null tree = false ->
     fst (fst (CreateUpdate Hash t' m data kNodeSize tree)) = NullDeref) /\
  (forall n, next_ t' = Some n -> initialized_ n = false ->
   forall m data tree, is_null data = false -> is_null tree = false ->
     exists t'',
       CreateUpdate Hash t' m data kNodeSize tree =
         (Ret ERR_BAD_STATE, t'',
          stored t' m tree
            (DigestFinal Hash (absorbed t' m data kNodeSize) kNodeSize)) /\
       offset_ t'' = kNodeSize).
Proof.
  intros Hinit Hrc Hb.
  pose proof (CreateInit_fields heap t data_len tree_len) as Hf.
  pose proof (CreateInit_status heap t data_len tree_len) as Hs.
  rewrite Hinit in Hf, Hs. cbn in Hf, Hs.
  destruct Hf as (Hi & Ho & Hl & Hlev & _).
  destruct Hs as [Hs|[Hg Hs]]; [contradiction|].
  assert (Hnode : forall m data tree,
            is_null data = false -> is_null tree = false ->
            CreateUpdate Hash t' m data kNodeSize tree =
            let d' := DigestFinal Hash (absorbed t' m data kNodeSize)
                        kNodeSize in
            let m' := stored t' m tree d' in
            match next_ t' with
            | None =>
                (NullDeref,
                 mkTree true None (level_ t') kNodeSize (length_ t') d', m')
            | Some n =>
                let '(rc, n', m'') :=
                  CreateUpdate Hash n m' (tree + tree_off_of t') kLength
                    (tree + NextAligned (length_ t')) in
                (rc, mkTree true (Some n') (level_ t') kNodeSize (length_ t') d',
                 m'')
            end).
  { intros m data tree Hd Ht.
    rewrite CreateUpdate_within_node; try assumption;
      try (rewrite ?Ho, ?Hl; klia).
    2:{ rewrite Ho, Z.mod_0_l by klia. lia. }
    2:{ now rewrite Hd, Ht. }
    cbv zeta. rewrite Ho, Z.add_0_l, Z.mod_same by klia.
    change (0 =? 0) with true. cbn [negb andb].
    destruct (Z.leb_spec (length_ t') kNodeSize); [lia|reflexivity]. }
  repeat split; try assumption.
  - intros Hz m tree root. apply CreateFinal_incomplete; [congruence|].
    rewrite Ho, Hl. klia.
  - intros m data len tree Hlen Hd Ht.
    eexists. split; [apply CreateUpdate_first_bytes; try assumption; lia|].
    split; [reflexivity|exact Hi].
  - intros Hnone m data tree Hd Ht.
    rewrite (Hnode m data tree Hd Ht). cbv zeta. now rewrite Hnone.
  - intros n Hn Hni m data tree Hd Ht.
    rewrite (Hnode m data tree Hd Ht). cbv zeta. rewrite Hn.
    rewrite CreateUpdate_uninitialized by assumption.
    eexists. split; reflexivity.
Qed.

(** Two nodes of zero bytes and one byte more.  Without an object for
    level 1 the first whole node ends in the null dereference; with a
    tree buffer of no bytes the first whole node changes the first bytes
    of the tree buffer and returns [ERR_BAD_STATE]. *)
Lemma failed_CreateInit_leaves_builder_open_witness :
  (fst (CreateInit 0 Tree_new 8193 8192) = ERR_NO_MEMORY /\
   fst (fst (CreateUpdate SHA256.hash (snd (CreateInit 0 Tree_new 8193 8192))
               zero_mem data_at kNodeSize tree_at)) = NullDeref)
  /\
  (fst (CreateInit 8 Tree_new 8193 0) = ERR_BUFFER_TOO_SMALL /\
   exists t'',
     CreateUpdate SHA256.hash (snd (CreateInit 8 Tree_new 8193 0)) zero_mem
       data_at kNodeSize tree_at =
     (Ret ERR_BAD_STATE, t'',
      stored (snd (CreateInit 8 Tree_new 8193 0)) zero_mem tree_at
        (DigestFinal SHA256.hash
           (absorbed (snd (CreateInit 8 Tree_new 8193 0)) zero_mem
              data_at kNodeSize) kNodeSize)) /\
     offset_ t'' = kNodeSize).
Proof.
  split; (split; [reflexivity|]).
  - destruct (failed_CreateInit_leaves_builder_open SHA256.hash 0 Tree_new 8193
                8192 ERR_NO_MEMORY (snd (CreateInit 0 Tree_new 8193 8192))
                eq_refl ltac:(discriminate) ltac:(lia))
      as (_ & _ & _ & _ & _ & _ & _ & Hnone & _).
    exact (Hnone eq_refl zero_mem data_at tree_at eq_refl eq_refl).
  - destruct (failed_CreateInit_leaves_builder_open SHA256.hash 8 Tree_new 8193
                0 ERR_BUFFER_TOO_SMALL (snd (CreateInit 8 Tree_new 8193 0))
                eq_refl ltac:(discriminate) ltac:(lia))
      as (_ & _ & _ & _ & _ & _ & _ & _ & Hsome).
    exact (Hsome _ eq_refl eq_refl zero_mem data_at tree_at eq_refl eq_refl).
Defined.

(** The same two builders, run: the byte that the second one wrote at
    the start of the tree buffer is not the zero that was there. *)
Lemma failed_CreateInit_builder_runs :
  fst (fst (CreateUpdate SHA256.hash (snd (CreateInit 0 Tree_new 8193 8192))
              zero_mem data_at 8192 tree_at)) = NullDeref /\
  fst (fst (CreateUpdate SHA256.hash (snd (CreateInit 8 Tree_new 8193 0))
              zero_mem data_at 8192 tree_at)) = Ret ERR_BAD_STATE /\
  snd (CreateUpdate SHA256.hash (snd (CreateInit 8 Tree_new 8193 0))
         zero_mem data_at 8192 tree_at) tree_at <> zero_mem tree_at.
Proof. repeat split; vm_compute; try reflexivity; discriminate. Qed.

(** C3 (as the code has it).  For every [data_len] up to
    [2 ^ 64 - kNodeSize], the largest length that [roundup] does not wrap,
    [GetTreeLength data_len] is 0 exactly when the data fits in one node,
    and it is the sum of the node-aligned digest arrays of the levels
    above the data, as the specification computes them with exact
    ceilings; one byte more than a full node of digests needs three
    nodes.  For every larger 64-bit length the addition inside [roundup]
    wraps and [GetTreeLength] returns 0. *)
Theorem GetTreeLength_sizing (data_len : Z) :
  0 <= data_len <= 2 ^ 64 - kNodeSize ->
  (GetTreeLength data_len = 0 <-> data_len <= kNodeSize) /\
  GetTreeLength data_len = Spec.tree_length data_len /\
  GetTreeLength (kNodeSize * kDigestsPerNode + 1) = 3 * kNodeSize /\
  (forall big, 2 ^ 64 - kNodeSize < big < 2 ^ 64 ->
     kNodeSize < big /\ GetTreeLength big = 0).
Proof.
  intros Hr. split; [|split; [|split]].
  - now apply GetTreeLength_zero_iff.
  - now apply GetTreeLength_spec.
  - apply GetTreeLength_two_digest_nodes.
  - intros big Hb. split; [klia|].
    rewrite GetTreeLength_eq. cbv zeta.
    now rewrite (NextAligned_wrapped big Hb).
Qed.

(** A blob of two megabytes and one byte, and a length of 100 bytes less
    than [2 ^ 64]. *)
Lemma GetTreeLength_sizing_witness :
  ((GetTreeLength 2097153 = 0 <-> 2097153 <= kNodeSize) /\
   GetTreeLength 2097153 = Spec.tree_length 2097153 /\
   GetTreeLength (kNodeSize * kDigestsPerNode + 1) = 3 * kNodeSize) /\
  (kNodeSize < 2 ^ 64 - 100 /\ GetTreeLength (2 ^ 64 - 100) = 0).
Proof.
  destruct (GetTreeLength_sizing 2097153 ltac:(unfold kNodeSize; lia))
    as (H1 & H2 & H3 & H4).
  split; [now repeat split|].
  apply H4. unfold kNodeSize. lia.
Defined.

(** C3 (as stated) fails at the top of the 64-bit range: for
    [data_len = 2 ^ 64 - 1] the addition inside [roundup] wraps, the next
    level is computed as empty, and the tree length is 0 although the data
    is longer than one node. *)
Lemma GetTreeLength_sizing_counterexample :
  is_size_t (2 ^ 64 - 1) /\
  GetTreeLength (2 ^ 64 - 1) = 0 /\
  ~ (2 ^ 64 - 1 <= kNodeSize).
Proof.
  split; [unfold is_size_t; lia|]. split.
  - rewrite GetTreeLength_eq. reflexivity.
  - unfold kNodeSize. lia.
Qed.

(** C10.  For every 64-bit length above the node size the next level is
    strictly shorter (in the overflow region it is even empty), so the
    level recursion is well-founded: [GetTreeLength], [levels_above] and
    the loop of [Verify] are defined by recursion on that measure and obey
    their recursion equations for every input.  The ascent reaches an
    empty level within eight steps, no blob has more than seven levels
    above the data, and [CreateInit] with seven [Tree] objects available
    never runs out of memory. *)
Theorem level_recursion_terminates (data_len : Z) :
  is_size_t data_len ->
  (kNodeSize < data_len -> NextAligned data_len < data_len) /\
  (levels_above data_len <= 7)%nat /\
  Nat.iter 8 NextAligned data_len = 0 /\
  GetTreeLength data_len =
    (if NextAligned data_len =? 0 then 0
     else wrap64 (NextAligned data_len + GetTreeLength (NextAligned data_len))) /\
  (forall heap t tree_len, (7 <= heap)%nat ->
     fst (CreateInit heap t data_len tree_len) <> ERR_NO_MEMORY).
Proof.
  intros Hr. unfold is_size_t in Hr. repeat split.
  - apply NextAligned_decreases.
  - now apply levels_above_bound.
  - now apply iter_NextAligned_eight.
  - apply GetTreeLength_eq.
  - intros heap t tree_len Hh. apply CreateInit_enough_heap.
    pose proof (levels_above_bound data_len Hr). lia.
Qed.

Lemma level_recursion_terminates_witness :
  Nat.iter 8 NextAligned (2 ^ 64 - 8192) = 0.
Proof.
  refine (proj1 (proj2 (proj2 (level_recursion_terminates (2 ^ 64 - 8192) _)))).
  unfold is_size_t. lia.
Defined.




(** C4 (where the code departs from it).  The builder and [VerifyLevel]
    tag a node with [min (length - offset) kNodeSize]
    ([tags_absorb], [tags_VerifyLevel_actual]), but [VerifyRoot] tags the
    top node of every blob that is not empty with [kNodeSize]
    ([tags_VerifyRoot_actual]).  For a blob of one byte the builder
    absorbs the length tag 1 into the root and the verifier the length
    tag 8192 into the digest that it compares with the root. *)
Theorem VerifyRoot_length_tag_differs (Hash : list byte -> list byte)
  (heap : nat) (m : Mem) (data tree tree_len : Z) (root0 : Digest) :
  is_null data = false ->
  exists root,
    Create Hash heap m data 1 tree tree_len (Some root0) = (Ret NO_ERROR, m, Some root)
    /\ tags root = le_bytes 8 0 ++ le_bytes 4 (min (1 - 0) kNodeSize)
    /\ tags (VerifyRoot_actual Hash m data 1 0) = le_bytes 8 0 ++ le_bytes 4 kNodeSize
    /\ tags root <> tags (VerifyRoot_actual Hash m data 1 0).
Proof.
  intros Hd. eexists. split; [now apply Create_one_byte|].
  split; [reflexivity|]. split; [reflexivity|].
  rewrite tags_VerifyRoot_actual. discriminate.
Qed.

Lemma VerifyRoot_length_tag_differs_witness :
  exists root,
    Create SHA256.hash 0 (ff_mem data_at 1) data_at 1 nullptr 0 (Some Digest_new)
      = (Ret NO_ERROR, ff_mem data_at 1, Some root)
    /\ tags root = le_bytes 8 0 ++ le_bytes 4 (min (1 - 0) kNodeSize)
    /\ tags (VerifyRoot_actual SHA256.hash (ff_mem data_at 1) data_at 1 0)
       = le_bytes 8 0 ++ le_bytes 4 kNodeSize
    /\ tags root <> tags (VerifyRoot_actual SHA256.hash (ff_mem data_at 1) data_at 1 0).
Proof.
  apply (VerifyRoot_length_tag_differs SHA256.hash 0 (ff_mem data_at 1) data_at
           nullptr 0 Digest_new).
  reflexivity.
Defined.

(** C1 (where the code departs from it).  A blob of the one byte [0xff]:
    [Create] succeeds, and [Verify] of the whole blob against the root
    that [Create] returned answers [ERR_IO_DATA_INTEGRITY], because
    [VerifyRoot] hashes another length tag than the builder did. *)
Theorem round_trip_fails_for_one_byte :
  let m := ff_mem data_at 1 in
  let r := Create SHA256.hash 0 m data_at 1 nullptr 0 (Some Digest_new) in
  fst (fst r) = Ret NO_ERROR /\
  match snd r with
  | Some root => Verify SHA256.hash m data_at 1 nullptr 0 0 1 root = ERR_IO_DATA_INTEGRITY
  | None => False
  end.
Proof. vm_compute. split; reflexivity. Qed.

(** C8 (as the code has it).  For a sub-range that lies in the blob, the
    result of [Verify] depends only on the bytes that are, at some level,
    in the node-aligned extension of the range, in the stored digests of
    the nodes of that extension, or in the top node, which [VerifyRoot]
    always hashes in full: two memories that agree there give the same
    result, so a change elsewhere cannot turn a successful verification
    into a failure. *)
Theorem Verify_ignores_untouched_bytes (Hash : list byte -> list byte)
  (m1 m2 : Mem) (data data_len tree tree_len offset length : Z) (root : Digest) :
  0 <= offset -> 0 <= length -> offset + length <= data_len ->
  data_len <= 2 ^ 64 - kNodeSize ->
  (forall a, touched data data_len tree offset length data_len a -> m1 a = m2 a) ->
  Verify Hash m1 data data_len tree tree_len offset length root =
  Verify Hash m2 data data_len tree tree_len offset length root.
Proof.
  intros Ho Hl Hr Hd Hag. unfold Verify.
  apply Verify_loop_ext; try assumption. lia.
Qed.

(** Two nodes of data with the tree that [Create] built: the first 100
    bytes verify against the root, and they still verify after a byte of
    the second node, which the range does not touch, has been changed. *)
Lemma Verify_ignores_untouched_bytes_witness :
  exists m' root,
    Create SHA256.hash 1 zero_mem data_at 16384 tree_at 8192 (Some Digest_new) =
      (Ret NO_ERROR, m', Some root) /\
    Verify SHA256.hash m' data_at 16384 tree_at 8192 0 100 root = NO_ERROR /\
    Verify SHA256.hash (store m' (data_at + 8197) [x01]) data_at 16384 tree_at
      8192 0 100 root = NO_ERROR.
Proof.
  destruct two_nodes_built as (m' & root & Hc & _ & _ & Hv).
  exists m', root. split; [exact Hc|].
  split; [apply Hv; lia|].
  rewrite <- (Verify_ignores_untouched_bytes SHA256.hash m'
                (store m' (data_at + 8197) [x01]) data_at 16384 tree_at 8192
                0 100 root); try klia.
  - apply Hv; lia.
  - intros a Ha. symmetry. apply store_outside.
    change (Z.of_nat (List.length [x01])) with 1.
    assert (Hn : a < data_at + 8192 \/ tree_at <= a).
    { inversion Ha as [? ? ? ? ? ? ? Hs|? ? ? ? ? ? ? _ Hin|? ? ? ? ? ? ? _ Hin
                      |? ? ? ? ? ? ? _ Hup]; subst.
      - exfalso. klia.
      - change (roundup (0 + 100) kNodeSize) with 8192 in Hin. lia.
      - change ((0 - 0 mod kNodeSize) / kDigestsPerNode) with 0 in Hin. lia.
      - change (NextAligned 16384) with 8192 in Hup.
        inversion Hup as [? ? ? ? ? ? ? _ Hin|? ? ? ? ? ? ? Hs
                         |? ? ? ? ? ? ? Hs|? ? ? ? ? ? ? Hs]; subst;
          try (exfalso; klia).
        lia. }
    unfold data_at, tree_at in *. lia.
Defined.

(** C8 (as stated) fails for an empty range in a blob of one node (of
    zero bytes): the
    node-aligned extension of [[0, 0)] is empty and the blob has no
    digests, so the first byte of the data is outside the region of the
    claim; yet [VerifyRoot] hashes the whole node, and changing that byte
    turns the successful verification into [ERR_IO_DATA_INTEGRITY]. *)
Lemma Verify_untouched_counterexample :
  let m1 := zero_mem in
  let m2 := store zero_mem data_at [x01] in
  (forall a, touched_as_claimed data_at 8192 nullptr 0 0 a -> m1 a = m2 a) /\
  match Create SHA256.hash 0 m1 data_at 8192 nullptr 0 (Some Digest_new) with
  | (Ret NO_ERROR, _, Some root) =>
      Verify SHA256.hash m1 data_at 8192 nullptr 0 0 0 root = NO_ERROR /\
      Verify SHA256.hash m2 data_at 8192 nullptr 0 0 0 root = ERR_IO_DATA_INTEGRITY
  | _ => False
  end.
Proof.
  cbv zeta. split.
  - intros a [[_ Ha]|[Hlen _]]; [|unfold kNodeSize in Hlen; lia].
    change (roundup (0 + 0) kNodeSize) with 0 in Ha.
    change (0 - 0 mod kNodeSize) with 0 in Ha. lia.
  - vm_compute. split; reflexivity.
Qed.

(** C2.  Feed the blob to the builder in any pieces whose lengths add up
    to [data_len], each piece where the one before it ended, and finish:
    the status, the root digest and the memory (so the tree bytes) are
    those of the one-shot [Create]; in particular for one byte at a
    time.  The pieces need not be slices of one buffer: let every call of
    [CreateUpdate] have a pointer of its own, into any memory [ms], such
    that the bytes of the pieces, one after the other, are the bytes of
    the blob, and let the pieces not overlap the tree buffer that is
    being written; then the calls succeed as [Create] does on the blob,
    and they leave the same root digest and the same tree bytes, also
    when the two trees are built at different addresses.  And the result
    of [Create] is a function of the length and the bytes of the data
    only: two blobs with the same bytes, at any addresses in any two
    memories, get the same root digest and the same tree bytes. *)
Theorem streaming_equals_one_shot (Hash : list byte -> list byte)
  (heap : nat) (m : Mem) (data data_len : Z) (chunks : list Z)
  (tree tree_len : Z) (digest : option Digest) :
  Forall (fun c => 0 <= c) chunks -> total chunks = data_len ->
  data_len < 2 ^ 64 -> 0 <= data ->
  CreateStreamed Hash heap m data data_len chunks tree tree_len digest =
    Create Hash heap m data data_len tree tree_len digest
  /\
  CreateStreamed Hash heap m data data_len (repeat 1 (Z.to_nat data_len))
    tree tree_len digest =
    Create Hash heap m data data_len tree tree_len digest
  /\
  (forall ms calls heap' tree' tree_len' d d',
     (forall x, List.length (Hash x) = Z.to_nat kLength) ->
     data_len <= 2 ^ 64 - kNodeSize ->
     0 < data -> (kNodeSize < data_len -> 0 < tree) ->
     separate data data_len tree ->
     GetTreeLength data_len <= tree_len -> (levels_above data_len <= heap)%nat ->
     Forall (piece_ok tree' (GetTreeLength data_len)) calls ->
     contents ms calls = load m data data_len ->
     0 <= tree' -> (kNodeSize < data_len -> 0 < tree') ->
     GetTreeLength data_len <= tree_len' ->
     (levels_above data_len <= heap')%nat ->
     exists ms' rs m' r,
       CreateCalls Hash heap' ms data_len calls tree' tree_len' (Some d') =
         (Ret NO_ERROR, ms', Some rs) /\
       Create Hash heap m data data_len tree tree_len (Some d) =
         (Ret NO_ERROR, m', Some r) /\
       bytes_ rs = bytes_ r /\
       load ms' tree' (GetTreeLength data_len) =
       load m' tree (GetTreeLength data_len))
  /\
  (forall m2 data2 heap2 tree2 tree_len2 d d2,
     (forall x, List.length (Hash x) = Z.to_nat kLength) ->
     data_len <= 2 ^ 64 - kNodeSize ->
     0 < data -> (kNodeSize < data_len -> 0 < tree) ->
     separate data data_len tree ->
     GetTreeLength data_len <= tree_len -> (levels_above data_len <= heap)%nat ->
     0 < data2 -> (kNodeSize < data_len -> 0 < tree2) ->
     separate data2 data_len tree2 ->
     GetTreeLength data_len <= tree_len2 ->
     (levels_above data_len <= heap2)%nat ->
     load m2 data2 data_len = load m data data_len ->
     exists m2' r2 m' r,
       Create Hash heap2 m2 data2 data_len tree2 tree_len2 (Some d2) =
         (Ret NO_ERROR, m2', Some r2) /\
       Create Hash heap m data data_len tree tree_len (Some d) =
         (Ret NO_ERROR, m', Some r) /\
       bytes_ r2 = bytes_ r /\
       load m2' tree2 (GetTreeLength data_len) =
       load m' tree (GetTreeLength data_len)).
Proof.
  intros Hc Ht Hb Hd.
  pose proof (total_nonneg chunks Hc) as Hn. rewrite Ht in Hn.
  split; [|split; [|split]].
  - now apply CreateStreamed_Create.
  - apply CreateStreamed_Create; try assumption.
    + apply Forall_forall. intros c Hin. apply repeat_spec in Hin. lia.
    + rewrite total_repeat_one. now apply Z2Nat.id.
  - intros ms calls heap' tree' tree_len' d d' HH HL Hdata Htree Hsep Hfit
      Hheap Hok E Ht0 Ht1 Hfit' Hheap'.
    apply (CreateCalls_content Hash HH heap' heap ms m data data_len calls tree'
             tree tree_len' tree_len d' d); try assumption. lia.
  - intros m2 data2 heap2 tree2 tree_len2 d d2 HH HL Hdata Htree Hsep Hfit
      Hheap Hdata2 Htree2 Hsep2 Hfit2 Hheap2 E.
    apply (Create_content Hash HH heap2 heap m2 m data2 data data_len tree2 tree
             tree_len2 tree_len d2 d); try assumption. lia.
Qed.

(** Two nodes and a half of [0xff] bytes.  In one memory they are fed in
    five consecutive pieces, one of them empty.  In another memory the
    same bytes are fed from four places in another order of addresses,
    and the tree is built at another address.  And [Create] on the same
    bytes at another address of that other memory gives the root and
    the tree of [Create] in the first. *)
Lemma streaming_equals_one_shot_witness :
  CreateStreamed SHA256.hash 8 (ff_mem data_at 20480) data_at 20480
    [5000; 3192; 0; 10000; 2288] tree_at 8192 (Some Digest_new) =
  Create SHA256.hash 8 (ff_mem data_at 20480) data_at 20480 tree_at 8192
    (Some Digest_new)
  /\
  (exists ms' rs m' r,
     CreateCalls SHA256.hash 2 (ff_mem 3000000 30000) 20480
       [(3020000, 8000); (3000007, 192); (3010000, 0); (3000500, 12288)]
       2000000 8192 (Some Digest_new) = (Ret NO_ERROR, ms', Some rs) /\
     Create SHA256.hash 8 (ff_mem data_at 20480) data_at 20480 tree_at 8192
       (Some Digest_new) = (Ret NO_ERROR, m', Some r) /\
     bytes_ rs = bytes_ r /\
     load ms' 2000000 (GetTreeLength 20480) =
     load m' tree_at (GetTreeLength 20480))
  /\
  (exists m2' r2 m' r,
     Create SHA256.hash 2 (ff_mem 3000000 30000) 3000100 20480 2000000 8192
       (Some Digest_new) = (Ret NO_ERROR, m2', Some r2) /\
     Create SHA256.hash 8 (ff_mem data_at 20480) data_at 20480 tree_at 8192
       (Some Digest_new) = (Ret NO_ERROR, m', Some r) /\
     bytes_ r2 = bytes_ r /\
     load m2' 2000000 (GetTreeLength 20480) =
     load m' tree_at (GetTreeLength 20480)).
Proof.
  assert (HG : GetTreeLength 20480 = 8192) by (vm_compute; reflexivity).
  assert (HLv : (levels_above 20480 <= 2)%nat).
  { rewrite levels_above_step by klia.
    rewrite levels_above_small; [lia|]. vm_compute. discriminate. }
  pose proof (streaming_equals_one_shot SHA256.hash 8 (ff_mem data_at 20480)
                data_at 20480 [5000; 3192; 0; 10000; 2288] tree_at 8192
                (Some Digest_new) ltac:(repeat constructor; lia) eq_refl
                ltac:(lia) ltac:(unfold data_at; lia)) as (P1 & _ & P3 & P4).
  split; [exact P1|]. split.
  - apply (P3 (ff_mem 3000000 30000)
              [(3020000, 8000); (3000007, 192); (3010000, 0); (3000500, 12288)]
              2%nat 2000000 8192 Digest_new Digest_new);
      try (unfold data_at, tree_at; klia); try (rewrite HG; lia); try lia.
    + exact SHA256_hash_length.
    + left. unfold data_at, tree_at. lia.
    + rewrite HG. repeat constructor; cbn [fst snd]; lia.
    + unfold contents, ff_mem. cbn [map List.concat fst snd].
      rewrite !load_memset by (unfold data_at; lia).
      rewrite app_nil_r, <- !repeat_app. f_equal; lia.
  - apply (P4 (ff_mem 3000000 30000) 3000100 2%nat 2000000 8192 Digest_new
              Digest_new);
      try (unfold data_at, tree_at; klia); try (rewrite HG; lia); try lia.
    + exact SHA256_hash_length.
    + left. unfold data_at, tree_at. lia.
    + right. rewrite HG. lia.
    + unfold ff_mem. now rewrite !load_memset by (unfold data_at; lia).
Defined.

(** * Further properties of the code *)

(** X1.  [CreateInit] and [GetTreeLength] agree on the size of the tree
    buffer: when the allocator can supply the levels of the tree,
    [CreateInit] returns [ERR_BUFFER_TOO_SMALL] when [tree_len] is less
    than [GetTreeLength data_len] and [NO_ERROR] otherwise, for a
    receiver in any state.  In the first case [Create] returns the same
    status and leaves the memory and the digest of the caller as they
    were. *)
Theorem CreateInit_accepts_GetTreeLength (Hash : list byte -> list byte)
  (heap : nat) (t : Tree) (m : Mem) (data data_len tree tree_len : Z)
  (digest : option Digest) :
  is_size_t data_len -> is_size_t tree_len ->
  (levels_above data_len <= heap)%nat ->
  fst (CreateInit heap t data_len tree_len) =
    (if tree_len <? GetTreeLength data_len
     then ERR_BUFFER_TOO_SMALL else NO_ERROR)
  /\
  (tree_len < GetTreeLength data_len ->
   Create Hash heap m data data_len tree tree_len digest =
   (Ret ERR_BUFFER_TOO_SMALL, m, digest)).
Proof.
  intros Hd Ht Hl. split.
  - now apply CreateInit_status_is; [|apply Ht|].
  - intros Hlt. unfold Create.
    pose proof (CreateInit_status_is heap Tree_new data_len tree_len Hd
                  (proj1 Ht) Hl) as Hs.
    destruct (CreateInit heap Tree_new data_len tree_len) as [rc mt].
    cbn [fst] in Hs. subst rc.
    destruct (Z.ltb_spec tree_len (GetTreeLength data_len)); [reflexivity|lia].
Qed.

Lemma CreateInit_accepts_GetTreeLength_witness :
  fst (CreateInit 1 Tree_new 20480 100) =
    (if 100 <? GetTreeLength 20480 then ERR_BUFFER_TOO_SMALL else NO_ERROR)
  /\
  (100 < GetTreeLength 20480 ->
   Create SHA256.hash 1 zero_mem data_at 20480 tree_at 100 None =
   (Ret ERR_BUFFER_TOO_SMALL, zero_mem, None)).
Proof.
  refine (CreateInit_accepts_GetTreeLength SHA256.hash 1 Tree_new
            zero_mem data_at 20480 tree_at 100 None _ _ _).
  - unfold is_size_t. lia.
  - unfold is_size_t. lia.
  - rewrite levels_above_step by klia.
    rewrite levels_above_small; [lia|]. vm_compute. discriminate.
Defined.

(** X3.  When the tree buffer is large enough but the allocator cannot
    supply the levels of the tree, [CreateInit] returns
    [ERR_NO_MEMORY]. *)
Theorem CreateInit_out_of_memory (heap : nat) (t : Tree)
  (data_len tree_len : Z) :
  is_size_t data_len -> GetTreeLength data_len <= tree_len ->
  (heap < levels_above data_len)%nat ->
  fst (CreateInit heap t data_len tree_len) = ERR_NO_MEMORY.
Proof. intros Hd Ht Hl. now apply CreateInit_no_heap. Qed.

Lemma CreateInit_out_of_memory_witness :
  fst (CreateInit 0 Tree_new 20480 8192) = ERR_NO_MEMORY.
Proof.
  apply CreateInit_out_of_memory.
  - unfold is_size_t. lia.
  - vm_compute. discriminate.
  - rewrite levels_above_step by klia. lia.
Defined.

(** X2.  The length of the tree is a whole number of nodes, it is never
    more than the length of the data, and below the lengths for which the
    64-bit round-up wraps it grows with the length of the data. *)
Theorem GetTreeLength_nodes_bounded_monotone (data_len data_len' : Z) :
  is_size_t data_len ->
  GetTreeLength data_len mod kNodeSize = 0 /\
  0 <= GetTreeLength data_len <= data_len /\
  (data_len <= data_len' <= 2 ^ 64 - kNodeSize ->
   GetTreeLength data_len <= GetTreeLength data_len').
Proof.
  intros Hr. split; [|split].
  - now apply GetTreeLength_aligned.
  - now apply GetTreeLength_bound.
  - intros Hm. apply GetTreeLength_monotone; unfold is_size_t in Hr; lia.
Qed.

Lemma GetTreeLength_nodes_bounded_monotone_witness :
  GetTreeLength 20480 mod kNodeSize = 0 /\
  0 <= GetTreeLength 20480 <= 20480 /\
  (20480 <= 4194304 <= 2 ^ 64 - kNodeSize ->
   GetTreeLength 20480 <= GetTreeLength 4194304).
Proof.
  refine (GetTreeLength_nodes_bounded_monotone 20480 4194304 _).
  unfold is_size_t. lia.
Defined.

(** X4.  A blob of at most one node needs no tree: for every hash, every
    memory and every tree buffer, even a null one, [Create] returns
    [NO_ERROR], writes nothing, and the root it returns is the hash of
    the locality tag 0, the length of the blob, the bytes of the blob and
    zeros up to the size of a node. *)
Theorem Create_single_node_root (Hash : list byte -> list byte) (heap : nat)
  (m : Mem) (data data_len tree tree_len : Z) (root0 : Digest) :
  0 < data_len <= kNodeSize -> is_null data = false ->
  exists root,
    Create Hash heap m data data_len tree tree_len (Some root0) =
      (Ret NO_ERROR, m, Some root) /\
    bytes_ root =
      Hash (le_bytes 8 0 ++ le_bytes 4 data_len ++ load m data data_len ++
            repeat x00 (Z.to_nat (kNodeSize - data_len))).
Proof.
  intros Hl Hd. eexists. split.
  - now apply Create_single_node.
  - unfold DigestFinal at 1. cbv zeta. unfold Digest_Final at 1. cbn [bytes_].
    f_equal.
    pose proof (ctx_single_node Hash m data data_len Hl) as Hc.
    unfold DigestFinal in Hc. cbv zeta in Hc. unfold Digest_Final in Hc at 1.
    cbn [ctx_] in Hc. exact Hc.
Qed.

Lemma Create_single_node_root_witness :
  exists root,
    Create SHA256.hash 0 (ff_mem data_at 3) data_at 3 nullptr 0 (Some Digest_new) =
      (Ret NO_ERROR, ff_mem data_at 3, Some root) /\
    bytes_ root =
      SHA256.hash (le_bytes 8 0 ++ le_bytes 4 3 ++ load (ff_mem data_at 3) data_at 3 ++
                   repeat x00 (Z.to_nat (kNodeSize - 3))).
Proof.
  apply (Create_single_node_root SHA256.hash 0 (ff_mem data_at 3) data_at 3
           nullptr 0 Digest_new).
  - klia.
  - reflexivity.
Defined.

(** X5.  Round trip for a blob of exactly one node: [Create] succeeds
    and [Verify] accepts the root that [Create] returned, for every
    hash, every memory, and whatever tree buffer and range are passed to
    either call. *)
Theorem one_node_round_trip (Hash : list byte -> list byte) (heap : nat)
  (m : Mem) (data tree tree_len tree' tree_len' offset length : Z)
  (root0 : Digest) :
  is_null data = false ->
  exists root,
    Create Hash heap m data kNodeSize tree tree_len (Some root0) =
      (Ret NO_ERROR, m, Some root) /\
    Verify Hash m data kNodeSize tree' tree_len' offset length root = NO_ERROR.
Proof.
  intros Hd. eexists. split.
  - apply Create_single_node; [klia|assumption].
  - rewrite Verify_small by lia. unfold VerifyRoot.
    rewrite Hd. cbn [andb orb].
    destruct (Z.gtb_spec kNodeSize kNodeSize); [lia|].
    rewrite VerifyRoot_actual_one_node, Digest_eqb_refl. reflexivity.
Qed.

Lemma one_node_round_trip_witness :
  exists root,
    Create SHA256.hash 0 zero_mem data_at kNodeSize nullptr 0 (Some Digest_new) =
      (Ret NO_ERROR, zero_mem, Some root) /\
    Verify SHA256.hash zero_mem data_at kNodeSize nullptr 0 100 200 root = NO_ERROR.
Proof.
  apply (one_node_round_trip SHA256.hash 0 zero_mem data_at nullptr 0 nullptr 0
           100 200 Digest_new).
  reflexivity.
Defined.

(** X6.  A successful [CreateUpdate] consumes all the bytes it was given:
    the offset of level 0 advances by [length], and no level changes its
    length, its number or its initialised flag. *)
Theorem CreateUpdate_consumes (Hash : list byte -> list byte) (t : Tree)
  (m : Mem) (data length tree : Z) :
  0 <= length -> 0 <= offset_ t -> offset_ t + length <= length_ t ->
  length_ t < 2 ^ 64 -> 0 <= data ->
  fst (fst (CreateUpdate Hash t m data length tree)) = Ret NO_ERROR ->
  offset_ (snd (fst (CreateUpdate Hash t m data length tree))) = offset_ t + length /\
  shape (snd (fst (CreateUpdate Hash t m data length tree))) = shape t.
Proof.
  intros Hl Ho Hr Hb Hd Hok.
  destruct (CreateUpdate Hash t m data length tree) as [[rc t1] m1] eqn:E.
  cbn [fst snd] in *. subst rc.
  pose proof (CreateUpdate_advances Hash (Z.to_nat length) t m data tree t1 m1 Ho)
    as Hadv.
  rewrite Z2Nat.id in Hadv by assumption. now apply Hadv.
Qed.

Lemma CreateUpdate_consumes_witness :
  let t := mkTree true None 0 0 100 Digest_new in
  offset_ (snd (fst (CreateUpdate SHA256.hash t zero_mem data_at 10 nullptr))) = 0 + 10 /\
  shape (snd (fst (CreateUpdate SHA256.hash t zero_mem data_at 10 nullptr))) = shape t.
Proof.
  cbv zeta.
  apply (CreateUpdate_consumes SHA256.hash (mkTree true None 0 0 100 Digest_new)
           zero_mem data_at 10 nullptr); cbn [offset_ length_]; try lia.
  - unfold data_at. lia.
  - reflexivity.
Defined.

(** X7.  A successful [CreateFinal] closes the builder: level 0 is no
    longer initialised, so every later [CreateUpdate] and every later
    [CreateFinal] on it returns [ERR_BAD_STATE] and changes nothing. *)
Theorem CreateFinal_closes_builder (Hash : list byte -> list byte) (t : Tree)
  (m : Mem) (tree : Z) (root : option Digest) :
  fst (fst (fst (CreateFinal Hash t m tree root))) = Ret NO_ERROR ->
  let t' := snd (fst (fst (CreateFinal Hash t m tree root))) in
  initialized_ t' = false /\
  (forall m2 data length tree2,
     CreateUpdate Hash t' m2 data length tree2 = (Ret ERR_BAD_STATE, t', m2)) /\
  (forall m2 tree2 root2,
     CreateFinal Hash t' m2 tree2 root2 = (Ret ERR_BAD_STATE, t', m2, root2)).
Proof.
  intros Hok. cbv zeta.
  assert (Hi : initialized_ (snd (fst (fst (CreateFinal Hash t m tree root)))) = false).
  { revert Hok. unfold CreateFinal, CreateFinalInternal.
    rewrite CreateFinalInternal_rec_eq, CreateFinalInternal_body_result.
    destruct (_ || _); [discriminate|].
    destruct (_ || _); [discriminate|]. cbv zeta.
    destruct (CreateUpdate Hash _ m _ _ tree) as [[rc t1] m1].
    destruct rc as [[]|]; try discriminate.
    destruct (_ <=? _); [reflexivity|].
    destruct (next_ _); [|discriminate].
    destruct (next_final Hash _ _ _ _ _ _) as [[[rc n'] m'] root'].
    reflexivity. }
  split; [exact Hi|]. split.
  - intros. now apply CreateUpdate_uninitialized.
  - intros. apply CreateFinal_refused. now rewrite Hi.
Qed.

Lemma CreateFinal_closes_builder_witness :
  let t' := snd (fst (fst (CreateFinal SHA256.hash
                             (mkTree true None 0 0 0 Digest_new) zero_mem nullptr
                             (Some Digest_new)))) in
  initialized_ t' = false /\
  (forall m2 data length tree2,
     CreateUpdate SHA256.hash t' m2 data length tree2 = (Ret ERR_BAD_STATE, t', m2)) /\
  (forall m2 tree2 root2,
     CreateFinal SHA256.hash t' m2 tree2 root2 = (Ret ERR_BAD_STATE, t', m2, root2)).
Proof.
  apply (CreateFinal_closes_builder SHA256.hash (mkTree true None 0 0 0 Digest_new)
           zero_mem nullptr (Some Digest_new)).
  vm_compute. reflexivity.
Defined.

(** X8.  The length of the tree buffer in [Verify].  [Verify] accepts
    only when [tree_len] is at least [GetTreeLength data_len], and it
    returns [ERR_BUFFER_TOO_SMALL] only when [tree_len] is less than
    that. *)
Theorem Verify_tree_len (Hash : list byte -> list byte) (m : Mem)
  (data data_len tree tree_len offset length : Z) (root : Digest) :
  is_size_t data_len -> 0 <= tree_len ->
  (Verify Hash m data data_len tree tree_len offset length root = NO_ERROR ->
   GetTreeLength data_len <= tree_len) /\
  (Verify Hash m data data_len tree tree_len offset length root =
     ERR_BUFFER_TOO_SMALL ->
   tree_len < GetTreeLength data_len).
Proof.
  intros Hd Ht. unfold Verify. split; intros Hv.
  - destruct (Z_lt_ge_dec tree_len (GetTreeLength data_len)) as [Hlt|Hge]; [|lia].
    exfalso. revert Hv. apply Verify_loop_short_tree; [exact Hd|lia].
  - destruct (Z_lt_ge_dec tree_len (GetTreeLength data_len)) as [Hlt|Hge]; [lia|].
    exfalso. revert Hv. apply Verify_loop_long_tree; [exact Hd|lia].
Qed.

(** With the tree that [Create] built for two nodes of data, [Verify]
    accepts when it is given the 8192 bytes of the tree and answers
    [ERR_BUFFER_TOO_SMALL] when it is given 100. *)
Lemma Verify_tree_len_witness :
  exists m' root,
    Create SHA256.hash 1 zero_mem data_at 16384 tree_at 8192 (Some Digest_new) =
      (Ret NO_ERROR, m', Some root) /\
    (Verify SHA256.hash m' data_at 16384 tree_at 8192 0 100 root = NO_ERROR /\
     GetTreeLength 16384 <= 8192) /\
    (Verify SHA256.hash m' data_at 16384 tree_at 100 0 100 root =
       ERR_BUFFER_TOO_SMALL /\
     100 < GetTreeLength 16384).
Proof.
  destruct two_nodes_built as (m' & root & Hc & Hcomp & _ & Hv).
  exists m', root. split; [exact Hc|].
  assert (Hshort : Verify SHA256.hash m' data_at 16384 tree_at 100 0 100 root =
                   ERR_BUFFER_TOO_SMALL).
  { unfold Verify. rewrite Verify_loop_eq.
    inversion Hcomp as [? ? ? ? ? Hs|? ? ? ? ? _ Hdig _ _]; subst;
      [exfalso; klia|].
    rewrite VerifyLevel_complete; try assumption;
      try (unfold data_at, tree_at; klia).
    - reflexivity.
    - intros a Ha. change (roundup 16384 kNodeSize) with 16384 in Ha. lia. }
  split; (split; [try exact Hshort; try (apply Hv; lia)|]).
  - refine (proj1 (Verify_tree_len SHA256.hash m' data_at 16384 tree_at 8192 0 100
                     root _ _) _); [unfold is_size_t; lia|lia|apply Hv; lia].
  - refine (proj2 (Verify_tree_len SHA256.hash m' data_at 16384 tree_at 100 0 100
                     root _ _) Hshort); [unfold is_size_t; lia|lia].
Defined.

(** X9.  [VerifyLevel] rounds the end of the range up after it has
    rounded the start down, so of the data it checks the nodes from the
    one that holds [offset] up to
    [roundup (offset - offset mod kNodeSize + length)] and no further.
    With the data buffer below the tree buffer, two memories that differ
    only in data bytes from that bound on give the same result, even when
    those bytes are inside [[offset, offset + length)]: for
    [offset = kNodeSize - 1] and [length = 2] the byte at offset
    [kNodeSize] is in the range and is not checked. *)
Theorem Verify_checks_up_to (Hash : list byte -> list byte) (m1 m2 : Mem)
  (data data_len tree tree_len offset length : Z) (root : Digest) :
  0 <= offset -> 0 <= length -> offset + length <= data_len ->
  kNodeSize < data_len <= 2 ^ 64 - kNodeSize ->
  0 <= data -> data + data_len <= tree ->
  (forall a,
     ~ (data + roundup (offset - offset mod kNodeSize + length) kNodeSize <= a
        < data + data_len) ->
     m1 a = m2 a) ->
  Verify Hash m1 data data_len tree tree_len offset length root =
  Verify Hash m2 data data_len tree tree_len offset length root.
Proof.
  intros Ho Hl Hr Hd Hdata Hsep Hag. unfold Verify.
  rewrite (Verify_loop_eq Hash m1 data data_len tree tree_len offset length root
             0 data_len).
  rewrite (Verify_loop_eq Hash m2 data data_len tree tree_len offset length root
             0 data_len).
  destruct (Z.gtb_spec data_len kNodeSize) as [Hg|]; [|lia].
  assert (Hq : 0 <= (offset - offset mod kNodeSize) / kDigestsPerNode).
  { pose proof (Z.mod_le offset kNodeSize Ho ltac:(klia)).
    apply Z.div_pos; klia. }
  rewrite (VerifyLevel_ext_checked Hash m1 m2); try assumption; try lia.
  2:{ intros a Ha. apply Hag. lia. }
  2:{ intros a Ha. apply Hag. lia. }
  destruct (VerifyLevel Hash m2 data data_len tree offset length 0);
    try reflexivity.
  destruct (_ <? _); [reflexivity|].
  destruct (next_range_valid data_len offset length Ho Hl Hr ltac:(lia))
    as (H1 & H2 & H3 & H4).
  pose proof (NextAligned_range data_len).
  apply Verify_loop_ext; try assumption; try lia.
  intros a Ha. apply Hag.
  destruct (touched_above _ _ _ _ _ _ _ Ha H1 H2 ltac:(lia)); lia.
Qed.

(** Two nodes of data with the tree that [Create] built: the range of
    the two bytes at offsets 8191 and 8192 verifies against the root,
    and it still verifies after the byte at offset 8192 has been
    changed. *)
Lemma Verify_checks_up_to_witness :
  exists m' root,
    Create SHA256.hash 1 zero_mem data_at 16384 tree_at 8192 (Some Digest_new) =
      (Ret NO_ERROR, m', Some root) /\
    Verify SHA256.hash m' data_at 16384 tree_at 8192 8191 2 root = NO_ERROR /\
    Verify SHA256.hash (store m' (data_at + 8192) [x01]) data_at 16384 tree_at
      8192 8191 2 root = NO_ERROR.
Proof.
  destruct two_nodes_built as (m' & root & Hc & _ & _ & Hv).
  exists m', root. split; [exact Hc|].
  split; [apply Hv; lia|].
  rewrite <- (Verify_checks_up_to SHA256.hash m'
                (store m' (data_at + 8192) [x01]) data_at 16384 tree_at 8192
                8191 2 root); try (unfold data_at, tree_at; klia).
  - apply Hv; lia.
  - intros a Ha. symmetry. apply store_outside.
    change (Z.of_nat (List.length [x01])) with 1.
    change (roundup (8191 - 8191 mod kNodeSize + 2) kNodeSize) with 8192 in Ha.
    lia.
Defined.

(** X10.  [Create] succeeds on every valid input.  For data of at most
    [2^64 - kNodeSize] bytes at a non-null address (a null address will
    do for no data), a non-null tree buffer when there is more than one
    node of data, a tree buffer of at least [GetTreeLength data_len] bytes
    and an allocator that can supply the levels, [Create] returns
    [NO_ERROR] and a root, and it has written only inside the first
    [GetTreeLength data_len] bytes of the tree buffer. *)
Theorem Create_succeeds (Hash : list byte -> list byte) (heap : nat)
  (m : Mem) (data data_len tree tree_len : Z) (root0 : Digest) :
  0 <= data_len <= 2 ^ 64 - kNodeSize ->
  (0 < data_len -> 0 < data) -> (kNodeSize < data_len -> 0 < tree) ->
  GetTreeLength data_len <= tree_len ->
  (levels_above data_len <= heap)%nat ->
  exists m' root,
    Create Hash heap m data data_len tree tree_len (Some root0) =
      (Ret NO_ERROR, m', Some root) /\
    unchanged_outside m m' tree (tree + GetTreeLength data_len).
Proof.
  intros Hd Hdata Htree Hfit Hheap. unfold Create.
  pose proof (GetTreeLength_bound data_len ltac:(klia)) as Hgb.
  pose proof (CreateInit_status_is heap Tree_new data_len tree_len
                ltac:(klia) ltac:(lia) Hheap) as Hst.
  destruct (CreateInit heap Tree_new data_len tree_len) as [rc mt] eqn:Hinit.
  cbn [fst] in Hst.
  destruct (Z.ltb_spec tree_len (GetTreeLength data_len)); [lia|]. subst rc.
  destruct (CreateInit_coherent heap Tree_new data_len tree_len mt eq_refl
              ltac:(cbn; lia) (levels_above_fit data_len ltac:(klia)) Hd
              ltac:(lia) Hinit)
    as (Hco & Hlev & Hoff & Hlen & _).
  cbn [level_ Tree_new] in Hlev.
  destruct (CreateUpdate_coherent Hash data_len mt m data tree Hco)
    as (t1 & m1 & Hcall & Hco1 & Ho1 & Hs1 & Hf1);
    try (rewrite ?Hoff, ?Hlen; lia); try (rewrite Hlen; assumption);
    try assumption.
  rewrite Hcall. rewrite Hlen in Hf1.
  destruct (shape_eq_fields _ _ Hs1) as (_ & Hl1 & HL1).
  unfold CreateFinal, CreateFinalInternal.
  destruct (CreateFinalInternal_coherent Hash (height t1) t1 m1 nullptr tree root0
              eq_refl Hco1)
    as (t' & m' & r & Hcall' & Hf');
    try (intros; lia); try (rewrite HL1, Hlen; assumption).
  rewrite Hcall'. rewrite HL1, Hlen in Hf'.
  exists m', r. split; [reflexivity|].
  eapply unchanged_outside_trans; [exact Hf1|exact Hf'|lia|lia|lia|lia].
Qed.

Lemma Create_succeeds_witness :
  exists m' root,
    Create SHA256.hash 1 zero_mem data_at 20480 tree_at 8192 (Some Digest_new) =
      (Ret NO_ERROR, m', Some root) /\
    unchanged_outside zero_mem m' tree_at (tree_at + GetTreeLength 20480).
Proof.
  apply (Create_succeeds SHA256.hash 1 zero_mem data_at 20480 tree_at 8192
           Digest_new).
  - klia.
  - intros _. unfold data_at. lia.
  - intros _. unfold tree_at. lia.
  - vm_compute. discriminate.
  - rewrite levels_above_step by klia.
    rewrite levels_above_small; [lia|]. vm_compute. discriminate.
Defined.

(** X11.  [Create] never writes outside the tree buffer.  Whatever the
    arguments and whatever status it returns, the memory after [Create]
    differs from the memory before it only inside the first
    [GetTreeLength data_len] bytes of the tree buffer, and those lie
    within its [tree_len] bytes whenever anything was written. *)
Theorem Create_writes_only_tree (Hash : list byte -> list byte) (heap : nat)
  (m : Mem) (data data_len tree tree_len : Z) (digest : option Digest) :
  0 <= data_len <= 2 ^ 64 - kNodeSize -> 0 <= tree_len ->
  0 <= data -> 0 <= tree ->
  unchanged_outside m
    (snd (fst (Create Hash heap m data data_len tree tree_len digest)))
    tree (tree + GetTreeLength data_len) /\
  unchanged_outside m
    (snd (fst (Create Hash heap m data data_len tree tree_len digest)))
    tree (tree + tree_len).
Proof.
  intros Hd Htl Hdata Htree.
  destruct (Create_frame Hash heap m data data_len tree tree_len digest
              Hd Htl Hdata Htree) as [Hf [Hfit|Hsame]].
  - split; [exact Hf|]. intros a Ha. apply Hf. lia.
  - split; [exact Hf|]. rewrite Hsame. apply unchanged_outside_refl.
Qed.

Lemma Create_writes_only_tree_witness :
  unchanged_outside zero_mem
    (snd (fst (Create SHA256.hash 1 zero_mem data_at 20480 tree_at 8192 None)))
    tree_at (tree_at + GetTreeLength 20480) /\
  unchanged_outside zero_mem
    (snd (fst (Create SHA256.hash 1 zero_mem data_at 20480 tree_at 8192 None)))
    tree_at (tree_at + 8192).
Proof.
  apply (Create_writes_only_tree SHA256.hash 1 zero_mem data_at 20480 tree_at
           8192 None).
  - klia.
  - lia.
  - unfold data_at. lia.
  - unfold tree_at. lia.
Defined.

(** X12.  [CreateUpdate] is all or nothing on a coherent chain (the
    chain that [CreateInit] builds and that successful calls of
    [CreateUpdate] keep).  Either it returns [NO_ERROR], has consumed all
    [length] bytes, has left the chain coherent and has written only into
    the tree buffer; or it returns [ERR_OUT_OF_RANGE], because the bytes
    overrun the declared length, or [ERR_INVALID_ARGS], because a buffer
    it needs is null, and then neither the builder nor the memory has
    changed.  It never returns another status and never follows a null
    [next_]. *)
Theorem CreateUpdate_all_or_nothing (Hash : list byte -> list byte) (t : Tree)
  (m : Mem) (data length tree : Z) :
  coherent t -> 0 <= length -> offset_ t + length < 2 ^ 64 ->
  0 <= data -> 0 <= tree ->
  (exists t' m',
     CreateUpdate Hash t m data length tree = (Ret NO_ERROR, t', m') /\
     coherent t' /\ offset_ t' = offset_ t + length /\ shape t' = shape t /\
     unchanged_outside m m' tree (tree + GetTreeLength (length_ t)) /\
     (length = 0 \/
      (offset_ t + length <= length_ t /\ data <> 0 /\
       (tree <> 0 \/ length_ t <= kNodeSize))))
  \/
  (CreateUpdate Hash t m data length tree = (Ret ERR_OUT_OF_RANGE, t, m) /\
   length <> 0 /\ length_ t < offset_ t + length)
  \/
  (CreateUpdate Hash t m data length tree = (Ret ERR_INVALID_ARGS, t, m) /\
   length <> 0 /\ offset_ t + length <= length_ t /\
   (data = 0 \/ (tree = 0 /\ kNodeSize < length_ t))).
Proof. intros. now apply CreateUpdate_cases. Qed.

Lemma CreateUpdate_all_or_nothing_witness :
  let t := mkTree true None 0 90 100 Digest_new in
  (exists t' m',
     CreateUpdate SHA256.hash t zero_mem data_at 20 nullptr = (Ret NO_ERROR, t', m') /\
     coherent t' /\ offset_ t' = offset_ t + 20 /\ shape t' = shape t /\
     unchanged_outside zero_mem m' nullptr (nullptr + GetTreeLength (length_ t)) /\
     (20 = 0 \/
      (offset_ t + 20 <= length_ t /\ data_at <> 0 /\
       (nullptr <> 0 \/ length_ t <= kNodeSize))))
  \/
  (CreateUpdate SHA256.hash t zero_mem data_at 20 nullptr =
     (Ret ERR_OUT_OF_RANGE, t, zero_mem) /\
   20 <> 0 /\ length_ t < offset_ t + 20)
  \/
  (CreateUpdate SHA256.hash t zero_mem data_at 20 nullptr =
     (Ret ERR_INVALID_ARGS, t, zero_mem) /\
   20 <> 0 /\ offset_ t + 20 <= length_ t /\
   (data_at = 0 \/ (nullptr = 0 /\ kNodeSize < length_ t))).
Proof.
  cbv zeta.
  apply (CreateUpdate_all_or_nothing SHA256.hash
           (mkTree true None 0 90 100 Digest_new) zero_mem data_at 20 nullptr).
  - apply coherent_eq. cbn [initialized_ next_ level_ offset_ length_].
    repeat split; klia.
  - lia.
  - cbn [offset_]. lia.
  - unfold data_at. lia.
  - unfold nullptr. lia.
Defined.

(** X13.  [CreateFinal] on a coherent chain whose level 0 is the data
    level.  It returns [NO_ERROR] and a root, having written only into the
    tree buffer, exactly when all the data has been fed, the root pointer
    is not null and the tree buffer is not null where one is needed;
    otherwise it returns [ERR_BAD_STATE] (data missing) or
    [ERR_INVALID_ARGS] and changes nothing. *)
Theorem CreateFinal_outcomes (Hash : list byte -> list byte) (t : Tree)
  (m : Mem) (tree : Z) (root : option Digest) :
  coherent t -> level_ t = 0 -> 0 <= tree ->
  (exists t' m' r,
     CreateFinal Hash t m tree root = (Ret NO_ERROR, t', m', Some r) /\
     unchanged_outside m m' tree (tree + GetTreeLength (length_ t)) /\
     offset_ t = length_ t /\ root <> None /\
     (tree <> 0 \/ length_ t <= kNodeSize))
  \/
  (CreateFinal Hash t m tree root = (Ret ERR_BAD_STATE, t, m, root) /\
   offset_ t <> length_ t)
  \/
  (CreateFinal Hash t m tree root = (Ret ERR_INVALID_ARGS, t, m, root) /\
   offset_ t = length_ t /\
   (root = None \/ (tree = 0 /\ kNodeSize < length_ t))).
Proof. intros. now apply CreateFinal_cases. Qed.

Lemma CreateFinal_outcomes_witness :
  let t := mkTree true None 0 100 100 Digest_new in
  (exists t' m' r,
     CreateFinal SHA256.hash t zero_mem nullptr (Some Digest_new) =
       (Ret NO_ERROR, t', m', Some r) /\
     unchanged_outside zero_mem m' nullptr (nullptr + GetTreeLength (length_ t)) /\
     offset_ t = length_ t /\ Some Digest_new <> None /\
     (nullptr <> 0 \/ length_ t <= kNodeSize))
  \/
  (CreateFinal SHA256.hash t zero_mem nullptr (Some Digest_new) =
     (Ret ERR_BAD_STATE, t, zero_mem, Some Digest_new) /\
   offset_ t <> length_ t)
  \/
  (CreateFinal SHA256.hash t zero_mem nullptr (Some Digest_new) =
     (Ret ERR_INVALID_ARGS, t, zero_mem, Some Digest_new) /\
   offset_ t = length_ t /\
   (Some Digest_new = None \/ (nullptr = 0 /\ kNodeSize < length_ t))).
Proof.
  cbv zeta.
  apply (CreateFinal_outcomes SHA256.hash
           (mkTree true None 0 100 100 Digest_new) zero_mem nullptr
           (Some Digest_new)).
  - apply coherent_eq. cbn [initialized_ next_ level_ offset_ length_].
    repeat split; klia.
  - reflexivity.
  - unfold nullptr. lia.
Defined.

(** X14.  The tree that [Create] builds.  For more than one node of data,
    with non-null buffers that do not overlap, a tree buffer of at least
    [GetTreeLength data_len] bytes and a hash of [kLength] bytes,
    [Create] returns [NO_ERROR] and leaves the whole tree in memory
    ([complete]): at every level, digest [j] of the level is the hash of
    the locality [j * kNodeSize | level], the length of node [j], the
    bytes of node [j] and zeros up to the size of a node, as the comment
    on the digest wrappers says; the digests of a level are followed by
    zeros up to the end of their node; and the root is the digest of the
    one node of the top level.  The data is left as it was. *)
Theorem Create_builds_tree (Hash : list byte -> list byte) (heap : nat)
  (m : Mem) (data data_len tree tree_len : Z) (root0 : Digest) :
  (forall x, List.length (Hash x) = Z.to_nat kLength) ->
  kNodeSize < data_len <= 2 ^ 64 - kNodeSize -> 0 < data -> 0 < tree ->
  separate data data_len tree ->
  GetTreeLength data_len <= tree_len -> (levels_above data_len <= heap)%nat ->
  exists m' root,
    Create Hash heap m data data_len tree tree_len (Some root0) =
      (Ret NO_ERROR, m', Some root) /\
    complete Hash m' data data_len 0 tree root /\
    (forall j, 0 <= j < (data_len + (kNodeSize - 1)) / kNodeSize ->
       load m' (tree + kLength * j) kLength =
       Hash (le_bytes 8 (Z.lor (j * kNodeSize) 0) ++
             le_bytes 4 (min (data_len - j * kNodeSize) kNodeSize mod 2 ^ 32) ++
             load m (data + j * kNodeSize)
               (min (data_len - j * kNodeSize) kNodeSize) ++
             repeat x00 (Z.to_nat (kNodeSize -
                                   min (data_len - j * kNodeSize) kNodeSize)))) /\
    load m' data data_len = load m data data_len.
Proof.
  intros Hlen Hd Hdata Htree Hsep Hfit Hheap.
  destruct (Create_complete Hash Hlen heap m data data_len tree tree_len root0
              Hd Hdata Htree Hsep Hfit Hheap) as (m' & root & Hc & Hcomp & Hf).
  exists m', root. split; [exact Hc|]. split; [exact Hcomp|].
  assert (Hkeep : forall a, data <= a < data + data_len -> m' a = m a).
  { intros a Ha. apply Hf. destruct Hsep; lia. }
  split.
  - intros j Hj.
    inversion Hcomp as [? ? ? ? ? Hsmall _|? ? ? ? ? _ Hdig _ _]; subst; [lia|].
    rewrite (Hdig j Hj). unfold node_ctx. f_equal. f_equal. f_equal. f_equal.
    apply load_ext. intros a Ha. apply Hkeep.
    rewrite min_spec in Ha. pose proof kNodeSize_val as EN. rewrite EN in *.
    clear - Ha Hj Hd EN. Z.div_mod_to_equations. lia.
  - apply load_ext. intros a Ha. apply Hkeep. lia.
Qed.

Lemma Create_builds_tree_witness :
  exists m' root,
    Create SHA256.hash 1 zero_mem data_at 20480 tree_at 8192 (Some Digest_new) =
      (Ret NO_ERROR, m', Some root) /\
    complete SHA256.hash m' data_at 20480 0 tree_at root /\
    (forall j, 0 <= j < (20480 + (kNodeSize - 1)) / kNodeSize ->
       load m' (tree_at + kLength * j) kLength =
       SHA256.hash
         (le_bytes 8 (Z.lor (j * kNodeSize) 0) ++
          le_bytes 4 (min (20480 - j * kNodeSize) kNodeSize mod 2 ^ 32) ++
          load zero_mem (data_at + j * kNodeSize)
            (min (20480 - j * kNodeSize) kNodeSize) ++
          repeat x00 (Z.to_nat (kNodeSize - min (20480 - j * kNodeSize) kNodeSize))))
    /\
    load m' data_at 20480 = load zero_mem data_at 20480.
Proof.
  apply (Create_builds_tree SHA256.hash 1 zero_mem data_at 20480 tree_at 8192
           Digest_new).
  - exact SHA256_hash_length.
  - klia.
  - unfold data_at. lia.
  - unfold tree_at. lia.
  - left. unfold data_at, tree_at. lia.
  - vm_compute. discriminate.
  - rewrite levels_above_step by klia.
    rewrite levels_above_small; [lia|]. vm_compute. discriminate.
Defined.

(** X15.  Round trip for more than one node of data.  With non-null
    buffers that do not overlap, a tree buffer of at least
    [GetTreeLength data_len] bytes, a hash of [kLength] bytes, and zeros
    in memory between the end of the data and the end of its last node
    (which [VerifyLevel] reads when the last node is partial), [Create]
    succeeds and [Verify] accepts the root and the tree that it built,
    for every range that lies in the data. *)
Theorem Create_Verify_round_trip (Hash : list byte -> list byte) (heap : nat)
  (m : Mem) (data data_len tree tree_len offset length : Z) (root0 : Digest) :
  (forall x, List.length (Hash x) = Z.to_nat kLength) ->
  kNodeSize < data_len <= 2 ^ 64 - kNodeSize -> 0 < data -> 0 < tree ->
  data + roundup data_len kNodeSize <= tree \/
    tree + GetTreeLength data_len <= data ->
  GetTreeLength data_len <= tree_len -> (levels_above data_len <= heap)%nat ->
  (forall a, data + data_len <= a < data + roundup data_len kNodeSize ->
             m a = x00) ->
  0 <= offset -> 0 <= length -> offset + length <= data_len ->
  exists m' root,
    Create Hash heap m data data_len tree tree_len (Some root0) =
      (Ret NO_ERROR, m', Some root) /\
    Verify Hash m' data data_len tree tree_len offset length root = NO_ERROR.
Proof.
  intros Hlen Hd Hdata Htree Hsep Hfit Hheap Hzero Ho Hl Hr.
  pose proof (roundup_fits data_len (roundup data_len kNodeSize)) as Hru.
  assert (Hge : data_len <= roundup data_len kNodeSize).
  { rewrite roundup_exact by klia. pose proof kNodeSize_val as EN.
    rewrite EN in *. Z.div_mod_to_equations. lia. }
  assert (Hsep' : separate data data_len tree) by (destruct Hsep; [left|right]; lia).
  destruct (Create_complete Hash Hlen heap m data data_len tree tree_len root0
              Hd Hdata Htree Hsep' Hfit Hheap) as (m' & root & Hc & Hcomp & Hf).
  exists m', root. split; [exact Hc|].
  unfold Verify.
  apply (Verify_loop_complete Hash data_len m' data 0 tree tree_len offset length
           root data_len); try assumption; try lia.
  - apply levels_above_fit. klia.
  - intros a Ha. rewrite Hf by (destruct Hsep; lia). now apply Hzero.
Qed.

Lemma Create_Verify_round_trip_witness :
  exists m' root,
    Create SHA256.hash 1 zero_mem data_at 20480 tree_at 8192 (Some Digest_new) =
      (Ret NO_ERROR, m', Some root) /\
    Verify SHA256.hash m' data_at 20480 tree_at 8192 8000 9000 root = NO_ERROR.
Proof.
  apply (Create_Verify_round_trip SHA256.hash 1 zero_mem data_at 20480 tree_at
           8192 8000 9000 Digest_new).
  - exact SHA256_hash_length.
  - klia.
  - unfold data_at. lia.
  - unfold tree_at. lia.
  - left. change (roundup 20480 kNodeSize) with 24576.
    unfold data_at, tree_at. lia.
  - vm_compute. discriminate.
  - rewrite levels_above_step by klia.
    rewrite levels_above_small; [lia|]. vm_compute. discriminate.
  - reflexivity.
  - lia.
  - lia.
  - lia.
Defined.

(** X16.  What an accepted verification has checked at the data level.
    If [Verify] returns [NO_ERROR] for more than one node of data and a
    range that lies in the data, then for every node from the one that
    holds [offset] up to the bound of [VerifyLevel] (the end of the range
    rounded up after the start has been rounded down), the digest stored
    in the tree buffer is the hash of the locality of the node, its
    length and the [kNodeSize] bytes of memory at the node. *)
Theorem Verify_accepted_nodes (Hash : list byte -> list byte) (m : Mem)
  (data data_len tree tree_len offset length : Z) (root : Digest) :
  kNodeSize < data_len <= 2 ^ 64 - kNodeSize ->
  0 <= offset -> 0 <= length -> offset + length <= data_len ->
  Verify Hash m data data_len tree tree_len offset length root = NO_ERROR ->
  forall i,
    offset / kNodeSize <= i
      < (offset - offset mod kNodeSize + length + (kNodeSize - 1)) / kNodeSize ->
    load m (tree + kLength * i) kLength =
    Hash (le_bytes 8 (Z.lor (i * kNodeSize) 0) ++
          le_bytes 4 (min (data_len - i * kNodeSize) kNodeSize mod 2 ^ 32) ++
          load m (data + i * kNodeSize) kNodeSize).
Proof.
  intros Hd Ho Hl Hr Hv i Hi. unfold Verify in Hv.
  rewrite Verify_loop_eq in Hv.
  destruct (Z.gtb_spec data_len kNodeSize); [|lia].
  destruct (VerifyLevel Hash m data data_len tree offset length 0) eqn:HVL;
    try discriminate.
  exact (VerifyLevel_accepted Hash m data data_len 0 tree offset length
           Hd Ho Hl Hr HVL i Hi).
Qed.

Lemma Verify_accepted_nodes_witness :
  let r := Create SHA256.hash 1 zero_mem data_at 16384 tree_at 8192
             (Some Digest_new) in
  let m' := snd (fst r) in
  load m' (tree_at + kLength * 1) kLength =
  SHA256.hash (le_bytes 8 (Z.lor (1 * kNodeSize) 0) ++
               le_bytes 4 (min (16384 - 1 * kNodeSize) kNodeSize mod 2 ^ 32) ++
               load m' (data_at + 1 * kNodeSize) kNodeSize).
Proof.
  cbv zeta.
  destruct (Create_complete SHA256.hash SHA256_hash_length 1 zero_mem data_at
              16384 tree_at 8192 Digest_new)
    as (m' & root & Hc & Hcomp & Hf);
    try (unfold data_at, tree_at; klia).
  { left. unfold data_at, tree_at. lia. }
  { vm_compute. discriminate. }
  { rewrite levels_above_step by klia.
    rewrite levels_above_small; [lia|]. vm_compute. discriminate. }
  rewrite Hc. cbn [fst snd].
  apply (Verify_accepted_nodes SHA256.hash m' data_at 16384 tree_at 8192
           8192 100 root); try klia.
  - unfold Verify.
    apply (Verify_loop_complete SHA256.hash 16384 m' data_at 0 tree_at 8192 8192
             100 root 16384); try assumption;
      try (unfold data_at, tree_at; klia).
    + vm_compute. discriminate.
    + apply levels_above_fit. klia.
    + intros a Ha. change (roundup 16384 kNodeSize) with 16384 in Ha. lia.
  - change (8192 / kNodeSize) with 1.
    change ((8192 - 8192 mod kNodeSize + 100 + (kNodeSize - 1)) / kNodeSize)
      with 2. lia.
Defined.

(** X17.  [VerifyLevel] hashes a whole node of memory where the builder
    hashed the rest of the data and zeros.  For the last node of a level
    whose length is not a multiple of [kNodeSize], the input of the hash
    that [VerifyLevel] computes is the input of the hash that the builder
    computed ([node_ctx]) if and only if the bytes of memory between the
    end of the data and the end of that node are zero. *)
Theorem VerifyLevel_last_node_input (Hash : list byte -> list byte) (m : Mem)
  (base L k j n : Z) :
  0 <= j -> 0 < n -> j * kNodeSize < L < (j + 1) * kNodeSize ->
  L <= 2 ^ 64 - kNodeSize ->
  (ctx_ (fst (VerifyLevel_actual Hash m (base + j * kNodeSize) L (j * kNodeSize)
                (n * kNodeSize) k)) = node_ctx m base L k j
   <->
   forall a, base + L <= a < base + (j + 1) * kNodeSize -> m a = x00).
Proof.
  intros Hj Hn HL Hb.
  destruct (VerifyLevel_actual_ctx Hash m base L k j n Hj Hn ltac:(lia) Hb)
    as (_ & Hctx & _).
  rewrite Hctx. now apply verifier_ctx_node_ctx.
Qed.

Lemma VerifyLevel_last_node_input_witness :
  ctx_ (fst (VerifyLevel_actual SHA256.hash zero_mem (data_at + 2 * kNodeSize)
               20480 (2 * kNodeSize) (1 * kNodeSize) 0)) =
    node_ctx zero_mem data_at 20480 0 2
  <->
  forall a, data_at + 20480 <= a < data_at + (2 + 1) * kNodeSize ->
            zero_mem a = x00.
Proof.
  apply (VerifyLevel_last_node_input SHA256.hash zero_mem data_at 20480 0 2 1);
    klia.
Defined.

(** X18.  [merkle_tree_create_init] hands a builder to its caller exactly
    when it returns [NO_ERROR], which it does exactly when [out] is not
    null, the allocator can supply the wrapper object and the levels of
    the tree, and [tree_len] is at least [GetTreeLength data_len].  The
    builder is then initialised at offset 0 for [data_len] bytes, and
    coherent.  On every error no builder is handed out, so that at this
    interface a failed initialisation leaves nothing to update or to
    finish. *)
Theorem merkle_tree_create_init_handle (heap : nat) (data_len tree_len : Z)
  (out : bool) :
  is_size_t data_len -> is_size_t tree_len ->
  (fst (merkle_tree_create_init heap data_len tree_len out) = NO_ERROR <->
   out = true /\ (levels_above data_len < heap)%nat /\
   GetTreeLength data_len <= tree_len) /\
  (fst (merkle_tree_create_init heap data_len tree_len out) = NO_ERROR ->
   exists obj,
     snd (merkle_tree_create_init heap data_len tree_len out) = Some obj /\
     initialized_ obj = true /\ offset_ obj = 0 /\ length_ obj = data_len /\
     (data_len <= 2 ^ 64 - kNodeSize -> coherent obj)) /\
  (fst (merkle_tree_create_init heap data_len tree_len out) <> NO_ERROR ->
   snd (merkle_tree_create_init heap data_len tree_len out) = None).
Proof.
  intros Hd Ht.
  pose proof (merkle_tree_create_init_cases heap data_len tree_len out Hd Ht)
    as Hc.
  destruct (merkle_tree_create_init heap data_len tree_len out) as [rc [obj|]];
    cbn [fst snd]; destruct rc; try contradiction;
    try (split; [split; [discriminate|]|split; [discriminate|reflexivity]];
         intros (Ho & Hl & Hf); exfalso;
         destruct Hc as [Hc|[Hc|Hc]]; [congruence|lia|lia]).
  split; [split; [tauto|reflexivity]|].
  split; [intros _; exists obj; tauto|intros Hne; now elim Hne].
Qed.

Lemma merkle_tree_create_init_handle_witness :
  (fst (merkle_tree_create_init 2 20480 8192 true) = NO_ERROR <->
   true = true /\ (levels_above 20480 < 2)%nat /\
   GetTreeLength 20480 <= 8192) /\
  (fst (merkle_tree_create_init 2 20480 8192 true) = NO_ERROR ->
   exists obj,
     snd (merkle_tree_create_init 2 20480 8192 true) = Some obj /\
     initialized_ obj = true /\ offset_ obj = 0 /\ length_ obj = 20480 /\
     (20480 <= 2 ^ 64 - kNodeSize -> coherent obj)) /\
  (fst (merkle_tree_create_init 2 20480 8192 true) <> NO_ERROR ->
   snd (merkle_tree_create_init 2 20480 8192 true) = None).
Proof.
  apply (merkle_tree_create_init_handle 2 20480 8192 true);
    unfold is_size_t; lia.
Defined.

(** X19.  Streaming through the C wrappers.  [merkle_tree_create_init],
    then [merkle_tree_create_update] on pieces that add up to [data_len],
    each where the one before it ended, then [merkle_tree_create_final]
    give the status and the memory (tree and digest bytes) of
    [merkle_tree_create], whose builder is not taken from the
    allocator. *)
Theorem merkle_tree_streamed_equals_create (Hash : list byte -> list byte)
  (CopyTo : Digest -> Mem -> Z -> Z -> mx_status_t * Mem) (heap : nat)
  (m : Mem) (data data_len : Z) (chunks : list Z)
  (tree tree_len out out_len : Z) :
  Forall (fun c => 0 <= c) chunks -> total chunks = data_len ->
  data_len < 2 ^ 64 -> 0 <= data ->
  merkle_tree_streamed Hash CopyTo (S heap) m data data_len chunks tree tree_len
    out out_len =
  merkle_tree_create Hash CopyTo heap m data data_len tree tree_len out out_len.
Proof. intros. now apply merkle_tree_streamed_create. Qed.

Lemma merkle_tree_streamed_equals_create_witness :
  merkle_tree_streamed SHA256.hash (fun _ m _ _ => (NO_ERROR, m)) 2 zero_mem
    data_at 20480 [8192; 8192; 4096] tree_at 8192 2097152 32 =
  merkle_tree_create SHA256.hash (fun _ m _ _ => (NO_ERROR, m)) 1 zero_mem
    data_at 20480 tree_at 8192 2097152 32.
Proof.
  apply (merkle_tree_streamed_equals_create SHA256.hash
           (fun _ m _ _ => (NO_ERROR, m)) 1 zero_mem data_at 20480
           [8192; 8192; 4096] tree_at 8192 2097152 32).
  - repeat constructor; lia.
  - reflexivity.
  - lia.
  - unfold data_at. lia.
Defined.

(** X20.  [Verify] divides the length of the range by [kDigestsPerNode]
    from one level to the next, so a range of fewer than
    [kDigestsPerNode] bytes has length zero from level 1 on, and
    [VerifyLevel] hashes no node there.  For a blob of more than
    [kNodeSize * kDigestsPerNode] bytes, whose level 1 is not the top
    level, the digest of a data node is then compared with nothing
    above it: when [Verify] accepts such a range inside one whole node,
    it accepts the same range, against the same root, after that node
    has been replaced by any [kNodeSize] bytes and its digest in the
    tree by the hash of the new node. *)
Theorem Verify_accepts_forged_node (Hash : list byte -> list byte) (m : Mem)
  (data data_len tree tree_len offset length : Z) (root : Digest)
  (new : list byte) :
  (forall x, List.length (Hash x) = Z.to_nat kLength) ->
  List.length new = Z.to_nat kNodeSize ->
  kNodeSize * kDigestsPerNode < data_len <= 2 ^ 64 - kNodeSize ->
  0 <= offset -> 0 < length < kDigestsPerNode ->
  offset mod kNodeSize + length <= kNodeSize ->
  (offset / kNodeSize + 1) * kNodeSize <= data_len ->
  0 <= data -> data + data_len <= tree ->
  Verify Hash m data data_len tree tree_len offset length root = NO_ERROR ->
  let i := offset / kNodeSize in
  let forged :=
    store (store m (data + i * kNodeSize) new) (tree + kLength * i)
      (Hash (le_bytes 8 (Z.lor (i * kNodeSize) 0) ++
             le_bytes 4 (kNodeSize mod 2 ^ 32) ++ new)) in
  Verify Hash forged data data_len tree tree_len offset length root = NO_ERROR.
Proof.
  intros HH Hnew HL Ho Hl Hin Hfull Hdata Hsep Hv i forged.
  destruct (two_levels_above data_len offset HL Ho Hfull) as (Hup & Hdig).
  fold i in Hfull, Hdig.
  pose proof (Z.mod_pos_bound offset kNodeSize ltac:(klia)) as Hm.
  assert (Hi : offset - offset mod kNodeSize = i * kNodeSize).
  { subst i. pose proof kNodeSize_val as EN. rewrite EN in *.
    Z.div_mod_to_equations. lia. }
  assert (Hi0 : 0 <= i) by (subst i; apply Z.div_pos; klia).
  assert (Hr : offset + length <= data_len) by lia.
  assert (HN : kNodeSize < data_len <= 2 ^ 64 - kNodeSize) by klia.
  assert (HlenH : Z.of_nat (List.length
                    (Hash (le_bytes 8 (Z.lor (i * kNodeSize) 0) ++
                           le_bytes 4 (kNodeSize mod 2 ^ 32) ++ new))) = kLength).
  { rewrite HH. klia. }
  assert (Hlenn : Z.of_nat (List.length new) = kNodeSize).
  { rewrite Hnew. klia. }
  unfold Verify in *.
  rewrite (Verify_loop_eq Hash m) in Hv. rewrite (Verify_loop_eq Hash forged).
  destruct (Z.gtb_spec data_len kNodeSize) as [Hg|]; [|lia].
  destruct (VerifyLevel Hash m data data_len tree offset length 0) eqn:HVL;
    try discriminate.
  rewrite (VerifyLevel_matching Hash m forged data data_len 0 tree offset length
             HN Ho ltac:(lia) Hr HVL).
  2:{ intros i' Hi'.
      assert (i' = i) as ->.
      { rewrite Hi in Hi'. fold i in Hi'.
        pose proof kNodeSize_val as EN. rewrite EN in *.
        clear - Hi' Hl Hin Hm Hi Hi0. Z.div_mod_to_equations. lia. }
      pose proof (load_store (store m (data + i * kNodeSize) new)
                    (tree + kLength * i)
                    (Hash (le_bytes 8 (Z.lor (i * kNodeSize) 0) ++
                           le_bytes 4 (kNodeSize mod 2 ^ 32) ++ new))) as Ed.
      rewrite HlenH in Ed. fold forged in Ed. rewrite Ed.
      pose proof (load_store m (data + i * kNodeSize) new) as En.
      rewrite Hlenn in En.
      unfold verifier_ctx.
      rewrite (load_ext forged (store m (data + i * kNodeSize) new)), En.
      2:{ intros a Ha. unfold forged. apply store_outside. lia. }
      rewrite min_spec, Z.min_r by lia. reflexivity. }
  destruct (tree_len <? NextAligned data_len); [discriminate|].
  rewrite <- Hv.
  rewrite (Z.div_small length kDigestsPerNode) by lia.
  destruct (next_range_valid data_len offset length Ho ltac:(lia) Hr HN)
    as (H1 & H2 & H3 & _).
  apply Verify_loop_zero_length; try lia.
  intros a Ha. unfold forged. rewrite !store_outside; try reflexivity; lia.
Qed.

Lemma Verify_accepts_forged_node_witness :
  exists m' root,
    Create SHA256.hash 2 zero_mem data_at 4194304 8388608 24576
      (Some Digest_new) = (Ret NO_ERROR, m', Some root) /\
    Verify SHA256.hash
      (store
         (store m' (data_at + 40970 / kNodeSize * kNodeSize)
            (repeat xff (Z.to_nat kNodeSize)))
         (8388608 + kLength * (40970 / kNodeSize))
         (SHA256.hash
            (le_bytes 8 (Z.lor (40970 / kNodeSize * kNodeSize) 0) ++
             le_bytes 4 (kNodeSize mod 2 ^ 32) ++
             repeat xff (Z.to_nat kNodeSize))))
      data_at 4194304 8388608 24576 40970 10 root = NO_ERROR.
Proof.
  destruct (Create_complete SHA256.hash SHA256_hash_length 2 zero_mem data_at
              4194304 8388608 24576 Digest_new)
    as (m' & root & Hc & Hcomp & Hf);
    try (unfold data_at; klia).
  { left. unfold data_at. lia. }
  { vm_compute. discriminate. }
  { rewrite levels_above_step by klia.
    change (NextAligned 4194304) with 16384.
    rewrite levels_above_step by klia.
    rewrite levels_above_small; [lia|]. vm_compute. discriminate. }
  exists m', root. split; [exact Hc|].
  refine (Verify_accepts_forged_node SHA256.hash m' data_at 4194304 8388608 24576
            40970 10 root (repeat xff (Z.to_nat kNodeSize))
            SHA256_hash_length _ _ _ _ _ _ _ _ _);
    try (unfold data_at; klia).
  - apply repeat_length.
  - change (40970 mod kNodeSize) with 10. klia.
  - change ((40970 / kNodeSize + 1) * kNodeSize) with 49152. lia.
  - unfold Verify.
    apply (Verify_loop_complete SHA256.hash 4194304 m' data_at 0 8388608 24576
             40970 10 root 4194304); try assumption;
      try (unfold data_at; klia).
    + vm_compute. discriminate.
    + apply levels_above_fit. klia.
    + intros a Ha. change (roundup 4194304 kNodeSize) with 4194304 in Ha. lia.
Defined.

(** X21.  What an accepted verification proves for a blob of two levels
    (more than one node, at most [kDigestsPerNode] nodes).  Let [Create]
    have built the tree of the data of a memory [m0], leaving the memory
    [m] and returning [root].  If [Verify] accepts a range against
    [root] in any memory [m2], with any bytes in its data and tree
    buffers, then every byte of data in the nodes that [VerifyLevel]
    checks (from the node that holds [offset] up to the end of the range
    rounded up from the rounded-down start) is in [m2] what it was in
    [m0], unless one of two named pairs of hash inputs collides: the
    input that the builder hashed for the top node and the input that
    [VerifyRoot] hashed, or the input that the builder hashed for the
    data node of the byte and the input that [VerifyLevel] hashed for
    it, are different and have the same digest. *)
Theorem Verify_two_levels_sound (Hash : list byte -> list byte) (heap : nat)
  (m0 m m2 : Mem) (data data_len tree tree_len tree_len2 offset length : Z)
  (root0 root : Digest) :
  (forall x, List.length (Hash x) = Z.to_nat kLength) ->
  kNodeSize < data_len <= kNodeSize * kDigestsPerNode ->
  0 < data -> 0 < tree -> separate data data_len tree -> 0 <= tree_len ->
  Create Hash heap m0 data data_len tree tree_len (Some root0) =
    (Ret NO_ERROR, m, Some root) ->
  0 <= offset -> 0 <= length -> offset + length <= data_len ->
  Verify Hash m2 data data_len tree tree_len2 offset length root = NO_ERROR ->
  forall a,
    data + (offset - offset mod kNodeSize) <= a
      < data + roundup (offset - offset mod kNodeSize + length) kNodeSize ->
    a < data + data_len ->
    m2 a = m0 a \/
    (node_ctx m tree kNodeSize 1 0 <>
       ctx_ (VerifyRoot_actual Hash m2 tree (NextLength data_len) 1) /\
     Hash (node_ctx m tree kNodeSize 1 0) =
       Hash (ctx_ (VerifyRoot_actual Hash m2 tree (NextLength data_len) 1))) \/
    (node_ctx m data data_len 0 ((a - data) / kNodeSize) <>
       verifier_ctx m2 data data_len 0 ((a - data) / kNodeSize) /\
     Hash (node_ctx m data data_len 0 ((a - data) / kNodeSize)) =
       Hash (verifier_ctx m2 data data_len 0 ((a - data) / kNodeSize))).
Proof.
  intros HH HL Hdata Htree Hsep Htl Hc Ho Hl Hr Hv a Ha HaL.
  assert (HN : kNodeSize < data_len <= 2 ^ 64 - kNodeSize).
  { pose proof kNodeSize_val as EN. pose proof kDigestsPerNode_val as ED.
    rewrite EN, ED in *. lia. }
  assert (Hfit : (levels_above data_len <= heap)%nat /\
                 GetTreeLength data_len <= tree_len).
  { unfold Create in Hc.
    destruct (CreateInit heap Tree_new data_len tree_len) as [rc mt] eqn:Hinit.
    destruct rc; try discriminate.
    apply (CreateInit_accepted heap Tree_new data_len tree_len mt);
      [klia|assumption|assumption]. }
  destruct Hfit as (Hheap & Hfit).
  destruct (Create_complete Hash HH heap m0 data data_len tree tree_len root0
              HN Hdata Htree Hsep Hfit Hheap) as (m' & root' & Hc' & Hcomp & Hf).
  rewrite Hc in Hc'. injection Hc' as <- <-.
  destruct (complete_two_levels_sound Hash m m2 data data_len tree tree_len2
              offset length root Hcomp HL Ho Hl Hr Hv a Ha HaL) as [E|Hcol];
    [left|now right].
  rewrite E. apply Hf.
  pose proof (Z.mod_le offset kNodeSize Ho ltac:(klia)).
  destruct Hsep; lia.
Qed.

(** Two nodes of zero bytes with the tree that [Create] built: [Verify]
    accepts the first hundred bytes of the second node in the memory
    that [Create] left, so the byte at offset 8197 is what it was, or
    one of the two named pairs of inputs collides for SHA-256. *)
Lemma Verify_two_levels_sound_witness :
  exists m' root,
    Create SHA256.hash 1 zero_mem data_at 16384 tree_at 8192 (Some Digest_new) =
      (Ret NO_ERROR, m', Some root) /\
    Verify SHA256.hash m' data_at 16384 tree_at 8192 8192 100 root = NO_ERROR /\
    (m' (data_at + 8197) = zero_mem (data_at + 8197) \/
     (node_ctx m' tree_at kNodeSize 1 0 <>
        ctx_ (VerifyRoot_actual SHA256.hash m' tree_at (NextLength 16384) 1) /\
      SHA256.hash (node_ctx m' tree_at kNodeSize 1 0) =
        SHA256.hash
          (ctx_ (VerifyRoot_actual SHA256.hash m' tree_at (NextLength 16384) 1)))
     \/
     (node_ctx m' data_at 16384 0 ((data_at + 8197 - data_at) / kNodeSize) <>
        verifier_ctx m' data_at 16384 0 ((data_at + 8197 - data_at) / kNodeSize)
      /\
      SHA256.hash
        (node_ctx m' data_at 16384 0 ((data_at + 8197 - data_at) / kNodeSize)) =
        SHA256.hash
          (verifier_ctx m' data_at 16384 0
             ((data_at + 8197 - data_at) / kNodeSize)))).
Proof.
  destruct two_nodes_built as (m' & root & Hc & _ & _ & Hv).
  exists m', root. split; [exact Hc|].
  split; [apply Hv; lia|].
  refine (Verify_two_levels_sound SHA256.hash 1 zero_mem m' m' data_at 16384
            tree_at 8192 8192 8192 100 Digest_new root SHA256_hash_length
            _ _ _ _ _ Hc _ _ _ _ (data_at + 8197) _ _);
    try (unfold data_at, tree_at; klia).
  - left. unfold data_at, tree_at. lia.
  - apply Hv; lia.
  - change (roundup (8192 - 8192 mod kNodeSize + 100) kNodeSize) with 16384.
    change (8192 mod kNodeSize) with 0. unfold data_at. lia.
Defined.
